(** * A shallow embedding of the MI embedding service

    The development follows the TypeScript sources of the semantic code
    index: the string primitives of the host language, the storage layer
    ([SQLiteDB]), the scanner ([Watcher]), the incremental [Pipeline], the
    line-range resolution of the [XMLChunker], the content hash of the
    Merkle module and the hybrid search engine.

    Conventions.
    - A JavaScript string is the list of its UTF-16 code units.
    - Integers that the code handles as JavaScript numbers (line numbers,
      row ids, counts, the requested [top_k]) are elements of [Z].
    - Scores and FTS ranks are exact rationals ([Q]); results about them are
      stated up to [Qeq].
    - A [Float32Array] is the list of its elements, each element being the
      four bytes it occupies in the underlying [ArrayBuffer]. *)

From Stdlib Require Import String Ascii.
From Stdlib.Strings Require Import Byte.
From Stdlib Require Import List ZArith NArith QArith Bool Lia Permutation Sorted.
Import ListNotations.

Set Warnings "-register-all".
Local Open Scope Z_scope.

(* ================================================================== *)
(** * Part I. The embedding                                            *)
(* ================================================================== *)

(** ** JavaScript strings and the built-ins the sources use *)

Module Js.

(** A string is a sequence of UTF-16 code units. *)
Definition jsstring : Type := list N.

(** ASCII literals. *)
Definition lit (s : string) : jsstring :=
  map N_of_ascii (list_ascii_of_string s).

Fixpoint str_eqb (a b : jsstring) : bool :=
  match a, b with
  | [], [] => true
  | x :: a', y :: b' => N.eqb x y && str_eqb a' b'
  | _, _ => false
  end.

(** [WhiteSpace] and [LineTerminator] code points: the class [\s] of
    regular expressions, and the characters removed by [trim]. *)
Definition isWhiteSpace (c : N) : bool :=
  ((9 <=? c) && (c <=? 13) || (c =? 32) || (c =? 160) || (c =? 5760)
   || (8192 <=? c) && (c <=? 8202) || (c =? 8232) || (c =? 8233)
   || (c =? 8239) || (c =? 8287) || (c =? 12288) || (c =? 65279))%N.

(** [\w]: ASCII letters, digits and the underscore. *)
Definition isWordChar (c : N) : bool :=
  ((48 <=? c) && (c <=? 57) || (65 <=? c) && (c <=? 90)
   || (c =? 95) || (97 <=? c) && (c <=? 122))%N.

Fixpoint dropWhile {A} (p : A -> bool) (l : list A) : list A :=
  match l with
  | [] => []
  | x :: t => if p x then dropWhile p t else l
  end.

Definition trimStart (s : jsstring) : jsstring := dropWhile isWhiteSpace s.
Definition trimEnd (s : jsstring) : jsstring :=
  rev (dropWhile isWhiteSpace (rev s)).
(** [s.trim()] *)
Definition trim (s : jsstring) : jsstring := trimEnd (trimStart s).

(** [s.startsWith(p)] *)
Fixpoint startsWith (s p : jsstring) : bool :=
  match p, s with
  | [], _ => true
  | _ :: _, [] => false
  | y :: p', x :: s' => N.eqb x y && startsWith s' p'
  end.

(** [s.endsWith(p)] *)
Definition endsWith (s p : jsstring) : bool := startsWith (rev s) (rev p).

(** [s.includes(p)] *)
Fixpoint includes (s p : jsstring) : bool :=
  startsWith s p ||
  match s with
  | [] => false
  | _ :: s' => includes s' p
  end.

(** [s.split(/\s+/)]: the pieces between the maximal runs of white
    space; a leading or trailing run leaves an empty piece, and the empty
    string splits into one empty piece.  [skip] tells that the previous
    code unit belonged to a separator, [acc] is the current piece,
    reversed. *)
Fixpoint splitWs (skip : bool) (acc : jsstring) (s : jsstring)
  : list jsstring :=
  match s with
  | [] => [rev acc]
  | c :: t =>
      if isWhiteSpace c
      then (if skip then splitWs true [] t
            else rev acc :: splitWs true [] t)
      else splitWs false (c :: acc) t
  end.

Definition split_whitespace (s : jsstring) : list jsstring :=
  splitWs false [] s.

(** Truthiness of a string, as in [filter(Boolean)] and [if (s)]. *)
Definition truthy (s : jsstring) : bool :=
  match s with [] => false | _ :: _ => true end.

(** [a ?? d] *)
Definition nullish {A} (a : option A) (d : A) : A :=
  match a with Some x => x | None => d end.

Definition isHighSurrogate (c : N) : bool := ((55296 <=? c) && (c <=? 56319))%N.
Definition isLowSurrogate (c : N) : bool := ((56320 <=? c) && (c <=? 57343))%N.

(** The UTF-8 encoding of a string, as [hash.update(s)] and
    [Buffer.from(s, 'utf8')] compute it; a lone surrogate is encoded as
    U+FFFD. *)
Definition utf8_of_code_point (cp : N) : list N :=
  (if cp <? 128 then [cp]
   else if cp <? 2048 then [192 + cp / 64; 128 + cp mod 64]
   else if cp <? 65536 then
     [224 + cp / 4096; 128 + (cp / 64) mod 64; 128 + cp mod 64]
   else [240 + cp / 262144; 128 + (cp / 4096) mod 64;
         128 + (cp / 64) mod 64; 128 + cp mod 64])%N.

Fixpoint utf8 (s : jsstring) : list N :=
  match s with
  | [] => []
  | c :: t =>
      if isHighSurrogate c then
        match t with
        | d :: t' =>
            if isLowSurrogate d
            then utf8_of_code_point
                   (65536 + (c - 55296) * 1024 + (d - 56320))%N ++ utf8 t'
            else utf8_of_code_point 65533 ++ utf8 t
        | [] => utf8_of_code_point 65533
        end
      else if isLowSurrogate c then utf8_of_code_point 65533 ++ utf8 t
      else utf8_of_code_point c ++ utf8 t
  end.

(** [a.slice(0, e)]; a negative [e] counts from the end. *)
Definition slice0 {A} (a : list A) (e : Z) : list A :=
  if e <? 0 then firstn (Z.to_nat (Z.of_nat (length a) + e)) a
  else firstn (Z.to_nat e) a.

(** A [Map]: the entries in insertion order.  [set] on a present key
    replaces the value in place, on an absent key it appends. *)
Section JsMap.
Context {K V : Type} (keq : K -> K -> bool).

Fixpoint map_get (m : list (K * V)) (k : K) : option V :=
  match m with
  | [] => None
  | (k', v) :: t => if keq k' k then Some v else map_get t k
  end.

Definition map_has (m : list (K * V)) (k : K) : bool :=
  match map_get m k with Some _ => true | None => false end.

Fixpoint map_set (m : list (K * V)) (k : K) (v : V) : list (K * V) :=
  match m with
  | [] => [(k, v)]
  | (k', v') :: t =>
      if keq k' k then (k', v) :: t else (k', v') :: map_set t k v
  end.

Definition map_delete (m : list (K * V)) (k : K) : list (K * V) :=
  filter (fun e => negb (keq (fst e) k)) m.
End JsMap.

End Js.

(** ** SHA-256 (FIPS 180-4), as [crypto.createHash('sha256')] computes it *)

Module Sha256.
Local Open Scope N_scope.

Definition mask32 : N := 4294967295.
Definition wrap (x : N) : N := N.land x mask32.
Definition add32 (x y : N) : N := wrap (x + y).
Definition rotr (n x : N) : N :=
  wrap (N.lor (N.shiftr x n) (N.shiftl x (32 - n))).
Definition shr (n x : N) : N := N.shiftr x n.
Definition not32 (x : N) : N := N.lxor x mask32.

Definition Ch (x y z : N) : N := N.lxor (N.land x y) (N.land (not32 x) z).
Definition Maj (x y z : N) : N :=
  N.lxor (N.lxor (N.land x y) (N.land x z)) (N.land y z).
Definition Sigma0 (x : N) : N := N.lxor (N.lxor (rotr 2 x) (rotr 13 x)) (rotr 22 x).
Definition Sigma1 (x : N) : N := N.lxor (N.lxor (rotr 6 x) (rotr 11 x)) (rotr 25 x).
Definition sigma0 (x : N) : N := N.lxor (N.lxor (rotr 7 x) (rotr 18 x)) (shr 3 x).
Definition sigma1 (x : N) : N := N.lxor (N.lxor (rotr 17 x) (rotr 19 x)) (shr 10 x).

Definition K : list N :=
  [
   1116352408; 1899447441; 3049323471; 3921009573; 961987163; 1508970993;
   2453635748; 2870763221; 3624381080; 310598401; 607225278; 1426881987;
   1925078388; 2162078206; 2614888103; 3248222580; 3835390401; 4022224774;
   264347078; 604807628; 770255983; 1249150122; 1555081692; 1996064986;
   2554220882; 2821834349; 2952996808; 3210313671; 3336571891; 3584528711;
   113926993; 338241895; 666307205; 773529912; 1294757372; 1396182291;
   1695183700; 1986661051; 2177026350; 2456956037; 2730485921; 2820302411;
   3259730800; 3345764771; 3516065817; 3600352804; 4094571909; 275423344;
   430227734; 506948616; 659060556; 883997877; 958139571; 1322822218;
   1537002063; 1747873779; 1955562222; 2024104815; 2227730452; 2361852424;
   2428436474; 2756734187; 3204031479; 3329325298 ].

Definition H0 : list N :=
  [
   1779033703; 3144134277; 1013904242; 2773480762; 1359893119; 2600822924;
   528734635; 1541459225 ].

(** The 64-bit big-endian encoding of the bit length. *)
Definition be_bytes (count : nat) (x : N) : list N :=
  map (fun i => N.land (N.shiftr x (8 * N.of_nat i)) 255) (rev (seq 0 count)).

(** Padding: the bit 1, zeros up to 56 modulo 64 bytes, the length. *)
Definition pad (msg : list N) : list N :=
  let len := N.of_nat (length msg) in
  let zeros := N.to_nat ((119 - len mod 64) mod 64) in
  msg ++ [128] ++ repeat 0 zeros ++ be_bytes 8 (8 * len).

Fixpoint words (bytes : list N) : list N :=
  match bytes with
  | a :: b :: c :: d :: rest =>
      (N.shiftl a 24 + N.shiftl b 16 + N.shiftl c 8 + d) :: words rest
  | _ => []
  end.

(** The message schedule; [w] holds the words computed so far, the last
    one first. *)
Fixpoint extend (n : nat) (w : list N) : list N :=
  match n with
  | O => w
  | S n' =>
      let wt := add32 (add32 (sigma1 (nth 1 w 0)) (nth 6 w 0))
                      (add32 (sigma0 (nth 14 w 0)) (nth 15 w 0)) in
      extend n' (wt :: w)
  end.
Definition schedule (block : list N) : list N :=
  rev (extend 48 (rev block)).

Record state : Type := mkState { a : N; b : N; c : N; d : N; e : N; f : N; g : N; h : N }.

Definition round (s : state) (kw : N * N) : state :=
  let t1 := add32 (add32 (add32 (h s) (Sigma1 (e s))) (Ch (e s) (f s) (g s)))
                  (add32 (fst kw) (snd kw)) in
  let t2 := add32 (Sigma0 (a s)) (Maj (a s) (b s) (c s)) in
  mkState (add32 t1 t2) (a s) (b s) (c s) (add32 (d s) t1) (e s) (f s) (g s).

Definition stateOf (hs : list N) : state :=
  mkState (nth 0 hs 0) (nth 1 hs 0) (nth 2 hs 0) (nth 3 hs 0)
          (nth 4 hs 0) (nth 5 hs 0) (nth 6 hs 0) (nth 7 hs 0).

Definition compress (hs : list N) (block : list N) : list N :=
  let s0 := stateOf hs in
  let s := fold_left round (combine K (schedule block)) s0 in
  [add32 (a s0) (a s); add32 (b s0) (b s); add32 (c s0) (c s);
   add32 (d s0) (d s); add32 (e s0) (e s); add32 (f s0) (f s);
   add32 (g s0) (g s); add32 (h s0) (h s)].

(** The blocks of 16 words; [n] bounds their number. *)
Fixpoint blocks (n : nat) (ws : list N) : list (list N) :=
  match n, ws with
  | S n', _ :: _ => firstn 16 ws :: blocks n' (skipn 16 ws)
  | _, _ => []
  end.

Definition digest (msg : list N) : list N :=
  let ws := words (pad msg) in
  let hs := fold_left compress (blocks (length ws) ws) H0 in
  flat_map (be_bytes 4) hs.

Definition hexDigit (n : N) : N := if n <? 10 then 48 + n else 87 + n.

(** [digest('hex')]: lower-case hexadecimal, as code units. *)
Definition hex (bytes : list N) : list N :=
  flat_map (fun x => [hexDigit (x / 16); hexDigit (x mod 16)]) bytes.

End Sha256.

(** ** Typed arrays over array buffers *)

Module Float32.

(** One element of a [Float32Array]: the four bytes it occupies. *)
Record elt : Type := mkElt { b0 : byte; b1 : byte; b2 : byte; b3 : byte }.

(** Every [Float32Array] of the sources is built either from an array of
    numbers ([Embedder.embed]) or as [new Float32Array(arrayBuffer)]; both
    view a whole buffer from offset 0, so that the array is determined by
    its elements. *)
Definition Float32Array : Type := list elt.

(** [v.buffer], the bytes of the underlying [ArrayBuffer]. *)
Definition buffer (v : Float32Array) : list byte :=
  flat_map (fun e => [b0 e; b1 e; b2 e; b3 e]) v.

(** [new Float32Array(arrayBuffer)]; a [RangeError] ([None]) when the byte
    length is not a multiple of 4. *)
Fixpoint fromBuffer (bytes : list byte) : option Float32Array :=
  match bytes with
  | [] => Some []
  | x0 :: x1 :: x2 :: x3 :: rest =>
      match fromBuffer rest with
      | Some v => Some (mkElt x0 x1 x2 x3 :: v)
      | None => None
      end
  | _ => None
  end.

End Float32.

(** ** [JSON.stringify] *)

Module Json.
Import Js.

(** The values that occur in a chunk context: strings (attribute values,
    names), booleans, [undefined] (absent optional fields), arrays of
    strings (references) and nested objects.  An object is the list of its
    own properties in enumeration order, which for the non-numeric keys of
    a context is insertion order. *)
Inductive value : Type :=
| VUndefined
| VNull
| VBool (b : bool)
| VString (s : jsstring)
| VArray (items : list value)
| VObject (props : list (jsstring * value)).

Definition hexDigit (n : N) : N :=
  (if n <? 10 then 48 + n else 87 + n)%N.

(** [\uXXXX] with lower-case hexadecimal digits. *)
Definition unicodeEscape (c : N) : jsstring :=
  [92; 117; hexDigit ((c / 4096) mod 16); hexDigit ((c / 256) mod 16);
   hexDigit ((c / 16) mod 16); hexDigit (c mod 16)]%N.

(** Escape of one non-surrogate code unit. *)
Definition escapeUnit (c : N) : jsstring :=
  (if c =? 8 then [92; 98]
   else if c =? 9 then [92; 116]
   else if c =? 10 then [92; 110]
   else if c =? 12 then [92; 102]
   else if c =? 13 then [92; 114]
   else if c =? 34 then [92; 34]
   else if c =? 92 then [92; 92]
   else if c <? 32 then unicodeEscape c
   else [c])%N.

Fixpoint quoteBody (s : jsstring) : jsstring :=
  match s with
  | [] => []
  | c :: t =>
      if isHighSurrogate c then
        match t with
        | d :: t' =>
            if isLowSurrogate d then c :: d :: quoteBody t'
            else unicodeEscape c ++ quoteBody t
        | [] => unicodeEscape c
        end
      else if isLowSurrogate c then unicodeEscape c ++ quoteBody t
      else escapeUnit c ++ quoteBody t
  end.

(** [QuoteJSONString] *)
Definition quote (s : jsstring) : jsstring := [34%N] ++ quoteBody s ++ [34%N].

Fixpoint join (sep : jsstring) (l : list jsstring) : jsstring :=
  match l with
  | [] => []
  | [x] => x
  | x :: t => x ++ sep ++ join sep t
  end.

(** [JSON.stringify(v)] without indentation; [None] is [undefined].  A
    property whose value serializes to [undefined] is left out of an
    object; such an item of an array is written [null]. *)
Fixpoint stringify (v : value) : option jsstring :=
  match v with
  | VUndefined => None
  | VNull => Some (lit "null")
  | VBool true => Some (lit "true")
  | VBool false => Some (lit "false")
  | VString s => Some (quote s)
  | VArray items =>
      Some (lit "[" ++
            join (lit ",")
              (map (fun x => match stringify x with
                             | Some t => t
                             | None => lit "null"
                             end) items) ++
            lit "]")
  | VObject props =>
      Some (lit "{" ++
            join (lit ",")
              (flat_map (fun kv => match stringify (snd kv) with
                                   | Some t => [quote (fst kv) ++ lit ":" ++ t]
                                   | None => []
                                   end) props) ++
            lit "}")
  end.

(** [JSON.stringify] of an object or of an array is always a string. *)
Definition stringifyDefined (v : value) : jsstring :=
  match stringify v with
  | Some t => t
  | None => []
  end.

Definition stringifyObject (props : list (jsstring * value)) : jsstring :=
  stringifyDefined (VObject props).

Definition stringArray (l : list jsstring) : value := VArray (map VString l).

End Json.

(** ** Exceptions *)

Inductive error : Type :=
| UniqueConstraint      (* SQLITE_CONSTRAINT_UNIQUE on idx_unique_chunk *)
| ForeignKeyConstraint  (* SQLITE_CONSTRAINT_FOREIGNKEY on sequence_references *)
| RangeError            (* byte length of a Float32Array not a multiple of 4 *)
| EmbedderError.        (* the embedder threw *)

Inductive result (A : Type) : Type :=
| Ok (a : A)
| Throw (e : error).
Arguments Ok {A} a.
Arguments Throw {A} e.

(** ** The storage layer: [SQLiteDB] over the schema of [SCHEMA_SQL] *)

Module Store.
Import Js.

Record ChunkMetadata : Type := mkMetadata {
  filePath : jsstring;
  fileHash : jsstring;
  resourceName : jsstring;
  resourceType : jsstring;
  chunkType : jsstring;
  chunkIndex : Z;
  startLine : Z;
  endLine : Z;
  parentChunkId : option Z;
  timestamp : Z;
  contentHash : jsstring;
  semanticType : jsstring;
  semanticIntent : jsstring;
  context : list (jsstring * Json.value);
  sequenceKey : option jsstring;
  isSequenceDefinition : option bool;
  referencedSequences : option (list jsstring)
}.

(** A row of the table [chunks]. *)
Record Row : Type := mkRow {
  id : Z;
  file_path : jsstring;
  file_hash : jsstring;
  resource_name : jsstring;
  resource_type : jsstring;
  chunk_type : jsstring;
  chunk_index : Z;
  start_line : Z;
  end_line : Z;
  embedding : list byte;
  parent_chunk_id : option Z;
  row_timestamp : Z;
  content_hash : jsstring;
  semantic_type : jsstring;
  semantic_intent : jsstring;
  context_json : jsstring;
  sequence_key : option jsstring;
  is_sequence_definition : Z;
  referenced_sequences : option jsstring
}.

(** [mapRowToRecord] renames the columns to the camel-case fields of
    [ChunkRecord], parses the two JSON columns and reads
    [is_sequence_definition] as a boolean.  The consumers modelled here
    read none of the parsed fields, and a record is represented by its
    row: [r.id] is [id r], [r.chunkIndex] is [chunk_index r],
    [r.embedding] (a [Buffer] owning exactly the bytes of the BLOB) is
    [embedding r], and so on. *)
Definition ChunkRecord : Type := Row.

(** A row of the virtual table [chunks_fts]. *)
Record FtsRow : Type := mkFts { chunk_id : Z; embedding_text : jsstring }.

(** A row of the table [sequence_references]. *)
Record RefRow : Type := mkRef {
  ref_id : Z;
  caller_chunk_id : Z;
  callee_chunk_id : Z;
  ref_sequence_key : jsstring;
  ref_timestamp : Z
}.

(** The database: the three tables, in rowid order, and the two
    [sqlite_sequence] counters of the AUTOINCREMENT keys. *)
Record DB : Type := mkDB {
  chunks : list Row;
  chunks_seq : Z;
  sequence_references : list RefRow;
  references_seq : Z;
  chunks_fts : list FtsRow
}.

Definition empty : DB := mkDB [] 0 [] 0 [].

Definition set_chunks (db : DB) (rows : list Row) (seq : Z) : DB :=
  mkDB rows seq (sequence_references db) (references_seq db) (chunks_fts db).
Definition set_references (db : DB) (refs : list RefRow) (seq : Z) : DB :=
  mkDB (chunks db) (chunks_seq db) refs seq (chunks_fts db).
Definition set_fts (db : DB) (fts : list FtsRow) : DB :=
  mkDB (chunks db) (chunks_seq db) (sequence_references db)
       (references_seq db) fts.

(** *** FTS5 helpers *)

Definition insertFts (db : DB) (chunkId : Z) (embeddingText : jsstring) : DB :=
  set_fts db (chunks_fts db ++ [mkFts chunkId embeddingText]).

Definition deleteFts (db : DB) (chunkId : Z) : DB :=
  set_fts db (filter (fun f => negb (chunk_id f =? chunkId)) (chunks_fts db)).

Definition updateFts (db : DB) (chunkId : Z) (embeddingText : jsstring) : DB :=
  insertFts (deleteFts db chunkId) chunkId embeddingText.

(** [if (embeddingText) ...]: the optional argument is present and not the
    empty string. *)
Definition supplied (embeddingText : option jsstring) : option jsstring :=
  match embeddingText with
  | Some t => if truthy t then Some t else None
  | None => None
  end.

(** *** Chunk CRUD *)

(** The key of the unique index [idx_unique_chunk]. *)
Definition same_key (a b : Row) : bool :=
  str_eqb (file_path a) (file_path b) && (chunk_index a =? chunk_index b)
  && (start_line a =? start_line b) && (end_line a =? end_line b).

(** AUTOINCREMENT: one more than the largest rowid ever used. *)
Definition max_id (rows : list Row) : Z :=
  fold_right (fun r m => Z.max (id r) m) 0 rows.
Definition next_id (db : DB) : Z := Z.max (chunks_seq db) (max_id (chunks db)) + 1.

(** [x || null] for an optional string. *)
Definition orNull (x : option jsstring) : option jsstring :=
  match x with
  | Some t => if truthy t then Some t else None
  | None => None
  end.

(** The values bound to the columns by [insertChunk] and [updateChunk]. *)
Definition bindRow (rowid : Z) (path : jsstring) (metadata : ChunkMetadata)
    (embedding : Float32.Float32Array) : Row :=
  {| id := rowid;
     file_path := path;
     file_hash := fileHash metadata;
     resource_name := resourceName metadata;
     resource_type := resourceType metadata;
     chunk_type := chunkType metadata;
     chunk_index := chunkIndex metadata;
     start_line := startLine metadata;
     end_line := endLine metadata;
     embedding := Float32.buffer embedding;
     parent_chunk_id := parentChunkId metadata;
     row_timestamp := timestamp metadata;
     content_hash := contentHash metadata;
     semantic_type := semanticType metadata;
     semantic_intent := semanticIntent metadata;
     context_json := Json.stringifyObject (context metadata);
     sequence_key := orNull (sequenceKey metadata);
     is_sequence_definition :=
       match isSequenceDefinition metadata with Some true => 1 | _ => 0 end;
     referenced_sequences :=
       match referencedSequences metadata with
       | Some l => Some (Json.stringifyDefined (Json.stringArray l))
       | None => None
       end |}.

Definition syncInsert (db : DB) (rowid : Z) (embeddingText : option jsstring) : DB :=
  match supplied embeddingText with
  | Some t => insertFts db rowid t
  | None => db
  end.

Definition insertChunk (db : DB) (metadata : ChunkMetadata)
    (embedding : Float32.Float32Array) (embeddingText : option jsstring)
  : result (Z * DB) :=
  let rowid := next_id db in
  let row := bindRow rowid (filePath metadata) metadata embedding in
  if existsb (same_key row) (chunks db) then Throw UniqueConstraint
  else
    let db1 := set_chunks db (chunks db ++ [row]) rowid in
    Ok (rowid, syncInsert db1 rowid embeddingText).

Definition syncUpdate (db : DB) (rowid : Z) (embeddingText : option jsstring) : DB :=
  match supplied embeddingText with
  | Some t => updateFts db rowid t
  | None => db
  end.

(** [UPDATE chunks SET ... WHERE id = ?]: the file path of the row is
    kept; the statement fails when the new key collides with another
    row, and changes nothing when no row has this id. *)
Definition updateChunk (db : DB) (rowid : Z) (metadata : ChunkMetadata)
    (embedding : Float32.Float32Array) (embeddingText : option jsstring)
  : result DB :=
  let upd := fun r : Row =>
    if id r =? rowid then bindRow rowid (file_path r) metadata embedding
    else r in
  let collides := fun r : Row =>
    (id r =? rowid) &&
    existsb (fun o => negb (id o =? rowid) && same_key (upd r) o) (chunks db) in
  if existsb collides (chunks db) then Throw UniqueConstraint
  else
    let db1 := set_chunks db (map upd (chunks db)) (chunks_seq db) in
    Ok (syncUpdate db1 rowid embeddingText).

Definition getChunksByFile (db : DB) (path : jsstring) : list ChunkRecord :=
  filter (fun r => str_eqb (file_path r) path) (chunks db).

Definition getAllChunks (db : DB) : list ChunkRecord := chunks db.

(** [s.split(':', 2)[1]] for a string that contains a colon: the piece
    between the first colon and the second one, if any. *)
Fixpoint untilColon (s : jsstring) : jsstring :=
  match s with
  | [] => []
  | c :: t => if (c =? 58)%N then [] else c :: untilColon t
  end.
Fixpoint afterColon (s : jsstring) : jsstring :=
  match s with
  | [] => []
  | c :: t => if (c =? 58)%N then t else afterColon t
  end.
Definition hasColon (s : jsstring) : bool := includes s [58%N].
Definition artifactNameOf (artifactRef : jsstring) : jsstring :=
  if hasColon artifactRef then untilColon (afterColon artifactRef)
  else artifactRef.

Definition getSequenceDefinition (db : DB) (artifactRef : jsstring)
  : option ChunkRecord :=
  let artifactName := artifactNameOf artifactRef in
  find (fun r => match sequence_key r with
                 | Some k => str_eqb k artifactName
                 | None => false
                 end && (is_sequence_definition r =? 1))
       (chunks db).

Definition max_ref_id (refs : list RefRow) : Z :=
  fold_right (fun r m => Z.max (ref_id r) m) 0 refs.

Definition hasChunk (db : DB) (rowid : Z) : bool :=
  existsb (fun r => id r =? rowid) (chunks db).

(** [now] is the value of [Date.now()]. *)
Definition linkSequenceReference (db : DB) (now : Z)
    (callerChunkId calleeChunkId : Z) (sequenceKey : jsstring) : result DB :=
  if hasChunk db callerChunkId && hasChunk db calleeChunkId then
    let rid := Z.max (references_seq db) (max_ref_id (sequence_references db)) + 1 in
    Ok (set_references db
          (sequence_references db ++
           [mkRef rid callerChunkId calleeChunkId sequenceKey now])
          rid)
  else Throw ForeignKeyConstraint.

(** [ON DELETE CASCADE] of both foreign keys. *)
Definition cascade (db : DB) (deleted : Z -> bool) : DB :=
  set_references db
    (filter (fun r => negb (deleted (caller_chunk_id r))
                      && negb (deleted (callee_chunk_id r)))
            (sequence_references db))
    (references_seq db).

Definition deleteChunksByFile (db : DB) (path : jsstring) : DB :=
  let rows := filter (fun r => str_eqb (file_path r) path) (chunks db) in
  let db1 := fold_left (fun d r => deleteFts d (id r)) rows db in
  let gone := fun i => existsb (fun r => id r =? i) rows in
  cascade
    (set_chunks db1
       (filter (fun r => negb (str_eqb (file_path r) path)) (chunks db1))
       (chunks_seq db1))
    gone.

Definition deleteChunk (db : DB) (rowid : Z) : DB :=
  let db1 := deleteFts db rowid in
  let gone := fun i => hasChunk db1 i && (i =? rowid) in
  cascade
    (set_chunks db1
       (filter (fun r => negb (id r =? rowid)) (chunks db1))
       (chunks_seq db1))
    gone.

Definition getChunkCount (db : DB) : Z := Z.of_nat (length (chunks db)).

(** *** The write interface, as a transition system *)

Inductive WriteOp : Type :=
| Insert (metadata : ChunkMetadata) (embedding : Float32.Float32Array)
         (embeddingText : option jsstring)
| Update (rowid : Z) (metadata : ChunkMetadata)
         (embedding : Float32.Float32Array) (embeddingText : option jsstring)
| Delete (rowid : Z)
| DeleteByFile (path : jsstring).

(** The database after a call; a call that throws leaves it as it was. *)
Definition run (db : DB) (op : WriteOp) : DB :=
  match op with
  | Insert metadata emb text =>
      match insertChunk db metadata emb text with
      | Ok (_, db') => db'
      | Throw _ => db
      end
  | Update rowid metadata emb text =>
      match updateChunk db rowid metadata emb text with
      | Ok db' => db'
      | Throw _ => db
      end
  | Delete rowid => deleteChunk db rowid
  | DeleteByFile path => deleteChunksByFile db path
  end.

(** The states reached from the empty database by calls that satisfy
    [allowed]. *)
Inductive reachable (allowed : DB -> WriteOp -> Prop) : DB -> Prop :=
| reachable_empty : reachable allowed empty
| reachable_run db op :
    reachable allowed db -> allowed db op -> reachable allowed (run db op).

(** Calls with the embedding text supplied, as the claim has them. *)
Definition textGiven (db : DB) (op : WriteOp) : Prop :=
  match op with
  | Insert _ _ text | Update _ _ _ text => text <> None
  | _ => True
  end.

(** Calls as the pipeline makes them: the text is not empty, and an
    update addresses a row of the table. *)
Definition pipelineCall (db : DB) (op : WriteOp) : Prop :=
  match op with
  | Insert _ _ text => supplied text <> None
  | Update rowid _ _ text => supplied text <> None /\ hasChunk db rowid = true
  | _ => True
  end.

Definition ftsRowsOf (db : DB) (rowid : Z) : list FtsRow :=
  filter (fun f => chunk_id f =? rowid) (chunks_fts db).
Definition chunkRowsOf (db : DB) (rowid : Z) : list Row :=
  filter (fun r => id r =? rowid) (chunks db).

(** The FTS mirror is bijective with the table on the chunk id. *)
Definition ftsMirror (db : DB) : Prop :=
  NoDup (map id (chunks db)) /\
  forall rowid, length (ftsRowsOf db rowid) = length (chunkRowsOf db rowid).

(** *** The persisted file hashes *)

Definition pair_eqb (a b : jsstring * jsstring) : bool :=
  str_eqb (fst a) (fst b) && str_eqb (snd a) (snd b).

(** [SELECT DISTINCT file_path, file_hash FROM chunks] lists every pair
    of the table once.  SQL leaves the order of the rows to the engine:
    [distinctHashes db rows] says that [rows] is an answer to the query. *)
Definition distinctHashes (db : DB) (rows : list (jsstring * jsstring))
  : Prop :=
  NoDup rows /\
  forall p h, In (p, h) rows <->
              exists r, In r (chunks db) /\ file_path r = p /\ file_hash r = h.

(** The answer in the order of the table. *)
Fixpoint distinctPairs (seen rows : list (jsstring * jsstring))
  : list (jsstring * jsstring) :=
  match rows with
  | [] => []
  | x :: t =>
      if existsb (pair_eqb x) seen then distinctPairs seen t
      else x :: distinctPairs (x :: seen) t
  end.

Definition selectDistinctHashes (db : DB) : list (jsstring * jsstring) :=
  distinctPairs [] (map (fun r => (file_path r, file_hash r)) (chunks db)).

(** [getLatestFileHashes()], from the rows that the query returns. *)
Definition getLatestFileHashes (rows : list (jsstring * jsstring))
  : list (jsstring * jsstring) :=
  fold_left (fun m row => map_set str_eqb m (fst row) (snd row)) rows [].

(** *** Every call that writes *)

Inductive Call : Type :=
| Write (op : WriteOp)
| Link (now callerChunkId calleeChunkId : Z) (sequenceKey : jsstring).

(** The database after a call; a call that throws leaves it as it was. *)
Definition call (db : DB) (c : Call) : DB :=
  match c with
  | Write op => run db op
  | Link now callerChunkId calleeChunkId sequenceKey =>
      match linkSequenceReference db now callerChunkId calleeChunkId
              sequenceKey with
      | Ok db' => db'
      | Throw _ => db
      end
  end.

Definition calls (db : DB) (cs : list Call) : DB := fold_left call cs db.

(** Both ends of every stored reference are rows of [chunks]. *)
Definition referencesResolve (db : DB) : Prop :=
  forall ref, In ref (sequence_references db) ->
    hasChunk db (caller_chunk_id ref) = true /\
    hasChunk db (callee_chunk_id ref) = true.

(** The location of a chunk is taken by a row of the table. *)
Definition locationTaken (db : DB) (metadata : ChunkMetadata) : Prop :=
  exists r, In r (chunks db) /\
            file_path r = filePath metadata /\
            chunk_index r = chunkIndex metadata /\
            start_line r = startLine metadata /\
            end_line r = endLine metadata.

End Store.

(** ** The content hash of the Merkle module *)

Module Merkle.
Import Js.

(** [MerkleLeaf['metadata']] *)
Record Metadata : Type := mkMetadata {
  type : jsstring;
  intent : jsstring;
  context : list (jsstring * Json.value)
}.

(** The argument of [JSON.stringify] in [computeChunkHash]. *)
Definition hashObject (xmlContent : jsstring) (metadata : Metadata)
  : Json.value :=
  Json.VObject
    [(lit "xml", Json.VString xmlContent);
     (lit "type", Json.VString (type metadata));
     (lit "intent", Json.VString (intent metadata));
     (lit "context", Json.VObject (context metadata))].

Definition hashInput (xmlContent : jsstring) (metadata : Metadata)
  : jsstring :=
  Json.stringifyDefined (hashObject xmlContent metadata).

(** [createHash('sha256').update(s).digest('hex')] *)
Definition sha256Hex (s : jsstring) : jsstring :=
  Sha256.hex (Sha256.digest (utf8 s)).

Definition computeChunkHash (xmlContent : jsstring) (metadata : Metadata)
  : jsstring :=
  sha256Hex (hashInput xmlContent metadata).

(** Specification side: two values are logically equal when they agree
    once the properties without a value are left out of every object (an
    item without a value in an array counts as [null]). *)
Fixpoint defined (v : Json.value) : Json.value :=
  match v with
  | Json.VArray items =>
      Json.VArray
        (map (fun x => match x with
                       | Json.VUndefined => Json.VNull
                       | _ => defined x
                       end) items)
  | Json.VObject props =>
      Json.VObject
        (flat_map (fun kv => match snd kv with
                             | Json.VUndefined => []
                             | _ => [(fst kv, defined (snd kv))]
                             end) props)
  | _ => v
  end.

(** *** Merkle trees *)

(** A [MerkleLeaf] or a [MerkleNode]; the tests ['chunkId' in t] and
    ['hash' in t] tell them apart. *)
Inductive Tree : Type :=
| Leaf (chunkId contentHash : jsstring)
       (embedding : option Float32.Float32Array) (metadata : Metadata)
| Node (hash level : jsstring) (children : list Tree) (label : jsstring).

(** ['hash' in child ? child.hash : child.contentHash] *)
Definition hashOf (child : Tree) : jsstring :=
  match child with
  | Leaf _ contentHash _ _ => contentHash
  | Node hash _ _ _ => hash
  end.

(** ['label' in child ? child.label : child.chunkId] *)
Definition labelOf (child : Tree) : jsstring :=
  match child with
  | Leaf chunkId _ _ _ => chunkId
  | Node _ _ _ label => label
  end.

(** [a < b] on strings: the order of the code units. *)
Fixpoint str_ltb (a b : jsstring) : bool :=
  match a, b with
  | _, [] => false
  | [], _ :: _ => true
  | x :: a', y :: b' => (x <? y)%N || ((x =? y)%N && str_ltb a' b')
  end.

(** [hashes.sort()], without a comparator: ascending in that order. *)
Fixpoint insertSorted (x : jsstring) (l : list jsstring) : list jsstring :=
  match l with
  | [] => [x]
  | y :: t => if str_ltb y x then y :: insertSorted x t else x :: l
  end.
Definition sortStrings (l : list jsstring) : list jsstring :=
  fold_right insertSorted [] l.

(** [computeNodeHash(children)]; [None] is the [Error] thrown for a node
    without children. *)
Definition computeNodeHash (children : list Tree) : option jsstring :=
  match children with
  | [] => None
  | _ :: _ =>
      let childHashes := map hashOf children in
      let combined := Json.join (lit "|") (sortStrings childHashes) in
      Some (sha256Hex combined)
  end.

Fixpoint collectAllLeaves (tree : Tree) : list Tree :=
  match tree with
  | Leaf _ _ _ _ => [tree]
  | Node _ _ children _ => flat_map collectAllLeaves children
  end.

(** [findChangedLeaves(oldTree, newTree)]; [None] is [null]. *)
Fixpoint findChangedLeaves (oldTree : option Tree) (newTree : Tree)
  : list Tree :=
  match oldTree with
  | None => collectAllLeaves newTree
  | Some old =>
      match old, newTree with
      | Leaf _ oldHash _ _, Leaf _ newHash _ _ =>
          if str_eqb oldHash newHash then [] else [newTree]
      | Leaf _ _ _ _, Node _ _ _ _ => collectAllLeaves newTree
      | Node _ _ _ _, Leaf _ _ _ _ => collectAllLeaves newTree
      | Node oldHash _ oldChildren _, Node newHash _ newChildren _ =>
          if str_eqb oldHash newHash then []
          else
            let oldChildMap :=
              fold_left (fun m child => map_set str_eqb m (labelOf child) child)
                        oldChildren [] in
            flat_map
              (fun newChild =>
                 findChangedLeaves
                   (map_get str_eqb oldChildMap (labelOf newChild)) newChild)
              newChildren
      end
  end.

End Merkle.

(** ** The chunker: chunks and line-range resolution *)

Module Chunker.
Import Js.

Record XMLChunk : Type := mkChunk {
  filePath : jsstring;
  resourceName : jsstring;
  resourceType : jsstring;
  chunkType : jsstring;
  chunkIndex : Z;
  startLine : Z;
  endLine : Z;
  content : jsstring;
  parentChunkId : option Z;
  embeddingText : jsstring;
  semanticType : jsstring;
  semanticIntent : jsstring;
  contentHash : jsstring;
  context : list (jsstring * Json.value);
  sequenceKey : option jsstring;
  isSequenceDefinition : option bool;
  referencedSequences : option (list jsstring)
}.

Record LineRange : Type := mkRange { start : Z; end_ : Z }.

(** *** The patterns built from a tag name

    The tag name is spliced, without escaping, into the source of a
    regular expression: [new RegExp(`<${tagName}[\\s>/]`)].  What the
    pattern means depends on the name.  A code unit of the name that is
    not a syntax character of patterns stands for itself, and the dot
    matches every code unit but a line terminator (the patterns carry no
    flag); this is the case of the names made of letters, digits and the
    characters [_], [-], [:] and [.].  A name with another syntax
    character, one of [^ $ \ * + ? ( ) [ ] { } |], gives a pattern with
    quantifiers, groups, classes or anchors, or makes the constructor
    throw a [SyntaxError].  The functions below give the patterns of the
    names without such a character, [literalName]; they say nothing of
    the other names, and every result about them is stated for a literal
    name. *)
Definition isLineTerminator (c : N) : bool :=
  ((c =? 10) || (c =? 13) || (c =? 8232) || (c =? 8233))%N.

(** The syntax characters of a pattern other than the dot:
    [^ $ \ * + ? ( ) [ ] { } |]. *)
Definition isSyntaxCharacter (c : N) : bool :=
  existsb (N.eqb c)
          [94; 36; 92; 42; 43; 63; 40; 41; 91; 93; 123; 125; 124]%N.

(** The names that a pattern takes code unit by code unit. *)
Definition literalName (tagName : jsstring) : bool :=
  forallb (fun c => negb (isSyntaxCharacter c)) tagName.

Definition unitMatches (pat c : N) : bool :=
  if (pat =? 46)%N then negb (isLineTerminator c) else (c =? pat)%N.

(** The rest of [s] after a match of a literal tag name at its start. *)
Fixpoint matchTag (tagName s : jsstring) : option jsstring :=
  match tagName, s with
  | [], _ => Some s
  | _ :: _, [] => None
  | p :: tagName', c :: s' =>
      if unitMatches p c then matchTag tagName' s' else None
  end.

(** [<tag] followed by one code unit of the class [after], at the start
    of [s]. *)
Definition openAt (after : N -> bool) (tagName s : jsstring) : bool :=
  match s with
  | 60%N :: s' =>
      match matchTag tagName s' with
      | Some (c :: _) => after c
      | _ => false
      end
  | _ => false
  end.

(** [</tag>] at the start of [s]. *)
Definition closeAt (tagName s : jsstring) : bool :=
  match s with
  | 60%N :: 47%N :: s' =>
      match matchTag tagName s' with
      | Some (62%N :: _) => true
      | _ => false
      end
  | _ => false
  end.

(** [re.test(line)]: a match at some position of the line. *)
Fixpoint anywhere (at_ : jsstring -> bool) (line : jsstring) : bool :=
  at_ line ||
  match line with
  | [] => false
  | _ :: rest => anywhere at_ rest
  end.

(** [new RegExp(`<${tagName}[\\s>/]`).test(line)], for a literal name *)
Definition testOpen (tagName line : jsstring) : bool :=
  anywhere (openAt (fun c => isWhiteSpace c || (c =? 62)%N || (c =? 47)%N) tagName)
           line.
(** [new RegExp(`<${tagName}[\\s>]`).test(line)], for a literal name *)
Definition testNestedOpen (tagName line : jsstring) : bool :=
  anywhere (openAt (fun c => isWhiteSpace c || (c =? 62)%N) tagName) line.
(** [new RegExp(`</${tagName}>`).test(line)], for a literal name *)
Definition testClose (tagName line : jsstring) : bool :=
  anywhere (closeAt tagName) line.

Definition selfClosingMark : jsstring := lit "/>".

(** *** The scan of [findElementRange]

    [i] is the index of the first line of [lines]. *)

(** The lines after the opening one: the line number of the matching
    closing tag, or -1. *)
Fixpoint scanClose (tagName : jsstring) (depth i : Z) (lines : list jsstring)
  : Z :=
  match lines with
  | [] => -1
  | line :: rest =>
      let depth1 :=
        if testNestedOpen tagName line && negb (includes line selfClosingMark)
        then depth + 1 else depth in
      if testClose tagName line then
        (if depth1 - 1 =? 0 then i + 1
         else scanClose tagName (depth1 - 1) (i + 1) rest)
      else scanClose tagName depth1 (i + 1) rest
  end.

(** The lines from the cursor on: [startLine] and [endLine], -1 when not
    found. *)
Fixpoint scanOpen (tagName : jsstring) (i : Z) (lines : list jsstring)
  : Z * Z :=
  match lines with
  | [] => (-1, -1)
  | line :: rest =>
      if testOpen tagName line then
        (if includes line selfClosingMark then (i + 1, i + 1)
         else (i + 1, scanClose tagName 1 (i + 1) rest))
      else scanOpen tagName (i + 1) rest
  end.

(** The range located before the expansion, and the cursor after the
    call. *)
Definition locate (tagName : jsstring) (lastSearchPosition : Z)
    (lines : list jsstring) : LineRange * Z :=
  let found :=
    scanOpen tagName lastSearchPosition
             (skipn (Z.to_nat lastSearchPosition) lines) in
  let startLine := if fst found =? -1 then 1 else fst found in
  let endLine := if snd found =? -1 then startLine else snd found in
  (mkRange startLine endLine,
   if fst found =? -1 then lastSearchPosition else fst found).

(** *** Wrapper expansion *)

(** [\w+:?\w*>\s*$] at the start of [s]. *)
Definition simpleTagRest (s : jsstring) : bool :=
  match s with
  | c :: _ =>
      isWordChar c &&
      (let afterName := dropWhile isWordChar s in
       let afterColon :=
         match afterName with
         | 58%N :: r => r
         | _ => afterName
         end in
       match dropWhile isWordChar afterColon with
       | 62%N :: r => forallb isWhiteSpace r
       | _ => false
       end)
  | [] => false
  end.

(** The pattern [simpleOpeningTag]: [<], a name [\w+:?\w*], [>] and
    white space up to the end of the line. *)
Definition simpleOpeningTag (line : jsstring) : bool :=
  match line with
  | 60%N :: r => simpleTagRest r
  | _ => false
  end.

(** The pattern [simpleClosingTag]: [</], a name [\w+:?\w*], [>] and
    white space up to the end of the line. *)
Definition simpleClosingTag (line : jsstring) : bool :=
  match line with
  | 60%N :: 47%N :: r => simpleTagRest r
  | _ => false
  end.

(** [line && !line.startsWith('<!--') && line !== ''] *)
Definition stopsExpansion (line : jsstring) : bool :=
  truthy line && negb (startsWith line (lit "<!--"))
  && negb (str_eqb line []).

(** The indexes of the look-back loop,
    [for (i = startLine - 2; i >= 0 && i >= startLine - 5; i--)]. *)
Definition lookBackIndexes (startLine : Z) : list Z :=
  filter (fun i => 0 <=? i)
         [startLine - 2; startLine - 3; startLine - 4; startLine - 5].

(** The look-back loop: the new start, or the [TypeError] of
    [lines[i].trim()] on a missing line. *)
Fixpoint lookBack (indexes : list Z) (lines : list jsstring) (newStart : Z)
  : option Z :=
  match indexes with
  | [] => Some newStart
  | i :: rest =>
      match nth_error lines (Z.to_nat i) with
      | None => None
      | Some raw =>
          let line := trim raw in
          if simpleOpeningTag line then lookBack rest lines (i + 1)
          else if stopsExpansion line then Some newStart
          else lookBack rest lines newStart
      end
  end.

(** The indexes of the look-forward loop,
    [for (i = endLine; i < lines.length && i < endLine + 10; i++)]. *)
Definition lookForwardIndexes (endLine : Z) (lines : list jsstring)
  : list Z :=
  filter (fun i => i <? Z.of_nat (length lines))
         (map (fun d => endLine + Z.of_nat d) (seq 0 10)).

Fixpoint lookForward (indexes : list Z) (lines : list jsstring)
    (wrappersToClose closedWrappers newEnd : Z) : option Z :=
  match indexes with
  | [] => Some newEnd
  | i :: rest =>
      match nth_error lines (Z.to_nat i) with
      | None => None
      | Some raw =>
          let line := trim raw in
          if simpleClosingTag line then
            (if wrappersToClose <=? closedWrappers + 1 then Some (i + 1)
             else lookForward rest lines wrappersToClose
                              (closedWrappers + 1) (i + 1))
          else if stopsExpansion line then Some newEnd
          else lookForward rest lines wrappersToClose closedWrappers newEnd
      end
  end.

Definition expandRangeForStructuralWrappers (startLine endLine : Z)
    (lines : list jsstring) : option LineRange :=
  match (if 1 <? startLine
         then lookBack (lookBackIndexes startLine) lines startLine
         else Some startLine) with
  | None => None
  | Some newStart =>
      if (newStart <? startLine) && (endLine <? Z.of_nat (length lines))
      then
        match lookForward (lookForwardIndexes endLine lines) lines
                          (startLine - newStart) 0 endLine with
        | None => None
        | Some newEnd => Some (mkRange newStart newEnd)
        end
      else Some (mkRange newStart endLine)
  end.

(** [findElementRange(tagName, resourceName, lines)] with the cursor
    [lastSearchPosition]: the range and the cursor after the call.
    [resourceName] is a parameter that the body does not read. *)
Definition findElementRange (tagName resourceName : jsstring)
    (lines : list jsstring) (lastSearchPosition : Z)
  : option (LineRange * Z) :=
  let located := locate tagName lastSearchPosition lines in
  match expandRangeForStructuralWrappers
          (start (fst located)) (end_ (fst located)) lines with
  | None => None
  | Some expandedRange => Some (expandedRange, snd located)
  end.



(** *** The lines of a file and the content of a range *)

(** [s.split('\n')]; [acc] is the current line, reversed. *)
Fixpoint splitLines (acc : jsstring) (s : jsstring) : list jsstring :=
  match s with
  | [] => [rev acc]
  | c :: t =>
      if (c =? 10)%N then rev acc :: splitLines [] t
      else splitLines (c :: acc) t
  end.

Definition split_newline (s : jsstring) : list jsstring := splitLines [] s.

(** [a.slice(b, e)]; a negative index counts from the end. *)
Definition slice {A} (a : list A) (b e : Z) : list A :=
  let len := Z.of_nat (length a) in
  let from := if b <? 0 then Z.max (len + b) 0 else Z.min b len in
  let final := if e <? 0 then Z.max (len + e) 0 else Z.min e len in
  firstn (Z.to_nat (final - from)) (skipn (Z.to_nat from) a).

(** [lines.slice(range.start - 1, range.end).join('\n')] *)
Definition extractContent (lines : list jsstring) (range : LineRange)
  : jsstring :=
  Json.join [10%N] (slice lines (start range - 1) (end_ range)).

End Chunker.

(** ** The scanner: [Watcher] *)

Module Watcher.
Import Js.

Definition computeHash (content : jsstring) : jsstring :=
  Sha256.hex (Sha256.digest (utf8 content)).

Record FileChange : Type := mkChange {
  filePath : jsstring;
  hash : jsstring;
  exists_ : bool
}.

(** What [readdir(dir, { withFileTypes: true })] finds below a directory:
    files, sub-directories with their own entries, and entries of any
    other kind. *)
Inductive Dirent : Type :=
| File (name : jsstring)
| Directory (name : jsstring) (entries : list Dirent)
| Other (name : jsstring).

Section FileSystem.
(** [path.sep], [path.join], [fs.existsSync], [fs.promises.readdir]
    (with the directories below) and [fs.promises.readFile]. *)
Variable sep : jsstring.
Variable join : jsstring -> jsstring -> jsstring.
Variable existsSync : jsstring -> bool.
Variable readdir : jsstring -> list Dirent.
Variable readFile : jsstring -> jsstring.

Fixpoint walk (currentDir : jsstring) (entry : Dirent) : list jsstring :=
  match entry with
  | Directory name entries =>
      flat_map (walk (join currentDir name)) entries
  | File name =>
      if endsWith name (lit ".xml") then [join currentDir name] else []
  | Other _ => []
  end.

Definition findXMLFiles (dir : jsstring) : list jsstring :=
  flat_map (walk dir) (readdir dir).

(** The state of one scan: [currentFiles] and [changes]. *)
Definition scanFile (fileHashes : list (jsstring * jsstring))
    (st : list (jsstring * jsstring) * list FileChange)
    (path : jsstring) : list (jsstring * jsstring) * list FileChange :=
  let content := readFile path in
  let h := computeHash content in
  let currentFiles := map_set str_eqb (fst st) path h in
  let changed :=
    match map_get str_eqb fileHashes path with
    | None => true
    | Some oldHash => negb (truthy oldHash) || negb (str_eqb oldHash h)
    end in
  if changed then (currentFiles, snd st ++ [mkChange path h true])
  else (currentFiles, snd st).

Definition scanDir (fileHashes : list (jsstring * jsstring))
    (st : list (jsstring * jsstring) * list FileChange)
    (dir : jsstring) : list (jsstring * jsstring) * list FileChange :=
  if existsSync dir
  then fold_left (scanFile fileHashes) (findXMLFiles dir) st
  else st.

Definition normalizedDirs (directories : list jsstring) : list jsstring :=
  map (fun d => if endsWith d sep then d else d ++ sep) directories.

Definition isInScannedDir (directories : list jsstring)
    (path : jsstring) : bool :=
  existsb (fun d => startsWith path d) (normalizedDirs directories).

Definition detectDeleted (directories : list jsstring)
    (currentFiles : list (jsstring * jsstring))
    (changes : list FileChange) (entry : jsstring * jsstring)
  : list FileChange :=
  if negb (map_has str_eqb currentFiles (fst entry))
     && isInScannedDir directories (fst entry)
  then changes ++ [mkChange (fst entry) (snd entry) false]
  else changes.

Definition forget (fileHashes : list (jsstring * jsstring))
    (change : FileChange) : list (jsstring * jsstring) :=
  if exists_ change then fileHashes
  else map_delete str_eqb fileHashes (filePath change).

(** [scanForChanges(directories)] on the map [fileHashes]: the changes
    and the map after the call. *)
Definition scanForChanges (fileHashes : list (jsstring * jsstring))
    (directories : list jsstring)
  : list FileChange * list (jsstring * jsstring) :=
  let scanned := fold_left (scanDir fileHashes) directories ([], []) in
  let currentFiles := fst scanned in
  let changes :=
    fold_left (detectDeleted directories currentFiles) fileHashes
              (snd scanned) in
  let merged := fold_left forget changes fileHashes in
  let merged :=
    fold_left (fun m e => map_set str_eqb m (fst e) (snd e))
              currentFiles merged in
  (changes, merged).

(** [seedFromDB(hashes)] *)
Definition seedFromDB (fileHashes hashes : list (jsstring * jsstring))
  : list (jsstring * jsstring) :=
  fold_left (fun m e => map_set str_eqb m (fst e) (snd e)) hashes fileHashes.

(** Every file that the scan of [directories] reads. *)
Definition scannedFiles (directories : list jsstring) : list jsstring :=
  flat_map (fun dir => if existsSync dir then findXMLFiles dir else [])
           directories.
End FileSystem.

End Watcher.

(** ** The incremental pipeline *)

Module Pipeline.
Import Js Store.

(** What a run of the pipeline acts on: the database, the texts handed to
    the embedder so far, and the number of readings of the clock. *)
Record World : Type := mkWorld {
  db : DB;
  embedCalls : list jsstring;
  ticks : nat
}.

(** Computations that read and write the world and may throw; the world
    reached when the exception is thrown is kept. *)
Definition M (A : Type) : Type := World -> result A * World.

Definition ret {A} (a : A) : M A := fun w => (Ok a, w).
Definition throw {A} (e : error) : M A := fun w => (Throw e, w).
Definition bind {A B} (m : M A) (k : A -> M B) : M B :=
  fun w => match m w with
           | (Ok a, w') => k a w'
           | (Throw e, w') => (Throw e, w')
           end.

Notation "x <- m ;; k" := (bind m (fun x => k))
  (at level 61, m at next level, right associativity).
Notation "m ;;; k" := (bind m (fun _ => k))
  (at level 61, right associativity).

(** A statement of the database that may fail and leaves it unchanged
    then. *)
Definition statement {A} (f : DB -> result (A * DB)) : M A :=
  fun w => match f (db w) with
           | Ok (a, d) => (Ok a, mkWorld d (embedCalls w) (ticks w))
           | Throw e => (Throw e, w)
           end.

Definition query {A} (f : DB -> A) : M A := fun w => (Ok (f (db w)), w).

Fixpoint forEach {A} (l : list A) (body : A -> M unit) : M unit :=
  match l with
  | [] => ret tt
  | x :: t => body x ;;; forEach t body
  end.

Fixpoint foldM {A S} (l : list A) (body : S -> A -> M S) (s : S) : M S :=
  match l with
  | [] => ret s
  | x :: t => s' <- body s x ;; foldM t body s'
  end.

(** The key of [existingByLocation],
    [`${chunkIndex}:${startLine}:${endLine}`]; the three integers are
    kept apart by the colons, and the key is represented by the triple. *)
Definition LocationKey : Type := (Z * Z * Z)%type.
Definition key_eqb (a b : LocationKey) : bool :=
  let '(a1, a2, a3) := a in
  let '(b1, b2, b3) := b in
  (a1 =? b1) && (a2 =? b2) && (a3 =? b3).

Definition recordKey (r : ChunkRecord) : LocationKey :=
  (chunk_index r, start_line r, end_line r).
Definition chunkKey (c : Chunker.XMLChunk) : LocationKey :=
  (Chunker.chunkIndex c, Chunker.startLine c, Chunker.endLine c).

Definition buildExistingByLocation (existingChunks : list ChunkRecord)
  : list (LocationKey * ChunkRecord) :=
  fold_left (fun m r => map_set key_eqb m (recordKey r) r) existingChunks [].

(** [new Float32Array(existingChunk.embedding.buffer)] *)
Definition reusedEmbedding (existingChunk : ChunkRecord)
  : result Float32.Float32Array :=
  match Float32.fromBuffer (embedding existingChunk) with
  | Some v => Ok v
  | None => Throw RangeError
  end.

(** The state of the loop of [processFile]. *)
Record Progress : Type := mkProgress {
  matchedChunkIds : list Z;
  chunkIndexToDbId : list (Z * Z);
  reusedCount : Z;
  embeddedCount : Z
}.

(** [set.add(x)] *)
Definition set_add (s : list Z) (x : Z) : list Z :=
  if existsb (Z.eqb x) s then s else s ++ [x].

Section Run.
(** [Embedder.embed], which may throw, and [Date.now()] at its n-th
    reading. *)
Variable embed : jsstring -> result Float32.Float32Array.
Variable dateNow : nat -> Z.

Definition callEmbedder (text : jsstring) : M Float32.Float32Array :=
  fun w =>
    (embed text, mkWorld (db w) (embedCalls w ++ [text]) (ticks w)).

Definition readClock : M Z :=
  fun w => (Ok (dateNow (ticks w)),
            mkWorld (db w) (embedCalls w) (S (ticks w))).

Definition lift {A} (r : result A) : M A := fun w => (r, w).

Definition linkReference (dbId : Z) (artifactRef : jsstring) : M unit :=
  artifactDef <- query (fun d => getSequenceDefinition d artifactRef) ;;
  match artifactDef with
  | Some def =>
      now <- readClock ;;
      statement (fun d =>
        match linkSequenceReference d now dbId (id def)
                (artifactNameOf artifactRef) with
        | Ok d' => Ok (tt, d')
        | Throw e => Throw e
        end)
  | None => ret tt
  end.

Definition metadataOf (chunk : Chunker.XMLChunk) (fileHash : jsstring)
    (parentDbId : option Z) (now : Z) : ChunkMetadata :=
  {| filePath := Chunker.filePath chunk;
     fileHash := fileHash;
     resourceName := Chunker.resourceName chunk;
     resourceType := Chunker.resourceType chunk;
     chunkType := Chunker.chunkType chunk;
     chunkIndex := Chunker.chunkIndex chunk;
     startLine := Chunker.startLine chunk;
     endLine := Chunker.endLine chunk;
     parentChunkId := parentDbId;
     timestamp := now;
     contentHash := Chunker.contentHash chunk;
     semanticType := Chunker.semanticType chunk;
     semanticIntent := Chunker.semanticIntent chunk;
     context := Chunker.context chunk;
     sequenceKey := Chunker.sequenceKey chunk;
     isSequenceDefinition := Chunker.isSequenceDefinition chunk;
     referencedSequences := Chunker.referencedSequences chunk |}.

Definition update (rowid : Z) (metadata : ChunkMetadata)
    (emb : Float32.Float32Array) (text : jsstring) : M unit :=
  statement (fun d =>
    match updateChunk d rowid metadata emb (Some text) with
    | Ok d' => Ok (tt, d')
    | Throw e => Throw e
    end).

(** The body of the loop over the chunks of the file. *)
Definition processChunk (fileHash : jsstring)
    (existingByLocation : list (LocationKey * ChunkRecord))
    (p : Progress) (chunk : Chunker.XMLChunk) : M Progress :=
  let parentDbId :=
    match Chunker.parentChunkId chunk with
    | Some parent => map_get Z.eqb (chunkIndexToDbId p) parent
    | None => None
    end in
  now <- readClock ;;
  let metadata := metadataOf chunk fileHash parentDbId now in
  let text := Chunker.embeddingText chunk in
  step <-
    match map_get key_eqb existingByLocation (chunkKey chunk) with
    | Some existingChunk =>
        if str_eqb (content_hash existingChunk) (Chunker.contentHash chunk)
        then
          emb <- lift (reusedEmbedding existingChunk) ;;
          update (id existingChunk) metadata emb text ;;;
          ret (id existingChunk,
               mkProgress (set_add (matchedChunkIds p) (id existingChunk))
                          (chunkIndexToDbId p)
                          (reusedCount p + 1) (embeddedCount p))
        else
          emb <- callEmbedder text ;;
          update (id existingChunk) metadata emb text ;;;
          ret (id existingChunk,
               mkProgress (set_add (matchedChunkIds p) (id existingChunk))
                          (chunkIndexToDbId p)
                          (reusedCount p) (embeddedCount p + 1))
    | None =>
        emb <- callEmbedder text ;;
        dbId <- statement (fun d => insertChunk d metadata emb (Some text)) ;;
        ret (dbId,
             mkProgress (matchedChunkIds p) (chunkIndexToDbId p)
                        (reusedCount p) (embeddedCount p + 1))
    end ;;
  let dbId := fst step in
  let p1 := snd step in
  let p2 := mkProgress (matchedChunkIds p1)
                       (map_set Z.eqb (chunkIndexToDbId p1)
                                (Chunker.chunkIndex chunk) dbId)
                       (reusedCount p1) (embeddedCount p1) in
  forEach (match Chunker.referencedSequences chunk with
           | Some refs => refs
           | None => []
           end)
          (linkReference dbId) ;;;
  ret p2.

(** The counts that [processFile] logs. *)
Record Summary : Type := mkSummary {
  reused : Z;
  embedded : Z;
  deleted : Z
}.

Definition deleteUnmatched (matched : list Z) (deletedCount : Z)
    (existingChunk : ChunkRecord) : M Z :=
  if existsb (Z.eqb (id existingChunk)) matched then ret deletedCount
  else
    statement (fun d => Ok (tt, deleteChunk d (id existingChunk))) ;;;
    ret (deletedCount + 1).

(** [processFile(filePath, fileHash)], after the chunker has returned
    [chunks]. *)
Definition processFile (chunks : list Chunker.XMLChunk)
    (path fileHash : jsstring) : M Summary :=
  existingChunks <- query (fun d => getChunksByFile d path) ;;
  let existingByLocation := buildExistingByLocation existingChunks in
  p <- foldM chunks (processChunk fileHash existingByLocation)
             (mkProgress [] [] 0 0) ;;
  deletedCount <- foldM existingChunks
                        (deleteUnmatched (matchedChunkIds p)) 0 ;;
  ret (mkSummary (reusedCount p) (embeddedCount p) deletedCount).

(** A chunk is reused when its slot holds a record with its content
    hash. *)
Definition reusable (existingByLocation : list (LocationKey * ChunkRecord))
    (chunk : Chunker.XMLChunk) : bool :=
  match map_get key_eqb existingByLocation (chunkKey chunk) with
  | Some existingChunk =>
      str_eqb (content_hash existingChunk) (Chunker.contentHash chunk)
  | None => false
  end.

(** [chunkFile] of the chunker, which may throw on a file that does not
    parse. *)
Variable chunkFile : jsstring -> result (list Chunker.XMLChunk).

(** The body of the loop of [processChanges]; an exception of
    [processFile] is caught and logged. *)
Definition processChange (change : Watcher.FileChange) : M unit :=
  if negb (Watcher.exists_ change) then
    statement (fun d =>
      Ok (tt, deleteChunksByFile d (Watcher.filePath change)))
  else
    fun w =>
      match chunkFile (Watcher.filePath change) with
      | Throw _ => (Ok tt, w)
      | Ok chunks =>
          (Ok tt,
           snd (processFile chunks (Watcher.filePath change)
                            (Watcher.hash change) w))
      end.

Definition processChanges (changes : list Watcher.FileChange) : M unit :=
  forEach changes processChange.
End Run.

(** *** Specification side *)

(** The constraints of the schema: the primary key and the unique index
    [idx_unique_chunk]. *)
Definition constraintsHold (d : DB) : Prop :=
  NoDup (map id (chunks d)) /\
  forall r r', In r (chunks d) -> In r' (chunks d) ->
               same_key r r' = true -> id r = id r'.

(** What the chunker guarantees about the chunks of one file: they carry
    the path of the file and their indexes are pairwise distinct (the
    counter [chunkCounter++]). *)
Definition chunksOfFile (path : jsstring) (chunks : list Chunker.XMLChunk)
  : Prop :=
  NoDup (map Chunker.chunkIndex chunks) /\
  forall c, In c chunks -> Chunker.filePath c = path.

(** The stored chunks of a file are those of the chunker: every chunk has
    its row, with its slot, its content hash and a well-formed embedding,
    and every row of the file has its chunk. *)
Definition indexed (d : DB) (path : jsstring)
    (chunks : list Chunker.XMLChunk) : Prop :=
  (forall c, In c chunks ->
     exists r, In r (Store.chunks d) /\ file_path r = path /\
               recordKey r = chunkKey c /\
               content_hash r = Chunker.contentHash c /\
               exists v, embedding r = Float32.buffer v) /\
  (forall r, In r (Store.chunks d) -> file_path r = path ->
     exists c, In c chunks /\ recordKey r = chunkKey c).

(** What a reused row keeps: its id, its file, its slot, its content hash
    and the bytes of its embedding. *)
Definition kept (r : Row)
  : Z * jsstring * LocationKey * jsstring * list byte :=
  (id r, file_path r, recordKey r, content_hash r, embedding r).

(** Worlds that differ in the reference table and the clock only. *)
Definition sameChunks (w w' : World) : Prop :=
  chunks (db w') = chunks (db w) /\
  chunks_fts (db w') = chunks_fts (db w) /\
  chunks_seq (db w') = chunks_seq (db w) /\
  embedCalls w' = embedCalls w.

(** The invariant of the loop of [processFile] over the chunks of the
    file [path], whose rows before the call are [existing]. *)
Section Invariant.
Variable path : jsstring.
Variable existing : list ChunkRecord.

(** A row written for a chunk: it is matched, or it is new. *)
Definition rowOf (matched : list Z) (c : Chunker.XMLChunk) (r : Row)
  : Prop :=
  file_path r = path /\ recordKey r = chunkKey c /\
  content_hash r = Chunker.contentHash c /\
  (exists v, embedding r = Float32.buffer v) /\
  (In (id r) matched \/ ~ In (id r) (map id existing)).

(** The state of the database while the chunks [done] have been
    processed. *)
Definition reconciling (done : list Chunker.XMLChunk) (p : Progress)
    (w : World) : Prop :=
  constraintsHold (db w) /\
  (forall e, In e existing ->
     exists r, In r (chunks (db w)) /\ id r = id e /\ file_path r = path /\
               recordKey r = recordKey e) /\
  (forall i, In i (matchedChunkIds p) -> In i (map id existing)) /\
  (forall c, In c done ->
     exists r, In r (chunks (db w)) /\ rowOf (matchedChunkIds p) c r) /\
  (forall r, In r (chunks (db w)) -> file_path r = path ->
     (exists c, In c done /\ rowOf (matchedChunkIds p) c r) \/
     (In r existing /\ ~ In (id r) (matchedChunkIds p))).
End Invariant.

(** *** The pipeline with its watcher *)

(** The state of a [Pipeline]: the map of its [Watcher] and the world it
    acts on. *)
Record Indexer : Type := mkIndexer {
  fileHashes : list (jsstring * jsstring);
  world : World
}.

Section Polling.
Variable sep : jsstring.
Variable join : jsstring -> jsstring -> jsstring.
Variable existsSync : jsstring -> bool.
Variable readdir : jsstring -> list Watcher.Dirent.
Variable readFile : jsstring -> jsstring.
Variable embed : jsstring -> result Float32.Float32Array.
Variable dateNow : nat -> Z.
Variable chunkFile : jsstring -> result (list Chunker.XMLChunk).
(** The answer of the engine to the query of [getLatestFileHashes]. *)
Variable selectHashes : DB -> list (jsstring * jsstring).

Definition processIncremental (directories : list jsstring) (s : Indexer)
  : Indexer :=
  let scanned :=
    Watcher.scanForChanges sep join existsSync readdir readFile
                           (fileHashes s) directories in
  match fst scanned with
  | [] => mkIndexer (snd scanned) (world s)
  | _ :: _ =>
      mkIndexer (snd scanned)
                (snd (processChanges embed dateNow chunkFile (fst scanned)
                                     (world s)))
  end.

Definition processInitial (directories : list jsstring) (s : Indexer)
  : Indexer :=
  let savedHashes := getLatestFileHashes (selectHashes (db (world s))) in
  let seeded :=
    match savedHashes with
    | [] => fileHashes s
    | _ :: _ => Watcher.seedFromDB (fileHashes s) savedHashes
    end in
  let scanned :=
    Watcher.scanForChanges sep join existsSync readdir readFile
                           seeded directories in
  mkIndexer (snd scanned)
            (snd (processChanges embed dateNow chunkFile (fst scanned)
                                 (world s))).
End Polling.

End Pipeline.

(** ** The search engine (semantic_search tool) *)

Module Search.
Import Js Store.

Definition DEFAULT_TOP_K : Z := 10.
Definition MAX_TOP_K : Z := 50.
Definition DEFAULT_SCORE_THRESHOLD : Q := 25 # 100.
Definition BM25_WEIGHT : Q := 15 # 100.
Definition SEMANTIC_WEIGHT : Q := 85 # 100.
Definition MMR_LAMBDA : Q := 7 # 10.
Definition OVERLAP_THRESHOLD : Q := 1 # 2.

Definition Qgtb (x y : Q) : bool := negb (Qle_bool x y).

Record ScoredChunk : Type := mkScored {
  chunk : ChunkRecord;
  semanticScore : Q;
  bm25Score : Q;
  hybridScore : Q
}.

(** A row of the FTS query of [bm25Search]. *)
Record FtsHit : Type := mkHit { hit_chunk_id : Z; rank : Q }.

(** The normalization of [bm25Search].  [rows] is the outcome of
    [stmt.all(query, limit * 3)]: the matching rows ordered by rank, or the
    exception of the FTS engine, which the [catch] turns into the empty
    map. *)
Definition bm25Range (bestRank worstRank : Q) : Q :=
  (if Qeq_bool (worstRank - bestRank) 0 then 1 else worstRank - bestRank)%Q.

Definition bm25Normalized (bestRank range r : Q) : Q :=
  (1 - (r - bestRank) / range)%Q.

Definition bm25Scores (rows : result (list FtsHit)) : list (Z * Q) :=
  match rows with
  | Throw _ => []
  | Ok [] => []
  | Ok ((first :: _) as all) =>
      let bestRank := rank first in
      let worstRank := rank (last all first) in
      let range := bm25Range bestRank worstRank in
      fold_left
        (fun scores row =>
           map_set Z.eqb scores (hit_chunk_id row)
                   (bm25Normalized bestRank range (rank row)))
        all []
  end.

(** [ORDER BY rank]: the rows come in ascending order of rank. *)
Definition rank_le (a b : FtsHit) : Prop := (rank a <= rank b)%Q.
Definition orderedByRank (rows : list FtsHit) : Prop :=
  StronglySorted rank_le rows.

(** Lists in descending order of hybrid score, as [sort] leaves them. *)
Definition score_ge (a b : ScoredChunk) : Prop :=
  (hybridScore b <= hybridScore a)%Q.
Definition byScoreDesc (l : list ScoredChunk) : Prop :=
  StronglySorted score_ge l.

(** [query.split(/\s+/).filter(Boolean)] *)
Definition queryWords (query : jsstring) : list jsstring :=
  filter truthy (split_whitespace query).

Definition adaptiveTopK (query : jsstring) (requestedK : Z) : Z :=
  let words := queryWords query in
  if Z.of_nat (length words) <=? 2 then Z.min requestedK 8
  else if Z.of_nat (length words) <=? 5 then requestedK
  else Z.min (requestedK + 5) MAX_TOP_K.

(** Specification side: the number of words of a query, counted as the
    maximal runs of non-white-space code units.  [inWord] tells that the
    previous code unit belonged to a word. *)
Fixpoint spec_countWords (inWord : bool) (s : jsstring) : nat :=
  match s with
  | [] => O
  | c :: t =>
      if isWhiteSpace c then spec_countWords false t
      else ((if inWord then 0 else 1) + spec_countWords true t)%nat
  end.
Definition spec_wordCount (query : jsstring) : nat :=
  spec_countWords false query.

(** [topK] of [createSemanticSearchExecute]:
    [Math.min(args.top_k ?? DEFAULT_TOP_K, MAX_TOP_K)]. *)
Definition cappedTopK (top_k : option Z) : Z :=
  Z.min (nullish top_k DEFAULT_TOP_K) MAX_TOP_K.

(** [effectiveK] of [createSemanticSearchExecute]. *)
Definition effectiveK (query : jsstring) (top_k : option Z) : Z :=
  adaptiveTopK query (cappedTopK top_k).

(** [new Float32Array(chunk.embedding.buffer)] *)
Definition chunkEmbedding (c : ChunkRecord) : result Float32.Float32Array :=
  match Float32.fromBuffer (embedding c) with
  | Some v => Ok v
  | None => Throw RangeError
  end.

(** *** Overlap deduplication *)

Definition dominates (existing candidate : ScoredChunk) : bool :=
  if negb (str_eqb (file_path (chunk candidate)) (file_path (chunk existing)))
  then false
  else
    let overlapStart :=
      Z.max (start_line (chunk candidate)) (start_line (chunk existing)) in
    let overlapEnd :=
      Z.min (end_line (chunk candidate)) (end_line (chunk existing)) in
    let overlapLines := Z.max 0 (overlapEnd - overlapStart + 1) in
    let candidateSpan :=
      end_line (chunk candidate) - start_line (chunk candidate) + 1 in
    let existingSpan :=
      end_line (chunk existing) - start_line (chunk existing) + 1 in
    let minSpan := Z.min candidateSpan existingSpan in
    (0 <? minSpan)
    && Qgtb (inject_Z overlapLines / inject_Z minSpan)%Q OVERLAP_THRESHOLD.

(** [a], kept earlier in the scan, does not dominate [b]. *)
Definition disjointFrom (a b : ScoredChunk) : Prop := dominates a b = false.

Definition dedupStep (kept : list ScoredChunk) (candidate : ScoredChunk)
  : list ScoredChunk :=
  if existsb (fun existing => dominates existing candidate) kept
  then kept
  else kept ++ [candidate].

Definition deduplicateOverlapping (results : list ScoredChunk)
  : list ScoredChunk :=
  fold_left dedupStep results [].

(** *** MMR reranking *)

Section Engine.
(** [cosineSimilarity] works on floating-point numbers with square
    roots; the engine is parameterized by it. *)
Variable cosineSimilarity :
  Float32.Float32Array -> Float32.Float32Array -> Q.

(** The inner loop over [selected]: the largest similarity, at least 0. *)
Definition maxSimilarity (selected : list ScoredChunk)
    (candidate : ScoredChunk) : result Q :=
  fold_left
    (fun acc sel =>
       match acc with
       | Throw e => Throw e
       | Ok maxSim =>
           match chunkEmbedding (chunk sel),
                 chunkEmbedding (chunk candidate) with
           | Ok selEmb, Ok candEmb =>
               let sim := cosineSimilarity selEmb candEmb in
               Ok (if Qgtb sim maxSim then sim else maxSim)
           | Throw e, _ => Throw e
           | _, Throw e => Throw e
           end
       end)
    selected (Ok 0%Q).

(** The loop over [remaining]: [bestIdx] ([None] is -1) and
    [bestMmrScore] ([None] is -Infinity). *)
Definition pickBest (candidates selected : list ScoredChunk)
    (lambda : Q) (remaining : list nat) (dflt : ScoredChunk)
  : result (option nat * option Q) :=
  fold_left
    (fun acc idx =>
       match acc with
       | Throw e => Throw e
       | Ok (bestIdx, bestMmrScore) =>
           let candidate := nth idx candidates dflt in
           let relevance := hybridScore candidate in
           match maxSimilarity selected candidate with
           | Throw e => Throw e
           | Ok maxSim =>
               let mmrScore := (lambda * relevance - (1 - lambda) * maxSim)%Q in
               let better := match bestMmrScore with
                             | None => true
                             | Some b => Qgtb mmrScore b
                             end in
               if better then Ok (Some idx, Some mmrScore)
               else Ok (bestIdx, bestMmrScore)
           end
       end)
    remaining (Ok (None, None)).

Fixpoint mmrLoop (steps : nat) (candidates selected : list ScoredChunk)
    (lambda : Q) (remaining : list nat) (dflt : ScoredChunk)
  : result (list ScoredChunk) :=
  match steps, remaining with
  | O, _ => Ok selected
  | _, [] => Ok selected
  | S steps', _ :: _ =>
      match pickBest candidates selected lambda remaining dflt with
      | Throw e => Throw e
      | Ok (Some bestIdx, _) =>
          mmrLoop steps' candidates
                  (selected ++ [nth bestIdx candidates dflt]) lambda
                  (filter (fun i => negb (Nat.eqb i bestIdx)) remaining) dflt
      | Ok (None, _) => mmrLoop steps' candidates selected lambda remaining dflt
      end
  end.

(** [queryEmbedding] is a parameter of the source function that its body
    does not read. *)
Definition mmrRerank (candidates : list ScoredChunk)
    (queryEmbedding : Float32.Float32Array) (k : Z) (lambda : Q)
  : result (list ScoredChunk) :=
  if Z.of_nat (length candidates) <=? k then Ok candidates
  else
    match candidates with
    | [] => Ok []
    | dflt :: _ =>
        mmrLoop (Z.to_nat k) candidates [] lambda
                (seq 0 (length candidates)) dflt
    end.

(** *** The scoring pipeline of [createSemanticSearchExecute] *)

Definition scoreChunk (queryEmbedding : Float32.Float32Array)
    (bm25 : list (Z * Q)) (c : ChunkRecord) : result ScoredChunk :=
  match chunkEmbedding c with
  | Throw e => Throw e
  | Ok chunkEmb =>
      let semScore := cosineSimilarity queryEmbedding chunkEmb in
      let bm := nullish (map_get Z.eqb bm25 (id c)) 0%Q in
      Ok (mkScored c semScore bm
            (SEMANTIC_WEIGHT * semScore + BM25_WEIGHT * bm)%Q)
  end.

Fixpoint scoreAll (queryEmbedding : Float32.Float32Array)
    (bm25 : list (Z * Q)) (cs : list ChunkRecord)
  : result (list ScoredChunk) :=
  match cs with
  | [] => Ok []
  | c :: t =>
      match scoreChunk queryEmbedding bm25 c with
      | Throw e => Throw e
      | Ok s =>
          match scoreAll queryEmbedding bm25 t with
          | Throw e => Throw e
          | Ok l => Ok (s :: l)
          end
      end
  end.

(** [scored.sort((a, b) => b.hybridScore - a.hybridScore)]: a stable
    sort, descending. *)
Fixpoint insertDesc (x : ScoredChunk) (l : list ScoredChunk)
  : list ScoredChunk :=
  match l with
  | [] => [x]
  | y :: t =>
      if Qle_bool (hybridScore y) (hybridScore x) then x :: l
      else y :: insertDesc x t
  end.
Definition sortDesc (l : list ScoredChunk) : list ScoredChunk :=
  fold_right insertDesc [] l.

(** Steps 4 to 11 of the execute function, up to the list of scored
    chunks that are turned into results. *)
Definition rankChunks (allChunks : list ChunkRecord)
    (queryEmbedding : Float32.Float32Array) (bm25 : list (Z * Q))
    (query : jsstring) (top_k : option Z) (score_threshold : option Q)
    (semantic_type_filter : option jsstring)
  : result (list ScoredChunk) :=
  let k := effectiveK query top_k in
  let threshold := nullish score_threshold DEFAULT_SCORE_THRESHOLD in
  match scoreAll queryEmbedding bm25 allChunks with
  | Throw e => Throw e
  | Ok scored =>
      let scored1 :=
        filter (fun s => Qle_bool threshold (hybridScore s)) scored in
      let scored2 :=
        match orNull semantic_type_filter with
        | Some t => filter (fun s => str_eqb (semantic_type (chunk s)) t) scored1
        | None => scored1
        end in
      let mmrCandidates := slice0 (sortDesc scored2) (k * 3) in
      match mmrRerank mmrCandidates queryEmbedding k MMR_LAMBDA with
      | Throw e => Throw e
      | Ok reranked =>
          Ok (slice0 (deduplicateOverlapping reranked) k)
      end
  end.
End Engine.

End Search.

(** ** Sample data for the worked examples *)

Module Fixtures.
Import Js Store Search.

(** A chunk row of file [path] at slot [(idx, first, last)]. *)
Definition rowAt (rowid : Z) (path : jsstring) (idx first last : Z)
    (hash : jsstring) (blob : list byte) : Row :=
  {| id := rowid; file_path := path; file_hash := lit "f0";
     resource_name := lit "r"; resource_type := lit "api";
     chunk_type := lit "filter"; chunk_index := idx;
     start_line := first; end_line := last; embedding := blob;
     parent_chunk_id := None; row_timestamp := 0; content_hash := hash;
     semantic_type := lit "mediator"; semantic_intent := lit "validation";
     context_json := lit "{}"; sequence_key := None;
     is_sequence_definition := 0; referenced_sequences := None |}.

(** A chunk of file [path] at slot [(idx, first, last)]. *)
Definition chunkAt (path : jsstring) (idx first last : Z)
    (hash text : jsstring) : Chunker.XMLChunk :=
  {| Chunker.filePath := path; Chunker.resourceName := lit "r";
     Chunker.resourceType := lit "api"; Chunker.chunkType := lit "filter";
     Chunker.chunkIndex := idx; Chunker.startLine := first;
     Chunker.endLine := last; Chunker.content := text;
     Chunker.parentChunkId := None; Chunker.embeddingText := text;
     Chunker.semanticType := lit "mediator";
     Chunker.semanticIntent := lit "validation";
     Chunker.contentHash := hash;
     Chunker.context :=
       [(lit "artifact",
         Json.VObject [(lit "type", Json.VString (lit "api"));
                       (lit "name", Json.VString (lit "Bank"))])];
     Chunker.sequenceKey := None; Chunker.isSequenceDefinition := Some false;
     Chunker.referencedSequences := Some [] |}.

(** A scored chunk with the hybrid score of its two components. *)
Definition scoredAt (r : Row) (sem bm : Q) : ScoredChunk :=
  mkScored r sem bm (SEMANTIC_WEIGHT * sem + BM25_WEIGHT * bm)%Q.

End Fixtures.

(* ================================================================== *)
(** * Part II. Properties                                              *)
(* ================================================================== *)

(** ** Strings *)

Lemma str_eqb_refl (a : Js.jsstring) : Js.str_eqb a a = true.
Proof.
  induction a as [|x a IH]; simpl; [reflexivity|].
  now rewrite N.eqb_refl, IH.
Qed.

Lemma str_eqb_eq (a b : Js.jsstring) : Js.str_eqb a b = true <-> a = b.
Proof.
  split.
  - revert b; induction a as [|x a IH]; intros [|y b]; simpl; try discriminate; auto.
    intros H. apply andb_true_iff in H as [Hx Hab].
    apply N.eqb_eq in Hx. f_equal; auto.
  - intros ->. apply str_eqb_refl.
Qed.

Lemma str_eqb_neq (a b : Js.jsstring) : Js.str_eqb a b = false <-> a <> b.
Proof.
  rewrite <- str_eqb_eq. destruct (Js.str_eqb a b); split; congruence.
Qed.

Lemma str_eqb_sym (a b : Js.jsstring) : Js.str_eqb a b = Js.str_eqb b a.
Proof.
  destruct (Js.str_eqb a b) eqn:E.
  - apply str_eqb_eq in E; subst. symmetry; apply str_eqb_refl.
  - destruct (Js.str_eqb b a) eqn:E'; [|reflexivity].
    apply str_eqb_eq in E'; subst. now rewrite str_eqb_refl in E.
Qed.

(** ** Adaptive K *)

Section AdaptiveK.
Import Js Search.

Example adaptiveTopK_two_words_default :
  effectiveK (lit "booking api") None = 8.
Proof. reflexivity. Qed.

Example adaptiveTopK_four_words :
  effectiveK (lit "error handling in payment") (Some 12) = 12.
Proof. reflexivity. Qed.

Example adaptiveTopK_broad :
  effectiveK (lit "  how is the hotel booking  request validated ") (Some 48) = 50.
Proof. reflexivity. Qed.

Lemma truthy_rev (s : jsstring) : truthy (rev s) = truthy s.
Proof.
  destruct s as [|c s]; [reflexivity|].
  simpl. destruct (rev s); reflexivity.
Qed.

(** The words kept by [split]/[filter] are the maximal runs of
    non-white-space code units. *)
Lemma splitWs_counts (s : jsstring) :
  forall skip acc,
    (acc <> [] -> skip = false) ->
    length (filter truthy (splitWs skip acc s)) =
    ((if truthy acc then 1 else 0) + spec_countWords (truthy acc) s)%nat.
Proof.
  induction s as [|c t IH]; intros skip acc Hacc;
    cbn [splitWs spec_countWords].
  - cbn [filter length]. rewrite truthy_rev.
    destruct (truthy acc); reflexivity.
  - destruct (isWhiteSpace c) eqn:Hc.
    + destruct acc as [|a acc].
      * destruct skip; cbn [filter rev truthy length];
          rewrite IH by congruence; reflexivity.
      * rewrite (Hacc ltac:(discriminate)). cbn [filter].
        rewrite truthy_rev. cbn [truthy length].
        rewrite IH by congruence. reflexivity.
    + rewrite IH by congruence. cbn [truthy].
      destruct acc; reflexivity.
Qed.

Lemma queryWords_count (query : jsstring) :
  length (queryWords query) = spec_wordCount query.
Proof.
  unfold queryWords, split_whitespace, spec_wordCount.
  rewrite splitWs_counts by congruence. reflexivity.
Qed.

(** C2, as the code has it: a query of at most two words gets
    [min(requested_k, 8)] results, not 8; a query of at most five words
    gets [requested_k]; a longer one [min(requested_k + 5, 50)]; here
    [requested_k] is the [top_k] argument, 10 when absent, capped at 50,
    and the words are the maximal runs of non-white-space characters. *)
Theorem C2_effective_k_by_word_count (query : jsstring) (top_k : option Z) :
  let words := Z.of_nat (spec_wordCount query) in
  let requested_k := Z.min (nullish top_k 10) 50 in
  effectiveK query top_k =
    if words <=? 2 then Z.min requested_k 8
    else if words <=? 5 then requested_k
    else Z.min (requested_k + 5) 50.
Proof.
  cbv zeta. unfold effectiveK, adaptiveTopK, cappedTopK.
  rewrite queryWords_count. reflexivity.
Qed.

(** C2 fails as stated: a two-word query with [top_k = 5] is answered
    with 5 results, not 8. *)
Lemma C2_two_words_small_k :
  spec_wordCount (lit "get users") = 2%nat /\
  effectiveK (lit "get users") (Some 5) = 5 /\
  effectiveK (lit "get users") (Some 5) <> 8.
Proof. repeat split; vm_compute; congruence. Qed.

End AdaptiveK.

(** ** JavaScript maps *)

Section JsMapFacts.
Import Js.
Context {K V : Type} (keq : K -> K -> bool).
Hypothesis keq_spec : forall a b, keq a b = true <-> a = b.

Lemma keq_refl (k : K) : keq k k = true.
Proof. now apply keq_spec. Qed.

Lemma keq_false (a b : K) : a <> b -> keq a b = false.
Proof.
  intros H. destruct (keq a b) eqn:E; [|reflexivity].
  apply keq_spec in E. contradiction.
Qed.

Lemma map_get_set_same (m : list (K * V)) k v :
  map_get keq (map_set keq m k v) k = Some v.
Proof.
  induction m as [|[k' v'] m IH]; simpl.
  - now rewrite keq_refl.
  - destruct (keq k' k) eqn:E; simpl; rewrite E; auto.
Qed.

Lemma map_get_set_other (m : list (K * V)) k k' v :
  k <> k' -> map_get keq (map_set keq m k v) k' = map_get keq m k'.
Proof.
  intros Hne. induction m as [|[k0 v0] m IH]; simpl.
  - now rewrite keq_false.
  - destruct (keq k0 k) eqn:E; simpl.
    + apply keq_spec in E; subst k0. now rewrite keq_false.
    + destruct (keq k0 k'); auto.
Qed.

Lemma map_get_delete_same (m : list (K * V)) k :
  map_get keq (map_delete keq m k) k = None.
Proof.
  induction m as [|[k0 v0] m IH]; simpl; [reflexivity|].
  destruct (keq k0 k) eqn:E; simpl; [assumption|].
  now rewrite E.
Qed.

Lemma map_get_delete_other (m : list (K * V)) k k' :
  k <> k' -> map_get keq (map_delete keq m k) k' = map_get keq m k'.
Proof.
  intros Hne. induction m as [|[k0 v0] m IH]; simpl; [reflexivity|].
  destruct (keq k0 k) eqn:E; simpl.
  - apply keq_spec in E; subst k0. now rewrite keq_false.
  - destruct (keq k0 k'); auto.
Qed.

Lemma map_get_In (m : list (K * V)) k v :
  map_get keq m k = Some v -> In (k, v) m.
Proof.
  induction m as [|[k0 v0] m IH]; simpl; [discriminate|].
  destruct (keq k0 k) eqn:E.
  - apply keq_spec in E; subst. intros [= ->]. now left.
  - auto.
Qed.

(** Filling a map from a list of items with pairwise distinct keys. *)
Section Fill.
Context {A : Type} (key : A -> K) (val : A -> V).

Local Abbreviation fill m items :=
  (fold_left (fun acc x => map_set keq acc (key x) (val x)) items m).

Lemma fill_get_absent (items : list A) : forall m k,
  ~ In k (map key items) ->
  map_get keq (fill m items) k = map_get keq m k.
Proof.
  induction items as [|x items IH]; intros m k Hk; simpl; [reflexivity|].
  simpl in Hk. rewrite IH by tauto.
  apply map_get_set_other. tauto.
Qed.

Lemma fill_get_present (items : list A) : forall m x,
  NoDup (map key items) -> In x items ->
  map_get keq (fill m items) (key x) = Some (val x).
Proof.
  induction items as [|y items IH]; intros m x Hnd Hin; [contradiction|].
  simpl in *. inversion Hnd as [|? ? Hy Hnd']; subst.
  destruct Hin as [->|Hin].
  - rewrite fill_get_absent by assumption. apply map_get_set_same.
  - now apply IH.
Qed.
End Fill.
End JsMapFacts.

(** ** BM25 normalization *)

Section Bm25.
Import Js Search.
Local Open Scope Q_scope.

Lemma bm25Range_tie (best worst : Q) :
  worst == best -> bm25Range best worst = 1.
Proof.
  intros H. unfold bm25Range.
  replace (Qeq_bool (worst - best) 0) with true; [reflexivity|].
  symmetry. apply Qeq_bool_iff. rewrite H. ring.
Qed.

Lemma bm25Range_spread (best worst : Q) :
  ~ worst == best -> bm25Range best worst = worst - best.
Proof.
  intros H. unfold bm25Range.
  destruct (Qeq_bool (worst - best) 0) eqn:E; [|reflexivity].
  apply Qeq_bool_iff in E. exfalso. apply H.
  setoid_replace worst with ((worst - best) + best) by ring.
  rewrite E. ring.
Qed.

Lemma bm25Range_pos (best worst : Q) :
  best <= worst -> 0 < bm25Range best worst.
Proof.
  intros Hle. destruct (Qeq_dec worst best) as [E|E].
  - rewrite bm25Range_tie by assumption. reflexivity.
  - rewrite bm25Range_spread by assumption.
    destruct (Qle_lt_or_eq _ _ Hle) as [Hlt|Heq].
    + setoid_replace 0 with (best - best) by ring.
      apply Qplus_lt_l. assumption.
    + exfalso. apply E. symmetry. assumption.
Qed.

Lemma bm25Normalized_best (best range : Q) :
  bm25Normalized best range best == 1.
Proof.
  unfold bm25Normalized, Qdiv.
  setoid_replace (best - best) with 0 by ring. ring.
Qed.

Lemma bm25Normalized_worst (best worst : Q) :
  ~ worst == best ->
  bm25Normalized best (bm25Range best worst) worst == 0.
Proof.
  intros H. rewrite bm25Range_spread by assumption.
  unfold bm25Normalized. field.
  intros E. apply H.
  setoid_replace worst with ((worst - best) + best) by ring.
  rewrite E. ring.
Qed.

Lemma bm25Normalized_tie (best worst r : Q) :
  worst == best -> best <= r -> r <= worst ->
  bm25Normalized best (bm25Range best worst) r == 1.
Proof.
  intros H Hb Hw. rewrite bm25Range_tie by assumption.
  assert (Hr : r == best).
  { apply Qle_antisym; [|assumption]. rewrite <- H. assumption. }
  unfold bm25Normalized, Qdiv. rewrite Hr.
  setoid_replace (best - best) with 0 by ring. ring.
Qed.

Lemma bm25Normalized_bounds (best worst r : Q) :
  best <= r -> r <= worst ->
  0 <= bm25Normalized best (bm25Range best worst) r <= 1.
Proof.
  intros Hb Hw.
  assert (Hbw : best <= worst) by (eapply Qle_trans; eassumption).
  pose proof (bm25Range_pos best worst Hbw) as Hpos.
  assert (Hlow : 0 <= (r - best) / bm25Range best worst).
  { apply Qle_shift_div_l; [assumption|].
    setoid_replace (0 * bm25Range best worst) with (best - best) by ring.
    apply Qplus_le_l. assumption. }
  assert (Hhigh : (r - best) / bm25Range best worst <= 1).
  { apply Qle_shift_div_r; [assumption|].
    destruct (Qeq_dec worst best) as [E|E].
    - rewrite bm25Range_tie by assumption.
      setoid_replace (1 * 1) with 1 by ring.
      apply Qle_trans with (worst - best).
      + apply Qplus_le_l. assumption.
      + rewrite E. setoid_replace (best - best) with 0 by ring.
        discriminate.
    - rewrite bm25Range_spread by assumption.
      setoid_replace (1 * (worst - best)) with (worst - best) by ring.
      apply Qplus_le_l. assumption. }
  unfold bm25Normalized. split.
  - setoid_replace 0 with (1 - 1) by ring.
    apply Qplus_le_r. apply Qopp_le_compat. assumption.
  - setoid_replace 1 with (1 - 0) at 2 by ring.
    apply Qplus_le_r. apply Qopp_le_compat. assumption.
Qed.

(** With [ORDER BY rank] the first row has the least rank and the last
    row the greatest. *)
Lemma sorted_first_le (first : FtsHit) (rest : list FtsHit) row :
  StronglySorted rank_le (first :: rest) -> In row (first :: rest) ->
  rank first <= rank row.
Proof.
  intros Hs [->|Hin]; [apply Qle_refl|].
  inversion Hs as [|? ? _ Hall]; subst.
  rewrite Forall_forall in Hall. now apply Hall.
Qed.

Lemma sorted_le_last (rows : list FtsHit) : forall d row,
  StronglySorted rank_le rows -> In row rows ->
  rank row <= rank (last rows d).
Proof.
  induction rows as [|x rows IH]; intros d row Hs Hin; [contradiction|].
  inversion Hs as [|? ? Hs' Hall]; subst.
  destruct rows as [|y rows].
  - destruct Hin as [->|[]]. apply Qle_refl.
  - change (last (x :: y :: rows) d) with (last (y :: rows) d).
    destruct Hin as [->|Hin].
    + rewrite Forall_forall in Hall. apply Hall.
      clear. generalize y. induction rows as [|z rows IH]; intros y0.
      * now left.
      * right. apply IH.
    + now apply IH.
Qed.

Lemma last_In {A} (l : list A) (d : A) : l <> [] -> In (last l d) l.
Proof.
  induction l as [|x l IH]; [congruence|]. intros _.
  destruct l as [|y l]; [now left|].
  right. apply IH. discriminate.
Qed.

Lemma bm25Scores_get (first : FtsHit) (rest : list FtsHit) row :
  NoDup (map hit_chunk_id (first :: rest)) -> In row (first :: rest) ->
  map_get Z.eqb (bm25Scores (Ok (first :: rest))) (hit_chunk_id row) =
  Some (bm25Normalized (rank first)
          (bm25Range (rank first) (rank (last (first :: rest) first)))
          (rank row)).
Proof.
  intros Hnd Hin. unfold bm25Scores.
  apply (fill_get_present Z.eqb Z.eqb_eq hit_chunk_id
           (fun r => bm25Normalized (rank first)
                       (bm25Range (rank first)
                                  (rank (last (first :: rest) first)))
                       (rank r))); assumption.
Qed.

(** C7, as the code has it.  For a non-empty result of the FTS query,
    ordered by rank and with one row per chunk, every row gets the score
    [1 - (rank - best) / range], which lies in [[0, 1]]; the best row gets
    1; the worst row gets 0 when its rank differs from the best one; when
    all ranks are equal, in particular for a single row, [range] is 1 and
    every row gets 1. *)
Theorem C7_bm25_normalization (first : FtsHit) (rest : list FtsHit) :
  let rows := first :: rest in
  let scores := bm25Scores (Ok rows) in
  let best := rank first in
  let worst := rank (last rows first) in
  orderedByRank rows ->
  NoDup (map hit_chunk_id rows) ->
  (forall row, In row rows ->
     exists s, map_get Z.eqb scores (hit_chunk_id row) = Some s /\
               s == 1 - (rank row - best) / bm25Range best worst /\
               0 <= s <= 1) /\
  (exists s, map_get Z.eqb scores (hit_chunk_id first) = Some s /\ s == 1) /\
  (~ worst == best ->
     exists s, map_get Z.eqb scores (hit_chunk_id (last rows first)) = Some s
               /\ s == 0) /\
  (worst == best ->
     forall row, In row rows ->
       exists s, map_get Z.eqb scores (hit_chunk_id row) = Some s /\ s == 1) /\
  (rest = [] ->
     exists s, map_get Z.eqb scores (hit_chunk_id first) = Some s /\ s == 1).
Proof.
  intros rows scores best worst Hsorted Hnd.
  assert (Hget : forall row, In row rows ->
            map_get Z.eqb scores (hit_chunk_id row) =
            Some (bm25Normalized best (bm25Range best worst) (rank row))).
  { intros row Hin. now apply bm25Scores_get. }
  assert (Hlo : forall row, In row rows -> best <= rank row).
  { intros row Hin. now apply (sorted_first_le first rest). }
  assert (Hhi : forall row, In row rows -> rank row <= worst).
  { intros row Hin. now apply sorted_le_last. }
  assert (Hlast : In (last rows first) rows).
  { apply last_In. discriminate. }
  repeat split.
  - intros row Hin. eexists. split; [now apply Hget|]. split.
    + reflexivity.
    + apply bm25Normalized_bounds; auto.
  - eexists. split; [apply Hget; now left|]. apply bm25Normalized_best.
  - intros Hne. eexists. split; [now apply Hget|].
    now apply bm25Normalized_worst.
  - intros Heq row Hin. eexists. split; [now apply Hget|].
    apply bm25Normalized_tie; auto.
  - intros _. eexists. split; [apply Hget; now left|].
    apply bm25Normalized_best.
Qed.

(** The theorem at a three-row result. *)
Lemma C7_bm25_normalization_witness :
  exists s,
    map_get Z.eqb
      (bm25Scores (Ok [mkHit 11 (-(9 # 2)); mkHit 4 (-(3 # 1));
                       mkHit 7 (-(1 # 2))])) 7%Z = Some s /\ s == 0.
Proof.
  assert (Hsorted : orderedByRank
            [mkHit 11 (-(9 # 2)); mkHit 4 (-(3 # 1)); mkHit 7 (-(1 # 2))]).
  { repeat constructor; unfold rank_le; simpl; discriminate. }
  assert (Hnd : NoDup (map hit_chunk_id
            [mkHit 11 (-(9 # 2)); mkHit 4 (-(3 # 1)); mkHit 7 (-(1 # 2))])).
  { simpl. repeat constructor; simpl; intuition discriminate. }
  destruct (C7_bm25_normalization (mkHit 11 (-(9 # 2)))
              [mkHit 4 (-(3 # 1)); mkHit 7 (-(1 # 2))] Hsorted Hnd)
    as (_ & _ & Hworst & _).
  apply Hworst. simpl. intros H. discriminate H.
Defined.

(** C7 fails as stated when the worst rank equals the best one: with two
    rows of equal rank, and with a single row, the worst row is mapped to
    1, not to 0. *)
Lemma C7_worst_row_of_a_tie :
  let rows := [mkHit 1 (-(3 # 1)); mkHit 2 (-(3 # 1))] in
  orderedByRank rows /\
  (exists s, map_get Z.eqb (bm25Scores (Ok rows)) 2%Z = Some s /\ s == 1
             /\ ~ s == 0) /\
  (exists s, map_get Z.eqb (bm25Scores (Ok [mkHit 1 (-(3 # 1))])) 1%Z = Some s
             /\ s == 1 /\ ~ s == 0).
Proof.
  cbv zeta. split; [|split].
  - repeat constructor; unfold rank_le; simpl; apply Qle_refl.
  - eexists. split; [reflexivity|]. split; [reflexivity|]. intros H; discriminate H.
  - eexists. split; [reflexivity|]. split; [reflexivity|]. intros H; discriminate H.
Qed.

End Bm25.

(** ** Overlap deduplication *)

Section Dedup.
Import Js Store Search.
Local Open Scope Q_scope.

Lemma StronglySorted_snoc {A} (R : A -> A -> Prop) (l : list A) (x : A) :
  StronglySorted R l -> Forall (fun e => R e x) l ->
  StronglySorted R (l ++ [x]).
Proof.
  induction 1 as [|a l Hs IH Ha]; intros Hall; simpl.
  - repeat constructor.
  - inversion Hall; subst. constructor; [now apply IH|].
    apply Forall_app. split; [assumption|]. now constructor.
Qed.

Lemma StronglySorted_before {A} (R : A -> A -> Prop) (pre post : list A) c :
  StronglySorted R (pre ++ c :: post) -> forall e, In e pre -> R e c.
Proof.
  induction pre as [|a pre IH]; intros Hs e Hin; [contradiction|].
  simpl in Hs. inversion Hs as [|? ? Hs' Hall]; subst.
  destruct Hin as [->|Hin].
  - rewrite Forall_forall in Hall. apply Hall.
    apply in_or_app. right. now left.
  - now apply IH.
Qed.

(** The kept list only grows, at its end. *)
Lemma dedup_extends (l : list ScoredChunk) : forall kept,
  exists more, fold_left dedupStep l kept = kept ++ more.
Proof.
  induction l as [|c l IH]; intros kept; simpl.
  - exists []. now rewrite app_nil_r.
  - unfold dedupStep at 2.
    destruct (existsb (fun existing => dominates existing c) kept).
    + apply IH.
    + destruct (IH (kept ++ [c])) as [more Hmore].
      exists (c :: more). rewrite Hmore, <- app_assoc. reflexivity.
Qed.

Lemma dedup_kept_stays (l : list ScoredChunk) kept e :
  In e kept -> In e (fold_left dedupStep l kept).
Proof.
  intros Hin. destruct (dedup_extends l kept) as [more ->].
  apply in_or_app. now left.
Qed.

(** Only candidates are kept. *)
Lemma dedup_subset (l : list ScoredChunk) : forall kept e,
  In e (fold_left dedupStep l kept) -> In e kept \/ In e l.
Proof.
  induction l as [|c l IH]; intros kept e Hin; simpl in *; [now left|].
  apply IH in Hin. destruct Hin as [Hin|Hin]; [|right; now right].
  unfold dedupStep in Hin.
  destruct (existsb (fun existing => dominates existing c) kept);
    [now left|].
  apply in_app_or in Hin. destruct Hin as [Hin|[->|[]]]; [now left|].
  right. now left.
Qed.

Lemma dedup_disjoint (l : list ScoredChunk) : forall kept,
  StronglySorted disjointFrom kept ->
  StronglySorted disjointFrom (fold_left dedupStep l kept).
Proof.
  induction l as [|c l IH]; intros kept Hk; simpl; [assumption|].
  apply IH. unfold dedupStep.
  destruct (existsb (fun existing => dominates existing c) kept) eqn:E;
    [assumption|].
  apply StronglySorted_snoc; [assumption|].
  apply Forall_forall. intros e He. unfold disjointFrom.
  destruct (dominates e c) eqn:D; [|reflexivity].
  assert (existsb (fun existing => dominates existing c) kept = true).
  { apply existsb_exists. exists e. split; assumption. }
  congruence.
Qed.

(** The fate of one candidate of the scan. *)
Lemma dedup_candidate (pre post : list ScoredChunk) (c : ScoredChunk) :
  let out := deduplicateOverlapping (pre ++ c :: post) in
  In c out \/
  exists e, In e pre /\ In e out /\ dominates e c = true.
Proof.
  cbv zeta. unfold deduplicateOverlapping.
  rewrite fold_left_app. cbn [fold_left].
  set (kept := fold_left dedupStep pre []).
  assert (Hstep : dedupStep kept c =
            if existsb (fun existing => dominates existing c) kept
            then kept else kept ++ [c]) by reflexivity.
  rewrite Hstep. clear Hstep.
  destruct (existsb (fun existing => dominates existing c) kept) eqn:E.
  - right. apply existsb_exists in E. destruct E as (e & He & Hd).
    exists e. repeat split.
    + destruct (dedup_subset pre [] e He) as [[]|H]. exact H.
    + now apply dedup_kept_stays.
    + assumption.
  - left. apply dedup_kept_stays. apply in_or_app. right. now left.
Qed.

(** C8, as the code has it.  The scan keeps a candidate unless a chunk
    kept before it lies in the same file and overlaps it by more than half
    of the smaller span.  So no returned result is dominated by a
    returned result that precedes it, and every candidate is either
    returned or dominated by a returned candidate that precedes it in the
    scan; when the candidates come in descending order of score, that one
    has a score at least as high. *)
Theorem C8_overlap_dedup (results : list ScoredChunk) :
  let out := deduplicateOverlapping results in
  StronglySorted disjointFrom out /\
  (forall pre c post,
      results = pre ++ c :: post ->
      In c out \/
      exists e, In e pre /\ In e out /\ dominates e c = true /\
                (byScoreDesc results -> hybridScore c <= hybridScore e)).
Proof.
  cbv zeta. split.
  - apply dedup_disjoint. constructor.
  - intros pre c post ->.
    destruct (dedup_candidate pre post c) as [Hin|(e & Hpre & Hout & Hd)];
      [now left|].
    right. exists e. repeat split; try assumption.
    intros Hsorted.
    apply (StronglySorted_before score_ge pre post c Hsorted e Hpre).
Qed.

(** The scenario of the specification: two candidates of one file with
    the spans [[10,40]] and [[20,35]], the higher-scored one first. *)
Example dedup_nested_spans :
  let outer := Fixtures.scoredAt
                 (Fixtures.rowAt 1 (lit "/p/api.xml") 0 10 40 (lit "h1") []) 1 1 in
  let inner := Fixtures.scoredAt
                 (Fixtures.rowAt 2 (lit "/p/api.xml") 1 20 35 (lit "h2") [])
                 (4 # 5) 0 in
  deduplicateOverlapping [outer; inner] = [outer].
Proof. reflexivity. Qed.

Lemma C8_overlap_dedup_witness :
  let outer := Fixtures.scoredAt
                 (Fixtures.rowAt 1 (lit "/p/api.xml") 0 10 40 (lit "h1") []) 1 1 in
  let inner := Fixtures.scoredAt
                 (Fixtures.rowAt 2 (lit "/p/api.xml") 1 20 35 (lit "h2") [])
                 (4 # 5) 0 in
  [outer; inner] = [outer] ++ inner :: [] /\
  (In inner (deduplicateOverlapping [outer; inner]) \/
   exists e, In e [outer] /\ In e (deduplicateOverlapping [outer; inner]) /\
             dominates e inner = true /\
             (byScoreDesc [outer; inner] -> hybridScore inner <= hybridScore e)).
Proof.
  intros outer inner. split; [reflexivity|].
  exact (proj2 (C8_overlap_dedup [outer; inner]) [outer] inner [] eq_refl).
Defined.

(** C8 fails as stated.  Three candidates of one file in descending order
    of score, with the spans [[1,10]], [[8,12]] and [[10,13]]: the second
    is dropped because of the first; the third overlaps the second by
    three quarters of its span and has the lower score of the two, yet it
    is the one returned. *)
Lemma C8_dropped_candidate_does_not_dominate :
  let c1 := Fixtures.scoredAt
              (Fixtures.rowAt 1 (lit "/p/api.xml") 0 1 10 (lit "h1") []) 1 1 in
  let c2 := Fixtures.scoredAt
              (Fixtures.rowAt 2 (lit "/p/api.xml") 1 8 12 (lit "h2") [])
              (4 # 5) 0 in
  let c3 := Fixtures.scoredAt
              (Fixtures.rowAt 3 (lit "/p/api.xml") 2 10 13 (lit "h3") [])
              (3 # 5) 0 in
  byScoreDesc [c1; c2; c3] /\
  dominates c2 c3 = true /\ dominates c3 c2 = true /\
  hybridScore c3 < hybridScore c2 /\
  deduplicateOverlapping [c1; c2; c3] = [c1; c3].
Proof.
  cbv zeta. repeat split.
  repeat constructor; unfold score_ge; simpl; discriminate.
Qed.

(** The scan keeps the earlier of two overlapping candidates, whatever
    their scores. *)
Example dedup_keeps_the_earlier :
  let low := Fixtures.scoredAt
               (Fixtures.rowAt 2 (lit "/p/api.xml") 1 20 35 (lit "h2") [])
               (1 # 2) 0 in
  let high := Fixtures.scoredAt
                (Fixtures.rowAt 1 (lit "/p/api.xml") 0 10 40 (lit "h1") []) 1 1 in
  hybridScore low < hybridScore high /\
  deduplicateOverlapping [low; high] = [low].
Proof. cbv zeta. split; reflexivity. Qed.

End Dedup.

(** ** MMR reranking *)

Section Mmr.
Import Js Store Search.
Local Open Scope Q_scope.
Variable cosineSimilarity :
  Float32.Float32Array -> Float32.Float32Array -> Q.

Lemma insertDesc_In x l e :
  In e (insertDesc x l) <-> e = x \/ In e l.
Proof.
  induction l as [|y l IH]; simpl.
  - intuition.
  - destruct (Qle_bool (hybridScore y) (hybridScore x)); simpl.
    + intuition.
    + rewrite IH. intuition.
Qed.

Lemma insertDesc_sorted x l :
  byScoreDesc l -> byScoreDesc (insertDesc x l).
Proof.
  unfold byScoreDesc.
  induction 1 as [|y l Hs IH Hy]; simpl.
  - repeat constructor.
  - destruct (Qle_bool (hybridScore y) (hybridScore x)) eqn:E.
    + apply Qle_bool_iff in E.
      constructor; [now constructor|].
      constructor; [exact E|].
      rewrite Forall_forall in *. intros e He.
      unfold score_ge in *. eapply Qle_trans; [apply Hy, He|exact E].
    + constructor; [assumption|].
      rewrite Forall_forall in *. intros e He.
      apply insertDesc_In in He. destruct He as [->|He]; [|now apply Hy].
      unfold score_ge.
      destruct (Qlt_le_dec (hybridScore y) (hybridScore x)) as [Hlt|Hle];
        [|assumption].
      apply Qlt_le_weak in Hlt. apply Qle_bool_iff in Hlt. congruence.
Qed.

(** The candidates handed to the reranker are in descending order. *)
Lemma sortDesc_sorted (l : list ScoredChunk) : byScoreDesc (sortDesc l).
Proof.
  induction l as [|x l IH]; simpl.
  - constructor.
  - now apply insertDesc_sorted.
Qed.

Lemma firstn_sorted n (l : list ScoredChunk) :
  byScoreDesc l -> byScoreDesc (firstn n l).
Proof.
  unfold byScoreDesc. intros Hs. revert n.
  induction Hs as [|y l Hs IH Hy]; intros [|n]; simpl; try constructor.
  - apply IH.
  - rewrite Forall_forall in *. intros e He. apply Hy.
    rewrite <- (firstn_skipn n l). apply in_or_app. now left.
Qed.

Lemma slice0_sorted (l : list ScoredChunk) e :
  byScoreDesc l -> byScoreDesc (slice0 l e).
Proof.
  intros Hs. unfold slice0. destruct (e <? 0)%Z; now apply firstn_sorted.
Qed.

(** C10.  A candidate list no longer than [k] is returned as it is: the
    greedy selection does not run, and a list in descending order of
    hybrid score stays in that order. *)
Theorem C10_mmr_short_list_unchanged (candidates : list ScoredChunk)
    (queryEmbedding : Float32.Float32Array) (k : Z) (lambda : Q) :
  (Z.of_nat (length candidates) <= k)%Z ->
  mmrRerank cosineSimilarity candidates queryEmbedding k lambda = Ok candidates
  /\ (byScoreDesc candidates ->
      forall out,
        mmrRerank cosineSimilarity candidates queryEmbedding k lambda = Ok out ->
        byScoreDesc out).
Proof.
  intros Hlen.
  assert (E : mmrRerank cosineSimilarity candidates queryEmbedding k lambda
              = Ok candidates).
  { unfold mmrRerank. apply Z.leb_le in Hlen. now rewrite Hlen. }
  split; [exact E|].
  intros Hs out Hout. rewrite E in Hout. now inversion Hout; subst.
Qed.

End Mmr.

Lemma C10_mmr_short_list_unchanged_witness :
  let a := Fixtures.scoredAt
             (Fixtures.rowAt 1 (Js.lit "/p/a.xml") 0 1 9 (Js.lit "h1") []) 1 1 in
  let b := Fixtures.scoredAt
             (Fixtures.rowAt 2 (Js.lit "/p/b.xml") 0 1 9 (Js.lit "h2") [])
             (1 # 2) 0 in
  (Z.of_nat (length [a; b]) <= 8)%Z /\
  Search.mmrRerank (fun _ _ => 0%Q) [a; b] [] 8 Search.MMR_LAMBDA = Ok [a; b].
Proof.
  cbv zeta. split; [simpl; lia|].
  apply (C10_mmr_short_list_unchanged (fun _ _ => 0%Q)). simpl. lia.
Defined.

(** ** SHA-256 test vectors *)

Section Sha256Vectors.
Import Js.

Example sha256_empty :
  Sha256.hex (Sha256.digest (utf8 (lit ""))) =
  lit "e3b0c44298fc1c149afbf4c8996fb92427ae41e4649b934ca495991b7852b855".
Proof. vm_compute. reflexivity. Qed.

Example sha256_abc :
  Sha256.hex (Sha256.digest (utf8 (lit "abc"))) =
  lit "ba7816bf8f01cfea414140de5dae2223b00361a396177a9cb410ff61f20015ad".
Proof. vm_compute. reflexivity. Qed.

Example sha256_two_blocks :
  Sha256.hex (Sha256.digest (utf8
    (lit "abcdbcdecdefdefgefghfghighijhijkijkljklmklmnlmnomnopnopq"))) =
  lit "248d6a61d20638b8e5c026930c3e6039a33ce45964ff2167f6ecedd419db06c1".
Proof. vm_compute. reflexivity. Qed.

End Sha256Vectors.

(** ** The scanner *)

Section Scanner.
Import Js Watcher.
Variable sep : jsstring.
Variable join : jsstring -> jsstring -> jsstring.
Variable existsSync : jsstring -> bool.
Variable readdir : jsstring -> list Dirent.
Variable readFile : jsstring -> jsstring.

Local Abbreviation scan := (scanForChanges sep join existsSync readdir readFile).
Local Abbreviation inScanned := (isInScannedDir sep).
Local Abbreviation files := (scannedFiles join existsSync readdir).
Local Abbreviation get := (map_get str_eqb).

Lemma map_set_keys {V} (m : list (jsstring * V)) k v k' :
  In k' (map fst (map_set str_eqb m k v)) -> k' = k \/ In k' (map fst m).
Proof.
  induction m as [|[k0 v0] m IH]; simpl.
  - intros [<-|[]]. now left.
  - destruct (str_eqb k0 k) eqn:E; simpl.
    + intros [<-|H]; right; [now left|now right].
    + intros [<-|H]; [right; now left|].
      destruct (IH H) as [->|H']; [now left|right; now right].
Qed.

Lemma map_has_false {V} (m : list (jsstring * V)) k :
  ~ In k (map fst m) -> map_get str_eqb m k = None.
Proof.
  induction m as [|[k0 v0] m IH]; simpl; [reflexivity|].
  intros H. destruct (str_eqb k0 k) eqn:E.
  - apply str_eqb_eq in E. subst. exfalso. apply H. now left.
  - apply IH. intros H'. apply H. now right.
Qed.

(** The first phase: the files read and the changes of existing files. *)
Lemma scanFile_inv fileHashes (seen : list jsstring) st path :
  (forall k, In k (map fst (fst st)) -> In k seen) ->
  Forall (fun c => exists_ c = true) (snd st) ->
  (forall k, In k (map fst (fst (scanFile readFile fileHashes st path))) ->
             In k (seen ++ [path])) /\
  Forall (fun c => exists_ c = true)
         (snd (scanFile readFile fileHashes st path)).
Proof.
  intros Hk Hc. unfold scanFile.
  set (changed := match get fileHashes path with
                  | Some oldHash => _ | None => _ end).
  assert (Hkeys : forall k,
            In k (map fst (map_set str_eqb (fst st) path
                             (computeHash (readFile path)))) ->
            In k (seen ++ [path])).
  { intros k Hin. apply in_or_app.
    destruct (map_set_keys _ _ _ _ Hin) as [->|Hin']; [right; now left|].
    left. now apply Hk. }
  destruct changed; simpl; split; try assumption.
  apply Forall_app. split; [assumption|]. now repeat constructor.
Qed.

Lemma scanFiles_inv fileHashes (paths : list jsstring) : forall seen st,
  (forall k, In k (map fst (fst st)) -> In k seen) ->
  Forall (fun c => exists_ c = true) (snd st) ->
  (forall k, In k (map fst (fst (fold_left (scanFile readFile fileHashes) paths st))) ->
             In k (seen ++ paths)) /\
  Forall (fun c => exists_ c = true)
         (snd (fold_left (scanFile readFile fileHashes) paths st)).
Proof.
  induction paths as [|p paths IH]; intros seen st Hk Hc; simpl.
  - rewrite app_nil_r. now split.
  - destruct (scanFile_inv fileHashes seen st p Hk Hc) as [Hk' Hc'].
    destruct (IH (seen ++ [p]) _ Hk' Hc') as [Hk'' Hc''].
    split; [|assumption].
    intros k Hin. specialize (Hk'' k Hin).
    now rewrite <- app_assoc in Hk''.
Qed.

Lemma scanDirs_inv fileHashes (dirs : list jsstring) : forall seen st,
  (forall k, In k (map fst (fst st)) -> In k seen) ->
  Forall (fun c => exists_ c = true) (snd st) ->
  (forall k,
      In k (map fst (fst (fold_left
              (scanDir join existsSync readdir readFile fileHashes) dirs st))) ->
      In k (seen ++ files dirs)) /\
  Forall (fun c => exists_ c = true)
         (snd (fold_left (scanDir join existsSync readdir readFile fileHashes)
                         dirs st)).
Proof.
  induction dirs as [|d dirs IH]; intros seen st Hk Hc; simpl.
  - rewrite app_nil_r. now split.
  - unfold scanDir at 2 4. unfold scannedFiles. simpl.
    destruct (existsSync d).
    + destruct (scanFiles_inv fileHashes (findXMLFiles join readdir d)
                  seen st Hk Hc) as [Hk' Hc'].
      destruct (IH _ _ Hk' Hc') as [Hk'' Hc''].
      split; [|assumption].
      intros k Hin. specialize (Hk'' k Hin).
      now rewrite <- app_assoc in Hk''.
    + simpl. now apply IH.
Qed.

(** The second phase adds deletions of files under the scanned
    directories only. *)
Lemma detectDeleted_inv directories currentFiles (entries : list (jsstring * jsstring)) :
  forall changes,
    Forall (fun c => exists_ c = false -> inScanned directories (filePath c) = true)
           changes ->
    Forall (fun c => exists_ c = false -> inScanned directories (filePath c) = true)
           (fold_left (detectDeleted sep directories currentFiles) entries changes).
Proof.
  induction entries as [|e entries IH]; intros changes H; simpl; [assumption|].
  apply IH. unfold detectDeleted.
  destruct (negb (map_has str_eqb currentFiles (fst e))) ; simpl; [|assumption].
  destruct (inScanned directories (fst e)) eqn:E; [|assumption].
  apply Forall_app. split; [assumption|].
  constructor; [|constructor]. simpl. intros _. exact E.
Qed.

(** The third phase forgets deleted files only. *)
Lemma forget_get (changes : list FileChange) : forall m p,
  Forall (fun c => exists_ c = false -> filePath c <> p) changes ->
  get (fold_left forget changes m) p = get m p.
Proof.
  induction changes as [|c changes IH]; intros m p H; simpl; [reflexivity|].
  inversion H as [|? ? Hc Hrest]; subst.
  rewrite IH by assumption. unfold forget.
  destruct (exists_ c); [reflexivity|].
  apply (map_get_delete_other str_eqb str_eqb_eq). now apply Hc.
Qed.

Lemma startsWith_app (s p q : jsstring) :
  startsWith s (p ++ q) = true -> startsWith s p = true.
Proof.
  revert s. induction p as [|y p IH]; intros s;
    [destruct s; reflexivity|].
  destruct s as [|x s]; simpl; [discriminate|].
  intros H. apply andb_true_iff in H as [Hx H].
  rewrite Hx. simpl. now apply IH.
Qed.

Lemma startsWith_trans (s p q : jsstring) :
  startsWith s p = true -> startsWith p q = true -> startsWith s q = true.
Proof.
  revert s p. induction q as [|z q IH]; intros s p Hsp Hpq;
    [destruct s; reflexivity|].
  destruct p as [|y p]; [discriminate|].
  destruct s as [|x s]; [discriminate|].
  simpl in *. apply andb_true_iff in Hsp as [Hxy Hsp].
  apply andb_true_iff in Hpq as [Hyz Hpq].
  apply N.eqb_eq in Hxy, Hyz. subst.
  rewrite N.eqb_refl. simpl. eapply IH; eassumption.
Qed.

Lemma Dirent_ind_nested (P : Dirent -> Prop) :
  (forall name, P (File name)) ->
  (forall name entries, Forall P entries -> P (Directory name entries)) ->
  (forall name, P (Other name)) ->
  forall entry, P entry.
Proof.
  intros Hf Hd Ho. fix IH 1. intros [name|name entries|name].
  - apply Hf.
  - apply Hd. induction entries as [|e entries IHe]; constructor.
    + apply IH.
    + exact IHe.
  - apply Ho.
Qed.

(** When [path.join] puts a name below its directory, the walk of a
    directory yields paths below it. *)
Hypothesis join_below :
  forall dir name, startsWith (join dir name) (dir ++ sep) = true.

Lemma walk_below (entry : Dirent) : forall currentDir p,
  In p (walk join currentDir entry) ->
  startsWith p (currentDir ++ sep) = true.
Proof.
  induction entry as [name|name entries IH|name] using Dirent_ind_nested;
    intros currentDir p Hin; simpl in Hin.
  - destruct (endsWith name (lit ".xml")); [|contradiction].
    destruct Hin as [<-|[]]. apply join_below.
  - apply in_flat_map in Hin. destruct Hin as (e & He & Hin).
    rewrite Forall_forall in IH.
    specialize (IH e He _ _ Hin).
    apply startsWith_app in IH.
    eapply startsWith_trans; [exact IH|apply join_below].
  - contradiction.
Qed.

Lemma scannedFiles_inScanned (directories : list jsstring) p :
  In p (files directories) -> inScanned directories p = true.
Proof.
  unfold scannedFiles, isInScannedDir, normalizedDirs. intros Hin.
  apply in_flat_map in Hin. destruct Hin as (dir & Hdir & Hin).
  apply existsb_exists.
  exists (if endsWith dir sep then dir else dir ++ sep). split.
  - apply in_map_iff. now exists dir.
  - destruct (existsSync dir); [|contradiction].
    unfold findXMLFiles in Hin. apply in_flat_map in Hin.
    destruct Hin as (e & _ & Hin). apply walk_below in Hin.
    destruct (endsWith dir sep); [|assumption].
    now apply startsWith_app in Hin.
Qed.

End Scanner.

Section ScannerFrame.
Import Js Watcher.
Variable sep : jsstring.
Variable join : jsstring -> jsstring -> jsstring.
Variable existsSync : jsstring -> bool.
Variable readdir : jsstring -> list Dirent.
Variable readFile : jsstring -> jsstring.

(** C9.  A scan of the directories [directories] emits a deletion only
    for a path below one of them, and leaves the entry of the hash map
    unchanged for every path that is neither below one of them nor read
    by the scan; when [path.join] puts a name below its directory, the
    second condition follows from the first. *)
Theorem C9_scan_leaves_other_directories
    (fileHashes : list (jsstring * jsstring)) (directories : list jsstring) :
  let result :=
    scanForChanges sep join existsSync readdir readFile fileHashes directories in
  (forall c, In c (fst result) -> exists_ c = false ->
             isInScannedDir sep directories (filePath c) = true) /\
  (forall p, isInScannedDir sep directories p = false ->
             ~ In p (scannedFiles join existsSync readdir directories) ->
             map_get str_eqb (snd result) p = map_get str_eqb fileHashes p) /\
  ((forall dir name, startsWith (join dir name) (dir ++ sep) = true) ->
   forall p, isInScannedDir sep directories p = false ->
             map_get str_eqb (snd result) p = map_get str_eqb fileHashes p).
Proof.
  cbv zeta. unfold scanForChanges. cbn [fst snd].
  set (scanned := fold_left _ directories ([], [])).
  destruct (scanDirs_inv join existsSync readdir readFile fileHashes
              directories [] ([], []))
    as [Hkeys Hnew]; [intros k []|constructor|].
  fold scanned in Hkeys, Hnew. cbn [app] in Hkeys.
  set (changes := fold_left _ fileHashes (snd scanned)).
  assert (Hdel : Forall (fun c => exists_ c = false ->
                   isInScannedDir sep directories (filePath c) = true) changes).
  { apply detectDeleted_inv. eapply Forall_impl; [|exact Hnew].
    simpl. intros c Hc Hc'. congruence. }
  assert (Hframe : forall p,
            isInScannedDir sep directories p = false ->
            ~ In p (scannedFiles join existsSync readdir directories) ->
            map_get str_eqb
              (fold_left (fun m e => map_set str_eqb m (fst e) (snd e))
                         (fst scanned) (fold_left forget changes fileHashes)) p
            = map_get str_eqb fileHashes p).
  { intros p Hout Hunread.
    rewrite (fill_get_absent str_eqb str_eqb_eq fst snd).
    - apply forget_get. eapply Forall_impl; [|exact Hdel].
      simpl. intros c Hc Hex Heq. rewrite Heq in Hc.
      rewrite (Hc Hex) in Hout. discriminate.
    - intros Hin. apply Hunread. now apply Hkeys. }
  split; [|split].
  - intros c Hin. rewrite Forall_forall in Hdel. now apply Hdel.
  - exact Hframe.
  - intros Hjoin p Hout. apply Hframe; [assumption|].
    intros Hin.
    rewrite (scannedFiles_inScanned sep join existsSync readdir Hjoin
               directories p Hin) in Hout.
    discriminate.
Qed.

End ScannerFrame.

(** The theorem on a project with two artifact directories, of which one
    is scanned. *)
Lemma C9_scan_leaves_other_directories_witness :
  let sep := Js.lit "/" in
  let join := fun dir name : Js.jsstring => dir ++ sep ++ name in
  let readdir := fun dir : Js.jsstring =>
    if Js.str_eqb dir (Js.lit "/p/apis")
    then [Watcher.File (Js.lit "bank.xml"); Watcher.File (Js.lit "notes.txt")]
    else [Watcher.File (Js.lit "s.xml")] in
  let readFile := fun _ : Js.jsstring => Js.lit "<api/>" in
  let fileHashes := [(Js.lit "/p/sequences/s.xml", Js.lit "h-s");
                     (Js.lit "/p/apis/old.xml", Js.lit "h-old")] in
  let directories := [Js.lit "/p/apis"] in
  let result :=
    Watcher.scanForChanges sep join (fun _ => true) readdir readFile
                           fileHashes directories in
  Watcher.isInScannedDir sep directories (Js.lit "/p/sequences/s.xml") = false /\
  ~ In (Js.lit "/p/sequences/s.xml")
       (Watcher.scannedFiles join (fun _ => true) readdir directories) /\
  Js.map_get Js.str_eqb (snd result) (Js.lit "/p/sequences/s.xml")
    = Some (Js.lit "h-s").
Proof.
  intros sep join readdir readFile fileHashes directories result.
  assert (Hout : Watcher.isInScannedDir sep directories
                   (Js.lit "/p/sequences/s.xml") = false) by reflexivity.
  assert (Hunread : ~ In (Js.lit "/p/sequences/s.xml")
                      (Watcher.scannedFiles join (fun _ => true) readdir
                                            directories)).
  { vm_compute. intros [H|[]]. discriminate H. }
  split; [exact Hout|]. split; [exact Hunread|].
  destruct (C9_scan_leaves_other_directories sep join (fun _ => true) readdir
              readFile fileHashes directories) as (_ & Hframe & _).
  unfold result. rewrite (Hframe _ Hout Hunread). reflexivity.
Defined.

(** ** Line ranges of self-closing elements *)

Section SelfClosing.
Import Js Chunker.










(** The names of letters, digits and the characters [_], [-], [:] and
    [.] are literal. *)
Lemma literalName_of_name_characters (tagName : jsstring) :
  forallb (fun c => isWordChar c || (c =? 45) || (c =? 58) || (c =? 46))%N
          tagName = true ->
  literalName tagName = true.
Proof.
  unfold literalName. rewrite !forallb_forall. intros H c Hc.
  specialize (H c Hc). apply negb_true_iff.
  unfold isSyntaxCharacter. cbn [existsb]. unfold isWordChar in H.
  repeat rewrite orb_true_iff in H. repeat rewrite andb_true_iff in H.
  repeat rewrite N.leb_le in H. repeat rewrite N.eqb_eq in H.
  repeat (apply orb_false_iff; split); try reflexivity;
    apply N.eqb_neq; lia.
Qed.

Example literalName_examples :
  literalName (lit "wsp:Policy") = true /\
  literalName (lit "call-template.v2") = true /\
  literalName (lit "a+b") = false /\
  literalName (lit "a(b") = false.
Proof. repeat split. Qed.




End SelfClosing.

(** ** Embedding blobs *)

Section Blobs.
Import Float32.

Lemma fromBuffer_buffer (v : Float32Array) : fromBuffer (buffer v) = Some v.
Proof.
  induction v as [|[x0 x1 x2 x3] v IH]; [reflexivity|].
  cbn [buffer flat_map b0 b1 b2 b3 app]. fold (buffer v).
  cbn [fromBuffer]. now rewrite IH.
Qed.

Lemma fromBuffer_inv (n : nat) : forall bytes v,
  (length bytes <= n)%nat ->
  fromBuffer bytes = Some v -> buffer v = bytes.
Proof.
  induction n as [|n IH]; intros bytes v Hlen H.
  - destruct bytes; [|simpl in Hlen; lia]. now inversion H.
  - destruct bytes as [|x0 [|x1 [|x2 [|x3 rest]]]]; try discriminate.
    + now inversion H.
    + cbn [fromBuffer] in H.
      destruct (fromBuffer rest) as [v'|] eqn:E; [|discriminate].
      inversion H; subst. cbn [buffer flat_map b0 b1 b2 b3 app].
      fold (buffer v'). rewrite (IH rest v'); [reflexivity| |assumption].
      simpl in Hlen. lia.
Qed.

Lemma buffer_fromBuffer (bytes : list byte) (v : Float32Array) :
  fromBuffer bytes = Some v -> buffer v = bytes.
Proof. apply (fromBuffer_inv (length bytes)). lia. Qed.

End Blobs.

(** ** The storage layer *)

Section StoreFacts.
Import Js Store.

Lemma max_id_ge (rows : list Row) r : In r rows -> id r <= max_id rows.
Proof.
  induction rows as [|x rows IH]; [contradiction|].
  intros [->|Hin]; simpl; [lia|]. specialize (IH Hin). lia.
Qed.

Lemma next_id_fresh (db : DB) r : In r (chunks db) -> id r <> next_id db.
Proof.
  intros Hin. apply max_id_ge in Hin. unfold next_id. lia.
Qed.

Lemma chunkRowsOf_fresh (db : DB) : chunkRowsOf db (next_id db) = [].
Proof.
  unfold chunkRowsOf.
  assert (H : forall r, In r (chunks db) -> (id r =? next_id db) = false).
  { intros r Hin. apply Z.eqb_neq. now apply next_id_fresh. }
  induction (chunks db) as [|x rows IH]; [reflexivity|].
  simpl. rewrite H by now left.
  apply IH. intros r Hin. apply H. now right.
Qed.

(** The rows that [insertChunk] and [updateChunk] write. *)
Lemma insertChunk_rows db metadata emb text rowid db' :
  insertChunk db metadata emb text = Ok (rowid, db') ->
  rowid = next_id db /\
  chunks db' = chunks db ++ [bindRow rowid (filePath metadata) metadata emb] /\
  chunks_fts db' =
    match supplied text with
    | Some t => chunks_fts db ++ [mkFts rowid t]
    | None => chunks_fts db
    end.
Proof.
  unfold insertChunk.
  destruct (existsb _ (chunks db)); [discriminate|].
  intros H. inversion H; subst. unfold syncInsert.
  destruct (supplied text); repeat split; reflexivity.
Qed.

Lemma updateChunk_rows db rowid metadata emb text db' :
  updateChunk db rowid metadata emb text = Ok db' ->
  chunks db' =
    map (fun r => if id r =? rowid
                  then bindRow rowid (file_path r) metadata emb else r)
        (chunks db) /\
  chunks_fts db' =
    match supplied text with
    | Some t =>
        filter (fun f => negb (chunk_id f =? rowid)) (chunks_fts db)
        ++ [mkFts rowid t]
    | None => chunks_fts db
    end.
Proof.
  unfold updateChunk.
  destruct (existsb _ (chunks db)); [discriminate|].
  intros H. inversion H; subst. unfold syncUpdate.
  destruct (supplied text); split; reflexivity.
Qed.

End StoreFacts.

Section RoundTrip.
Import Js Store.

Lemma bindRow_decodes rowid path metadata (v : Float32.Float32Array) :
  Pipeline.reusedEmbedding (bindRow rowid path metadata v) = Ok v /\
  Search.chunkEmbedding (bindRow rowid path metadata v) = Ok v.
Proof.
  unfold Pipeline.reusedEmbedding, Search.chunkEmbedding. cbn [embedding bindRow].
  now rewrite fromBuffer_buffer.
Qed.

(** C4.  The bytes written for an embedding decode to the embedding: as a
    law of the two conversions, for the row that [insertChunk] and
    [updateChunk] write, and for the record that the pipeline
    ([getChunksByFile]) and the search engine ([getAllChunks]) read back
    after the write. *)
Theorem C4_embedding_round_trip (v : Float32.Float32Array) :
  Float32.fromBuffer (Float32.buffer v) = Some v /\
  (forall rowid path metadata,
      Pipeline.reusedEmbedding (bindRow rowid path metadata v) = Ok v /\
      Search.chunkEmbedding (bindRow rowid path metadata v) = Ok v) /\
  (forall db metadata text rowid db',
      insertChunk db metadata v text = Ok (rowid, db') ->
      exists r,
        In r (getChunksByFile db' (filePath metadata)) /\ id r = rowid /\
        forall r', In r' (getAllChunks db') -> id r' = rowid ->
          r' = r /\
          Pipeline.reusedEmbedding r' = Ok v /\
          Search.chunkEmbedding r' = Ok v) /\
  (forall db rowid metadata text db',
      updateChunk db rowid metadata v text = Ok db' ->
      forall r', In r' (getAllChunks db') -> id r' = rowid ->
        Pipeline.reusedEmbedding r' = Ok v /\
        Search.chunkEmbedding r' = Ok v).
Proof.
  split; [apply fromBuffer_buffer|].
  split; [intros; apply bindRow_decodes|].
  split.
  - intros db metadata text rowid db' H.
    apply insertChunk_rows in H. destruct H as (Hid & Hrows & _).
    exists (bindRow rowid (filePath metadata) metadata v).
    split; [|split].
    + unfold getChunksByFile. apply filter_In. split.
      * rewrite Hrows. apply in_or_app. right. now left.
      * cbn [file_path bindRow]. apply str_eqb_refl.
    + reflexivity.
    + intros r' Hin Hr'. unfold getAllChunks in Hin. rewrite Hrows in Hin.
      apply in_app_or in Hin. destruct Hin as [Hold|[<-|[]]].
      * exfalso. subst rowid. now apply (next_id_fresh db r').
      * split; [reflexivity|]. apply bindRow_decodes.
  - intros db rowid metadata text db' H r' Hin Hr'.
    apply updateChunk_rows in H. destruct H as (Hrows & _).
    unfold getAllChunks in Hin. rewrite Hrows in Hin.
    apply in_map_iff in Hin. destruct Hin as (r & <- & Hr).
    destruct (id r =? rowid) eqn:E.
    + apply bindRow_decodes.
    + apply Z.eqb_neq in E. contradiction.
Qed.

Lemma C4_embedding_round_trip_witness :
  let v := [Float32.mkElt x00 x00 x80 x3f; Float32.mkElt xcd xcc x4c xbe] in
  let metadata :=
    mkMetadata (lit "/p/api.xml") (lit "f1") (lit "r") (lit "api")
               (lit "filter") 0 3 9 None 0 (lit "h") (lit "mediator")
               (lit "validation") [] None None None in
  insertChunk empty metadata v (Some (lit "filter xpath")) =
    Ok (1, run empty (Insert metadata v (Some (lit "filter xpath")))) /\
  exists r,
    In r (getChunksByFile (run empty (Insert metadata v (Some (lit "filter xpath"))))
                          (lit "/p/api.xml")) /\
    Pipeline.reusedEmbedding r = Ok v /\ Search.chunkEmbedding r = Ok v.
Proof.
  intros v metadata.
  assert (H : insertChunk empty metadata v (Some (lit "filter xpath")) =
              Ok (1, run empty (Insert metadata v (Some (lit "filter xpath")))))
    by reflexivity.
  split; [exact H|].
  destruct (C4_embedding_round_trip v) as (_ & _ & Hins & _).
  destruct (Hins empty metadata _ _ _ H) as (r & Hin & Hid & Hdec).
  exists r. split; [exact Hin|].
  apply (Hdec r); [|exact Hid].
  unfold getChunksByFile in Hin. apply filter_In in Hin. apply Hin.
Defined.

End RoundTrip.

(** ** The FTS mirror *)

Section Mirror.
Import Js Store.

Lemma filter_filter_keep {A} (f g : A -> bool) (l : list A) :
  (forall x, In x l -> f x = true -> g x = true) ->
  filter f (filter g l) = filter f l.
Proof.
  induction l as [|x l IH]; intros H; simpl; [reflexivity|].
  destruct (g x) eqn:G; simpl.
  - destruct (f x); rewrite IH; auto with datatypes.
  - destruct (f x) eqn:F.
    + rewrite H in G; [discriminate|now left|assumption].
    + apply IH. auto with datatypes.
Qed.

Lemma filter_filter_none {A} (f g : A -> bool) (l : list A) :
  (forall x, In x l -> f x = true -> g x = false) ->
  filter f (filter g l) = [].
Proof.
  induction l as [|x l IH]; intros H; simpl; [reflexivity|].
  destruct (g x) eqn:G; simpl.
  - destruct (f x) eqn:F.
    + rewrite H in G; [discriminate|now left|assumption].
    + apply IH. auto with datatypes.
  - apply IH. auto with datatypes.
Qed.

Lemma filter_none {A} (f : A -> bool) (l : list A) :
  (forall x, In x l -> f x = false) -> filter f l = [].
Proof.
  induction l as [|x l IH]; intros H; simpl; [reflexivity|].
  rewrite H by now left. apply IH. auto with datatypes.
Qed.

Lemma NoDup_snoc {A} (l : list A) (x : A) :
  NoDup l -> ~ In x l -> NoDup (l ++ [x]).
Proof.
  induction 1 as [|y l Hy Hnd IH]; intros Hx; simpl.
  - constructor; [intros []|constructor].
  - constructor.
    + intros Hin. apply in_app_or in Hin. destruct Hin as [Hin|[->|[]]].
      * contradiction.
      * apply Hx. now left.
    + apply IH. intros Hin. apply Hx. now right.
Qed.

Lemma NoDup_ids_filter (f : Row -> bool) (rows : list Row) :
  NoDup (map id rows) -> NoDup (map id (filter f rows)).
Proof.
  induction rows as [|r rows IH]; intros H; simpl; [constructor|].
  inversion H as [|? ? Hr Hrest]; subst.
  destruct (f r); simpl; [|now apply IH].
  constructor; [|now apply IH].
  intros Hin. apply Hr. apply in_map_iff in Hin.
  destruct Hin as (x & Hx & Hin). apply filter_In in Hin.
  apply in_map_iff. exists x. tauto.
Qed.

Lemma NoDup_ids_inj (rows : list Row) r r' :
  NoDup (map id rows) -> In r rows -> In r' rows -> id r = id r' -> r = r'.
Proof.
  induction rows as [|x rows IH]; intros H Hr Hr' Heq; [contradiction|].
  inversion H as [|? ? Hx Hrest]; subst.
  destruct Hr as [->|Hr], Hr' as [->|Hr']; auto.
  - exfalso. apply Hx. rewrite Heq. now apply in_map.
  - exfalso. apply Hx. rewrite <- Heq. now apply in_map.
Qed.

(** A primary key selects at most one row. *)
Lemma chunkRows_unique (rows : list Row) rowid :
  NoDup (map id rows) ->
  existsb (fun r => id r =? rowid) rows = true ->
  length (filter (fun r => id r =? rowid) rows) = 1%nat.
Proof.
  induction rows as [|r rows IH]; intros H Hex; simpl in *; [discriminate|].
  inversion H as [|? ? Hr Hrest]; subst.
  destruct (id r =? rowid) eqn:E.
  - apply Z.eqb_eq in E. simpl. f_equal.
    rewrite filter_none; [reflexivity|].
    intros x Hx. apply Z.eqb_neq. intros Hid. apply Hr.
    rewrite E, <- Hid. now apply in_map.
  - simpl in Hex. now apply IH.
Qed.

Lemma select_after_update (upd : Row -> Row) (rows : list Row) rowid :
  (forall r, id (upd r) = id r) ->
  length (filter (fun r => id r =? rowid) (map upd rows)) =
  length (filter (fun r => id r =? rowid) rows).
Proof.
  intros Hupd. induction rows as [|r rows IH]; [reflexivity|].
  cbn [map filter]. rewrite Hupd.
  destruct (id r =? rowid); cbn [length]; now rewrite IH.
Qed.

Lemma mirror_empty : ftsMirror empty.
Proof. split; [constructor|reflexivity]. Qed.

Lemma mirror_insert db metadata emb text :
  supplied text <> None -> ftsMirror db ->
  ftsMirror (run db (Insert metadata emb text)).
Proof.
  intros Htext [Hnd Hcount]. cbn [run].
  destruct (insertChunk db metadata emb text) as [[rowid db']|] eqn:E;
    [|now split].
  apply insertChunk_rows in E. destruct E as (Hid & Hrows & Hfts).
  destruct (supplied text) as [t|]; [|congruence].
  split.
  - rewrite Hrows, map_app. apply NoDup_snoc; [assumption|].
    cbn [map id bindRow]. intros Hin. apply in_map_iff in Hin.
    destruct Hin as (r & Hr & Hin). subst rowid.
    now apply (next_id_fresh db r).
  - intros i. unfold ftsRowsOf, chunkRowsOf.
    rewrite Hfts, Hrows, !filter_app, !length_app.
    f_equal; [apply Hcount|]. cbn [filter chunk_id id bindRow].
    destruct (rowid =? i); reflexivity.
Qed.

Lemma mirror_update db rowid metadata emb text :
  supplied text <> None -> hasChunk db rowid = true -> ftsMirror db ->
  ftsMirror (run db (Update rowid metadata emb text)).
Proof.
  intros Htext Hhas [Hnd Hcount]. cbn [run].
  destruct (updateChunk db rowid metadata emb text) as [db'|] eqn:E;
    [|now split].
  apply updateChunk_rows in E. destruct E as (Hrows & Hfts).
  destruct (supplied text) as [t|]; [|congruence].
  assert (Hids : map id (chunks db') = map id (chunks db)).
  { rewrite Hrows, map_map. apply map_ext. intros r.
    destruct (id r =? rowid) eqn:Er; [|reflexivity].
    apply Z.eqb_eq in Er. now rewrite Er. }
  assert (Hsel : forall i,
            length (chunkRowsOf db' i) = length (chunkRowsOf db i)).
  { intros i. unfold chunkRowsOf. rewrite Hrows.
    apply select_after_update. intros r.
    destruct (id r =? rowid) eqn:Er; [|reflexivity].
    apply Z.eqb_eq in Er. now rewrite Er. }
  split; [now rewrite Hids|].
  intros i. rewrite Hsel. unfold ftsRowsOf. rewrite Hfts, filter_app, length_app.
  cbn [filter chunk_id].
  destruct (rowid =? i) eqn:Ei.
  - apply Z.eqb_eq in Ei. subst i.
    rewrite filter_filter_none.
    + unfold chunkRowsOf. now rewrite chunkRows_unique.
    + intros f _ Hf. now rewrite Hf.
  - rewrite filter_filter_keep.
    + simpl. rewrite Nat.add_0_r. apply Hcount.
    + intros f _ Hf. apply Z.eqb_eq in Hf. rewrite Hf.
      rewrite Z.eqb_sym. now rewrite Ei.
Qed.

Lemma mirror_delete db rowid :
  ftsMirror db -> ftsMirror (run db (Delete rowid)).
Proof.
  intros [Hnd Hcount]. cbn [run]. unfold deleteChunk, ftsMirror.
  cbn [chunks cascade set_references set_chunks deleteFts set_fts chunks_fts].
  split; [now apply NoDup_ids_filter|].
  intros i. unfold ftsRowsOf, chunkRowsOf.
  cbn [chunks chunks_fts cascade set_references set_chunks deleteFts set_fts].
  destruct (rowid =? i) eqn:Ei.
  - apply Z.eqb_eq in Ei. subst i.
    rewrite !filter_filter_none; [reflexivity| |];
      intros x _ Hx; now rewrite Hx.
  - rewrite !filter_filter_keep; [apply Hcount| |];
      intros x _ Hx; apply Z.eqb_eq in Hx; rewrite Hx;
      rewrite Z.eqb_sym; now rewrite Ei.
Qed.

Lemma deleteFts_fold (rows : list Row) : forall db,
  let db' := fold_left (fun d r => deleteFts d (id r)) rows db in
  chunks db' = chunks db /\ chunks_seq db' = chunks_seq db /\
  chunks_fts db' =
    filter (fun f => negb (existsb (fun r => id r =? chunk_id f) rows))
           (chunks_fts db).
Proof.
  induction rows as [|r rows IH]; intros db; cbn [fold_left].
  - repeat split. cbn [existsb negb].
    induction (chunks_fts db) as [|f l IHl]; simpl; congruence.
  - destruct (IH (deleteFts db (id r))) as (Hc & Hs & Hf).
    cbv zeta in *. rewrite Hc, Hs, Hf. repeat split.
    cbn [deleteFts set_fts chunks_fts].
    induction (chunks_fts db) as [|f l IHl]; [reflexivity|].
    cbn [filter existsb]. rewrite (Z.eqb_sym (id r) (chunk_id f)).
    destruct (chunk_id f =? id r); cbn [negb orb filter]; [assumption|].
    destruct (existsb _ rows); cbn [negb]; now rewrite IHl.
Qed.

Lemma mirror_deleteByFile db path :
  ftsMirror db -> ftsMirror (run db (DeleteByFile path)).
Proof.
  intros [Hnd Hcount]. cbn [run]. unfold deleteChunksByFile.
  set (rows := filter (fun r => str_eqb (file_path r) path) (chunks db)).
  destruct (deleteFts_fold rows db) as (Hc & Hs & Hf). cbv zeta in Hc, Hs, Hf.
  unfold ftsMirror, ftsRowsOf, chunkRowsOf.
  cbn [chunks chunks_fts cascade set_references set_chunks].
  rewrite Hc, Hf.
  split; [now apply NoDup_ids_filter|].
  intros i.
  destruct (existsb (fun r => id r =? i) rows) eqn:Egone.
  - rewrite !filter_filter_none; [reflexivity| |].
    + intros r Hr Hi. apply Z.eqb_eq in Hi.
      apply existsb_exists in Egone. destruct Egone as (r' & Hr' & Hi').
      apply Z.eqb_eq in Hi'. unfold rows in Hr'. apply filter_In in Hr'.
      destruct Hr' as [Hr' Hpath].
      assert (r = r') by (eapply NoDup_ids_inj; eauto; congruence).
      subst r'. now rewrite Hpath.
    + intros f _ Hi. apply Z.eqb_eq in Hi. rewrite Hi, Egone. reflexivity.
  - rewrite !filter_filter_keep; [apply Hcount| |].
    + intros r Hr Hi. destruct (str_eqb (file_path r) path) eqn:Ep;
        [|reflexivity].
      assert (existsb (fun r => id r =? i) rows = true); [|congruence].
      apply existsb_exists. exists r. split; [|assumption].
      unfold rows. apply filter_In. now split.
    + intros f _ Hi. apply Z.eqb_eq in Hi. rewrite Hi, Egone. reflexivity.
Qed.

Lemma mirror_run db op :
  pipelineCall db op -> ftsMirror db -> ftsMirror (run db op).
Proof.
  destruct op as [metadata emb text|rowid metadata emb text|rowid|path];
    cbn [pipelineCall]; intros Hcall Hm.
  - now apply mirror_insert.
  - destruct Hcall. now apply mirror_update.
  - now apply mirror_delete.
  - now apply mirror_deleteByFile.
Qed.

(** C5, as the code has it.  In every state reached from the empty
    database by [insertChunk] and [updateChunk] with a non-empty embedding
    text, [updateChunk] addressing a row of the table, [deleteChunk] and
    [deleteChunksByFile], the FTS mirror is bijective with the table on
    the chunk id: every row of [chunks] has exactly one row of
    [chunks_fts], and every row of [chunks_fts] has its row of
    [chunks]. *)
Theorem C5_fts_mirror_bijective (db : DB) :
  reachable pipelineCall db ->
  ftsMirror db /\
  (forall r, In r (chunks db) -> length (ftsRowsOf db (id r)) = 1%nat) /\
  (forall f, In f (chunks_fts db) ->
     exists r, In r (chunks db) /\ id r = chunk_id f).
Proof.
  intros Hreach.
  assert (Hm : ftsMirror db).
  { induction Hreach as [|db op _ IH Hcall]; [apply mirror_empty|].
    now apply mirror_run. }
  split; [exact Hm|]. destruct Hm as [Hnd Hcount]. split.
  - intros r Hr. rewrite Hcount. unfold chunkRowsOf.
    apply chunkRows_unique; [assumption|].
    apply existsb_exists. exists r. split; [assumption|apply Z.eqb_refl].
  - intros f Hf.
    assert (Hin : In f (ftsRowsOf db (chunk_id f))).
    { apply filter_In. split; [assumption|apply Z.eqb_refl]. }
    specialize (Hcount (chunk_id f)).
    destruct (chunkRowsOf db (chunk_id f)) as [|r rows] eqn:E.
    + destruct (ftsRowsOf db (chunk_id f)); [contradiction|discriminate].
    + exists r.
      assert (Hr : In r (chunkRowsOf db (chunk_id f))) by (rewrite E; now left).
      apply filter_In in Hr. destruct Hr as [Hr Hid].
      apply Z.eqb_eq in Hid. now split.
Qed.

Lemma C5_fts_mirror_bijective_witness :
  let metadata :=
    mkMetadata (lit "/p/api.xml") (lit "f1") (lit "r") (lit "api")
               (lit "filter") 0 3 9 None 0 (lit "h") (lit "mediator")
               (lit "validation") [] None None None in
  let db1 := run empty (Insert metadata [] (Some (lit "filter a"))) in
  let db2 := run db1 (Update 1 metadata [] (Some (lit "filter b"))) in
  reachable pipelineCall db2 /\
  chunks_fts db2 = [mkFts 1 (lit "filter b")] /\
  ftsMirror db2.
Proof.
  intros metadata db1 db2.
  assert (Hreach : reachable pipelineCall db2).
  { apply reachable_run; [apply reachable_run; [apply reachable_empty|]|].
    - simpl. discriminate.
    - split; [simpl; discriminate|reflexivity]. }
  split; [exact Hreach|]. split; [reflexivity|].
  exact (proj1 (C5_fts_mirror_bijective db2 Hreach)).
Defined.

(** C5 fails as stated.  [updateChunk] on an id that no row has writes an
    FTS row all the same, which has no row of [chunks]. *)
Lemma C5_update_of_a_missing_row :
  let metadata :=
    mkMetadata (lit "/p/api.xml") (lit "f1") (lit "r") (lit "api")
               (lit "filter") 0 3 9 None 0 (lit "h") (lit "mediator")
               (lit "validation") [] None None None in
  let db := run empty (Update 7 metadata [] (Some (lit "filter a"))) in
  reachable textGiven db /\
  chunks db = [] /\
  chunks_fts db = [mkFts 7 (lit "filter a")] /\
  ~ ftsMirror db.
Proof.
  intros metadata db. split; [|split; [|split]].
  - apply reachable_run; [apply reachable_empty|]. simpl. discriminate.
  - reflexivity.
  - reflexivity.
  - intros [_ Hcount]. specialize (Hcount 7). discriminate Hcount.
Qed.

(** An embedding text that is supplied but empty is not mirrored
    either. *)
Lemma insert_with_empty_text :
  let metadata :=
    mkMetadata (lit "/p/api.xml") (lit "f1") (lit "r") (lit "api")
               (lit "filter") 0 3 9 None 0 (lit "h") (lit "mediator")
               (lit "validation") [] None None None in
  let db := run empty (Insert metadata [] (Some [])) in
  reachable textGiven db /\ length (chunks db) = 1%nat /\ chunks_fts db = [].
Proof.
  intros metadata db. split; [|split; reflexivity].
  apply reachable_run; [apply reachable_empty|]. simpl. discriminate.
Qed.

End Mirror.

(** ** The incremental pipeline *)

Section PipelineSteps.
Import Js Store Pipeline.
Variable embed : jsstring -> result Float32.Float32Array.
Variable dateNow : nat -> Z.

Lemma sameChunks_refl w : sameChunks w w.
Proof. repeat split. Qed.

Lemma sameChunks_trans w1 w2 w3 :
  sameChunks w1 w2 -> sameChunks w2 w3 -> sameChunks w1 w3.
Proof.
  intros (A1 & A2 & A3 & A4) (B1 & B2 & B3 & B4).
  repeat split; congruence.
Qed.

Lemma getSequenceDefinition_hasChunk d ref def :
  getSequenceDefinition d ref = Some def -> hasChunk d (id def) = true.
Proof.
  unfold getSequenceDefinition, hasChunk. intros H.
  apply find_some in H. destruct H as [Hin _].
  apply existsb_exists. exists def. split; [assumption|apply Z.eqb_refl].
Qed.

Lemma linkReference_run dbId ref w :
  exists res w',
    linkReference dateNow dbId ref w = (res, w') /\ sameChunks w w' /\
    (hasChunk (db w) dbId = true -> res = Ok tt).
Proof.
  unfold linkReference, bind, query.
  destruct (getSequenceDefinition (db w) ref) as [def|] eqn:Edef.
  - apply getSequenceDefinition_hasChunk in Edef.
    unfold readClock, statement. cbn [db embedCalls ticks].
    unfold linkSequenceReference. rewrite Edef.
    destruct (hasChunk (db w) dbId) eqn:Eh; cbn [andb].
    + do 2 eexists. split; [reflexivity|]. split; [|reflexivity].
      repeat split.
    + do 2 eexists. split; [reflexivity|]. split; [|discriminate].
      repeat split.
  - do 2 eexists. split; [reflexivity|]. split; [apply sameChunks_refl|].
    reflexivity.
Qed.

Lemma links_run dbId (refs : list jsstring) : forall w,
  exists res w',
    forEach refs (linkReference dateNow dbId) w = (res, w') /\
    sameChunks w w' /\
    (hasChunk (db w) dbId = true -> res = Ok tt).
Proof.
  induction refs as [|ref refs IH]; intros w; cbn [forEach].
  - do 2 eexists. split; [reflexivity|]. split; [apply sameChunks_refl|].
    reflexivity.
  - unfold bind.
    destruct (linkReference_run dbId ref w) as (res & w1 & E1 & S1 & H1).
    rewrite E1. destruct res as [[]|e].
    + destruct (IH w1) as (res2 & w2 & E2 & S2 & H2).
      rewrite E2. do 2 eexists. split; [reflexivity|].
      split; [eapply sameChunks_trans; eassumption|].
      intros Hh. apply H2. unfold hasChunk in *.
      destruct S1 as (-> & _). assumption.
    + do 2 eexists. split; [reflexivity|]. split; [assumption|].
      intros Hh. specialize (H1 Hh). discriminate.
Qed.

(** The effect of one turn of the loop of [processFile]. *)
Lemma processChunk_inv fileHash byLoc p c w res w' :
  processChunk embed dateNow fileHash byLoc p c w = (res, w') ->
  embedCalls w' =
    embedCalls w ++
    (if reusable byLoc c then [] else [Chunker.embeddingText c]) /\
  forall p', res = Ok p' ->
    reusedCount p' = reusedCount p + (if reusable byLoc c then 1 else 0) /\
    embeddedCount p' = embeddedCount p + (if reusable byLoc c then 0 else 1) /\
    exists parent now emb d1 dbId,
      let metadata := metadataOf c fileHash parent now in
      chunks (db w') = chunks d1 /\ chunks_seq (db w') = chunks_seq d1 /\
      map_get Z.eqb (chunkIndexToDbId p') (Chunker.chunkIndex c) = Some dbId /\
      match map_get key_eqb byLoc (chunkKey c) with
      | Some e =>
          dbId = id e /\
          (if str_eqb (content_hash e) (Chunker.contentHash c)
           then Float32.fromBuffer (embedding e) = Some emb
           else embed (Chunker.embeddingText c) = Ok emb) /\
          updateChunk (db w) (id e) metadata emb
                      (Some (Chunker.embeddingText c)) = Ok d1 /\
          matchedChunkIds p' = set_add (matchedChunkIds p) (id e)
      | None =>
          embed (Chunker.embeddingText c) = Ok emb /\
          insertChunk (db w) metadata emb (Some (Chunker.embeddingText c))
            = Ok (dbId, d1) /\
          matchedChunkIds p' = matchedChunkIds p
      end.
Proof.
  unfold processChunk, reusable, bind at 1, readClock.
  set (parent := match Chunker.parentChunkId c with
                 | Some parent => map_get Z.eqb (chunkIndexToDbId p) parent
                 | None => None
                 end).
  set (metadata := metadataOf c fileHash parent (dateNow (ticks w))).
  set (w1 := mkWorld (db w) (embedCalls w) (S (ticks w))).
  set (refs := match Chunker.referencedSequences c with
               | Some refs => refs
               | None => []
               end).
  destruct (map_get key_eqb byLoc (chunkKey c)) as [e|] eqn:Eloc.
  - destruct (str_eqb (content_hash e) (Chunker.contentHash c)) eqn:Ehash.
    + (* reuse *)
      unfold bind, lift, reusedEmbedding, update, statement, ret.
      destruct (Float32.fromBuffer (embedding e)) as [emb|] eqn:Edec.
      * cbn [db embedCalls ticks w1].
        destruct (updateChunk (db w) (id e) metadata emb
                    (Some (Chunker.embeddingText c))) as [d1|err] eqn:Eupd.
        -- cbn [fst snd].
           destruct (links_run (id e) refs
                       (mkWorld d1 (embedCalls w) (S (ticks w))))
             as (lres & w2 & El & (S1 & S2 & S3 & S4) & _).
           rewrite El. cbn [db embedCalls] in *.
           destruct lres as [[]|err]; intros H; inversion H; subst;
             (split; [rewrite S4, app_nil_r; reflexivity|]);
             intros p' Hp'; inversion Hp'; subst.
           cbn [reusedCount embeddedCount chunkIndexToDbId matchedChunkIds].
           split; [reflexivity|]. split; [lia|].
           exists parent, (dateNow (ticks w)), emb, d1, (id e).
           cbv zeta. rewrite (map_get_set_same Z.eqb Z.eqb_eq).
           repeat split; assumption.
        -- intros H; inversion H; subst. cbn [embedCalls].
           split; [now rewrite app_nil_r|]. intros p' Hp'. discriminate.
      * intros H; inversion H; subst. cbn [embedCalls w1].
        split; [now rewrite app_nil_r|]. intros p' Hp'. discriminate.
    + (* the content changed *)
      unfold bind, callEmbedder, update, statement, ret.
      cbn [db embedCalls ticks w1].
      destruct (embed (Chunker.embeddingText c)) as [emb|err] eqn:Eemb.
      * destruct (updateChunk (db w) (id e) metadata emb
                    (Some (Chunker.embeddingText c))) as [d1|err] eqn:Eupd.
        -- cbn [fst snd].
           destruct (links_run (id e) refs
                       (mkWorld d1 (embedCalls w ++ [Chunker.embeddingText c])
                                (S (ticks w))))
             as (lres & w2 & El & (S1 & S2 & S3 & S4) & _).
           rewrite El. cbn [db embedCalls] in *.
           destruct lres as [[]|err]; intros H; inversion H; subst;
             (split; [rewrite S4; reflexivity|]);
             intros p' Hp'; inversion Hp'; subst.
           cbn [reusedCount embeddedCount chunkIndexToDbId matchedChunkIds].
           split; [lia|]. split; [reflexivity|].
           exists parent, (dateNow (ticks w)), emb, d1, (id e).
           cbv zeta. rewrite (map_get_set_same Z.eqb Z.eqb_eq).
           repeat split; assumption.
        -- intros H; inversion H; subst. cbn [embedCalls].
           split; [reflexivity|]. intros p' Hp'. discriminate.
      * intros H; inversion H; subst. cbn [embedCalls].
        split; [reflexivity|]. intros p' Hp'. discriminate.
  - (* a new chunk *)
    unfold bind, callEmbedder, statement, ret.
    cbn [db embedCalls ticks w1].
    destruct (embed (Chunker.embeddingText c)) as [emb|err] eqn:Eemb.
    + destruct (insertChunk (db w) metadata emb
                  (Some (Chunker.embeddingText c))) as [[dbId d1]|err] eqn:Eins.
      * cbn [fst snd].
        destruct (links_run dbId refs
                    (mkWorld d1 (embedCalls w ++ [Chunker.embeddingText c])
                             (S (ticks w))))
          as (lres & w2 & El & (S1 & S2 & S3 & S4) & _).
        rewrite El. cbn [db embedCalls] in *.
        destruct lres as [[]|err]; intros H; inversion H; subst;
          (split; [rewrite S4; reflexivity|]);
          intros p' Hp'; inversion Hp'; subst.
        cbn [reusedCount embeddedCount chunkIndexToDbId matchedChunkIds].
        split; [lia|]. split; [reflexivity|].
        exists parent, (dateNow (ticks w)), emb, d1, dbId.
        cbv zeta. rewrite (map_get_set_same Z.eqb Z.eqb_eq).
        repeat split; assumption.
      * intros H; inversion H; subst. cbn [embedCalls].
        split; [reflexivity|]. intros p' Hp'. discriminate.
    + intros H; inversion H; subst. cbn [embedCalls].
      split; [reflexivity|]. intros p' Hp'. discriminate.
Qed.

End PipelineSteps.

Section Constraints.
Import Js Store Pipeline.

Lemma key_eqb_eq (a b : LocationKey) : key_eqb a b = true <-> a = b.
Proof.
  destruct a as [[a1 a2] a3], b as [[b1 b2] b3]. unfold key_eqb.
  rewrite !andb_true_iff, !Z.eqb_eq. split.
  - intros [[-> ->] ->]. reflexivity.
  - intros [= -> -> ->]. auto.
Qed.

Lemma same_key_iff (r r' : Row) :
  same_key r r' = true <->
  file_path r = file_path r' /\ recordKey r = recordKey r'.
Proof.
  unfold same_key, recordKey.
  rewrite !andb_true_iff, !Z.eqb_eq, str_eqb_eq. split.
  - intros [[[-> ->] ->] ->]. auto.
  - intros [-> [= -> -> ->]]. auto.
Qed.

Lemma same_key_sym (r r' : Row) : same_key r r' = same_key r' r.
Proof.
  destruct (same_key r r') eqn:E.
  - symmetry. apply same_key_iff. apply same_key_iff in E.
    destruct E as [-> ->]. auto.
  - destruct (same_key r' r) eqn:E'; [|reflexivity].
    apply same_key_iff in E'. destruct E' as [E1 E2].
    assert (same_key r r' = true) by (apply same_key_iff; auto).
    congruence.
Qed.

Lemma constraints_insert d metadata emb text rowid d' :
  constraintsHold d ->
  insertChunk d metadata emb text = Ok (rowid, d') ->
  constraintsHold d'.
Proof.
  intros [Hnd Huniq] Hins.
  pose proof Hins as Hrows. apply insertChunk_rows in Hrows.
  destruct Hrows as (Hid & Hrows & _).
  unfold insertChunk in Hins.
  destruct (existsb _ (chunks d)) eqn:Hcol; [discriminate|]. clear Hins.
  assert (Hfree : forall o, In o (chunks d) ->
            same_key (bindRow rowid (filePath metadata) metadata emb) o = false).
  { intros o Ho. destruct (same_key _ o) eqn:E; [|reflexivity].
    assert (existsb (same_key (bindRow (next_id d) (filePath metadata)
                                       metadata emb)) (chunks d) = true).
    { apply existsb_exists. exists o. subst rowid. now split. }
    congruence. }
  split.
  - rewrite Hrows, map_app. apply NoDup_snoc; [assumption|].
    cbn [map id bindRow]. intros Hin. apply in_map_iff in Hin.
    destruct Hin as (r & Hr & Hin). subst rowid.
    now apply (next_id_fresh d r).
  - intros r r' Hr Hr' Hk. rewrite Hrows in Hr, Hr'.
    apply in_app_or in Hr. apply in_app_or in Hr'.
    destruct Hr as [Hr|[<-|[]]], Hr' as [Hr'|[<-|[]]].
    + now apply Huniq.
    + rewrite same_key_sym, Hfree in Hk by assumption. discriminate.
    + rewrite Hfree in Hk by assumption. discriminate.
    + reflexivity.
Qed.

Lemma constraints_update d rowid metadata emb text d' :
  constraintsHold d ->
  updateChunk d rowid metadata emb text = Ok d' ->
  constraintsHold d'.
Proof.
  intros [Hnd Huniq] Hupd.
  pose proof Hupd as Hrows. apply updateChunk_rows in Hrows.
  destruct Hrows as (Hrows & _).
  unfold updateChunk in Hupd. cbv zeta in Hupd.
  destruct (existsb _ (chunks d)) eqn:Hcol; [discriminate|]. clear Hupd.
  set (upd := fun r : Row =>
         if id r =? rowid then bindRow rowid (file_path r) metadata emb
         else r) in *.
  assert (Hid : forall r, id (upd r) = id r).
  { intros r. unfold upd. destruct (id r =? rowid) eqn:E; [|reflexivity].
    apply Z.eqb_eq in E. now rewrite E. }
  assert (Hfree : forall r o, In r (chunks d) -> In o (chunks d) ->
            id r = rowid -> id o <> rowid -> same_key (upd r) o = false).
  { intros r o Hr Ho Hi Hne. destruct (same_key (upd r) o) eqn:E;
      [|reflexivity].
    assert (existsb (fun r0 => (id r0 =? rowid) &&
              existsb (fun o0 => negb (id o0 =? rowid) && same_key (upd r0) o0)
                      (chunks d)) (chunks d) = true); [|unfold upd in *; congruence].
    apply existsb_exists. exists r. split; [assumption|].
    apply andb_true_iff. split; [now apply Z.eqb_eq|].
    apply existsb_exists. exists o. split; [assumption|].
    apply andb_true_iff. split; [|assumption].
    apply negb_true_iff. now apply Z.eqb_neq. }
  split.
  - rewrite Hrows, map_map. erewrite map_ext; [exact Hnd|].
    intros r. apply Hid.
  - intros r1 r2 H1 H2 Hk. rewrite Hrows in H1, H2.
    apply in_map_iff in H1. destruct H1 as (o1 & <- & H1).
    apply in_map_iff in H2. destruct H2 as (o2 & <- & H2).
    rewrite !Hid.
    destruct (Z.eq_dec (id o1) rowid) as [E1|E1],
             (Z.eq_dec (id o2) rowid) as [E2|E2].
    + congruence.
    + exfalso.
      assert (upd o2 = o2).
      { unfold upd. apply Z.eqb_neq in E2. now rewrite E2. }
      rewrite H, Hfree in Hk by assumption. discriminate.
    + exfalso.
      assert (upd o1 = o1).
      { unfold upd. apply Z.eqb_neq in E1. now rewrite E1. }
      rewrite H, same_key_sym, Hfree in Hk by assumption. discriminate.
    + assert (upd o1 = o1) as E1'.
      { unfold upd. apply Z.eqb_neq in E1. now rewrite E1. }
      assert (upd o2 = o2) as E2'.
      { unfold upd. apply Z.eqb_neq in E2. now rewrite E2. }
      rewrite E1', E2' in Hk. now apply Huniq.
Qed.

Lemma constraints_filter d d' (f : Row -> bool) :
  chunks d' = filter f (chunks d) ->
  constraintsHold d -> constraintsHold d'.
Proof.
  intros Hrows [Hnd Huniq]. split.
  - rewrite Hrows. now apply NoDup_ids_filter.
  - intros r r' Hr Hr'. rewrite Hrows in Hr, Hr'.
    apply filter_In in Hr, Hr'. apply Huniq; tauto.
Qed.

Lemma constraints_rows_eq d r r' :
  constraintsHold d -> In r (chunks d) -> In r' (chunks d) ->
  file_path r = file_path r' -> recordKey r = recordKey r' -> r = r'.
Proof.
  intros [Hnd Huniq] Hr Hr' Hp Hk.
  apply (NoDup_ids_inj (chunks d)); try assumption.
  apply Huniq; try assumption. apply same_key_iff. now split.
Qed.

End Constraints.

Section Loops.
Import Js Store Pipeline.

Lemma foldM_invariant {A S} (body : S -> A -> M S)
    (Inv : list A -> S -> World -> Prop) (l : list A) :
  (forall done x todo s w res w',
      l = done ++ x :: todo -> Inv done s w ->
      body s x w = (res, w') ->
      forall s', res = Ok s' -> Inv (done ++ [x]) s' w') ->
  forall s0 w0 s w,
    Inv [] s0 w0 -> foldM l body s0 w0 = (Ok s, w) -> Inv l s w.
Proof.
  intros Hstep.
  assert (G : forall rest done s0 w0 s w,
            l = done ++ rest -> Inv done s0 w0 ->
            foldM rest body s0 w0 = (Ok s, w) -> Inv l s w).
  { induction rest as [|x rest IH]; intros done s0 w0 s w Hl Hinv Hrun.
    - cbn in Hrun. inversion Hrun; subst. now rewrite app_nil_r.
    - cbn [foldM] in Hrun. unfold bind in Hrun.
      destruct (body s0 x w0) as [[s1|e] w1] eqn:E; [|discriminate].
      apply (IH (done ++ [x]) s1 w1).
      + now rewrite <- app_assoc.
      + eapply Hstep; eauto.
      + assumption. }
  intros s0 w0 s w Hinv Hrun. now apply (G l [] s0 w0).
Qed.

Lemma foldM_total {A S} (body : S -> A -> M S)
    (Inv : list A -> S -> World -> Prop) (l : list A) :
  (forall done x todo s w,
      l = done ++ x :: todo -> Inv done s w ->
      exists s' w', body s x w = (Ok s', w') /\ Inv (done ++ [x]) s' w') ->
  forall s0 w0,
    Inv [] s0 w0 ->
    exists s w, foldM l body s0 w0 = (Ok s, w) /\ Inv l s w.
Proof.
  intros Hstep.
  assert (G : forall rest done s0 w0,
            l = done ++ rest -> Inv done s0 w0 ->
            exists s w, foldM rest body s0 w0 = (Ok s, w) /\ Inv l s w).
  { induction rest as [|x rest IH]; intros done s0 w0 Hl Hinv.
    - exists s0, w0. split; [reflexivity|]. subst l. now rewrite app_nil_r.
    - destruct (Hstep done x rest s0 w0 Hl Hinv) as (s1 & w1 & E & Hinv1).
      destruct (IH (done ++ [x]) s1 w1) as (s & w & Hrun & Hfin);
        [now rewrite <- app_assoc|assumption|].
      exists s, w. split; [|assumption].
      cbn [foldM]. unfold bind. now rewrite E. }
  intros s0 w0 Hinv. now apply (G l [] s0 w0).
Qed.

(** The map [existingByLocation]. *)
Lemma byLocation_get_in (existing : list ChunkRecord) : forall m k e,
  map_get key_eqb
    (fold_left (fun m r => map_set key_eqb m (recordKey r) r) existing m) k
    = Some e ->
  (In e existing /\ recordKey e = k) \/ map_get key_eqb m k = Some e.
Proof.
  induction existing as [|x existing IH]; intros m k e H; cbn [fold_left] in H.
  - now right.
  - apply IH in H. destruct H as [[Hin Hk]|H].
    + left. split; [now right|assumption].
    + destruct (key_eqb (recordKey x) k) eqn:E.
      * apply key_eqb_eq in E. subst k.
        rewrite (map_get_set_same key_eqb key_eqb_eq) in H.
        inversion H; subst. left. split; [now left|reflexivity].
      * rewrite (map_get_set_other key_eqb key_eqb_eq) in H.
        -- now right.
        -- intros Heq. apply key_eqb_eq in Heq. congruence.
Qed.

Lemma existing_get_in existing k e :
  map_get key_eqb (buildExistingByLocation existing) k = Some e ->
  In e existing /\ recordKey e = k.
Proof.
  intros H. apply byLocation_get_in in H.
  destruct H as [H|H]; [assumption|discriminate].
Qed.

Lemma NoDup_map_by_id {B} (f : Row -> B) (rows : list Row) :
  NoDup (map id rows) ->
  (forall r r', In r rows -> In r' rows -> f r = f r' -> id r = id r') ->
  NoDup (map f rows).
Proof.
  induction rows as [|x rows IH]; intros Hnd Hinj; simpl; [constructor|].
  inversion Hnd as [|? ? Hx Hrest]; subst. constructor.
  - intros Hin. apply in_map_iff in Hin. destruct Hin as (y & Hy & Hin).
    apply Hx. rewrite <- (Hinj y x); [now apply in_map|now right|now left|].
    assumption.
  - apply IH; [assumption|]. intros r r' Hr Hr'. apply Hinj; now right.
Qed.

Lemma existing_keys_distinct d path :
  constraintsHold d ->
  NoDup (map recordKey (getChunksByFile d path)).
Proof.
  intros [Hnd Huniq]. unfold getChunksByFile.
  apply NoDup_map_by_id; [now apply NoDup_ids_filter|].
  intros r r' Hr Hr' Hk. apply filter_In in Hr, Hr'.
  destruct Hr as [Hr Hp], Hr' as [Hr' Hp'].
  apply str_eqb_eq in Hp, Hp'.
  apply Huniq; try assumption. apply same_key_iff. split; congruence.
Qed.

Lemma existing_get_present d path e :
  constraintsHold d -> In e (getChunksByFile d path) ->
  map_get key_eqb (buildExistingByLocation (getChunksByFile d path))
          (recordKey e) = Some e.
Proof.
  intros Hc Hin. unfold buildExistingByLocation.
  apply (fill_get_present key_eqb key_eqb_eq recordKey (fun r => r));
    [now apply existing_keys_distinct|assumption].
Qed.

Lemma chunk_keys_distinct path (cs : list Chunker.XMLChunk) :
  chunksOfFile path cs -> NoDup (map chunkKey cs).
Proof.
  intros [Hnd _]. induction cs as [|c cs IH]; simpl; [constructor|].
  simpl in Hnd. inversion Hnd as [|? ? Hc Hrest]; subst. constructor.
  - intros Hin. apply Hc. apply in_map_iff in Hin.
    destruct Hin as (c' & Hk & Hin). apply in_map_iff. exists c'.
    split; [|assumption]. unfold chunkKey in Hk. congruence.
  - now apply IH.
Qed.

End Loops.

Section FileRun.
Import Js Store Pipeline.
Variable embed : jsstring -> result Float32.Float32Array.
Variable dateNow : nat -> Z.

Local Abbreviation step := (processChunk embed dateNow).

Lemma set_add_In (s : list Z) x y : In y (set_add s x) <-> y = x \/ In y s.
Proof.
  unfold set_add. destruct (existsb (Z.eqb x) s) eqn:E.
  - split; [now right|]. intros [->|H]; [|assumption].
    apply existsb_exists in E. destruct E as (z & Hz & Ez).
    apply Z.eqb_eq in Ez. now subst.
  - rewrite in_app_iff. simpl. intuition.
Qed.

Lemma mem_In (s : list Z) x : existsb (Z.eqb x) s = true <-> In x s.
Proof.
  rewrite existsb_exists. split.
  - intros (y & Hy & E). apply Z.eqb_eq in E. now subst.
  - intros H. exists x. split; [assumption|apply Z.eqb_refl].
Qed.

Lemma filter_filter_and {A} (f g : A -> bool) (l : list A) :
  filter f (filter g l) = filter (fun x => g x && f x) l.
Proof.
  induction l as [|x l IH]; [reflexivity|].
  cbn [filter]. destruct (g x); cbn [andb filter]; [|assumption].
  destruct (f x); now rewrite IH.
Qed.

(** The embedder is called for the chunks that are not reused, and for
    no other. *)
Lemma loop_calls fileHash byLoc (cs : list Chunker.XMLChunk) w0 p w :
  foldM cs (step fileHash byLoc) (mkProgress [] [] 0 0) w0 = (Ok p, w) ->
  embedCalls w =
    embedCalls w0 ++
    map Chunker.embeddingText (filter (fun c => negb (reusable byLoc c)) cs) /\
  reusedCount p = Z.of_nat (length (filter (reusable byLoc) cs)) /\
  embeddedCount p =
    Z.of_nat (length (filter (fun c => negb (reusable byLoc c)) cs)).
Proof.
  apply (foldM_invariant (step fileHash byLoc)
           (fun done p w =>
              embedCalls w =
                embedCalls w0 ++
                map Chunker.embeddingText
                    (filter (fun c => negb (reusable byLoc c)) done) /\
              reusedCount p = Z.of_nat (length (filter (reusable byLoc) done)) /\
              embeddedCount p =
                Z.of_nat (length (filter (fun c => negb (reusable byLoc c)) done)))).
  - intros done c todo p1 w1 res w2 _ (Hcalls & Hre & Hem) Hrun p2 ->.
    apply processChunk_inv in Hrun. destruct Hrun as [Hc Hok].
    destruct (Hok p2 eq_refl) as (Hre2 & Hem2 & _).
    rewrite !filter_app, !length_app, map_app, Hc, Hcalls, Hre2, Hem2, Hre, Hem.
    cbn [filter]. destruct (reusable byLoc c); cbn [negb map length];
      rewrite <- ?app_assoc; repeat split; try reflexivity; lia.
  - cbn. rewrite app_nil_r. auto.
Qed.

(** The loop that deletes the rows that no chunk has matched. *)
Lemma deleteLoop_run (matched : list Z) (existing : list ChunkRecord) :
  forall n w,
  exists w',
    foldM existing (deleteUnmatched matched) n w =
      (Ok (n + Z.of_nat (length (filter
             (fun e => negb (existsb (Z.eqb (id e)) matched)) existing))), w') /\
    embedCalls w' = embedCalls w /\
    chunks (db w') =
      filter (fun r => negb (existsb
                (fun e => negb (existsb (Z.eqb (id e)) matched)
                          && (id e =? id r)) existing))
             (chunks (db w)).
Proof.
  induction existing as [|e existing IH]; intros n w; cbn [foldM filter existsb].
  - exists w. unfold ret. rewrite Z.add_0_r. repeat split.
    cbn [negb]. induction (chunks (db w)) as [|r l IHl]; simpl; congruence.
  - unfold bind at 1. unfold deleteUnmatched at 1.
    destruct (existsb (Z.eqb (id e)) matched) eqn:Em; cbn [negb andb].
    + unfold ret at 1. destruct (IH n w) as (w' & Hrun & Hc & Hrows).
      exists w'. repeat split; assumption.
    + unfold bind, statement, ret. cbn [db embedCalls ticks].
      destruct (IH (n + 1) (mkWorld (deleteChunk (db w) (id e))
                                    (embedCalls w) (ticks w)))
        as (w' & Hrun & Hc & Hrows).
      exists w'. rewrite Hrun. cbn [length]. split; [f_equal; f_equal; lia|].
      split; [assumption|]. rewrite Hrows. cbn [db].
      unfold deleteChunk. cbn [chunks cascade set_references set_chunks
                               deleteFts set_fts].
      rewrite filter_filter_and. apply filter_ext. intros r.
      rewrite negb_orb, (Z.eqb_sym (id e) (id r)). reflexivity.
Qed.

(** The two loops of [processFile]. *)
Lemma processFile_inv (cs : list Chunker.XMLChunk) path fileHash w0 res w :
  processFile embed dateNow cs path fileHash w0 = (res, w) ->
  let existing := getChunksByFile (db w0) path in
  let byLoc := buildExistingByLocation existing in
  exists lres w1,
    foldM cs (step fileHash byLoc) (mkProgress [] [] 0 0) w0 = (lres, w1) /\
    match lres with
    | Throw e => res = Throw e /\ w = w1
    | Ok p =>
        res = Ok (mkSummary (reusedCount p) (embeddedCount p)
                    (Z.of_nat (length (filter
                       (fun e => negb (existsb (Z.eqb (id e)) (matchedChunkIds p)))
                       existing)))) /\
        embedCalls w = embedCalls w1 /\
        chunks (db w) =
          filter (fun r => negb (existsb
                    (fun e => negb (existsb (Z.eqb (id e)) (matchedChunkIds p))
                              && (id e =? id r)) existing))
                 (chunks (db w1))
    end.
Proof.
  unfold processFile, bind at 1, query. cbv zeta.
  unfold bind at 1.
  destruct (foldM cs _ _ w0) as [[p|e] w1] eqn:Eloop; intros H.
  - exists (Ok p), w1. split; [reflexivity|].
    unfold bind, ret in H.
    destruct (deleteLoop_run (matchedChunkIds p)
                (getChunksByFile (db w0) path) 0 w1) as (w' & Hrun & Hc & Hrows).
    rewrite Hrun in H. inversion H; subst. now repeat split.
  - exists (Throw e), w1. split; [reflexivity|]. inversion H; subst. now split.
Qed.

End FileRun.

Section Reconcile.
Import Js Store Pipeline.
Variable embed : jsstring -> result Float32.Float32Array.
Variable dateNow : nat -> Z.
Variable path : jsstring.
Variable existing : list ChunkRecord.
Hypothesis existing_ids : NoDup (map id existing).

Local Abbreviation byLoc := (buildExistingByLocation existing).

Local Abbreviation rowOf := (Pipeline.rowOf path existing).
Local Abbreviation reconciling := (Pipeline.reconciling path existing).

Lemma rowOf_mono matched matched' c r :
  (forall i, In i matched -> In i matched') ->
  rowOf matched c r -> rowOf matched' c r.
Proof.
  intros Hsub (H1 & H2 & H3 & H4 & [H5|H5]); repeat split; auto.
Qed.

Lemma constraints_same_chunks d d' :
  chunks d' = chunks d -> constraintsHold d -> constraintsHold d'.
Proof. unfold constraintsHold. now intros ->. Qed.

Lemma keys_before {A B} (f : A -> B) (done todo : list A) (x : A) :
  NoDup (map f (done ++ x :: todo)) ->
  forall y, In y done -> f y <> f x.
Proof.
  rewrite map_app. cbn [map]. intros Hnd y Hy Heq.
  apply NoDup_remove_2 in Hnd. apply Hnd.
  apply in_or_app. left. rewrite <- Heq. now apply in_map.
Qed.

Lemma reconciling_step (cs : list Chunker.XMLChunk) fileHash :
  chunksOfFile path cs ->
  forall done c todo p w res w',
    cs = done ++ c :: todo ->
    reconciling done p w ->
    processChunk embed dateNow fileHash byLoc p c w = (res, w') ->
    forall p', res = Ok p' -> reconciling (done ++ [c]) p' w'.
Proof.
  intros Hcs done c todo p w res w' Hsplit
         (Hcons & Hkeep & Hmatched & Hdone & Hrows) Hrun p' ->.
  pose proof (chunk_keys_distinct path cs Hcs) as Hkeys.
  rewrite Hsplit in Hkeys.
  pose proof (keys_before chunkKey done todo c Hkeys) as Hfresh.
  assert (Hcpath : Chunker.filePath c = path).
  { apply (proj2 Hcs). rewrite Hsplit. apply in_or_app. right. now left. }
  apply processChunk_inv in Hrun. destruct Hrun as [_ Hok].
  destruct (Hok p' eq_refl)
    as (_ & _ & parent & now & emb & d1 & dbId & Hch & _ & _ & Hcase).
  cbv zeta in Hcase.
  set (metadata := metadataOf c fileHash parent now) in *.
  destruct (map_get key_eqb byLoc (chunkKey c)) as [e|] eqn:Eloc.
  - (* the slot exists: the row of [e] is rewritten *)
    destruct Hcase as (-> & _ & Hupd & Hm).
    apply existing_get_in in Eloc. destruct Eloc as [He Hke].
    pose proof (constraints_update _ _ _ _ _ _ Hcons Hupd) as Hcons1.
    apply updateChunk_rows in Hupd. destruct Hupd as [Hupd _].
    rewrite <- Hch in Hupd.
    set (upd := fun r : Row =>
           if id r =? id e then bindRow (id e) (file_path r) metadata emb
           else r) in *.
    (* the row of [e] has not been touched yet *)
    assert (Hfreshe : ~ In (id e) (matchedChunkIds p)).
    { destruct (Hkeep e He) as (r0 & Hr0 & Hid0 & Hp0 & Hk0).
      destruct (Hrows r0 Hr0 Hp0) as [(c' & Hc' & (_ & Hk' & _))|[_ Hnm]].
      - exfalso. apply (Hfresh c' Hc'). congruence.
      - now rewrite <- Hid0. }
    assert (Hin' : forall i, In i (matchedChunkIds p) ->
                             In i (matchedChunkIds p')).
    { intros i Hi. rewrite Hm. apply set_add_In. now right. }
    assert (Hother : forall r c', In r (chunks (db w)) ->
              rowOf (matchedChunkIds p) c' r -> upd r = r).
    { intros r c' Hr (_ & _ & _ & _ & Hor). unfold upd.
      destruct (id r =? id e) eqn:E; [|reflexivity].
      apply Z.eqb_eq in E. exfalso. destruct Hor as [Hor|Hor].
      - apply Hfreshe. now rewrite <- E.
      - apply Hor. rewrite E. now apply in_map. }
    split; [|split; [|split; [|split]]].
    + eapply constraints_same_chunks; [exact Hch|exact Hcons1].
    + intros e' He'. destruct (Hkeep e' He') as (r & Hr & Hid & Hp & Hk).
      exists (upd r). split; [rewrite Hupd; now apply in_map|].
      unfold upd. destruct (id r =? id e) eqn:E; [|now repeat split].
      apply Z.eqb_eq in E.
      assert (e' = e).
      { apply (NoDup_ids_inj existing); auto. congruence. }
      subst e'. cbn [id file_path bindRow].
      split; [reflexivity|]. split; [assumption|].
      rewrite Hke. reflexivity.
    + intros i Hi. rewrite Hm in Hi. apply set_add_In in Hi.
      destruct Hi as [->|Hi]; [now apply in_map|now apply Hmatched].
    + intros c' Hc'. apply in_app_or in Hc'. destruct Hc' as [Hc'|[<-|[]]].
      * destruct (Hdone c' Hc') as (r & Hr & Hrow). exists r. split.
        -- rewrite Hupd. rewrite <- (Hother r c' Hr Hrow). now apply in_map.
        -- eapply rowOf_mono; eauto.
      * destruct (Hkeep e He) as (r0 & Hr0 & Hid0 & Hp0 & Hk0).
        exists (upd r0). split; [rewrite Hupd; now apply in_map|].
        unfold upd. rewrite Hid0, Z.eqb_refl.
        repeat split; auto.
        -- now exists emb.
        -- left. cbn [id bindRow]. rewrite Hm. apply set_add_In. now left.
    + intros r' Hr' Hp'. rewrite Hupd in Hr'. apply in_map_iff in Hr'.
      destruct Hr' as (r & <- & Hr).
      unfold upd in *. destruct (id r =? id e) eqn:E.
      * left. exists c. split; [apply in_or_app; right; now left|].
        cbn [file_path bindRow] in Hp'. repeat split; auto.
        -- now exists emb.
        -- left. cbn [id bindRow]. rewrite Hm. apply set_add_In. now left.
      * destruct (Hrows r Hr Hp') as [(c' & Hc' & Hrow)|[Hex Hnm]].
        -- left. exists c'. split; [apply in_or_app; now left|].
           eapply rowOf_mono; eauto.
        -- right. split; [assumption|]. rewrite Hm. intros Hi.
           apply set_add_In in Hi. destruct Hi as [Hi|Hi]; [|contradiction].
           apply Z.eqb_neq in E. contradiction.
  - (* a new slot: a row is added *)
    destruct Hcase as (_ & Hins & Hm).
    pose proof (constraints_insert _ _ _ _ _ _ Hcons Hins) as Hcons1.
    apply insertChunk_rows in Hins. destruct Hins as (Hid & Hins & _).
    rewrite <- Hch in Hins.
    set (row := bindRow dbId (filePath metadata) metadata emb) in *.
    assert (Hnew : ~ In (id row) (map id existing)).
    { cbn [id row bindRow]. intros Hin. apply in_map_iff in Hin.
      destruct Hin as (e & He & Hin).
      destruct (Hkeep e Hin) as (r & Hr & Hre & _).
      apply (next_id_fresh (db w) r Hr). congruence. }
    assert (Hrow : rowOf (matchedChunkIds p') c row).
    { repeat split; auto. now exists emb. }
    split; [|split; [|split; [|split]]].
    + eapply constraints_same_chunks; [exact Hch|exact Hcons1].
    + intros e He. destruct (Hkeep e He) as (r & Hr & Hrest).
      exists r. split; [rewrite Hins; apply in_or_app; now left|assumption].
    + rewrite Hm. exact Hmatched.
    + intros c' Hc'. apply in_app_or in Hc'. destruct Hc' as [Hc'|[<-|[]]].
      * destruct (Hdone c' Hc') as (r & Hr & Hrow').
        exists r. split; [rewrite Hins; apply in_or_app; now left|].
        now rewrite Hm.
      * exists row. split; [rewrite Hins; apply in_or_app; right; now left|].
        assumption.
    + intros r Hr Hp. rewrite Hins in Hr. apply in_app_or in Hr.
      destruct Hr as [Hr|[<-|[]]].
      * destruct (Hrows r Hr Hp) as [(c' & Hc' & Hrow')|Hex].
        -- left. exists c'. split; [apply in_or_app; now left|].
           now rewrite Hm.
        -- right. now rewrite Hm.
      * left. exists c. split; [apply in_or_app; right; now left|assumption].
Qed.

End Reconcile.

Section Reindex.
Import Js Store Pipeline.
Variable embed : jsstring -> result Float32.Float32Array.
Variable dateNow : nat -> Z.

Lemma existing_of_file d path e :
  In e (getChunksByFile d path) <-> In e (chunks d) /\ file_path e = path.
Proof.
  unfold getChunksByFile. rewrite filter_In, str_eqb_eq. reflexivity.
Qed.

(** After a run of [processFile] that returns, the rows of the file are
    those of its chunks. *)
Lemma processFile_reconciles (cs : list Chunker.XMLChunk) path fileHash
    w0 summary w :
  constraintsHold (db w0) -> chunksOfFile path cs ->
  processFile embed dateNow cs path fileHash w0 = (Ok summary, w) ->
  constraintsHold (db w) /\ indexed (db w) path cs.
Proof.
  intros Hcons Hcs Hrun.
  apply processFile_inv in Hrun. cbv zeta in Hrun.
  set (existing := getChunksByFile (db w0) path) in *.
  destruct Hrun as (lres & w1 & Hloop & Hres).
  destruct lres as [p|e]; [|destruct Hres; discriminate].
  destruct Hres as (_ & _ & Hrows).
  assert (Hids : NoDup (map id existing)).
  { unfold existing, getChunksByFile. apply NoDup_ids_filter. apply Hcons. }
  assert (Hinv : reconciling path existing cs p w1).
  { eapply (foldM_invariant _ (reconciling path existing) cs);
      [|  |exact Hloop].
    - intros done c todo p1 wa res wb Hsplit Hinv Hstep p2 Hok.
      eapply (reconciling_step embed dateNow path existing Hids cs);
        eauto.
    - split; [assumption|]. split; [|split; [|split]].
      + intros e He. exists e. apply existing_of_file in He as [He Hp].
        now repeat split.
      + intros i [].
      + intros c [].
      + intros r Hr Hp. right. split; [|intros []].
        apply existing_of_file. now split. }
  destruct Hinv as (Hcons1 & Hkeep & Hmatched & Hdone & Hall).
  assert (Hsurvive : forall r c,
            In r (chunks (db w1)) -> rowOf path existing (matchedChunkIds p) c r ->
            In r (chunks (db w))).
  { intros r c Hr (_ & _ & _ & _ & Hor). rewrite Hrows.
    apply filter_In. split; [assumption|]. cbv beta.
    apply negb_true_iff.
    match goal with |- ?b = false => destruct b eqn:E end; [|reflexivity].
    exfalso. apply existsb_exists in E. destruct E as (e & He & Hu).
    apply andb_true_iff in Hu. destruct Hu as [Hu Hid].
    apply negb_true_iff in Hu. apply Z.eqb_eq in Hid.
    destruct Hor as [Hm|Hn].
    - rewrite <- Hid in Hm. apply mem_In in Hm. congruence.
    - apply Hn. rewrite <- Hid. now apply in_map. }
  split; [eapply constraints_filter; eauto|]. split.
  - intros c Hc. destruct (Hdone c Hc) as (r & Hr & Hrow).
    exists r. split; [eapply Hsurvive; eauto|].
    destruct Hrow as (H1 & H2 & H3 & H4 & _). now repeat split.
  - intros r Hr Hp. rewrite Hrows in Hr. apply filter_In in Hr.
    destruct Hr as [Hr Hk]. cbv beta in Hk.
    destruct (Hall r Hr Hp) as [(c & Hc & Hrow)|[Hex Hnm]].
    + exists c. split; [assumption|apply Hrow].
    + exfalso. apply negb_true_iff in Hk.
      assert (existsb (fun e => negb (existsb (Z.eqb (id e)) (matchedChunkIds p))
                                && (id e =? id r)) existing = true);
        [|congruence].
      apply existsb_exists. exists r. split; [assumption|].
      apply andb_true_iff. split; [|apply Z.eqb_refl].
      apply negb_true_iff. destruct (existsb _ (matchedChunkIds p)) eqn:E;
        [|reflexivity].
      apply mem_In in E. contradiction.
Qed.

End Reindex.

Section Reuse.
Import Js Store Pipeline.
Variable embed : jsstring -> result Float32.Float32Array.
Variable dateNow : nat -> Z.

Lemma updateChunk_total d rowid metadata emb text :
  (forall r o, In r (chunks d) -> In o (chunks d) ->
               id r = rowid -> id o <> rowid ->
               same_key (bindRow rowid (file_path r) metadata emb) o = false) ->
  exists d1, updateChunk d rowid metadata emb text = Ok d1.
Proof.
  intros Hfree. unfold updateChunk. cbv zeta.
  match goal with |- context [if ?b then _ else _] => destruct b eqn:E end;
    [|eexists; reflexivity].
  exfalso. apply existsb_exists in E. destruct E as (r & Hr & E).
  apply andb_true_iff in E. destruct E as [Hid E].
  apply Z.eqb_eq in Hid. apply existsb_exists in E.
  destruct E as (o & Ho & E). apply andb_true_iff in E.
  destruct E as [Hne E]. apply negb_true_iff in Hne. apply Z.eqb_neq in Hne.
  rewrite Hid, Z.eqb_refl in E.
  rewrite (Hfree r o Hr Ho Hid Hne) in E. discriminate.
Qed.

Lemma hasChunk_update d rowid metadata emb text d1 i :
  updateChunk d rowid metadata emb text = Ok d1 ->
  hasChunk d1 i = hasChunk d i.
Proof.
  intros H. apply updateChunk_rows in H. destruct H as [Hrows _].
  unfold hasChunk. rewrite Hrows. clear Hrows.
  induction (chunks d) as [|r l IH]; [reflexivity|].
  cbn [map existsb]. rewrite IH.
  destruct (id r =? rowid) eqn:E; [|reflexivity].
  apply Z.eqb_eq in E. cbn [id bindRow]. now rewrite E.
Qed.

(** A turn of the loop on a chunk whose slot holds its content hash
    returns, provided that the stored embedding decodes and the update
    meets no other row. *)
Lemma processChunk_reuse_run fileHash
    (byLoc : list (LocationKey * ChunkRecord)) p c w (e : ChunkRecord) emb :
  map_get key_eqb byLoc (chunkKey c) = Some e ->
  content_hash e = Chunker.contentHash c ->
  Float32.fromBuffer (embedding e) = Some emb ->
  (forall parent now,
      exists d1, updateChunk (db w) (id e)
                             (metadataOf c fileHash parent now) emb
                             (Some (Chunker.embeddingText c)) = Ok d1) ->
  hasChunk (db w) (id e) = true ->
  exists p' w',
    processChunk embed dateNow fileHash byLoc p c w = (Ok p', w').
Proof.
  intros Eloc Ehash Edec Hupd Hhas.
  destruct (processChunk embed dateNow fileHash byLoc p c w) as [res w']
    eqn:Erun.
  revert Erun.
  unfold processChunk, bind at 1, readClock.
  rewrite Eloc. rewrite Ehash, str_eqb_refl.
  unfold bind, lift, reusedEmbedding, update, statement, ret.
  rewrite Edec. cbn [db embedCalls ticks].
  match goal with
  | |- context [updateChunk (db w) (id e)
                            (metadataOf c fileHash ?parent ?now) emb _] =>
      destruct (Hupd parent now) as [d1 Ed1]
  end.
  rewrite Ed1. cbn [fst snd].
  match goal with
  | |- context [forEach ?refs (linkReference dateNow (id e)) ?w1] =>
      destruct (links_run dateNow (id e) refs w1)
        as (lres & w2 & El & _ & Hok)
  end.
  rewrite El. cbn [db] in Hok.
  rewrite (hasChunk_update _ _ _ _ _ _ (id e) Ed1) in Hok.
  rewrite (Hok Hhas). intros Erun. inversion Erun; subst.
  do 2 eexists. reflexivity.
Qed.

Lemma kept_rows (l l1 : list Row) r :
  map kept l = map kept l1 -> In r l ->
  exists r1, In r1 l1 /\ kept r1 = kept r.
Proof.
  intros Hmap Hin. apply (in_map kept) in Hin. rewrite Hmap in Hin.
  apply in_map_iff in Hin. destruct Hin as (r1 & H1 & H2). now exists r1.
Qed.

Lemma constraints_kept d d1 :
  map kept (chunks d) = map kept (chunks d1) ->
  constraintsHold d1 -> constraintsHold d.
Proof.
  intros Hmap [Hnd Huniq]. split.
  - assert (E : map id (chunks d) = map id (chunks d1)).
    { apply (f_equal (map (fun k => fst (fst (fst (fst k)))))) in Hmap.
      rewrite !map_map in Hmap. exact Hmap. }
    now rewrite E.
  - intros r r' Hr Hr' Hk.
    destruct (kept_rows _ _ r Hmap Hr) as (r1 & H1 & E1).
    destruct (kept_rows _ _ r' Hmap Hr') as (r1' & H1' & E1').
    unfold kept in E1, E1'. inversion E1. inversion E1'.
    assert (id r1 = id r1'); [|congruence].
    apply Huniq; try assumption. apply same_key_iff.
    apply same_key_iff in Hk. destruct Hk. split; congruence.
Qed.

Lemma indexed_kept d d1 path cs :
  map kept (chunks d) = map kept (chunks d1) ->
  indexed d1 path cs -> indexed d path cs.
Proof.
  intros Hmap [Hall Hrows]. split.
  - intros c Hc. destruct (Hall c Hc) as (r1 & Hr1 & Hp & Hk & Hh & v & Hv).
    destruct (kept_rows _ _ r1 (eq_sym Hmap) Hr1) as (r & Hr & E).
    unfold kept in E. inversion E.
    exists r. repeat split; try congruence. exists v. congruence.
  - intros r Hr Hp.
    destruct (kept_rows _ _ r Hmap Hr) as (r1 & Hr1 & E).
    unfold kept in E. inversion E.
    destruct (Hrows r1 Hr1 ltac:(congruence)) as (c & Hc & Hk).
    exists c. split; [assumption|congruence].
Qed.

Lemma filter_all {A} (f : A -> bool) (l : list A) :
  (forall x, In x l -> f x = true) -> filter f l = l.
Proof.
  induction l as [|x l IH]; intros H; simpl; [reflexivity|].
  rewrite H by now left. f_equal. apply IH. auto with datatypes.
Qed.

(** A run of [processFile] on a file whose chunks are indexed reuses
    every embedding: it returns, calls the embedder for no chunk, deletes
    no row, and every row keeps its id, its slot, its content hash and
    the bytes of its embedding. *)
Lemma processFile_reuses (cs : list Chunker.XMLChunk) path fileHash w1 :
  constraintsHold (db w1) -> indexed (db w1) path cs ->
  chunksOfFile path cs ->
  exists w2,
    processFile embed dateNow cs path fileHash w1 =
      (Ok (mkSummary (Z.of_nat (length cs)) 0 0), w2) /\
    embedCalls w2 = embedCalls w1 /\
    map kept (chunks (db w2)) = map kept (chunks (db w1)).
Proof.
  intros Hcons [Hall Hrows] Hcs.
  set (existing := getChunksByFile (db w1) path).
  set (byLoc := buildExistingByLocation existing).
  assert (K : forall c, In c cs ->
            exists (e : ChunkRecord) v,
              map_get key_eqb byLoc (chunkKey c) = Some e /\
              In e (chunks (db w1)) /\ file_path e = path /\
              recordKey e = chunkKey c /\
              content_hash e = Chunker.contentHash c /\
              embedding e = Float32.buffer v).
  { intros c Hc. destruct (Hall c Hc) as (r & Hr & Hp & Hk & Hh & v & Hv).
    exists r, v. repeat split; try assumption.
    rewrite <- Hk. apply existing_get_present; [assumption|].
    apply existing_of_file. now split. }
  assert (Hreusable : forall c, In c cs -> reusable byLoc c = true).
  { intros c Hc. destruct (K c Hc) as (e & v & Eloc & _ & _ & _ & Hh & _).
    unfold reusable. rewrite Eloc, Hh. apply str_eqb_refl. }
  (* the loop over the chunks *)
  destruct (foldM_total (processChunk embed dateNow fileHash byLoc)
              (fun done p w =>
                 map kept (chunks (db w)) = map kept (chunks (db w1)) /\
                 forall c (e : ChunkRecord),
                   In c done ->
                   map_get key_eqb byLoc (chunkKey c) = Some e ->
                   In (id e) (matchedChunkIds p))
              cs) with (s0 := mkProgress [] [] 0 0) (w0 := w1)
    as (p & w' & Hloop & Hkept & Hmatched).
  { intros done c todo p w Hsplit [Hkept Hm].
    assert (Hc : In c cs) by (rewrite Hsplit; apply in_or_app; right; now left).
    destruct (K c Hc) as (e & v & Eloc & He & Hp & Hk & Hh & Hv).
    assert (Hdec : Float32.fromBuffer (embedding e) = Some v).
    { rewrite Hv. apply fromBuffer_buffer. }
    (* the row of [e] in the current database *)
    assert (Hsame : forall r, In r (chunks (db w)) -> id r = id e ->
                      kept r = kept e).
    { intros r Hr Hid. destruct (kept_rows _ _ r Hkept Hr) as (r1 & Hr1 & E).
      rewrite <- E. f_equal.
      apply (NoDup_ids_inj (chunks (db w1))); try assumption; [apply Hcons|].
      unfold kept in E. inversion E. congruence. }
    assert (Hupd : forall parent now,
              exists d1, updateChunk (db w) (id e)
                           (metadataOf c fileHash parent now) v
                           (Some (Chunker.embeddingText c)) = Ok d1).
    { intros parent now. apply updateChunk_total.
      intros r o Hr Ho Hid Hne.
      destruct (same_key _ o) eqn:Ek; [|reflexivity]. exfalso.
      apply same_key_iff in Ek. cbn [file_path bindRow] in Ek.
      destruct Ek as [Ep Ek].
      pose proof (Hsame r Hr Hid) as Er. unfold kept in Er. inversion Er.
      destruct (kept_rows _ _ o Hkept Ho) as (o1 & Ho1 & Eo).
      unfold kept in Eo. inversion Eo.
      apply Hne. assert (o1 = e); [|congruence].
      change (chunkKey c = recordKey o) in Ek.
      apply (constraints_rows_eq (db w1)); try assumption; congruence. }
    assert (Hhas : hasChunk (db w) (id e) = true).
    { destruct (kept_rows _ _ e (eq_sym Hkept) He) as (r & Hr & E).
      unfold kept in E. inversion E.
      apply existsb_exists. exists r. split; [assumption|].
      now apply Z.eqb_eq. }
    destruct (processChunk_reuse_run fileHash byLoc p c w e v
                Eloc Hh Hdec Hupd Hhas) as (p' & w'' & Hrun).
    exists p', w''. split; [exact Hrun|].
    apply processChunk_inv in Hrun. destruct Hrun as [_ Hok].
    destruct (Hok p' eq_refl)
      as (_ & _ & parent & now & emb & d1 & dbId & Hch & _ & _ & Hcase).
    cbv zeta in Hcase. rewrite Eloc in Hcase.
    destruct Hcase as (_ & Hemb & Hu & Hm').
    rewrite Hh, str_eqb_refl in Hemb.
    apply updateChunk_rows in Hu. destruct Hu as [Hu _].
    split.
    - rewrite Hch, Hu, map_map, <- Hkept. apply map_ext_in.
      intros r Hr. destruct (id r =? id e) eqn:E; [|reflexivity].
      apply Z.eqb_eq in E. rewrite (Hsame r Hr E).
      pose proof (Hsame r Hr E) as Er. unfold kept in Er. inversion Er.
      unfold kept. cbn [id file_path content_hash embedding bindRow].
      rewrite (buffer_fromBuffer _ _ Hemb).
      assert (Ekey : forall i p0,
                recordKey (bindRow i p0 (metadataOf c fileHash parent now) emb)
                = chunkKey c) by reflexivity.
      rewrite Ekey. cbn [contentHash metadataOf]. congruence.
    - intros c' e' Hc' Eloc'. rewrite Hm'. apply set_add_In.
      apply in_app_or in Hc'. destruct Hc' as [Hc'|[<-|[]]].
      + right. eapply Hm; eauto.
      + left. congruence. }
  { split; [reflexivity|]. intros c e []. }
  (* the calls of the embedder and the counts *)
  pose proof (loop_calls embed dateNow fileHash byLoc cs w1 p w' Hloop)
    as (Hcalls & Hre & Hem).
  rewrite (filter_none (fun c => negb (reusable byLoc c))) in Hcalls, Hem
    by (intros c Hc; now rewrite Hreusable).
  rewrite (filter_all (reusable byLoc)) in Hre by assumption.
  cbn [map length] in Hcalls, Hem. rewrite app_nil_r in Hcalls.
  (* the rows before the call are all matched *)
  assert (Hall_matched : forall e, In e existing ->
            existsb (Z.eqb (id e)) (matchedChunkIds p) = true).
  { intros e He. apply existing_of_file in He. destruct He as [He Hp].
    destruct (Hrows e He Hp) as (c & Hc & Hk).
    destruct (K c Hc) as (e' & v & Eloc & He' & Hp' & Hk' & _).
    assert (e' = e).
    { apply (constraints_rows_eq (db w1)); try assumption; congruence. }
    subst e'. apply mem_In. eapply Hmatched; eauto. }
  destruct (processFile embed dateNow cs path fileHash w1) as [res w2]
    eqn:Erun.
  apply processFile_inv in Erun. cbv zeta in Erun.
  fold existing in Erun. fold byLoc in Erun.
  destruct Erun as (lres & wl & Hloop' & Hres).
  rewrite Hloop in Hloop'. inversion Hloop'; subst lres wl.
  destruct Hres as (-> & Hc2 & Hrows2).
  exists w2. split; [|split].
  - f_equal. rewrite Hre, Hem.
    rewrite filter_none; [reflexivity|].
    intros e He. now rewrite Hall_matched.
  - congruence.
  - rewrite Hrows2, filter_all; [assumption|].
    intros r Hr. apply negb_true_iff.
    match goal with |- ?b = false => destruct b eqn:E end; [|reflexivity].
    apply existsb_exists in E. destruct E as (e & He & E).
    rewrite (Hall_matched e He) in E. discriminate.
Qed.

End Reuse.

(** ** Reuse of embeddings *)

Section ReuseOfEmbeddings.
Import Js Store Pipeline.

(** C1.  In the loop of [processFile], a chunk whose slot
    [(chunk_index, start_line, end_line)] holds a record with the same
    content hash makes no call of the embedder, keeps the DB id of the
    record, and rewrites its row with the bytes of the stored embedding
    and the new metadata.  A run of [processFile] calls the embedder for
    the chunks that are not in this case and for no other.  Hence, after a
    run that has indexed the chunks of a file, a run on the same chunks
    returns with every chunk reused, no new embedding and no deletion,
    whatever embedder it is given, and leaves the id, the slot, the
    content hash and the embedding of every row as they were. *)
Theorem C1_unchanged_chunks_reuse_embeddings :
  (forall embed dateNow fileHash (byLoc : list (LocationKey * ChunkRecord))
          p c w (e : ChunkRecord) res w',
      map_get key_eqb byLoc (chunkKey c) = Some e ->
      content_hash e = Chunker.contentHash c ->
      processChunk embed dateNow fileHash byLoc p c w = (res, w') ->
      embedCalls w' = embedCalls w /\
      forall p', res = Ok p' ->
        map_get Z.eqb (chunkIndexToDbId p') (Chunker.chunkIndex c)
          = Some (id e) /\
        In (id e) (matchedChunkIds p') /\
        reusedCount p' = reusedCount p + 1 /\
        embeddedCount p' = embeddedCount p /\
        exists metadata emb,
          Float32.buffer emb = embedding e /\
          contentHash metadata = Chunker.contentHash c /\
          chunks (db w') =
            map (fun r => if id r =? id e
                          then bindRow (id e) (file_path r) metadata emb
                          else r)
                (chunks (db w))) /\
  (forall embed dateNow cs path fileHash w0 summary w,
      processFile embed dateNow cs path fileHash w0 = (Ok summary, w) ->
      let byLoc := buildExistingByLocation (getChunksByFile (db w0) path) in
      embedCalls w =
        embedCalls w0 ++
        map Chunker.embeddingText
            (filter (fun c => negb (reusable byLoc c)) cs) /\
      reused summary = Z.of_nat (length (filter (reusable byLoc) cs)) /\
      embedded summary =
        Z.of_nat (length (filter (fun c => negb (reusable byLoc c)) cs))) /\
  (forall embed1 dateNow1 embed2 dateNow2 cs path fileHash1 fileHash2
          w0 summary1 w1,
      constraintsHold (db w0) ->
      chunksOfFile path cs ->
      processFile embed1 dateNow1 cs path fileHash1 w0 = (Ok summary1, w1) ->
      exists w2,
        processFile embed2 dateNow2 cs path fileHash2 w1 =
          (Ok (mkSummary (Z.of_nat (length cs)) 0 0), w2) /\
        embedCalls w2 = embedCalls w1 /\
        map kept (chunks (db w2)) = map kept (chunks (db w1))).
Proof.
  split; [|split].
  - intros embed dateNow fileHash byLoc p c w e res w' Eloc Ehash Hrun.
    apply processChunk_inv in Hrun. destruct Hrun as [Hcalls Hok].
    assert (Hre : reusable byLoc c = true).
    { unfold reusable. rewrite Eloc, Ehash. apply str_eqb_refl. }
    rewrite Hre, app_nil_r in Hcalls. split; [exact Hcalls|].
    intros p' Hp'.
    destruct (Hok p' Hp')
      as (Hr & Hem & parent & now & emb & d1 & dbId & Hch & _ & Hidx & Hcase).
    cbv zeta in Hcase. rewrite Eloc in Hcase. rewrite Hre in Hr, Hem.
    destruct Hcase as (-> & Hdec & Hupd & Hm).
    rewrite Ehash, str_eqb_refl in Hdec.
    apply updateChunk_rows in Hupd. destruct Hupd as [Hupd _].
    repeat split; try assumption; try lia.
    + rewrite Hm. apply set_add_In. now left.
    + exists (metadataOf c fileHash parent now), emb.
      split; [now apply buffer_fromBuffer|]. split; [reflexivity|].
      congruence.
  - intros embed dateNow cs path fileHash w0 summary w Hrun.
    apply processFile_inv in Hrun. cbv zeta in Hrun.
    destruct Hrun as (lres & w1 & Hloop & Hres).
    destruct lres as [p|err]; [|destruct Hres; discriminate].
    destruct Hres as (Hsum & Hcalls & _). inversion Hsum; subst summary.
    cbn [reused embedded].
    destruct (loop_calls embed dateNow fileHash _ cs w0 p w1 Hloop)
      as (H1 & H2 & H3).
    cbv zeta. repeat split; congruence.
  - intros embed1 dateNow1 embed2 dateNow2 cs path fileHash1 fileHash2
           w0 summary1 w1 Hcons Hcs Hrun.
    destruct (processFile_reconciles embed1 dateNow1 cs path fileHash1
                w0 summary1 w1 Hcons Hcs Hrun) as [Hcons1 Hindexed].
    now apply processFile_reuses.
Qed.

Lemma C1_unchanged_chunks_reuse_embeddings_witness :
  let path := lit "/p/apis/bank.xml" in
  let cs := [Fixtures.chunkAt path 0 2 9 (lit "h-resource") (lit "resource GET");
             Fixtures.chunkAt path 1 4 6 (lit "h-filter") (lit "filter xpath")] in
  let embed1 := fun _ : jsstring =>
    Ok [Float32.mkElt x00 x00 x80 x3f; Float32.mkElt xcd xcc x4c xbe] in
  let embed2 := fun _ : jsstring => @Throw Float32.Float32Array EmbedderError in
  let clock := fun n : nat => Z.of_nat n in
  let w0 := mkWorld Store.empty [] 0 in
  let first := processFile embed1 clock cs path (lit "f1") w0 in
  constraintsHold (db w0) /\
  chunksOfFile path cs /\
  first = (Ok (mkSummary 0 2 0), snd first) /\
  exists w2,
    processFile embed2 clock cs path (lit "f1") (snd first) =
      (Ok (mkSummary 2 0 0), w2) /\
    embedCalls w2 = [lit "resource GET"; lit "filter xpath"].
Proof.
  intros path cs embed1 embed2 clock w0 first.
  assert (Hcons : constraintsHold (db w0)).
  { split; [constructor|intros r r' []]. }
  assert (Hcs : chunksOfFile path cs).
  { split.
    - simpl. repeat constructor; simpl; intuition discriminate.
    - intros c [<-|[<-|[]]]; reflexivity. }
  assert (Hfirst : first = (Ok (mkSummary 0 2 0), snd first))
    by (vm_compute; reflexivity).
  split; [exact Hcons|]. split; [exact Hcs|]. split; [exact Hfirst|].
  destruct (proj2 (proj2 C1_unchanged_chunks_reuse_embeddings)
              embed1 clock embed2 clock cs path (lit "f1") (lit "f1")
              w0 (mkSummary 0 2 0) (snd first) Hcons Hcs Hfirst)
    as (w2 & Hrun & Hcalls & _).
  exists w2. split; [exact Hrun|]. rewrite Hcalls. vm_compute. reflexivity.
Defined.

End ReuseOfEmbeddings.

(** ** The content hash *)

Section ContentHash.
Import Js Json Merkle.

Lemma value_ind_nested (P : value -> Prop) :
  P VUndefined -> P VNull -> (forall b, P (VBool b)) ->
  (forall s, P (VString s)) ->
  (forall items, Forall P items -> P (VArray items)) ->
  (forall props, Forall (fun kv => P (snd kv)) props -> P (VObject props)) ->
  forall v, P v.
Proof.
  intros Hu Hn Hb Hs Ha Ho. fix IH 1. intros [ | |b|s|items|props].
  - exact Hu.
  - exact Hn.
  - apply Hb.
  - apply Hs.
  - apply Ha. induction items as [|x items IHi]; constructor.
    + apply IH.
    + exact IHi.
  - apply Ho. induction props as [|kv props IHp]; constructor.
    + apply IH.
    + exact IHp.
Qed.

(** Leaving out the properties without a value does not change the
    encoding. *)
Lemma stringify_defined (v : value) : stringify (defined v) = stringify v.
Proof.
  induction v as [ | |b|s|items IH|props IH] using value_ind_nested;
    try reflexivity.
  - cbn [defined stringify]. rewrite map_map.
    erewrite map_ext_in; [reflexivity|].
    intros x Hx. rewrite Forall_forall in IH. specialize (IH x Hx).
    destruct x; try reflexivity; cbv beta iota; now rewrite IH.
  - cbn [defined stringify].
    match goal with
    | |- Some (_ ++ join _ ?a ++ _) = Some (_ ++ join _ ?b ++ _) =>
        assert (E : a = b); [|now rewrite E]
    end.
    induction IH as [|[k x] props Hx _ IHp]; [reflexivity|].
    cbn [flat_map]. rewrite flat_map_app, IHp. f_equal.
    cbn [fst snd] in *.
    destruct x; cbn [flat_map fst snd app]; try reflexivity;
      rewrite ?app_nil_r; try reflexivity; now rewrite Hx.
Qed.

(** The text that is hashed. *)
Lemma hashInput_text (xmlContent : jsstring) (metadata : Metadata) :
  hashInput xmlContent metadata =
  lit "{" ++
    quote (lit "xml") ++ lit ":" ++ quote xmlContent ++ lit "," ++
    quote (lit "type") ++ lit ":" ++ quote (type metadata) ++ lit "," ++
    quote (lit "intent") ++ lit ":" ++ quote (intent metadata) ++ lit "," ++
    quote (lit "context") ++ lit ":" ++
      stringifyObject (context metadata) ++
  lit "}".
Proof.
  unfold hashInput, hashObject, stringifyObject, stringifyDefined.
  cbn [stringify flat_map fst snd app join].
  rewrite <- !app_assoc. reflexivity.
Qed.

(** C3, as the code has it.  The content hash is the SHA-256, in
    hexadecimal, of the UTF-8 bytes of the compact JSON text of the
    object with the properties xml, type, intent and context, in this
    order, whose context properties come in their enumeration order.  Two inputs with the same
    content, type and intent whose contexts agree once the properties
    without a value are left out (same keys in the same order, same
    values) have the same hash. *)
Theorem C3_content_hash (xmlContent : jsstring) (m1 m2 : Metadata) :
  computeChunkHash xmlContent m1 =
    sha256Hex
      (lit "{" ++
         quote (lit "xml") ++ lit ":" ++ quote xmlContent ++ lit "," ++
         quote (lit "type") ++ lit ":" ++ quote (type m1) ++ lit "," ++
         quote (lit "intent") ++ lit ":" ++ quote (intent m1) ++ lit "," ++
         quote (lit "context") ++ lit ":" ++ stringifyObject (context m1) ++
       lit "}") /\
  (type m1 = type m2 -> intent m1 = intent m2 ->
   defined (VObject (context m1)) = defined (VObject (context m2)) ->
   computeChunkHash xmlContent m1 = computeChunkHash xmlContent m2).
Proof.
  split.
  - unfold computeChunkHash. now rewrite hashInput_text.
  - intros Ht Hi Hc. unfold computeChunkHash. rewrite !hashInput_text.
    rewrite Ht, Hi. unfold stringifyObject, stringifyDefined.
    rewrite <- (stringify_defined (VObject (context m1))), Hc,
      stringify_defined.
    reflexivity.
Qed.

Lemma C3_content_hash_witness :
  let m1 := mkMetadata (lit "mediator") (lit "logging")
              [(lit "artifact",
                VObject [(lit "type", VString (lit "api"));
                         (lit "name", VString (lit "Bank"));
                         (lit "xmlns", VUndefined)])] in
  let m2 := mkMetadata (lit "mediator") (lit "logging")
              [(lit "artifact",
                VObject [(lit "type", VString (lit "api"));
                         (lit "name", VString (lit "Bank"))]);
               (lit "references", VUndefined)] in
  type m1 = type m2 /\ intent m1 = intent m2 /\
  defined (VObject (context m1)) = defined (VObject (context m2)) /\
  computeChunkHash (lit "<log level='full'/>") m1 =
  computeChunkHash (lit "<log level='full'/>") m2.
Proof.
  intros m1 m2.
  split; [reflexivity|]. split; [reflexivity|]. split; [reflexivity|].
  apply (proj2 (C3_content_hash (lit "<log level='full'/>") m1 m2));
    reflexivity.
Defined.

(** The hash of a chunk below [<resource methods='GET'
    uri-template='/accounts'>], and the hash of the same chunk when the
    two attributes of the resource are written in the other order. *)
Example hash_methods_first :
  computeChunkHash (lit "<log level='full'/>")
    (mkMetadata (lit "mediator") (lit "logging")
       [(lit "resource",
         VObject [(lit "methods", VString (lit "GET"));
                  (lit "uri-template", VString (lit "/accounts"))])]) =
  lit "7babf9d25fef2e1dcb519e3644e61f653fe44368cbe9c5382113d3eaf26a2e26".
Proof. vm_compute. reflexivity. Qed.

Example hash_uri_template_first :
  computeChunkHash (lit "<log level='full'/>")
    (mkMetadata (lit "mediator") (lit "logging")
       [(lit "resource",
         VObject [(lit "uri-template", VString (lit "/accounts"));
                  (lit "methods", VString (lit "GET"))])]) =
  lit "65e6b7c708c3ceba6e50498d60ae184b4abc99dcf1c6a1e8c1d1c28dc05713a0".
Proof. vm_compute. reflexivity. Qed.

(** C3 fails as stated: the two contexts differ in the order of the keys
    of one object only, and the hashes differ. *)
Lemma C3_key_order_changes_the_hash :
  let attrs1 := [(lit "methods", VString (lit "GET"));
                 (lit "uri-template", VString (lit "/accounts"))] in
  let attrs2 := [(lit "uri-template", VString (lit "/accounts"));
                 (lit "methods", VString (lit "GET"))] in
  let m1 := mkMetadata (lit "mediator") (lit "logging")
              [(lit "resource", VObject attrs1)] in
  let m2 := mkMetadata (lit "mediator") (lit "logging")
              [(lit "resource", VObject attrs2)] in
  Permutation attrs1 attrs2 /\
  computeChunkHash (lit "<log level='full'/>") m1 <>
  computeChunkHash (lit "<log level='full'/>") m2.
Proof.
  cbv zeta. split.
  - apply perm_swap.
  - intros H. vm_compute in H. discriminate H.
Qed.

End ContentHash.

(** ** More on JavaScript maps *)

Section MapFill.
Import Js.
Context {K V : Type} (keq : K -> K -> bool).
Hypothesis keq_spec : forall a b, keq a b = true <-> a = b.

Lemma map_set_same_value (m : list (K * V)) k v :
  map_get keq m k = Some v -> map_set keq m k v = m.
Proof.
  induction m as [|[k0 v0] m IH]; simpl; [discriminate|].
  destruct (keq k0 k) eqn:E.
  - intros [= ->]. reflexivity.
  - intros H. now rewrite IH.
Qed.

Lemma map_has_In (m : list (K * V)) k :
  map_has keq m k = true <-> In k (map fst m).
Proof.
  unfold map_has. induction m as [|[k0 v0] m IH]; simpl.
  - split; [discriminate|contradiction].
  - destruct (keq k0 k) eqn:E.
    + apply keq_spec in E. subst. split; auto.
    + rewrite IH. split; [auto|]. intros [Hk|Hk]; [|assumption].
      subst. rewrite (proj2 (keq_spec k k) eq_refl) in E. discriminate.
Qed.

Lemma map_get_In_key (m : list (K * V)) k :
  In k (map fst m) -> exists v, map_get keq m k = Some v.
Proof.
  intros H. apply map_has_In in H. unfold map_has in H.
  destruct (map_get keq m k) as [v|]; [now exists v|discriminate].
Qed.

Lemma map_get_None (m : list (K * V)) k :
  map_get keq m k = None <-> ~ In k (map fst m).
Proof.
  rewrite <- map_has_In. unfold map_has.
  destruct (map_get keq m k); split; congruence.
Qed.

Lemma map_set_fst (m : list (K * V)) k v :
  map fst (map_set keq m k v) =
  if map_has keq m k then map fst m else map fst m ++ [k].
Proof.
  unfold map_has. induction m as [|[k0 v0] m IH]; simpl; [reflexivity|].
  destruct (keq k0 k) eqn:E; simpl; [reflexivity|].
  rewrite IH. destruct (map_get keq m k); reflexivity.
Qed.

Lemma map_set_NoDup (m : list (K * V)) k v :
  NoDup (map fst m) -> NoDup (map fst (map_set keq m k v)).
Proof.
  intros Hnd. rewrite map_set_fst.
  destruct (map_has keq m k) eqn:E; [assumption|].
  apply NoDup_snoc; [assumption|]. intros Hin.
  apply map_has_In in Hin. congruence.
Qed.

Lemma map_delete_In (m : list (K * V)) k e :
  In e (map_delete keq m k) <-> In e m /\ fst e <> k.
Proof.
  unfold map_delete. rewrite filter_In. split.
  - intros [Hin Hk]. split; [assumption|].
    apply negb_true_iff in Hk. intros Heq.
    apply keq_spec in Heq. congruence.
  - intros [Hin Hk]. split; [assumption|]. apply negb_true_iff.
    destruct (keq (fst e) k) eqn:E; [|reflexivity].
    apply keq_spec in E. contradiction.
Qed.

(** Filling a map from a list of items. *)
Section Items.
Context {A : Type} (key : A -> K) (val : A -> V).

Local Abbreviation fill m items :=
  (fold_left (fun acc x => map_set keq acc (key x) (val x)) items m).

Lemma fill_NoDup (items : list A) : forall m,
  NoDup (map fst m) -> NoDup (map fst (fill m items)).
Proof.
  induction items as [|x items IH]; intros m H; simpl; [assumption|].
  apply IH. now apply map_set_NoDup.
Qed.

Lemma fill_keys (items : list A) : forall m k,
  In k (map fst (fill m items)) <-> In k (map fst m) \/ In k (map key items).
Proof.
  induction items as [|x items IH]; intros m k; simpl; [tauto|].
  rewrite IH, map_set_fst.
  destruct (map_has keq m (key x)) eqn:E.
  - apply map_has_In in E. split; [tauto|].
    intros [H|[H|H]]; auto. subst. auto.
  - rewrite in_app_iff. simpl. tauto.
Qed.

(** The value of a key is that of the last item with this key, or the
    one the map had. *)
Lemma fill_get_in (items : list A) : forall m k v,
  map_get keq (fill m items) k = Some v ->
  (exists x, In x items /\ key x = k /\ val x = v) \/
  (map_get keq m k = Some v /\ ~ In k (map key items)).
Proof.
  induction items as [|x items IH]; intros m k v H; simpl in *.
  - right. split; [assumption|tauto].
  - apply IH in H. destruct H as [(y & Hy & Hk & Hv)|[H Hout]].
    + left. exists y. auto.
    + destruct (keq (key x) k) eqn:E.
      * apply keq_spec in E. subst k.
        rewrite (map_get_set_same keq keq_spec) in H. inversion H; subst.
        left. exists x. auto.
      * rewrite (map_get_set_other keq keq_spec) in H.
        -- right. split; [assumption|]. intros [Hk|Hk]; [|contradiction].
           apply keq_spec in Hk. congruence.
        -- intros Hk. apply keq_spec in Hk. congruence.
Qed.

(** When the items with one key agree on its value, so does the map. *)
Lemma fill_get_agree (items : list A) : forall m k v,
  In k (map key items) ->
  (forall x, In x items -> key x = k -> val x = v) ->
  map_get keq (fill m items) k = Some v.
Proof.
  intros m k v Hin Hagree.
  assert (Hkey : In k (map fst (fill m items))).
  { apply fill_keys. now right. }
  apply map_get_In_key in Hkey. destruct Hkey as [v' Hv'].
  rewrite Hv'. f_equal.
  apply fill_get_in in Hv'. destruct Hv' as [(x & Hx & Hk & Hv)|[_ Hout]].
  - rewrite <- Hv. now apply Hagree.
  - contradiction.
Qed.

(** Filling a map with values that it holds changes nothing. *)
Lemma fill_same (items : list A) : forall m,
  (forall x, In x items -> map_get keq m (key x) = Some (val x)) ->
  fill m items = m.
Proof.
  induction items as [|x items IH]; intros m H; simpl; [reflexivity|].
  rewrite map_set_same_value by (apply H; now left).
  apply IH. intros y Hy. apply H. now right.
Qed.
End Items.

End MapFill.

(** ** The storage layer: invariants and compositions *)

Section StoreCalls.
Import Js Store Pipeline.

Lemma deleteChunksByFile_rows db path :
  chunks (deleteChunksByFile db path) =
    filter (fun r => negb (str_eqb (file_path r) path)) (chunks db) /\
  chunks_seq (deleteChunksByFile db path) = chunks_seq db /\
  chunks_fts (deleteChunksByFile db path) =
    filter (fun f => negb (existsb (fun r => id r =? chunk_id f)
                                   (getChunksByFile db path)))
           (chunks_fts db).
Proof.
  unfold deleteChunksByFile, getChunksByFile.
  set (rows := filter (fun r => str_eqb (file_path r) path) (chunks db)).
  destruct (deleteFts_fold rows db) as (Hc & Hs & Hf). cbv zeta in Hc, Hs, Hf.
  cbn [chunks chunks_seq chunks_fts cascade set_references set_chunks].
  rewrite Hc, Hs, Hf. repeat split.
Qed.

Lemma hasChunk_In db i :
  hasChunk db i = true <-> exists r, In r (chunks db) /\ id r = i.
Proof.
  unfold hasChunk. rewrite existsb_exists. split.
  - intros (r & Hr & E). apply Z.eqb_eq in E. now exists r.
  - intros (r & Hr & E). exists r. split; [assumption|now apply Z.eqb_eq].
Qed.

Lemma max_id_nonneg (rows : list Row) : 0 <= max_id rows.
Proof. induction rows as [|r rows IH]; simpl; lia. Qed.

(** The counter of the AUTOINCREMENT key never decreases. *)
Lemma call_seq_mono db c : chunks_seq db <= chunks_seq (call db c).
Proof.
  destruct c as [[metadata emb text|rowid metadata emb text|rowid|path]
                |now caller callee key]; cbn [call run].
  - unfold insertChunk.
    destruct (existsb _ (chunks db)); [lia|].
    unfold syncInsert. destruct (supplied text);
      cbn [chunks_seq insertFts set_fts set_chunks]; unfold next_id; lia.
  - unfold updateChunk. cbv zeta.
    destruct (existsb _ (chunks db)); [lia|].
    unfold syncUpdate. destruct (supplied text);
      cbn [chunks_seq updateFts insertFts deleteFts set_fts set_chunks]; lia.
  - unfold deleteChunk.
    cbn [chunks_seq cascade set_references set_chunks deleteFts set_fts]. lia.
  - destruct (deleteChunksByFile_rows db path) as (_ & -> & _). lia.
  - unfold linkSequenceReference.
    destruct (hasChunk db caller && hasChunk db callee);
      cbn [chunks_seq set_references]; lia.
Qed.

Lemma calls_seq_mono (cs : list Call) : forall db,
  chunks_seq db <= chunks_seq (calls db cs).
Proof.
  induction cs as [|c cs IH]; intros db; cbn [calls fold_left]; [lia|].
  pose proof (call_seq_mono db c). specialize (IH (call db c)).
  unfold calls in IH. lia.
Qed.

Lemma insertChunk_seq db metadata emb text i db' :
  insertChunk db metadata emb text = Ok (i, db') -> chunks_seq db' = i.
Proof.
  unfold insertChunk. destruct (existsb _ (chunks db)); [discriminate|].
  intros H. inversion H; subst. unfold syncInsert.
  destruct (supplied text); reflexivity.
Qed.

(** X1.  An id is given out once ([AUTOINCREMENT]).  Whatever calls of
    the store lie between two successful calls of [insertChunk], deletions
    included, the second one returns a larger id than the first, and an id
    that [insertChunk] returns is larger than the id of every row of the
    table. *)
Theorem insertChunk_never_reuses_an_id
    db metadata emb text i db1 (cs : list Call) metadata' emb' text' j db2 :
  insertChunk db metadata emb text = Ok (i, db1) ->
  insertChunk (calls db1 cs) metadata' emb' text' = Ok (j, db2) ->
  i < j /\
  (forall r, In r (chunks db) -> id r < i) /\
  (forall r, In r (chunks (calls db1 cs)) -> id r < j).
Proof.
  intros H1 H2.
  pose proof (insertChunk_seq _ _ _ _ _ _ H1) as Hseq.
  apply insertChunk_rows in H1. destruct H1 as (Hi & _).
  apply insertChunk_rows in H2. destruct H2 as (Hj & _).
  pose proof (calls_seq_mono cs db1) as Hmono.
  split; [|split].
  - subst j. unfold next_id. lia.
  - intros r Hr. apply max_id_ge in Hr. subst i. unfold next_id. lia.
  - intros r Hr. apply max_id_ge in Hr. subst j. unfold next_id. lia.
Qed.

Lemma insertChunk_never_reuses_an_id_witness :
  let metadata :=
    mkMetadata (lit "/p/api.xml") (lit "f1") (lit "r") (lit "api")
               (lit "filter") 0 3 9 None 0 (lit "h") (lit "mediator")
               (lit "validation") [] None None None in
  let db1 := run empty (Insert metadata [] (Some (lit "filter a"))) in
  let db2 := run (calls db1 [Write (Delete 1)])
                 (Insert metadata [] (Some (lit "filter a"))) in
  insertChunk empty metadata [] (Some (lit "filter a")) = Ok (1, db1) /\
  insertChunk (calls db1 [Write (Delete 1)]) metadata []
              (Some (lit "filter a")) = Ok (2, db2) /\
  1 < 2.
Proof.
  intros metadata db1 db2.
  assert (H1 : insertChunk empty metadata [] (Some (lit "filter a"))
               = Ok (1, db1)) by reflexivity.
  assert (H2 : insertChunk (calls db1 [Write (Delete 1)]) metadata []
                           (Some (lit "filter a")) = Ok (2, db2))
    by reflexivity.
  split; [exact H1|]. split; [exact H2|].
  exact (proj1 (insertChunk_never_reuses_an_id _ _ _ _ _ _ _ _ _ _ _ _
                  H1 H2)).
Defined.

(** *** The constraints of the schema *)

Lemma hasChunk_filter (f : Row -> bool) db db' i :
  chunks db' = filter f (chunks db) ->
  (forall r, In r (chunks db) -> id r = i -> f r = true) ->
  hasChunk db i = true -> hasChunk db' i = true.
Proof.
  intros Hrows Hkeep Hhas. apply hasChunk_In in Hhas.
  destruct Hhas as (r & Hr & Hid). apply hasChunk_In. exists r.
  split; [|assumption]. rewrite Hrows. apply filter_In. split; auto.
Qed.

Lemma references_call db c :
  referencesResolve db -> referencesResolve (call db c).
Proof.
  intros Href.
  destruct c as [[metadata emb text|rowid metadata emb text|rowid|path]
                |now caller callee key]; cbn [call run].
  - destruct (insertChunk db metadata emb text) as [[i db']|] eqn:E;
      [|assumption].
    assert (Hrefs : sequence_references db' = sequence_references db).
    { unfold insertChunk in E. destruct (existsb _ (chunks db));
        [discriminate|]. inversion E; subst. unfold syncInsert.
      destruct (supplied text); reflexivity. }
    apply insertChunk_rows in E. destruct E as (_ & Hrows & _).
    intros ref Hin. rewrite Hrefs in Hin. destruct (Href ref Hin) as [H1 H2].
    unfold hasChunk in *. rewrite Hrows, !existsb_app, H1, H2. auto.
  - destruct (updateChunk db rowid metadata emb text) as [db'|] eqn:E;
      [|assumption].
    assert (Hrefs : sequence_references db' = sequence_references db).
    { unfold updateChunk in E. cbv zeta in E.
      destruct (existsb _ (chunks db)); [discriminate|]. inversion E; subst.
      unfold syncUpdate. destruct (supplied text); reflexivity. }
    intros ref Hin. rewrite Hrefs in Hin. destruct (Href ref Hin) as [H1 H2].
    rewrite !(hasChunk_update _ _ _ _ _ _ _ E). auto.
  - intros ref Hin. unfold deleteChunk in *.
    cbn [sequence_references cascade set_references set_chunks] in Hin.
    apply filter_In in Hin. destruct Hin as [Hin Hgone].
    cbn [sequence_references deleteFts set_fts] in Hin.
    destruct (Href ref Hin) as [H1 H2].
    apply andb_true_iff in Hgone. destruct Hgone as [G1 G2].
    apply negb_true_iff in G1, G2.
    assert (Hhas : forall i, hasChunk (deleteFts db rowid) i = hasChunk db i)
      by reflexivity.
    rewrite Hhas in G1, G2. rewrite H1 in G1. rewrite H2 in G2.
    cbn [andb] in G1, G2. apply Z.eqb_neq in G1, G2.
    split.
    + eapply (hasChunk_filter (fun r => negb (id r =? rowid)) db);
        [reflexivity| |exact H1].
      intros r _ Hid. apply negb_true_iff. apply Z.eqb_neq. congruence.
    + eapply (hasChunk_filter (fun r => negb (id r =? rowid)) db);
        [reflexivity| |exact H2].
      intros r _ Hid. apply negb_true_iff. apply Z.eqb_neq. congruence.
  - destruct (deleteChunksByFile_rows db path) as (Hrows & _ & _).
    intros ref Hin. unfold deleteChunksByFile in Hin.
    cbn [sequence_references cascade set_references set_chunks] in Hin.
    apply filter_In in Hin. destruct Hin as [Hin Hgone].
    set (rows := filter (fun r => str_eqb (file_path r) path) (chunks db)) in *.
    assert (Hin' : In ref (sequence_references db)).
    { clear - Hin. revert Hin. generalize db.
      induction rows as [|r rows IH]; intros d Hin; [exact Hin|].
      cbn [fold_left] in Hin. apply IH in Hin. exact Hin. }
    destruct (Href ref Hin') as [H1 H2].
    apply andb_true_iff in Hgone. destruct Hgone as [G1 G2].
    apply negb_true_iff in G1, G2.
    assert (Hkeep : forall i,
              existsb (fun r => id r =? i) rows = false ->
              forall r, In r (chunks db) -> id r = i ->
                negb (str_eqb (file_path r) path) = true).
    { intros i Hi r Hr Hid. apply negb_true_iff.
      destruct (str_eqb (file_path r) path) eqn:Ep; [|reflexivity].
      assert (existsb (fun r => id r =? i) rows = true); [|congruence].
      apply existsb_exists. exists r. split.
      - unfold rows. apply filter_In. now split.
      - now apply Z.eqb_eq. }
    split.
    + eapply hasChunk_filter; [exact Hrows|apply Hkeep; exact G1|exact H1].
    + eapply hasChunk_filter; [exact Hrows|apply Hkeep; exact G2|exact H2].
  - unfold linkSequenceReference.
    destruct (hasChunk db caller && hasChunk db callee) eqn:E; [|assumption].
    apply andb_true_iff in E. destruct E as [E1 E2].
    intros ref Hin. cbn [sequence_references set_references] in Hin.
    apply in_app_or in Hin. destruct Hin as [Hin|[<-|[]]].
    + apply (Href ref Hin).
    + now split.
Qed.

Lemma constraints_call db c :
  constraintsHold db -> constraintsHold (call db c).
Proof.
  intros Hc.
  destruct c as [[metadata emb text|rowid metadata emb text|rowid|path]
                |now caller callee key]; cbn [call run].
  - destruct (insertChunk db metadata emb text) as [[i db']|] eqn:E;
      [|assumption].
    eapply constraints_insert; eauto.
  - destruct (updateChunk db rowid metadata emb text) as [db'|] eqn:E;
      [|assumption].
    eapply constraints_update; eauto.
  - eapply (constraints_filter db _ (fun r => negb (id r =? rowid)));
      [reflexivity|assumption].
  - eapply constraints_filter; [|exact Hc].
    apply (proj1 (deleteChunksByFile_rows db path)).
  - unfold linkSequenceReference.
    destruct (hasChunk db caller && hasChunk db callee); assumption.
Qed.

(** X2.  In every state of the store that calls of [insertChunk],
    [updateChunk], [deleteChunk], [deleteChunksByFile] and
    [linkSequenceReference] reach from the empty store, whether they return
    or throw: the ids of the rows are pairwise distinct, two rows with the
    same file path, chunk index, start line and end line are the same row
    ([idx_unique_chunk]), every row of [sequence_references] refers to
    existing chunks on both sides (the foreign keys with their cascade),
    and the ids are positive and at most the counter of the table. *)
Theorem schema_constraints_hold (cs : list Call) :
  let db := calls empty cs in
  NoDup (map id (chunks db)) /\
  (forall r r', In r (chunks db) -> In r' (chunks db) ->
     file_path r = file_path r' -> chunk_index r = chunk_index r' ->
     start_line r = start_line r' -> end_line r = end_line r' -> r = r') /\
  referencesResolve db /\
  (forall r, In r (chunks db) -> 0 < id r <= chunks_seq db).
Proof.
  cbv zeta.
  assert (G : forall db,
            constraintsHold db /\ referencesResolve db /\
            (forall r, In r (chunks db) -> 0 < id r <= chunks_seq db) ->
            constraintsHold (calls db cs) /\ referencesResolve (calls db cs) /\
            (forall r, In r (chunks (calls db cs)) ->
                       0 < id r <= chunks_seq (calls db cs))).
  { induction cs as [|c cs IH]; intros db H; [exact H|].
    cbn [calls fold_left]. apply IH. destruct H as (Hc & Hr & Hid).
    split; [now apply constraints_call|]. split; [now apply references_call|].
    clear IH.
    destruct c as [[metadata emb text|rowid metadata emb text|rowid|path]
                  |now caller callee key]; cbn [call run].
    - destruct (insertChunk db metadata emb text) as [[i db']|] eqn:E;
        [|assumption].
      pose proof (insertChunk_seq _ _ _ _ _ _ E) as Hseq.
      apply insertChunk_rows in E. destruct E as (Hi & Hrows & _).
      intros r Hin. rewrite Hrows in Hin. apply in_app_or in Hin.
      assert (Hnext : chunks_seq db < i) by (subst i; unfold next_id; lia).
      destruct Hin as [Hin|[<-|[]]].
      + specialize (Hid r Hin). lia.
      + cbn [id bindRow]. pose proof (max_id_nonneg (chunks db)) as Hm.
        subst i. unfold next_id in *. lia.
    - destruct (updateChunk db rowid metadata emb text) as [db'|] eqn:E;
        [|assumption].
      assert (Hseq : chunks_seq db' = chunks_seq db).
      { unfold updateChunk in E. cbv zeta in E.
        destruct (existsb _ (chunks db)); [discriminate|]. inversion E; subst.
        unfold syncUpdate. destruct (supplied text); reflexivity. }
      apply updateChunk_rows in E. destruct E as (Hrows & _).
      intros r Hin. rewrite Hrows in Hin. apply in_map_iff in Hin.
      destruct Hin as (r0 & <- & Hin). rewrite Hseq.
      destruct (id r0 =? rowid) eqn:Er; [|now apply Hid].
      apply Z.eqb_eq in Er. cbn [id bindRow]. rewrite <- Er. now apply Hid.
    - intros r Hin. unfold deleteChunk in *.
      cbn [chunks chunks_seq cascade set_references set_chunks deleteFts
           set_fts] in *.
      apply filter_In in Hin. now apply Hid.
    - destruct (deleteChunksByFile_rows db path) as (Hrows & Hseq & _).
      intros r Hin. rewrite Hrows in Hin. rewrite Hseq.
      apply filter_In in Hin. now apply Hid.
    - unfold linkSequenceReference.
      destruct (hasChunk db caller && hasChunk db callee); assumption. }
  destruct (G empty) as ((Hnd & Huniq) & Href & Hid).
  { split; [split; [constructor|intros r r' []]|].
    split; [intros ref []|intros r []]. }
  split; [exact Hnd|]. split; [|split; assumption].
  intros r r' Hr Hr' Hp Hi Hs He.
  apply (NoDup_ids_inj (chunks (calls empty cs))); try assumption.
  apply Huniq; try assumption. unfold same_key.
  rewrite Hp, Hi, Hs, He, str_eqb_refl, !Z.eqb_refl. reflexivity.
Qed.

End StoreCalls.

Section StoreOps.
Import Js Store Pipeline.

Lemma deleteFts_fold_refs (rows : list Row) : forall db,
  sequence_references (fold_left (fun d r => deleteFts d (id r)) rows db)
  = sequence_references db.
Proof.
  induction rows as [|r rows IH]; intros db; cbn [fold_left]; [reflexivity|].
  now rewrite IH.
Qed.

Lemma existsb_id_In (rows : list Row) i :
  existsb (fun r => id r =? i) rows = true <-> In i (map id rows).
Proof.
  rewrite existsb_exists, in_map_iff. split.
  - intros (r & Hr & E). apply Z.eqb_eq in E. now exists r.
  - intros (r & E & Hr). exists r. split; [assumption|now apply Z.eqb_eq].
Qed.

Lemma negb_existsb_id (rows : list Row) i :
  negb (existsb (fun r => id r =? i) rows) = true <-> ~ In i (map id rows).
Proof.
  rewrite negb_true_iff, <- existsb_id_In.
  destruct (existsb _ rows); split; congruence.
Qed.

Lemma deleteChunksByFile_files (db : DB) (path q : jsstring) :
  getChunksByFile (deleteChunksByFile db path) q =
  if str_eqb q path then [] else getChunksByFile db q.
Proof.
  destruct (deleteChunksByFile_rows db path) as (Hrows & _).
  unfold getChunksByFile at 1. rewrite Hrows.
  destruct (str_eqb q path) eqn:E.
  - apply str_eqb_eq in E. subst q. apply filter_filter_none.
    intros r _ Hr. now rewrite Hr.
  - unfold getChunksByFile. apply filter_filter_keep.
    intros r _ Hr. apply str_eqb_eq in Hr. subst q. now rewrite E.
Qed.

(** X3.  [deleteChunksByFile] leaves no chunk of the file and the
    chunks of every other file as they are; it removes the rows of the
    FTS table of the chunks of the file and no other, the references from
    and to these chunks and no other, and the number of chunks goes down
    by the number of chunks of the file. *)
Theorem deleteChunksByFile_removes_the_file (db : DB) (path : jsstring) :
  let db' := deleteChunksByFile db path in
  let gone := map id (getChunksByFile db path) in
  (forall q, getChunksByFile db' q =
             if str_eqb q path then [] else getChunksByFile db q) /\
  (forall f, In f (chunks_fts db') <->
             In f (chunks_fts db) /\ ~ In (chunk_id f) gone) /\
  (forall ref, In ref (sequence_references db') <->
               In ref (sequence_references db) /\
               ~ In (caller_chunk_id ref) gone /\
               ~ In (callee_chunk_id ref) gone) /\
  getChunkCount db' =
    getChunkCount db - Z.of_nat (length (getChunksByFile db path)).
Proof.
  cbv zeta.
  destruct (deleteChunksByFile_rows db path) as (Hrows & _ & Hfts).
  split; [|split; [|split]].
  - intros q. apply deleteChunksByFile_files.
  - intros f. rewrite Hfts, filter_In, negb_existsb_id. reflexivity.
  - intros ref. unfold deleteChunksByFile.
    cbn [sequence_references cascade set_references set_chunks].
    rewrite filter_In, deleteFts_fold_refs, andb_true_iff.
    fold (getChunksByFile db path). rewrite !negb_existsb_id. reflexivity.
  - unfold getChunkCount, getChunksByFile. rewrite Hrows.
    pose proof (filter_length (fun r => str_eqb (file_path r) path)
                              (chunks db)) as Hlen.
    cbv beta in Hlen. unfold ChunkRecord in *. lia.
Qed.

(** *** The unique index *)

Lemma same_key_bindRow i p metadata emb o :
  same_key (bindRow i p metadata emb) o = true <->
  file_path o = p /\ chunk_index o = chunkIndex metadata /\
  start_line o = startLine metadata /\ end_line o = endLine metadata.
Proof.
  unfold same_key. cbn [file_path chunk_index start_line end_line bindRow].
  rewrite !andb_true_iff, !Z.eqb_eq, str_eqb_eq. intuition congruence.
Qed.

Lemma collision_iff db i metadata emb :
  existsb (same_key (bindRow i (filePath metadata) metadata emb)) (chunks db)
    = true <-> locationTaken db metadata.
Proof.
  rewrite existsb_exists. unfold locationTaken.
  split; intros (r & Hr & H); exists r; (split; [assumption|]).
  - apply same_key_bindRow in H. exact H.
  - apply same_key_bindRow. exact H.
Qed.

(** X4.  [insertChunk] throws exactly when a row holds the location
    (file path, chunk index, start line, end line) of the metadata, and
    the exception is the one of the unique index.  After an insertion that
    returns, a second insertion at the location throws, whatever its
    embedding and text; once the row is deleted the insertion returns
    again, with a larger id. *)
Theorem insertChunk_location_is_unique (db : DB) (metadata : ChunkMetadata)
    (emb : Float32.Float32Array) (text : option jsstring) :
  (locationTaken db metadata ->
     insertChunk db metadata emb text = Throw UniqueConstraint) /\
  (forall e, insertChunk db metadata emb text = Throw e ->
     e = UniqueConstraint /\ locationTaken db metadata) /\
  (forall i db', insertChunk db metadata emb text = Ok (i, db') ->
     ~ locationTaken db metadata /\
     (forall emb' text',
        insertChunk db' metadata emb' text' = Throw UniqueConstraint) /\
     (forall emb' text',
        exists j db'',
          insertChunk (deleteChunk db' i) metadata emb' text' = Ok (j, db'')
          /\ i < j)).
Proof.
  split; [|split].
  - intros Htaken. unfold insertChunk.
    rewrite (proj2 (collision_iff db (next_id db) metadata emb) Htaken).
    reflexivity.
  - intros e. unfold insertChunk.
    destruct (existsb _ (chunks db)) eqn:E; [|discriminate].
    intros [= <-]. split; [reflexivity|]. now apply collision_iff in E.
  - intros i db' H.
    pose proof (insertChunk_seq _ _ _ _ _ _ H) as Hseq.
    pose proof H as Hrows. apply insertChunk_rows in Hrows.
    destruct Hrows as (Hi & Hrows & _).
    assert (Hfree : ~ locationTaken db metadata).
    { intros Htaken. unfold insertChunk in H.
      rewrite (proj2 (collision_iff db (next_id db) metadata emb) Htaken) in H.
      discriminate. }
    split; [exact Hfree|]. split.
    + intros emb' text'. unfold insertChunk.
      replace (existsb _ (chunks db')) with true; [reflexivity|].
      symmetry. apply collision_iff.
      exists (bindRow i (filePath metadata) metadata emb). split.
      * rewrite Hrows. apply in_or_app. right. now left.
      * repeat split.
    + intros emb' text'. unfold insertChunk.
      set (d := deleteChunk db' i).
      assert (Hd : chunks d = filter (fun r => negb (id r =? i)) (chunks db)
                   /\ chunks_seq d = i).
      { unfold d, deleteChunk.
        cbn [chunks chunks_seq cascade set_references set_chunks deleteFts
             set_fts].
        rewrite Hrows, Hseq, filter_app. cbn [filter id bindRow].
        rewrite Z.eqb_refl. cbn [negb]. rewrite app_nil_r. now split. }
      destruct Hd as [Hd Hdseq].
      replace (existsb _ (chunks d)) with false.
      * do 2 eexists. split; [reflexivity|]. unfold next_id.
        rewrite Hdseq. pose proof (max_id_nonneg (chunks d)). lia.
      * symmetry.
        match goal with |- ?b = false => destruct b eqn:E end; [|reflexivity].
        exfalso. apply collision_iff in E. apply Hfree.
        destruct E as (r & Hr & Hloc). exists r. split; [|assumption].
        rewrite Hd in Hr. apply filter_In in Hr. apply Hr.
Qed.

(** *** References to artifacts *)

Lemma includes_colon (s : jsstring) :
  hasColon s = existsb (fun c => (c =? 58)%N) s.
Proof.
  unfold hasColon. induction s as [|c s IH]; [reflexivity|].
  cbn [includes existsb startsWith]. rewrite IH.
  destruct s; destruct (c =? 58)%N; reflexivity.
Qed.

Lemma hasColon_app (a b : jsstring) :
  hasColon (a ++ b) = hasColon a || hasColon b.
Proof. rewrite !includes_colon. apply existsb_app. Qed.

Lemma untilColon_id (s : jsstring) : hasColon s = false -> untilColon s = s.
Proof.
  rewrite includes_colon. induction s as [|c s IH]; [reflexivity|].
  cbn [existsb untilColon]. destruct (c =? 58)%N; [discriminate|].
  cbn [orb]. intros H. now rewrite IH.
Qed.

Lemma afterColon_app (kind name : jsstring) :
  hasColon kind = false -> afterColon (kind ++ lit ":" ++ name) = name.
Proof.
  rewrite includes_colon. induction kind as [|c kind IH]; [reflexivity|].
  cbn [existsb app afterColon]. destruct (c =? 58)%N; [discriminate|].
  cbn [orb]. exact IH.
Qed.

Lemma artifactNameOf_kind (kind name : jsstring) :
  hasColon kind = false ->
  artifactNameOf (kind ++ lit ":" ++ name) = untilColon name.
Proof.
  intros Hk. unfold artifactNameOf.
  rewrite hasColon_app, hasColon_app, Hk. cbn [orb].
  replace (hasColon (lit ":")) with true by reflexivity. cbn [orb].
  now rewrite afterColon_app.
Qed.

(** X5.  In a reference [kind:name], the kind plays no part:
    [getSequenceDefinition] looks up the name (up to its first colon) among
    the rows with [is_sequence_definition = 1], so that references of two
    kinds to one name resolve to the same chunk, and a reference without a
    kind resolves as the one with a kind.  The chunk found is a row of the
    table with this sequence key that is a definition; when none is found
    the table has no such row. *)
Theorem getSequenceDefinition_reads_the_name_only
    (db : DB) (kind kind' name : jsstring) :
  hasColon kind = false -> hasColon kind' = false ->
  artifactNameOf (kind ++ lit ":" ++ name) = untilColon name /\
  getSequenceDefinition db (kind ++ lit ":" ++ name) =
    getSequenceDefinition db (kind' ++ lit ":" ++ name) /\
  (hasColon name = false ->
     artifactNameOf (kind ++ lit ":" ++ name) = name /\
     getSequenceDefinition db (kind ++ lit ":" ++ name) =
       getSequenceDefinition db name) /\
  (forall def,
     getSequenceDefinition db (kind ++ lit ":" ++ name) = Some def ->
     In def (chunks db) /\ sequence_key def = Some (untilColon name) /\
     is_sequence_definition def = 1) /\
  (getSequenceDefinition db (kind ++ lit ":" ++ name) = None ->
     forall r, In r (chunks db) ->
       sequence_key r = Some (untilColon name) ->
       is_sequence_definition r <> 1).
Proof.
  intros Hk Hk'.
  pose proof (artifactNameOf_kind kind name Hk) as E.
  pose proof (artifactNameOf_kind kind' name Hk') as E'.
  split; [exact E|]. split; [|split; [|split]].
  - unfold getSequenceDefinition. now rewrite E, E'.
  - intros Hn. rewrite E, (untilColon_id name Hn). split; [reflexivity|].
    unfold getSequenceDefinition. rewrite E, (untilColon_id name Hn).
    unfold artifactNameOf. now rewrite Hn.
  - intros def H. unfold getSequenceDefinition in H. rewrite E in H.
    apply find_some in H. destruct H as [Hin H].
    apply andb_true_iff in H. destruct H as [H1 H2].
    apply Z.eqb_eq in H2. split; [assumption|]. split; [|assumption].
    destruct (sequence_key def) as [k|]; [|discriminate].
    apply str_eqb_eq in H1. now subst.
  - intros H r Hr Hkey Hdef. unfold getSequenceDefinition in H.
    rewrite E in H.
    pose proof (find_none _ _ H r Hr) as Hnone. cbv beta in Hnone.
    rewrite Hkey, str_eqb_refl, Hdef in Hnone. discriminate.
Qed.

Lemma getSequenceDefinition_reads_the_name_only_witness :
  let def :=
    mkRow 1 (lit "/p/sequences/s.xml") (lit "f") (lit "Audit")
          (lit "sequence") (lit "sequence") 0 1 9 [] None 0 (lit "h")
          (lit "sequence") (lit "processing") (lit "{}")
          (Some (lit "Audit")) 1 None in
  let db := mkDB [def] 1 [] 0 [] in
  hasColon (lit "sequence") = false /\ hasColon (lit "endpoint") = false /\
  getSequenceDefinition db (lit "sequence" ++ lit ":" ++ lit "Audit") =
    getSequenceDefinition db (lit "endpoint" ++ lit ":" ++ lit "Audit") /\
  getSequenceDefinition db (lit "endpoint:Audit") = Some def.
Proof.
  intros def db.
  split; [reflexivity|]. split; [reflexivity|]. split; [|reflexivity].
  exact (proj1 (proj2 (getSequenceDefinition_reads_the_name_only
                         db (lit "sequence") (lit "endpoint") (lit "Audit")
                         eq_refl eq_refl))).
Defined.

(** *** The persisted file hashes *)

Lemma pair_eqb_eq (a b : jsstring * jsstring) : pair_eqb a b = true <-> a = b.
Proof.
  destruct a as [a1 a2], b as [b1 b2]. unfold pair_eqb. cbn [fst snd].
  rewrite andb_true_iff, !str_eqb_eq. split.
  - intros [-> ->]. reflexivity.
  - intros [= -> ->]. auto.
Qed.

Lemma seen_In (seen : list (jsstring * jsstring)) x :
  existsb (pair_eqb x) seen = true <-> In x seen.
Proof.
  rewrite existsb_exists. split.
  - intros (y & Hy & E). apply pair_eqb_eq in E. now subst.
  - intros H. exists x. split; [assumption|now apply pair_eqb_eq].
Qed.

Lemma distinctPairs_spec (rows : list (jsstring * jsstring)) : forall seen,
  NoDup (distinctPairs seen rows) /\
  forall x, In x (distinctPairs seen rows) <-> In x rows /\ ~ In x seen.
Proof.
  induction rows as [|y rows IH]; intros seen; cbn [distinctPairs].
  - split; [constructor|]. intros x. simpl. tauto.
  - destruct (existsb (pair_eqb y) seen) eqn:E.
    + apply seen_In in E. destruct (IH seen) as [Hnd Hin].
      split; [assumption|]. intros x. rewrite Hin. simpl.
      split; [tauto|]. intros [[->|H] Hs]; [contradiction|tauto].
    + assert (Hy : ~ In y seen).
      { intros H. apply seen_In in H. congruence. }
      destruct (IH (y :: seen)) as [Hnd Hin]. split.
      * constructor; [|assumption]. rewrite Hin. simpl. tauto.
      * intros x. simpl. rewrite Hin. simpl.
        split.
        -- intros [->|[H1 H2]]; [tauto|]. tauto.
        -- intros [[->|H1] H2]; [tauto|].
           destruct (pair_eqb y x) eqn:Ex.
           ++ apply pair_eqb_eq in Ex. tauto.
           ++ right. split; [assumption|]. intros [->|H]; [|contradiction].
              rewrite (proj2 (pair_eqb_eq x x) eq_refl) in Ex. discriminate.
Qed.

(** The rows in the order of the table are an answer to the query. *)
Lemma selectDistinctHashes_answers (db : DB) :
  distinctHashes db (selectDistinctHashes db).
Proof.
  unfold distinctHashes, selectDistinctHashes.
  destruct (distinctPairs_spec
              (map (fun r => (file_path r, file_hash r)) (chunks db)) [])
    as [Hnd Hin].
  split; [assumption|]. intros p h. rewrite Hin, in_map_iff. split.
  - intros [(r & [= <- <-] & Hr) _]. now exists r.
  - intros (r & Hr & <- & <-). split; [now exists r|intros []].
Qed.

(** When the chunks of a file agree on its hash, the map has it. *)
Lemma latest_hash_of_file (db : DB) (rows : list (jsstring * jsstring))
    p h r0 :
  distinctHashes db rows ->
  In r0 (chunks db) -> file_path r0 = p ->
  (forall r, In r (chunks db) -> file_path r = p -> file_hash r = h) ->
  map_get str_eqb (getLatestFileHashes rows) p = Some h.
Proof.
  intros [Hnd Hrows] Hr0 Hp Hagree. unfold getLatestFileHashes.
  apply (fill_get_agree str_eqb str_eqb_eq fst snd).
  - apply in_map_iff. exists (p, file_hash r0). split; [reflexivity|].
    apply Hrows. now exists r0.
  - intros [p' h'] Hin Hk. cbn [fst snd] in *. subst p'.
    apply Hrows in Hin. destruct Hin as (r & Hr & Hrp & <-).
    now apply Hagree.
Qed.

(** X6.  Whatever order the engine returns the rows of
    [SELECT DISTINCT file_path, file_hash] in, the map of
    [getLatestFileHashes] has one entry for every file with a chunk and
    for no other path; the hash of the entry is carried by a chunk of the
    file, and it is the hash of the file when its chunks agree on it. *)
Theorem getLatestFileHashes_of_the_table
    (db : DB) (rows : list (jsstring * jsstring)) :
  distinctHashes db rows ->
  let m := getLatestFileHashes rows in
  NoDup (map fst m) /\
  (forall p, map_has str_eqb m p = true <->
             exists r, In r (chunks db) /\ file_path r = p) /\
  (forall p h, map_get str_eqb m p = Some h ->
               exists r, In r (chunks db) /\ file_path r = p /\
                         file_hash r = h) /\
  (forall p h r0,
     In r0 (chunks db) -> file_path r0 = p ->
     (forall r, In r (chunks db) -> file_path r = p -> file_hash r = h) ->
     map_get str_eqb m p = Some h).
Proof.
  intros [Hnd Hrows]. cbv zeta. unfold getLatestFileHashes.
  split; [|split; [|split]].
  - apply (fill_NoDup str_eqb str_eqb_eq fst snd). constructor.
  - intros p. rewrite (map_has_In str_eqb str_eqb_eq).
    rewrite (fill_keys str_eqb str_eqb_eq fst snd). cbn [map].
    rewrite in_map_iff. split.
    + intros [[]|([p' h] & <- & Hin)]. apply Hrows in Hin.
      destruct Hin as (r & Hr & Hp & _). now exists r.
    + intros (r & Hr & Hp). right. exists (p, file_hash r).
      split; [reflexivity|]. apply Hrows. now exists r.
  - intros p h H.
    apply (fill_get_in str_eqb str_eqb_eq fst snd) in H.
    destruct H as [([p' h'] & Hin & Hk & Hv)|[H _]]; [|discriminate].
    cbn [fst snd] in *. subst. now apply Hrows.
  - intros p h r0 Hr0 Hp Hagree.
    apply (latest_hash_of_file db rows p h r0); auto. now split.
Qed.

Lemma getLatestFileHashes_of_the_table_witness :
  let db := mkDB [Fixtures.rowAt 1 (lit "/p/a.xml") 0 1 9 (lit "h1") [];
                  Fixtures.rowAt 2 (lit "/p/a.xml") 1 3 5 (lit "h2") [];
                  Fixtures.rowAt 3 (lit "/p/b.xml") 0 1 4 (lit "h3") []]
                 3 [] 0 [] in
  distinctHashes db (selectDistinctHashes db) /\
  map_get str_eqb (getLatestFileHashes (selectDistinctHashes db))
          (lit "/p/a.xml") = Some (lit "f0").
Proof.
  intros db.
  pose proof (selectDistinctHashes_answers db) as Hrows.
  split; [exact Hrows|].
  destruct (getLatestFileHashes_of_the_table db _ Hrows)
    as (_ & _ & _ & Hagree).
  apply (Hagree (lit "/p/a.xml") (lit "f0")
                (Fixtures.rowAt 1 (lit "/p/a.xml") 0 1 9 (lit "h1") []));
    [now left|reflexivity|].
  intros r [<-|[<-|[<-|[]]]]; intros H; reflexivity.
Defined.

End StoreOps.

Section StoreUpdates.
Import Js Store.

Lemma getChunksByFile_update (rows : list Row) rowid metadata emb q :
  map id (filter (fun r => str_eqb (file_path r) q)
            (map (fun r => if id r =? rowid
                           then bindRow rowid (file_path r) metadata emb
                           else r) rows))
  = map id (filter (fun r => str_eqb (file_path r) q) rows).
Proof.
  induction rows as [|r rows IH]; [reflexivity|]. cbn [map filter].
  destruct (id r =? rowid) eqn:E.
  - cbn [file_path bindRow]. destruct (str_eqb (file_path r) q);
      cbn [map id bindRow]; rewrite IH; [|reflexivity].
    apply Z.eqb_eq in E. now rewrite E.
  - destruct (str_eqb (file_path r) q); cbn [map]; now rewrite IH.
Qed.

(** X27.  [updateChunk] writes the columns of the metadata, but not the
    file path: after an update that returns, every file has the chunks
    (by id) that it had, whatever file path the metadata carries; the
    number of chunks is the same; the row with the id has the values of
    the metadata, the bytes of the embedding and its old file path; the
    other rows are as they were; and the table is unchanged when no row
    has the id. *)
Theorem updateChunk_keeps_the_file_of_a_chunk
    (db : DB) (rowid : Z) (metadata : ChunkMetadata)
    (emb : Float32.Float32Array) (text : option jsstring) (db' : DB) :
  updateChunk db rowid metadata emb text = Ok db' ->
  (forall q, map id (getChunksByFile db' q) = map id (getChunksByFile db q)) /\
  getChunkCount db' = getChunkCount db /\
  (forall r, In r (chunks db') -> id r = rowid ->
     exists old, In old (chunks db) /\ id old = rowid /\
                 r = bindRow rowid (file_path old) metadata emb) /\
  (forall r, id r <> rowid -> In r (chunks db') <-> In r (chunks db)) /\
  (hasChunk db rowid = false -> chunks db' = chunks db).
Proof.
  intros H. apply updateChunk_rows in H. destruct H as [Hrows _].
  split; [|split; [|split; [|split]]].
  - intros q. unfold getChunksByFile. rewrite Hrows.
    apply getChunksByFile_update.
  - unfold getChunkCount. now rewrite Hrows, length_map.
  - intros r Hr Hid. rewrite Hrows in Hr. apply in_map_iff in Hr.
    destruct Hr as (old & <- & Hold).
    destruct (id old =? rowid) eqn:E.
    + apply Z.eqb_eq in E. now exists old.
    + apply Z.eqb_neq in E. contradiction.
  - intros r Hne. rewrite Hrows, in_map_iff. split.
    + intros (old & <- & Hold).
      destruct (id old =? rowid) eqn:E; [|assumption].
      cbn [id bindRow] in Hne. contradiction.
    + intros Hr. exists r. split; [|assumption].
      replace (id r =? rowid) with false; [reflexivity|].
      symmetry. now apply Z.eqb_neq.
  - intros Hnone. rewrite Hrows. rewrite <- (map_id (chunks db)) at 2.
    apply map_ext_in. intros r Hr.
    destruct (id r =? rowid) eqn:E; [|reflexivity].
    apply Z.eqb_eq in E.
    assert (hasChunk db rowid = true); [|congruence].
    apply hasChunk_In. now exists r.
Qed.

Lemma updateChunk_keeps_the_file_of_a_chunk_witness :
  let row := Fixtures.rowAt 1 (lit "/p/apis/bank.xml") 0 2 9 (lit "h1") [] in
  let db := mkDB [row] 1 [] 0 [] in
  let metadata :=
    mkMetadata (lit "/p/sequences/other.xml") (lit "f2") (lit "r") (lit "api")
               (lit "filter") 0 3 9 None 0 (lit "h2") (lit "mediator")
               (lit "validation") [] None None None in
  exists db',
    updateChunk db 1 metadata [] None = Ok db' /\
    map id (getChunksByFile db' (lit "/p/apis/bank.xml")) = [1] /\
    getChunksByFile db' (lit "/p/sequences/other.xml") = [].
Proof.
  intros row db metadata.
  assert (H : updateChunk db 1 metadata [] None
              = Ok (match updateChunk db 1 metadata [] None with
                    | Ok d => d
                    | Throw _ => db
                    end)) by reflexivity.
  eexists. split; [exact H|].
  destruct (updateChunk_keeps_the_file_of_a_chunk _ _ _ _ _ _ H)
    as (Hfiles & _).
  split; [now rewrite Hfiles|]. reflexivity.
Defined.

End StoreUpdates.

(** ** The format of a hash *)

Section HashFormat.
Import Js.
Local Open Scope N_scope.

Lemma compress_length hs block : length (Sha256.compress hs block) = 8%nat.
Proof. reflexivity. Qed.

Lemma compress_fold_length (blocks : list (list N)) : forall hs,
  length hs = 8%nat ->
  length (fold_left Sha256.compress blocks hs) = 8%nat.
Proof.
  induction blocks as [|b blocks IH]; intros hs H; cbn [fold_left];
    [assumption|].
  apply IH. apply compress_length.
Qed.

Lemma be_bytes_spec count x :
  length (Sha256.be_bytes count x) = count /\
  Forall (fun b => b < 256) (Sha256.be_bytes count x).
Proof.
  unfold Sha256.be_bytes. split.
  - now rewrite length_map, length_rev, length_seq.
  - apply Forall_forall. intros b Hb. apply in_map_iff in Hb.
    destruct Hb as (i & <- & _).
    change 255 with (N.ones 8). rewrite N.land_ones.
    apply N.mod_lt. discriminate.
Qed.

Lemma digest_spec msg :
  length (Sha256.digest msg) = 32%nat /\
  Forall (fun b => b < 256) (Sha256.digest msg).
Proof.
  unfold Sha256.digest. cbv zeta.
  set (ws := Sha256.words (Sha256.pad msg)).
  pose proof (compress_fold_length (Sha256.blocks (length ws) ws) Sha256.H0
                eq_refl) as Hlen.
  destruct (fold_left Sha256.compress _ Sha256.H0)
    as [|h0 [|h1 [|h2 [|h3 [|h4 [|h5 [|h6 [|h7 [|h8 t]]]]]]]]];
    try discriminate Hlen.
  cbn [flat_map]. rewrite app_nil_r. split.
  - rewrite !length_app.
    now rewrite !(proj1 (be_bytes_spec 4 _)).
  - repeat (apply Forall_app; split); apply be_bytes_spec.
Qed.

Lemma hexDigit_spec n :
  n < 16 ->
  48 <= Sha256.hexDigit n <= 57 \/ 97 <= Sha256.hexDigit n <= 102.
Proof.
  intros H. unfold Sha256.hexDigit. destruct (n <? 10) eqn:E.
  - apply N.ltb_lt in E. left. lia.
  - apply N.ltb_ge in E. right. lia.
Qed.

Lemma hex_spec (bytes : list N) :
  Forall (fun b => b < 256) bytes ->
  length (Sha256.hex bytes) = (2 * length bytes)%nat /\
  Forall (fun c => 48 <= c <= 57 \/ 97 <= c <= 102) (Sha256.hex bytes).
Proof.
  unfold Sha256.hex. induction 1 as [|b bytes Hb _ [IH1 IH2]];
    cbn [flat_map length app].
  - split; [reflexivity|constructor].
  - split; [rewrite IH1; lia|].
    constructor; [|constructor; [|assumption]]; apply hexDigit_spec.
    + apply N.Div0.div_lt_upper_bound. exact Hb.
    + apply N.mod_lt. discriminate.
Qed.

Lemma hex_digest_format (s : jsstring) :
  length (Sha256.hex (Sha256.digest (utf8 s))) = 64%nat /\
  Forall (fun c => 48 <= c <= 57 \/ 97 <= c <= 102)
         (Sha256.hex (Sha256.digest (utf8 s))) /\
  truthy (Sha256.hex (Sha256.digest (utf8 s))) = true.
Proof.
  destruct (digest_spec (utf8 s)) as [Hlen Hbytes].
  destruct (hex_spec _ Hbytes) as [Hl Hd]. rewrite Hlen in Hl.
  split; [exact Hl|]. split; [exact Hd|].
  destruct (Sha256.hex _); [discriminate Hl|reflexivity].
Qed.

(** X7.  A hash is a string of 64 lower-case hexadecimal digits, for
    the hash of a file ([computeHash] of the watcher) as for the content
    hash of a chunk ([computeChunkHash]); in particular it is never the
    empty string, which the watcher would take for a missing hash. *)
Theorem hashes_are_64_hex_digits :
  (forall content,
     length (Watcher.computeHash content) = 64%nat /\
     Forall (fun c => 48 <= c <= 57 \/ 97 <= c <= 102)
            (Watcher.computeHash content) /\
     truthy (Watcher.computeHash content) = true) /\
  (forall xmlContent metadata,
     length (Merkle.computeChunkHash xmlContent metadata) = 64%nat /\
     Forall (fun c => 48 <= c <= 57 \/ 97 <= c <= 102)
            (Merkle.computeChunkHash xmlContent metadata) /\
     truthy (Merkle.computeChunkHash xmlContent metadata) = true).
Proof.
  split.
  - intros content. unfold Watcher.computeHash. apply hex_digest_format.
  - intros xmlContent metadata.
    unfold Merkle.computeChunkHash, Merkle.sha256Hex.
    apply hex_digest_format.
Qed.

End HashFormat.

(** ** The scanner: what a scan reports and records *)

Section ScanReport.
Import Js Watcher.
Variable sep : jsstring.
Variable join : jsstring -> jsstring -> jsstring.
Variable existsSync : jsstring -> bool.
Variable readdir : jsstring -> list Dirent.
Variable readFile : jsstring -> jsstring.

Local Abbreviation scan := (scanForChanges sep join existsSync readdir readFile).
Local Abbreviation inScanned := (isInScannedDir sep).
Local Abbreviation files := (scannedFiles join existsSync readdir).
Local Abbreviation get := (map_get str_eqb).
Local Abbreviation hashOf := (fun p : jsstring => computeHash (readFile p)).

(** The file has no entry with its hash. *)
Local Abbreviation changed fileHashes :=
  (fun p : jsstring =>
     match get fileHashes p with
     | None => true
     | Some oldHash => negb (truthy oldHash) || negb (str_eqb oldHash (hashOf p))
     end).

(** The entry is of a file that was not found below the directories. *)
Local Abbreviation lost directories currentFiles :=
  (fun e : jsstring * jsstring =>
     negb (map_has str_eqb currentFiles (fst e))
     && inScanned directories (fst e)).

Local Abbreviation found := (fun p : jsstring => mkChange p (hashOf p) true).
Local Abbreviation removed :=
  (fun e : jsstring * jsstring => mkChange (fst e) (snd e) false).
Local Abbreviation record :=
  (fun (m : list (jsstring * jsstring)) (p : jsstring) =>
     map_set str_eqb m p (hashOf p)).

Lemma scanFiles_eq fileHashes (paths : list jsstring) : forall st,
  fold_left (scanFile readFile fileHashes) paths st =
  (fold_left record paths (fst st),
   snd st ++ map found (filter (changed fileHashes) paths)).
Proof.
  induction paths as [|p paths IH]; intros [cur chs]; cbn [fold_left].
  - cbn [filter map fst snd]. now rewrite app_nil_r.
  - rewrite IH. unfold scanFile at 1 2. cbn [fst snd filter].
    destruct (get fileHashes p) as [old|];
      [destruct (negb (truthy old) || negb (str_eqb old (hashOf p)))|];
      cbn [fst snd map]; rewrite <- ?app_assoc; reflexivity.
Qed.

Lemma scanDirs_eq fileHashes (dirs : list jsstring) : forall st,
  fold_left (scanDir join existsSync readdir readFile fileHashes) dirs st =
  (fold_left record (files dirs) (fst st),
   snd st ++ map found (filter (changed fileHashes) (files dirs))).
Proof.
  induction dirs as [|d dirs IH]; intros [cur chs]; cbn [fold_left].
  - cbn [scannedFiles flat_map filter map fold_left fst snd].
    now rewrite app_nil_r.
  - rewrite IH. unfold scanDir at 1 2. unfold scannedFiles.
    cbn [flat_map]. destruct (existsSync d).
    + rewrite scanFiles_eq. cbn [fst snd].
      rewrite fold_left_app, filter_app, map_app, app_assoc. reflexivity.
    + reflexivity.
Qed.

Lemma detectDeleted_eq directories currentFiles
    (entries : list (jsstring * jsstring)) : forall changes,
  fold_left (detectDeleted sep directories currentFiles) entries changes =
  changes ++ map removed (filter (lost directories currentFiles) entries).
Proof.
  induction entries as [|e entries IH]; intros changes; cbn [fold_left].
  - cbn [filter map]. now rewrite app_nil_r.
  - rewrite IH. unfold detectDeleted at 1. cbn [filter].
    destruct (negb (map_has str_eqb currentFiles (fst e))
              && inScanned directories (fst e));
      cbn [map]; rewrite <- ?app_assoc; reflexivity.
Qed.

Lemma forget_found (paths : list jsstring) : forall m,
  fold_left forget (map found paths) m = m.
Proof.
  induction paths as [|p paths IH]; intros m; cbn [map fold_left];
    [reflexivity|].
  unfold forget at 2. cbn [exists_]. apply IH.
Qed.

Lemma forget_removed (gone : list (jsstring * jsstring)) : forall m,
  fold_left forget (map removed gone) m =
  filter (fun e => negb (existsb (fun d => str_eqb (fst e) (fst d)) gone)) m.
Proof.
  induction gone as [|d gone IH]; intros m; cbn [map fold_left].
  - cbn [existsb negb]. symmetry. apply filter_all. reflexivity.
  - rewrite IH. unfold forget. cbn [exists_ filePath].
    unfold map_delete. rewrite filter_filter_and.
    apply filter_ext. intros e. cbn [existsb]. now rewrite negb_orb.
Qed.

(** The four phases of a scan. *)
Lemma scan_eq fileHashes directories :
  let currentFiles := fold_left record (files directories) [] in
  let gone := filter (lost directories currentFiles) fileHashes in
  scan fileHashes directories =
  (map found (filter (changed fileHashes) (files directories))
     ++ map removed gone,
   fold_left (fun m e => map_set str_eqb m (fst e) (snd e)) currentFiles
     (filter (fun e => negb (lost directories currentFiles e)) fileHashes)).
Proof.
  cbv zeta. unfold scanForChanges. rewrite scanDirs_eq. cbn [fst snd app].
  rewrite detectDeleted_eq. f_equal.
  rewrite fold_left_app, forget_found, forget_removed. f_equal.
  apply filter_ext_in. intros e He. f_equal.
  set (cur := fold_left record (files directories) []).
  destruct (lost directories cur e) eqn:El.
  - apply existsb_exists. exists e. split.
    + apply filter_In. now split.
    + apply str_eqb_refl.
  - match goal with |- ?b = false => destruct b eqn:E end; [|reflexivity].
    apply existsb_exists in E. destruct E as (d & Hd & Hk).
    apply filter_In in Hd. destruct Hd as [_ Hd].
    apply str_eqb_eq in Hk. rewrite Hk in El. congruence.
Qed.

(** The map [currentFiles] of a scan. *)
Lemma currentFiles_keys (paths : list jsstring) k :
  In k (map fst (fold_left record paths [])) <-> In k paths.
Proof.
  rewrite (fill_keys str_eqb str_eqb_eq (fun p => p) hashOf).
  rewrite map_id. cbn [map In]. tauto.
Qed.

Lemma currentFiles_entry (paths : list jsstring) e :
  In e (fold_left record paths []) ->
  In (fst e) paths /\ snd e = hashOf (fst e) /\
  get (fold_left record paths []) (fst e) = Some (snd e).
Proof.
  intros He.
  assert (Hnd : NoDup (map fst (fold_left record paths []))).
  { apply (fill_NoDup str_eqb str_eqb_eq (fun p => p) hashOf). constructor. }
  assert (Hget : get (fold_left record paths []) (fst e) = Some (snd e)).
  { clear - He Hnd. induction (fold_left record paths []) as [|[k v] m IH];
      [contradiction|].
    cbn [map] in Hnd. inversion Hnd as [|? ? Hk Hnd']; subst.
    destruct He as [<-|He]; cbn [map_get fst snd].
    - now rewrite str_eqb_refl.
    - destruct (str_eqb k (fst e)) eqn:E; [|now apply IH].
      apply str_eqb_eq in E. subst k. exfalso. apply Hk.
      now apply in_map. }
  pose proof Hget as Hin.
  apply (fill_get_in str_eqb str_eqb_eq (fun p => p) hashOf) in Hin.
  destruct Hin as [(x & Hx & Hk & Hv)|[Hin _]]; [|discriminate].
  subst x. repeat split; auto.
Qed.

Lemma currentFiles_has (paths : list jsstring) k :
  map_has str_eqb (fold_left record paths []) k = true <-> In k paths.
Proof.
  rewrite (map_has_In str_eqb str_eqb_eq). apply currentFiles_keys.
Qed.

Lemma hash_truthy p : truthy (hashOf p) = true.
Proof. apply hex_digest_format. Qed.

Lemma changed_iff fileHashes p :
  changed fileHashes p = true <-> get fileHashes p <> Some (hashOf p).
Proof.
  cbv beta.
  destruct (get fileHashes p) as [old|]; [|split; [discriminate|reflexivity]].
  destruct (str_eqb old (hashOf p)) eqn:E.
  - apply str_eqb_eq in E. subst old. rewrite hash_truthy. cbn.
    split; [discriminate|congruence].
  - rewrite orb_true_r. split; [|reflexivity]. intros _ [= ->].
    now rewrite str_eqb_refl in E.
Qed.

(** The map after a scan, at a file that was read and at a path below
    the directories that was not. *)
Lemma scan_recorded_outside directories p m :
  ~ In p (files directories) ->
  get (fold_left (fun m e => map_set str_eqb m (fst e) (snd e))
                 (fold_left record (files directories) []) m) p = get m p.
Proof.
  intros Hout. apply (fill_get_absent str_eqb str_eqb_eq fst snd).
  intros Hin. apply Hout. now apply currentFiles_keys.
Qed.

Lemma scan_recorded_found fileHashes directories p :
  In p (files directories) ->
  get (snd (scan fileHashes directories)) p = Some (hashOf p).
Proof.
  intros Hp. rewrite scan_eq. cbv zeta. cbn [snd].
  apply (fill_get_agree str_eqb str_eqb_eq fst snd).
  - now apply currentFiles_keys.
  - intros e He <-. now apply currentFiles_entry in He.
Qed.

Lemma scan_recorded_gone fileHashes directories p :
  ~ In p (files directories) -> inScanned directories p = true ->
  get (snd (scan fileHashes directories)) p = None.
Proof.
  intros Hout Hs. rewrite scan_eq. cbv zeta. cbn [snd].
  rewrite scan_recorded_outside by assumption.
  apply (map_get_None str_eqb str_eqb_eq). intros Hin.
  apply in_map_iff in Hin. destruct Hin as (e & <- & He).
  apply filter_In in He. destruct He as [_ He].
  rewrite Hs, andb_true_r, negb_involutive in He.
  apply currentFiles_has in He. contradiction.
Qed.

(** A second scan finds nothing to report. *)
Lemma scan_again fileHashes directories :
  scan (snd (scan fileHashes directories)) directories =
  ([], snd (scan fileHashes directories)).
Proof.
  set (recorded := snd (scan fileHashes directories)).
  rewrite (scan_eq recorded). cbv zeta.
  set (cur := fold_left record (files directories) []).
  assert (Hnew : filter (changed recorded) (files directories) = []).
  { apply filter_none. intros p Hp.
    destruct (changed recorded p) eqn:E; [|reflexivity].
    apply changed_iff in E. exfalso. apply E.
    now apply scan_recorded_found. }
  assert (Hold : filter (lost directories cur) recorded = []).
  { apply filter_none. intros e He.
    destruct (map_has str_eqb cur (fst e)) eqn:Ec; [reflexivity|].
    destruct (inScanned directories (fst e)) eqn:Es;
      [|now rewrite andb_false_r].
    exfalso.
    assert (Hout : ~ In (fst e) (files directories)).
    { intros H. apply currentFiles_has in H. fold cur in H. congruence. }
    pose proof (scan_recorded_gone fileHashes directories (fst e) Hout Es)
      as Hgone.
    apply (map_get_None str_eqb str_eqb_eq) in Hgone.
    apply Hgone. now apply in_map. }
  rewrite Hnew, Hold. cbn [map app]. f_equal.
  rewrite filter_all.
  - apply (fill_same str_eqb fst snd). intros e He.
    apply currentFiles_entry in He. destruct He as (Hp & -> & _).
    now apply scan_recorded_found.
  - intros e He. apply negb_true_iff.
    assert (Hf : In e (filter (lost directories cur) recorded) -> False)
      by (rewrite Hold; intros []).
    destruct (lost directories cur e) eqn:El; [|reflexivity].
    exfalso. apply Hf. apply filter_In. now split.
Qed.

(** A file with its hash in the map is not reported. *)
Lemma scan_skips fileHashes directories p :
  get fileHashes p = Some (hashOf p) -> In p (files directories) ->
  Forall (fun c => filePath c <> p) (fst (scan fileHashes directories)).
Proof.
  intros Hget Hp. rewrite scan_eq. cbv zeta. cbn [fst].
  apply Forall_app. split; apply Forall_forall; intros c Hc;
    apply in_map_iff in Hc; destruct Hc as (x & <- & Hx);
    apply filter_In in Hx; destruct Hx as [Hx Hc]; cbn [filePath].
  - apply changed_iff in Hc. congruence.
  - apply andb_true_iff in Hc. destruct Hc as [Hc _].
    apply negb_true_iff in Hc. intros E. rewrite E in Hc.
    apply (currentFiles_has (files directories)) in Hp. congruence.
Qed.

(** The entries of removed files come last in the report, and a removed
    file is not among the files that were read. *)
Lemma scan_removed_last fileHashes directories p h :
  In (p, h) fileHashes -> ~ In p (files directories) ->
  inScanned directories p = true ->
  exists news olds,
    fst (scan fileHashes directories) = news ++ olds /\
    Forall (fun c => filePath c <> p) news /\
    Forall (fun c => exists_ c = false) olds /\
    In (mkChange p h false) olds.
Proof.
  intros He Hout Hs. rewrite scan_eq. cbv zeta. cbn [fst].
  do 2 eexists. split; [reflexivity|]. split; [|split].
  - apply Forall_forall. intros c Hc. apply in_map_iff in Hc.
    destruct Hc as (x & <- & Hx). apply filter_In in Hx. cbn [filePath].
    intros ->. tauto.
  - apply Forall_forall. intros c Hc. apply in_map_iff in Hc.
    destruct Hc as (x & <- & _). reflexivity.
  - apply in_map_iff. exists (p, h). split; [reflexivity|].
    apply filter_In. split; [assumption|]. cbn [fst]. rewrite Hs.
    rewrite andb_true_r. apply negb_true_iff.
    destruct (map_has str_eqb _ p) eqn:E; [|reflexivity].
    apply currentFiles_has in E. contradiction.
Qed.

(** X8.  What [scanForChanges] reports.  A change with
    [exists: true] is reported for a path exactly when the scan reads the
    file and the map has no entry with the hash of its content; it
    carries this hash.  A change with [exists: false] is reported exactly
    for the entries of the map whose path the scan has not read and that
    lie below a scanned directory; it carries the hash of the entry.  The
    changes of the first kind come before those of the second. *)
Theorem scan_reports_changed_and_removed_files
    (fileHashes : list (jsstring * jsstring)) (directories : list jsstring) :
  let changes :=
    fst (scanForChanges sep join existsSync readdir readFile
                        fileHashes directories) in
  let files := scannedFiles join existsSync readdir directories in
  (forall p h, In (mkChange p h true) changes <->
     In p files /\ h = computeHash (readFile p) /\
     map_get str_eqb fileHashes p <> Some h) /\
  (forall p h, In (mkChange p h false) changes <->
     In (p, h) fileHashes /\ ~ In p files /\
     isInScannedDir sep directories p = true) /\
  (exists news olds,
     changes = news ++ olds /\
     Forall (fun c => exists_ c = true) news /\
     Forall (fun c => exists_ c = false) olds).
Proof.
  cbv zeta. rewrite scan_eq. cbv zeta. cbn [fst].
  set (cur := fold_left record (files directories) []).
  split; [|split].
  - intros p h. rewrite in_app_iff, !in_map_iff. split.
    + intros [(x & [= <- <-] & Hx)|(e & [=] & _)].
      apply filter_In in Hx. destruct Hx as [Hx Hc].
      apply changed_iff in Hc. auto.
    + intros (Hp & -> & Hne). left. exists p. split; [reflexivity|].
      apply filter_In. split; [assumption|]. now apply changed_iff.
  - intros p h. rewrite in_app_iff, !in_map_iff. split.
    + intros [(x & [=] & _)|([k v] & [= <- <-] & He)].
      apply filter_In in He. destruct He as [He Hl]. cbn [fst] in Hl.
      apply andb_true_iff in Hl. destruct Hl as [Hn Hs].
      split; [assumption|]. split; [|assumption].
      intros Hin. apply (currentFiles_has (files directories)) in Hin.
      fold cur in Hin. rewrite Hin in Hn. discriminate.
    + intros (He & Hout & Hs). right. exists (p, h). split; [reflexivity|].
      apply filter_In. split; [assumption|]. cbn [fst]. rewrite Hs.
      rewrite andb_true_r. apply negb_true_iff.
      destruct (map_has str_eqb cur p) eqn:E; [|reflexivity].
      apply currentFiles_has in E. contradiction.
  - do 2 eexists. split; [reflexivity|]. split; apply Forall_forall;
      intros c Hc; apply in_map_iff in Hc; destruct Hc as (x & <- & _);
      reflexivity.
Qed.

(** X9.  What [scanForChanges] records.  After the scan the map
    holds the hash of the content for every file that was read, no entry
    for a path below a scanned directory that was not read, and the
    entry that it had for every other path. *)
Theorem scan_records_the_current_hashes
    (fileHashes : list (jsstring * jsstring)) (directories : list jsstring) :
  let recorded :=
    snd (scanForChanges sep join existsSync readdir readFile
                        fileHashes directories) in
  let files := scannedFiles join existsSync readdir directories in
  (forall p, In p files ->
     map_get str_eqb recorded p = Some (computeHash (readFile p))) /\
  (forall p, ~ In p files -> isInScannedDir sep directories p = true ->
     map_get str_eqb recorded p = None) /\
  (forall p, ~ In p files -> isInScannedDir sep directories p = false ->
     map_get str_eqb recorded p = map_get str_eqb fileHashes p).
Proof.
  cbv zeta. split; [|split].
  - intros p Hp. now apply scan_recorded_found.
  - intros p Hout Hs. now apply scan_recorded_gone.
  - intros p Hout Hs. rewrite scan_eq. cbv zeta. cbn [snd].
    rewrite scan_recorded_outside by assumption.
    induction fileHashes as [|[k v] m IH]; [reflexivity|].
    cbn [filter fst snd].
    destruct (str_eqb k p) eqn:E.
    + apply str_eqb_eq in E. subst k. rewrite Hs, andb_false_r. cbn [negb].
      cbn [map_get]. now rewrite str_eqb_refl.
    + destruct (negb _); cbn [map_get]; rewrite ?E; exact IH.
Qed.

(** X10.  A scan is idempotent: on a file system that has not
    changed, the scan that follows a scan of the same directories reports
    no change and leaves the map as it is, whatever the map was before the
    first scan. *)
Theorem scan_twice_reports_nothing
    (fileHashes : list (jsstring * jsstring)) (directories : list jsstring) :
  let first :=
    scanForChanges sep join existsSync readdir readFile
                   fileHashes directories in
  scanForChanges sep join existsSync readdir readFile (snd first) directories
    = ([], snd first).
Proof.
  cbv zeta. apply scan_again.
Qed.

End ScanReport.

(** ** The pipeline: what a run of [processFile] leaves behind *)

Section FileFrame.
Import Js Store Pipeline.
Variable embed : jsstring -> result Float32.Float32Array.
Variable dateNow : nat -> Z.

(** An invariant of the world that every turn keeps, whatever its
    outcome, holds after the loop, whatever its outcome. *)
Lemma foldM_always {A S} (body : S -> A -> M S) (Inv : World -> Prop)
    (l : list A) :
  (forall s x w res w', In x l -> Inv w -> body s x w = (res, w') -> Inv w') ->
  forall s0 w0 res w, Inv w0 -> foldM l body s0 w0 = (res, w) -> Inv w.
Proof.
  induction l as [|x l IH]; intros Hstep s0 w0 res w Hinv Hrun.
  - cbn in Hrun. inversion Hrun; subst. assumption.
  - cbn [foldM] in Hrun. unfold bind in Hrun.
    destruct (body s0 x w0) as [[s1|e] w1] eqn:E.
    + apply (IH (fun s y wa r wb Hy => Hstep s y wa r wb (or_intror Hy))
                s1 w1 res w); [|assumption].
      eapply Hstep; [now left|exact Hinv|exact E].
    + inversion Hrun; subst. eapply Hstep; [now left|exact Hinv|exact E].
Qed.

(** What a turn of the loop of [processFile] writes to the table
    [chunks], whatever its outcome: nothing, or the row of one
    [updateChunk] or [insertChunk]. *)
Lemma processChunk_writes fileHash byLoc p c w res w' :
  processChunk embed dateNow fileHash byLoc p c w = (res, w') ->
  chunks (db w') = chunks (db w) \/
  exists parent now emb d1,
    chunks (db w') = chunks d1 /\
    match map_get key_eqb byLoc (chunkKey c) with
    | Some e =>
        updateChunk (db w) (id e) (metadataOf c fileHash parent now) emb
                    (Some (Chunker.embeddingText c)) = Ok d1
    | None =>
        exists dbId,
          insertChunk (db w) (metadataOf c fileHash parent now) emb
                      (Some (Chunker.embeddingText c)) = Ok (dbId, d1)
    end.
Proof.
  unfold processChunk, bind at 1, readClock.
  set (parent := match Chunker.parentChunkId c with
                 | Some parent => map_get Z.eqb (chunkIndexToDbId p) parent
                 | None => None
                 end).
  set (metadata := metadataOf c fileHash parent (dateNow (ticks w))).
  set (refs := match Chunker.referencedSequences c with
               | Some refs => refs
               | None => []
               end).
  destruct (map_get key_eqb byLoc (chunkKey c)) as [e|] eqn:Eloc.
  - destruct (str_eqb (content_hash e) (Chunker.contentHash c)) eqn:Ehash.
    + unfold bind, lift, reusedEmbedding, update, statement, ret.
      destruct (Float32.fromBuffer (embedding e)) as [emb|] eqn:Edec.
      * cbn [db embedCalls ticks].
        destruct (updateChunk (db w) (id e) metadata emb
                    (Some (Chunker.embeddingText c))) as [d1|err] eqn:Eupd.
        -- cbn [fst snd].
           destruct (links_run dateNow (id e) refs
                       (mkWorld d1 (embedCalls w) (S (ticks w))))
             as (lres & w2 & El & (S1 & _) & _).
           rewrite El. cbn [db] in S1.
           intros H. right. exists parent, (dateNow (ticks w)), emb, d1.
           split; [|exact Eupd].
           destruct lres as [[]|err]; inversion H; subst; exact S1.
        -- intros H; inversion H; subst. now left.
      * intros H; inversion H; subst. now left.
    + unfold bind, callEmbedder, update, statement, ret.
      cbn [db embedCalls ticks].
      destruct (embed (Chunker.embeddingText c)) as [emb|err] eqn:Eemb.
      * destruct (updateChunk (db w) (id e) metadata emb
                    (Some (Chunker.embeddingText c))) as [d1|err] eqn:Eupd.
        -- cbn [fst snd].
           destruct (links_run dateNow (id e) refs
                       (mkWorld d1 (embedCalls w ++ [Chunker.embeddingText c])
                                (S (ticks w))))
             as (lres & w2 & El & (S1 & _) & _).
           rewrite El. cbn [db] in S1.
           intros H. right. exists parent, (dateNow (ticks w)), emb, d1.
           split; [|exact Eupd].
           destruct lres as [[]|err]; inversion H; subst; exact S1.
        -- intros H; inversion H; subst. now left.
      * intros H; inversion H; subst. now left.
  - unfold bind, callEmbedder, statement, ret.
    cbn [db embedCalls ticks].
    destruct (embed (Chunker.embeddingText c)) as [emb|err] eqn:Eemb.
    + destruct (insertChunk (db w) metadata emb
                  (Some (Chunker.embeddingText c))) as [[dbId d1]|err] eqn:Eins.
      * cbn [fst snd].
        destruct (links_run dateNow dbId refs
                    (mkWorld d1 (embedCalls w ++ [Chunker.embeddingText c])
                             (S (ticks w))))
          as (lres & w2 & El & (S1 & _) & _).
        rewrite El. cbn [db] in S1.
        intros H. right. exists parent, (dateNow (ticks w)), emb, d1.
        split; [|now exists dbId].
        destruct lres as [[]|err]; inversion H; subst; exact S1.
      * intros H; inversion H; subst. now left.
    + intros H; inversion H; subst. now left.
Qed.

Lemma filter_map_same {A} (f : A -> bool) (g : A -> A) (l : list A) :
  (forall x, In x l -> g x = x \/ (f (g x) = false /\ f x = false)) ->
  filter f (map g l) = filter f l.
Proof.
  induction l as [|x l IH]; intros H; [reflexivity|].
  cbn [map filter]. rewrite IH by (intros y Hy; apply H; now right).
  destruct (H x (or_introl eq_refl)) as [->|[-> ->]]; reflexivity.
Qed.

Section OneFile.
Variable path : jsstring.
Variable w0 : World.

Local Abbreviation existing := (getChunksByFile (db w0) path).

(** The rows of the other files are those of [w0], and the rows that
    carry the id of a row of the file belong to the file. *)
Local Abbreviation framed :=
  (fun w : World =>
     constraintsHold (db w) /\
     (forall q, q <> path ->
        getChunksByFile (db w) q = getChunksByFile (db w0) q) /\
     (forall r, In r (chunks (db w)) -> In (id r) (map id existing) ->
        file_path r = path)).

Lemma framed_start : constraintsHold (db w0) -> framed w0.
Proof.
  intros Hc. split; [assumption|]. split; [reflexivity|].
  intros r Hr Hid. apply in_map_iff in Hid. destruct Hid as (e & He & Hin).
  apply existing_of_file in Hin. destruct Hin as [Hin Hp].
  assert (r = e); [|congruence].
  apply (NoDup_ids_inj (chunks (db w0))); auto. apply Hc.
Qed.

Lemma framed_same_chunks w w' :
  chunks (db w') = chunks (db w) -> framed w -> framed w'.
Proof.
  intros E (Hc & Hq & Hid). unfold getChunksByFile, constraintsHold in *.
  rewrite E. auto.
Qed.

Lemma framed_update w w' rowid metadata emb text d1 :
  In rowid (map id existing) ->
  updateChunk (db w) rowid metadata emb text = Ok d1 ->
  chunks (db w') = chunks d1 -> framed w -> framed w'.
Proof.
  intros Hrow Hupd E (Hc & Hq & Hid).
  pose proof (constraints_update _ _ _ _ _ _ Hc Hupd) as Hc1.
  apply updateChunk_rows in Hupd. destruct Hupd as [Hrows _].
  split; [|split].
  - unfold constraintsHold in *. now rewrite E.
  - intros q Hne. rewrite <- (Hq q Hne). unfold getChunksByFile.
    rewrite E, Hrows. apply filter_map_same. intros r Hr.
    destruct (id r =? rowid) eqn:Er; [right|now left].
    apply Z.eqb_eq in Er. cbn [file_path bindRow].
    assert (Hp : file_path r = path) by (apply Hid; [assumption|congruence]).
    rewrite Hp. split; apply str_eqb_neq; congruence.
  - intros r' Hr' Hin. rewrite E, Hrows in Hr'. apply in_map_iff in Hr'.
    destruct Hr' as (r & <- & Hr).
    destruct (id r =? rowid) eqn:Er.
    + apply Z.eqb_eq in Er. cbn [file_path bindRow].
      apply Hid; [assumption|congruence].
    + rewrite ?Er in Hin. now apply Hid.
Qed.

Lemma framed_insert w w' metadata emb text dbId d1 :
  filePath metadata = path ->
  insertChunk (db w) metadata emb text = Ok (dbId, d1) ->
  chunks (db w') = chunks d1 -> framed w -> framed w'.
Proof.
  intros Hp Hins E (Hc & Hq & Hid).
  pose proof (constraints_insert _ _ _ _ _ _ Hc Hins) as Hc1.
  apply insertChunk_rows in Hins. destruct Hins as (_ & Hrows & _).
  split; [|split].
  - unfold constraintsHold in *. now rewrite E.
  - intros q Hne. rewrite <- (Hq q Hne). unfold getChunksByFile.
    rewrite E, Hrows, filter_app. cbn [filter file_path bindRow].
    rewrite Hp.
    replace (str_eqb path q) with false; [apply app_nil_r|].
    symmetry. apply str_eqb_neq. congruence.
  - intros r Hr Hin. rewrite E, Hrows in Hr. apply in_app_or in Hr.
    destruct Hr as [Hr|[<-|[]]]; [now apply Hid|].
    cbn [file_path bindRow]. exact Hp.
Qed.

Lemma framed_delete w w' rowid :
  In rowid (map id existing) ->
  chunks (db w') = chunks (deleteChunk (db w) rowid) ->
  framed w -> framed w'.
Proof.
  intros Hrow E (Hc & Hq & Hid).
  assert (Hrows : chunks (db w') =
                  filter (fun r => negb (id r =? rowid)) (chunks (db w)))
    by (rewrite E; reflexivity).
  split; [|split].
  - eapply constraints_filter; eauto.
  - intros q Hne. rewrite <- (Hq q Hne). unfold getChunksByFile.
    rewrite Hrows. apply filter_filter_keep.
    intros r Hr Hp. apply str_eqb_eq in Hp. apply negb_true_iff.
    apply Z.eqb_neq. intros Er. apply Hne. rewrite <- Hp.
    apply Hid; [assumption|congruence].
  - intros r Hr Hin. rewrite Hrows in Hr. apply filter_In in Hr.
    apply Hid; tauto.
Qed.

Lemma framed_chunk fileHash p c w res w' :
  Chunker.filePath c = path ->
  processChunk embed dateNow fileHash (buildExistingByLocation existing)
               p c w = (res, w') ->
  framed w -> framed w'.
Proof.
  intros Hp Hrun Hf. apply processChunk_writes in Hrun.
  destruct Hrun as [E|(parent & now & emb & d1 & E & Hcase)].
  - eapply framed_same_chunks; eauto.
  - destruct (map_get key_eqb (buildExistingByLocation existing) (chunkKey c))
      as [e|] eqn:Eloc.
    + apply existing_get_in in Eloc. destruct Eloc as [He _].
      apply (framed_update w w' (id e) (metadataOf c fileHash parent now) emb
               (Some (Chunker.embeddingText c)) d1);
        [now apply in_map|exact Hcase|exact E|exact Hf].
    + destruct Hcase as (dbId & Hins).
      apply (framed_insert w w' (metadataOf c fileHash parent now) emb
               (Some (Chunker.embeddingText c)) dbId d1);
        [exact Hp|exact Hins|exact E|exact Hf].
Qed.

Lemma framed_deleteUnmatched matched n e w res w' :
  In e existing ->
  deleteUnmatched matched n e w = (res, w') ->
  framed w -> framed w'.
Proof.
  intros He. unfold deleteUnmatched.
  destruct (existsb (Z.eqb (id e)) matched).
  - unfold ret. intros [= <- <-]. auto.
  - unfold bind, statement, ret. cbn [db embedCalls ticks].
    intros [= <- <-]. apply framed_delete with (rowid := id e);
      [now apply in_map|reflexivity].
Qed.

Lemma framed_processFile (cs : list Chunker.XMLChunk) fileHash res w :
  constraintsHold (db w0) ->
  (forall c, In c cs -> Chunker.filePath c = path) ->
  processFile embed dateNow cs path fileHash w0 = (res, w) ->
  framed w.
Proof.
  intros Hc Hcs. unfold processFile, bind at 1, query. cbv zeta.
  unfold bind at 1.
  destruct (foldM cs _ _ w0) as [[p|e] w1] eqn:Eloop.
  - assert (H1 : framed w1).
    { eapply (foldM_always _ framed cs); [|apply framed_start; exact Hc
                                           |exact Eloop].
      intros s c wa r wb Hin Hf Hrun.
      eapply framed_chunk; eauto. }
    unfold bind at 1.
    destruct (foldM existing (deleteUnmatched (matchedChunkIds p)) 0 w1)
      as [[n|e] w2] eqn:Edel.
    + unfold ret. intros [= <- <-].
      eapply (foldM_always _ framed existing); [|exact H1|exact Edel].
      intros s e wa r wb Hin Hf Hrun.
      eapply framed_deleteUnmatched; eauto.
    + intros [= <- <-].
      eapply (foldM_always _ framed existing); [|exact H1|exact Edel].
      intros s e' wa r wb Hin Hf Hrun.
      eapply framed_deleteUnmatched; eauto.
  - intros [= <- <-].
    eapply (foldM_always _ framed cs); [|apply framed_start; exact Hc
                                         |exact Eloop].
    intros s c wa r wb Hin Hf Hrun.
    eapply framed_chunk; eauto.
Qed.

End OneFile.

(** X11.  On a store that satisfies the constraints of the schema, a
    run of [processFile] on chunks that carry the path of the file,
    whether it returns or throws (and wherever it throws), keeps the
    constraints and leaves the chunks of every other file as they
    are. *)
Theorem processFile_leaves_other_files
    (cs : list Chunker.XMLChunk) (path fileHash : jsstring)
    (w0 : World) (res : result Summary) (w : World) :
  constraintsHold (db w0) ->
  (forall c, In c cs -> Chunker.filePath c = path) ->
  processFile embed dateNow cs path fileHash w0 = (res, w) ->
  constraintsHold (db w) /\
  forall q, q <> path ->
    getChunksByFile (db w) q = getChunksByFile (db w0) q.
Proof.
  intros Hc Hcs Hrun.
  destruct (framed_processFile path w0 cs fileHash res w Hc Hcs Hrun)
    as (H1 & H2 & _).
  now split.
Qed.

End FileFrame.

Section FileOutcome.
Import Js Store Pipeline.
Variable embed : jsstring -> result Float32.Float32Array.
Variable dateNow : nat -> Z.

Lemma unmatched_gone (existing : list ChunkRecord) (matched : list Z) r :
  negb (existsb (fun e => negb (existsb (Z.eqb (id e)) matched)
                          && (id e =? id r)) existing) = true ->
  In (id r) (map id existing) -> In (id r) matched.
Proof.
  intros Hkeep Hin. apply negb_true_iff in Hkeep.
  apply in_map_iff in Hin. destruct Hin as (e & He & Hin).
  destruct (existsb (Z.eqb (id e)) matched) eqn:Em.
  - apply mem_In in Em. congruence.
  - exfalso.
    assert (existsb (fun e => negb (existsb (Z.eqb (id e)) matched)
                              && (id e =? id r)) existing = true);
      [|congruence].
    apply existsb_exists. exists e. split; [assumption|].
    rewrite Em. cbn [negb andb]. now apply Z.eqb_eq.
Qed.

(** X12.  After a run of [processFile] that returns, every chunk of
    the file carries the file hash of the run, the reused ones included;
    hence the map of [getLatestFileHashes] gives this hash for the file
    when it has a chunk, whatever order the engine answers in. *)
Theorem processFile_stamps_the_file_hash
    (cs : list Chunker.XMLChunk) (path fileHash : jsstring)
    (w0 : World) (summary : Summary) (w : World) :
  processFile embed dateNow cs path fileHash w0 = (Ok summary, w) ->
  (forall r, In r (getChunksByFile (db w) path) -> file_hash r = fileHash) /\
  (forall rows,
     distinctHashes (db w) rows -> getChunksByFile (db w) path <> [] ->
     map_get str_eqb (getLatestFileHashes rows) path = Some fileHash).
Proof.
  intros Hrun.
  assert (Hall : forall r, In r (getChunksByFile (db w) path) ->
                           file_hash r = fileHash).
  { apply processFile_inv in Hrun. cbv zeta in Hrun.
    set (existing := getChunksByFile (db w0) path) in *.
    destruct Hrun as (lres & w1 & Hloop & Hres).
    destruct lres as [p|e]; [|destruct Hres; discriminate].
    destruct Hres as (_ & _ & Hrows).
    assert (Hinv : forall r, In r (chunks (db w1)) -> file_path r = path ->
              file_hash r = fileHash \/
              (In (id r) (map id existing) /\ ~ In (id r) (matchedChunkIds p))).
    { eapply (foldM_invariant _
                (fun (done : list Chunker.XMLChunk) p w =>
                   forall r, In r (chunks (db w)) -> file_path r = path ->
                     file_hash r = fileHash \/
                     (In (id r) (map id existing) /\
                      ~ In (id r) (matchedChunkIds p))) cs);
        [| |exact Hloop].
      - intros done c todo p1 wa res wb _ Hinv Hstep p2 ->.
        apply processChunk_inv in Hstep. destruct Hstep as [_ Hok].
        destruct (Hok p2 eq_refl)
          as (_ & _ & parent & now & emb & d1 & dbId & Hch & _ & _ & Hcase).
        cbv zeta in Hcase.
        destruct (map_get key_eqb (buildExistingByLocation existing)
                          (chunkKey c)) as [e|].
        + destruct Hcase as (_ & _ & Hupd & Hm).
          apply updateChunk_rows in Hupd. destruct Hupd as [Hupd _].
          intros r' Hr' Hp'. rewrite Hch, Hupd in Hr'.
          apply in_map_iff in Hr'. destruct Hr' as (r & <- & Hr).
          destruct (id r =? id e) eqn:Er; [now left|].
          destruct (Hinv r Hr Hp') as [Hh|[Hex Hnm]]; [now left|].
          right. split; [assumption|]. rewrite Hm. intros Hi.
          apply set_add_In in Hi. apply Z.eqb_neq in Er. tauto.
        + destruct Hcase as (_ & Hins & Hm).
          apply insertChunk_rows in Hins. destruct Hins as (_ & Hins & _).
          intros r Hr Hp. rewrite Hch, Hins in Hr. apply in_app_or in Hr.
          destruct Hr as [Hr|[<-|[]]]; [|now left].
          rewrite Hm. now apply Hinv.
      - intros r Hr Hp. right. split; [|intros []].
        apply in_map. apply existing_of_file. now split. }
    intros r Hr. apply existing_of_file in Hr. destruct Hr as [Hr Hp].
    rewrite Hrows in Hr. apply filter_In in Hr. destruct Hr as [Hr Hkeep].
    destruct (Hinv r Hr Hp) as [Hh|[Hex Hnm]]; [assumption|].
    exfalso. apply Hnm. now apply (unmatched_gone existing). }
  split; [exact Hall|].
  intros rows Hrows Hne.
  assert (Hsome : exists r0, In r0 (getChunksByFile (db w) path)).
  { destruct (getChunksByFile (db w) path) as [|r0 l]; [congruence|].
    exists r0. now left. }
  destruct Hsome as [r0 Hr0]. apply existing_of_file in Hr0.
  destruct Hr0 as [Hin0 Hp0].
  apply (latest_hash_of_file (db w) rows path fileHash r0 Hrows Hin0 Hp0).
  intros r Hr Hp. apply Hall. apply existing_of_file. now split.
Qed.

Lemma NoDup_same_length {A} (l l' : list A) :
  NoDup l -> NoDup l' -> (forall x, In x l <-> In x l') ->
  length l = length l'.
Proof.
  intros H H' Hiff. apply Permutation_length.
  now apply NoDup_Permutation.
Qed.

(** X13.  The counts of a run of [processFile] that returns, on a store
    that satisfies the constraints and for chunks of the file with
    pairwise distinct indexes: reused and embedded add up to the
    number of chunks, the embedder is called once for every embedded chunk,
    the number of deletions is the number of rows of the file whose
    location no chunk has, and the file is left with as many rows as it
    has chunks. *)
Theorem processFile_counts
    (cs : list Chunker.XMLChunk) (path fileHash : jsstring)
    (w0 : World) (summary : Summary) (w : World) :
  constraintsHold (db w0) ->
  chunksOfFile path cs ->
  processFile embed dateNow cs path fileHash w0 = (Ok summary, w) ->
  let existing := getChunksByFile (db w0) path in
  reused summary + embedded summary = Z.of_nat (length cs) /\
  Z.of_nat (length (embedCalls w)) =
    Z.of_nat (length (embedCalls w0)) + embedded summary /\
  deleted summary =
    Z.of_nat (length (filter
      (fun e => negb (existsb (fun c => key_eqb (chunkKey c) (recordKey e)) cs))
      existing)) /\
  length (getChunksByFile (db w) path) = length cs.
Proof.
  intros Hcons Hcs Hrun. cbv zeta.
  destruct (processFile_reconciles embed dateNow cs path fileHash w0 summary w
              Hcons Hcs Hrun) as [Hcons' [Hall Hrows]].
  apply processFile_inv in Hrun. cbv zeta in Hrun.
  set (existing := getChunksByFile (db w0) path) in *.
  set (byLoc := buildExistingByLocation existing) in *.
  destruct Hrun as (lres & w1 & Hloop & Hres).
  destruct lres as [p|e]; [|destruct Hres; discriminate].
  destruct Hres as (Hs & Hcalls & _). injection Hs as ->.
  cbn [reused embedded deleted].
  destruct (loop_calls embed dateNow fileHash byLoc cs w0 p w1 Hloop)
    as (Hc & Hre & Hem).
  split; [|split; [|split]].
  - rewrite Hre, Hem.
    pose proof (filter_length (reusable byLoc) cs) as Hlen.
    cbv beta in Hlen. lia.
  - rewrite Hcalls, Hc, length_app, length_map, Hem. lia.
  - f_equal. f_equal. apply filter_ext_in. intros e He. f_equal.
    assert (Hinv : forall i, In i (matchedChunkIds p) <->
              exists c e', In c cs /\
                map_get key_eqb byLoc (chunkKey c) = Some e' /\ id e' = i).
    { eapply (foldM_invariant _
                (fun (done : list Chunker.XMLChunk) p (w : World) =>
                   forall i, In i (matchedChunkIds p) <->
                     exists c e', In c done /\
                       map_get key_eqb byLoc (chunkKey c) = Some e' /\
                       id e' = i) cs);
        [| |exact Hloop].
      - intros done c todo p1 wa res wb _ Hinv Hstep p2 ->.
        apply processChunk_inv in Hstep. destruct Hstep as [_ Hok].
        destruct (Hok p2 eq_refl)
          as (_ & _ & parent & now & emb & d1 & dbId & _ & _ & _ & Hcase).
        cbv zeta in Hcase. intros i.
        destruct (map_get key_eqb byLoc (chunkKey c)) as [e0|] eqn:Eloc.
        + destruct Hcase as (_ & _ & _ & ->). rewrite set_add_In, Hinv.
          split.
          * intros [->|(c' & e' & Hc' & Hg & Hi)].
            -- exists c, e0. repeat split; auto. apply in_or_app.
               right. now left.
            -- exists c', e'. repeat split; auto. apply in_or_app. now left.
          * intros (c' & e' & Hc' & Hg & Hi). apply in_app_or in Hc'.
            destruct Hc' as [Hc'|[<-|[]]].
            -- right. now exists c', e'.
            -- left. congruence.
        + destruct Hcase as (_ & _ & ->). rewrite Hinv. split.
          * intros (c' & e' & Hc' & Hg & Hi). exists c', e'.
            repeat split; auto. apply in_or_app. now left.
          * intros (c' & e' & Hc' & Hg & Hi). apply in_app_or in Hc'.
            destruct Hc' as [Hc'|[<-|[]]]; [now exists c', e'|congruence].
      - intros i. split; [intros []|]. intros (c & e' & [] & _). }
    assert (Hids : NoDup (map id existing)).
    { unfold existing, getChunksByFile. apply NoDup_ids_filter. apply Hcons. }
    destruct (existsb (Z.eqb (id e)) (matchedChunkIds p)) eqn:Em.
    + apply mem_In in Em. apply Hinv in Em.
      destruct Em as (c & e' & Hc' & Hg & Hi).
      apply existing_get_in in Hg. destruct Hg as [He' Hk].
      assert (e' = e) by (apply (NoDup_ids_inj existing); auto).
      subst e'. symmetry. apply existsb_exists. exists c.
      split; [assumption|]. apply key_eqb_eq. congruence.
    + symmetry.
      match goal with |- ?b = false => destruct b eqn:E end; [|reflexivity].
      apply existsb_exists in E. destruct E as (c & Hc' & Hk).
      apply key_eqb_eq in Hk.
      assert (In (id e) (matchedChunkIds p)).
      { apply Hinv. exists c, e. repeat split; auto. rewrite Hk.
        now apply existing_get_present. }
      apply mem_In in H. congruence.
  - assert (E : length (map recordKey (getChunksByFile (db w) path)) =
                length (map chunkKey cs)).
    { apply NoDup_same_length.
      - now apply existing_keys_distinct.
      - eapply chunk_keys_distinct; eauto.
      - intros k. rewrite !in_map_iff. split.
        + intros (r & <- & Hr). apply existing_of_file in Hr.
          destruct Hr as [Hr Hp]. destruct (Hrows r Hr Hp) as (c & Hc' & Hk).
          exists c. split; [congruence|assumption].
        + intros (c & <- & Hc').
          destruct (Hall c Hc') as (r & Hr & Hp & Hk & _).
          exists r. split; [assumption|]. apply existing_of_file. now split. }
    now rewrite !length_map in E.
Qed.

End FileOutcome.

Section FileRunExamples.
Import Js Store Pipeline.

Lemma processFile_leaves_other_files_witness :
  let bank := lit "/p/apis/bank.xml" in
  let shop := lit "/p/sequences/shop.xml" in
  let bankChunks :=
    [Fixtures.chunkAt bank 0 2 9 (lit "h-resource") (lit "resource GET");
     Fixtures.chunkAt bank 1 4 6 (lit "h-filter") (lit "filter xpath")] in
  let shopChunks :=
    [Fixtures.chunkAt shop 0 1 7 (lit "h-sequence") (lit "sequence log")] in
  let embed := fun _ : jsstring =>
    Ok [Float32.mkElt x00 x00 x80 x3f; Float32.mkElt xcd xcc x4c xbe] in
  let clock := fun n : nat => Z.of_nat n in
  let first := processFile embed clock bankChunks bank (lit "f1")
                 (mkWorld Store.empty [] 0) in
  let second := processFile embed clock shopChunks shop (lit "f2") (snd first) in
  constraintsHold (db (snd second)) /\
  getChunksByFile (db (snd second)) bank = getChunksByFile (db (snd first)) bank /\
  length (getChunksByFile (db (snd second)) bank) = 2%nat.
Proof.
  intros bank shop bankChunks shopChunks embed clock first second.
  assert (Hcons : constraintsHold (db (mkWorld Store.empty [] 0))).
  { split; [constructor|intros r r' []]. }
  assert (Hbank : forall c, In c bankChunks -> Chunker.filePath c = bank).
  { intros c [<-|[<-|[]]]; reflexivity. }
  assert (Hshop : forall c, In c shopChunks -> Chunker.filePath c = shop).
  { intros c [<-|[]]; reflexivity. }
  destruct (processFile_leaves_other_files embed clock bankChunks bank
              (lit "f1") (mkWorld Store.empty [] 0) (fst first) (snd first)
              Hcons Hbank (surjective_pairing first)) as [Hcons1 _].
  destruct (processFile_leaves_other_files embed clock shopChunks shop
              (lit "f2") (snd first) (fst second) (snd second)
              Hcons1 Hshop (surjective_pairing second)) as [Hcons2 Hother].
  assert (Hne : bank <> shop) by (vm_compute; discriminate).
  split; [exact Hcons2|]. split; [exact (Hother bank Hne)|].
  rewrite (Hother bank Hne). vm_compute. reflexivity.
Defined.

Lemma processFile_stamps_the_file_hash_witness :
  let bank := lit "/p/apis/bank.xml" in
  let bankChunks :=
    [Fixtures.chunkAt bank 0 2 9 (lit "h-resource") (lit "resource GET");
     Fixtures.chunkAt bank 1 4 6 (lit "h-filter") (lit "filter xpath")] in
  let changed :=
    [Fixtures.chunkAt bank 0 2 9 (lit "h-resource") (lit "resource GET");
     Fixtures.chunkAt bank 1 4 7 (lit "h-filter2") (lit "filter regex")] in
  let embed := fun _ : jsstring =>
    Ok [Float32.mkElt x00 x00 x80 x3f; Float32.mkElt xcd xcc x4c xbe] in
  let clock := fun n : nat => Z.of_nat n in
  let first := processFile embed clock bankChunks bank (lit "f1")
                 (mkWorld Store.empty [] 0) in
  let second := processFile embed clock changed bank (lit "f2") (snd first) in
  second = (Ok (mkSummary 1 1 1), snd second) /\
  map file_hash (getChunksByFile (db (snd second)) bank) = [lit "f2"; lit "f2"] /\
  map_get str_eqb
    (getLatestFileHashes (selectDistinctHashes (db (snd second)))) bank
    = Some (lit "f2").
Proof.
  intros bank bankChunks changed embed clock first second.
  assert (Hrun : second = (Ok (mkSummary 1 1 1), snd second))
    by (vm_compute; reflexivity).
  destruct (processFile_stamps_the_file_hash embed clock changed bank
              (lit "f2") (snd first) (mkSummary 1 1 1) (snd second) Hrun)
    as [_ Hlatest].
  split; [exact Hrun|]. split; [vm_compute; reflexivity|].
  apply Hlatest; [apply selectDistinctHashes_answers|].
  vm_compute. discriminate.
Defined.

Lemma processFile_counts_witness :
  let bank := lit "/p/apis/bank.xml" in
  let bankChunks :=
    [Fixtures.chunkAt bank 0 2 9 (lit "h-resource") (lit "resource GET");
     Fixtures.chunkAt bank 1 4 6 (lit "h-filter") (lit "filter xpath");
     Fixtures.chunkAt bank 2 7 8 (lit "h-send") (lit "send")] in
  let changed :=
    [Fixtures.chunkAt bank 0 2 9 (lit "h-resource") (lit "resource GET");
     Fixtures.chunkAt bank 1 4 7 (lit "h-filter2") (lit "filter regex")] in
  let embed := fun _ : jsstring =>
    Ok [Float32.mkElt x00 x00 x80 x3f; Float32.mkElt xcd xcc x4c xbe] in
  let clock := fun n : nat => Z.of_nat n in
  let w0 := mkWorld Store.empty [] 0 in
  let first := processFile embed clock bankChunks bank (lit "f1") w0 in
  let second := processFile embed clock changed bank (lit "f2") (snd first) in
  first = (Ok (mkSummary 0 3 0), snd first) /\
  second = (Ok (mkSummary 1 1 2), snd second) /\
  length (embedCalls (snd second)) = 4%nat /\
  length (getChunksByFile (db (snd second)) bank) = 2%nat.
Proof.
  intros bank bankChunks changed embed clock w0 first second.
  assert (Hcons : constraintsHold (db w0)).
  { split; [constructor|intros r r' []]. }
  assert (Hbank : chunksOfFile bank bankChunks).
  { split.
    - simpl. repeat constructor; simpl; intuition discriminate.
    - intros c [<-|[<-|[<-|[]]]]; reflexivity. }
  assert (Hchanged : chunksOfFile bank changed).
  { split.
    - simpl. repeat constructor; simpl; intuition discriminate.
    - intros c [<-|[<-|[]]]; reflexivity. }
  assert (Hfirst : first = (Ok (mkSummary 0 3 0), snd first))
    by (vm_compute; reflexivity).
  assert (Hsecond : second = (Ok (mkSummary 1 1 2), snd second))
    by (vm_compute; reflexivity).
  destruct (processFile_reconciles embed clock bankChunks bank (lit "f1")
              w0 (mkSummary 0 3 0) (snd first) Hcons Hbank Hfirst)
    as [Hcons1 _].
  destruct (processFile_counts embed clock changed bank (lit "f2")
              (snd first) (mkSummary 1 1 2) (snd second)
              Hcons1 Hchanged Hsecond)
    as (_ & Hcalls & _ & Hrows).
  split; [exact Hfirst|]. split; [exact Hsecond|].
  split; [|exact Hrows].
  cbn [embedded] in Hcalls.
  assert (Hlen : length (embedCalls (snd first)) = 3%nat)
    by (vm_compute; reflexivity).
  rewrite Hlen in Hcalls. lia.
Defined.

End FileRunExamples.

(** ** The pipeline with its watcher *)

Section PollingFacts.
Import Js Store Watcher Pipeline.
Variable sep : jsstring.
Variable join : jsstring -> jsstring -> jsstring.
Variable existsSync : jsstring -> bool.
Variable readdir : jsstring -> list Dirent.
Variable readFile : jsstring -> jsstring.
Variable embed : jsstring -> result Float32.Float32Array.
Variable dateNow : nat -> Z.
Variable chunkFile : jsstring -> result (list Chunker.XMLChunk).
Variable selectHashes : DB -> list (jsstring * jsstring).

(** The chunker gives the chunks of a file the path of the file. *)
Local Abbreviation chunksCarryPath :=
  (forall q cs, chunkFile q = Ok cs ->
     forall c, In c cs -> Chunker.filePath c = q).

Lemma processChange_returns change w :
  fst (processChange embed dateNow chunkFile change w) = Ok tt.
Proof.
  unfold processChange. destruct (negb (exists_ change)).
  - reflexivity.
  - destruct (chunkFile (filePath change)); reflexivity.
Qed.

Lemma processChanges_returns (changes : list FileChange) : forall w,
  fst (processChanges embed dateNow chunkFile changes w) = Ok tt.
Proof.
  unfold processChanges.
  induction changes as [|c changes IH]; intros w; cbn [forEach];
    [reflexivity|].
  unfold bind.
  pose proof (processChange_returns c w) as Hc.
  destruct (processChange embed dateNow chunkFile c w) as [[[]|e] w1];
    [apply IH|discriminate Hc].
Qed.

Lemma processChanges_cons c (changes : list FileChange) w :
  snd (processChanges embed dateNow chunkFile (c :: changes) w) =
  snd (processChanges embed dateNow chunkFile changes
         (snd (processChange embed dateNow chunkFile c w))).
Proof.
  unfold processChanges. cbn [forEach]. unfold bind.
  pose proof (processChange_returns c w) as Hc.
  destruct (processChange embed dateNow chunkFile c w) as [[[]|e] w1];
    [reflexivity|discriminate Hc].
Qed.

Lemma processChange_frame change w p :
  chunksCarryPath -> constraintsHold (db w) ->
  let w' := snd (processChange embed dateNow chunkFile change w) in
  constraintsHold (db w') /\
  (filePath change <> p ->
   getChunksByFile (db w') p = getChunksByFile (db w) p) /\
  (filePath change = p -> exists_ change = false ->
   getChunksByFile (db w') p = []).
Proof.
  intros Hpaths Hcons. cbv zeta. unfold processChange.
  destruct (exists_ change) eqn:Ex; cbn [negb].
  - destruct (chunkFile (filePath change)) as [cs|e] eqn:Ecs; cbn [snd].
    + destruct (processFile embed dateNow cs (filePath change)
                            (hash change) w) as [res w'] eqn:Erun.
      destruct (framed_processFile embed dateNow (filePath change) w cs
                  (hash change) res w' Hcons (Hpaths _ _ Ecs) Erun)
        as (H1 & H2 & _).
      cbn [snd]. split; [exact H1|]. split; [|discriminate].
      intros Hne. apply H2. congruence.
    + split; [exact Hcons|]. split; [reflexivity|discriminate].
  - unfold statement. cbn [snd db].
    split; [|split].
    + eapply constraints_filter; [|exact Hcons].
      apply deleteChunksByFile_rows.
    + intros Hne. rewrite deleteChunksByFile_files.
      replace (str_eqb p (filePath change)) with false; [reflexivity|].
      symmetry. apply str_eqb_neq. congruence.
    + intros <- _. rewrite deleteChunksByFile_files.
      now rewrite str_eqb_refl.
Qed.

Lemma processChanges_constraints (changes : list FileChange) : forall w,
  chunksCarryPath -> constraintsHold (db w) ->
  constraintsHold
    (db (snd (processChanges embed dateNow chunkFile changes w))).
Proof.
  induction changes as [|c changes IH]; intros w Hpaths Hcons;
    [exact Hcons|].
  rewrite processChanges_cons. apply IH; [exact Hpaths|].
  apply (processChange_frame c w [] Hpaths Hcons).
Qed.

Lemma processChanges_frame (changes : list FileChange) p : forall w,
  chunksCarryPath -> constraintsHold (db w) ->
  Forall (fun c => filePath c <> p) changes ->
  let w' := snd (processChanges embed dateNow chunkFile changes w) in
  constraintsHold (db w') /\
  getChunksByFile (db w') p = getChunksByFile (db w) p.
Proof.
  induction changes as [|c changes IH]; intros w Hpaths Hcons Hall; cbv zeta.
  - now split.
  - inversion Hall as [|? ? Hc Hrest]; subst.
    rewrite processChanges_cons.
    destruct (processChange_frame c w p Hpaths Hcons) as (H1 & H2 & _).
    destruct (IH _ Hpaths H1 Hrest) as [H3 H4].
    split; [exact H3|]. rewrite H4. now apply H2.
Qed.

(** Once the chunks of a file are deleted, deletions leave it empty. *)
Lemma processChanges_purged (changes : list FileChange) p : forall w,
  chunksCarryPath -> constraintsHold (db w) ->
  Forall (fun c => exists_ c = false) changes ->
  getChunksByFile (db w) p = [] ->
  getChunksByFile
    (db (snd (processChanges embed dateNow chunkFile changes w))) p = [].
Proof.
  induction changes as [|c changes IH]; intros w Hpaths Hcons Hall Hempty.
  - exact Hempty.
  - inversion Hall as [|? ? Hc Hrest]; subst.
    rewrite processChanges_cons.
    destruct (processChange_frame c w p Hpaths Hcons) as (H1 & H2 & H3).
    apply IH; try assumption.
    destruct (str_eqb (filePath c) p) eqn:E.
    + apply str_eqb_eq in E. now apply H3.
    + apply str_eqb_neq in E. now rewrite H2.
Qed.

Lemma processChanges_purges (olds : list FileChange) p h : forall w,
  chunksCarryPath -> constraintsHold (db w) ->
  Forall (fun c => exists_ c = false) olds ->
  In (mkChange p h false) olds ->
  getChunksByFile
    (db (snd (processChanges embed dateNow chunkFile olds w))) p = [].
Proof.
  induction olds as [|c olds IH]; intros w Hpaths Hcons Hall Hin;
    [contradiction|].
  inversion Hall as [|? ? Hc Hrest]; subst.
  rewrite processChanges_cons.
  destruct (processChange_frame c w p Hpaths Hcons) as (H1 & H2 & H3).
  destruct Hin as [->|Hin].
  - apply processChanges_purged; try assumption. now apply H3.
  - now apply IH.
Qed.

Lemma processChanges_app (news olds : list FileChange) w :
  snd (processChanges embed dateNow chunkFile (news ++ olds) w) =
  snd (processChanges embed dateNow chunkFile olds
         (snd (processChanges embed dateNow chunkFile news w))).
Proof.
  revert w. induction news as [|c news IH]; intros w; [reflexivity|].
  cbn [app]. rewrite !processChanges_cons. apply IH.
Qed.

(** X14.  [processChanges] returns whatever happens to the files (a
    failure of the chunker or of [processFile] is caught); it keeps the
    constraints of the schema and leaves the chunks of every file that is
    not among the changes as they are.  The chunker is assumed to give the
    chunks of a file the path of the file. *)
Theorem processChanges_touches_the_changed_files_only
    (changes : list FileChange) (w : World) :
  (forall q cs, chunkFile q = Ok cs ->
     forall c, In c cs -> Chunker.filePath c = q) ->
  constraintsHold (db w) ->
  let run := processChanges embed dateNow chunkFile changes w in
  fst run = Ok tt /\
  constraintsHold (db (snd run)) /\
  forall p, ~ In p (map filePath changes) ->
    getChunksByFile (db (snd run)) p = getChunksByFile (db w) p.
Proof.
  intros Hpaths Hcons. cbv zeta.
  split; [apply processChanges_returns|]. split.
  - now apply processChanges_constraints.
  - intros p Hp. apply (processChanges_frame changes p w Hpaths Hcons).
    apply Forall_forall. intros c Hc E. apply Hp. rewrite <- E.
    now apply in_map.
Qed.

(** X15.  A poll right after a poll, on a file system that has not
    changed, does nothing: the map of the watcher, the database and the
    calls of the embedder are as the first poll left them.  This includes
    the files whose processing has failed in the first poll: they are not
    tried again until their content changes. *)
Theorem processIncremental_twice (directories : list jsstring) (s : Indexer) :
  let poll := processIncremental sep join existsSync readdir readFile
                                 embed dateNow chunkFile directories in
  poll (poll s) = poll s.
Proof.
  cbv zeta.
  assert (Hmap : fileHashes (processIncremental sep join existsSync readdir
                               readFile embed dateNow chunkFile directories s)
                 = snd (scanForChanges sep join existsSync readdir readFile
                                       (fileHashes s) directories)).
  { unfold processIncremental. cbv zeta.
    destruct (fst (scanForChanges _ _ _ _ _ _ _)); reflexivity. }
  unfold processIncremental at 1. cbv zeta. rewrite Hmap.
  rewrite scan_again. cbn [fst snd]. rewrite <- Hmap.
  now destruct (processIncremental _ _ _ _ _ _ _ _ _ _).
Qed.

(** X16.  A poll deletes the chunks of a file that the watcher
    knew and that is no longer found below the scanned directories, and
    the watcher forgets the file.  The store is assumed to satisfy the
    constraints of the schema and the chunker to give the chunks of a file
    the path of the file. *)
Theorem processIncremental_purges_removed_files
    (directories : list jsstring) (s : Indexer) (p h : jsstring) :
  (forall q cs, chunkFile q = Ok cs ->
     forall c, In c cs -> Chunker.filePath c = q) ->
  constraintsHold (db (world s)) ->
  In (p, h) (fileHashes s) ->
  ~ In p (scannedFiles join existsSync readdir directories) ->
  isInScannedDir sep directories p = true ->
  let s' := processIncremental sep join existsSync readdir readFile
                               embed dateNow chunkFile directories s in
  getChunksByFile (db (world s')) p = [] /\
  map_get str_eqb (fileHashes s') p = None.
Proof.
  intros Hpaths Hcons He Hout Hs. cbv zeta.
  destruct (scan_removed_last sep join existsSync readdir readFile
              (fileHashes s) directories p h He Hout Hs)
    as (news & olds & Hchanges & Hnews & Holds & Hin).
  unfold processIncremental. cbv zeta.
  destruct (fst (scanForChanges sep join existsSync readdir readFile
                   (fileHashes s) directories)) as [|c0 l] eqn:E.
  - exfalso. symmetry in Hchanges. apply app_eq_nil in Hchanges.
    destruct Hchanges as [_ ->]. contradiction.
  - cbn [world fileHashes]. split.
    + rewrite Hchanges, processChanges_app.
      destruct (processChanges_frame news p (world s) Hpaths Hcons Hnews)
        as [Hcons1 _].
      now apply (processChanges_purges olds p h).
    + now apply scan_recorded_gone.
Qed.

(** X17.  On a restart, [processInitial] leaves alone a file
    below the scanned directories whose chunks carry the hash of its
    present content: the watcher is seeded from the table, the file is not
    reported, and its chunks are as they were, whatever happens to the
    other files; the watcher ends with the hash of the file.  The store is
    assumed to satisfy the constraints of the schema and the chunker to
    give the chunks of a file the path of the file. *)
Theorem processInitial_skips_unchanged_files
    (directories : list jsstring) (s : Indexer) (p : jsstring) :
  (forall q cs, chunkFile q = Ok cs ->
     forall c, In c cs -> Chunker.filePath c = q) ->
  constraintsHold (db (world s)) ->
  distinctHashes (db (world s)) (selectHashes (db (world s))) ->
  getChunksByFile (db (world s)) p <> [] ->
  (forall r, In r (getChunksByFile (db (world s)) p) ->
     file_hash r = computeHash (readFile p)) ->
  In p (scannedFiles join existsSync readdir directories) ->
  let s' := processInitial sep join existsSync readdir readFile
                           embed dateNow chunkFile selectHashes
                           directories s in
  getChunksByFile (db (world s')) p = getChunksByFile (db (world s)) p /\
  map_get str_eqb (fileHashes s') p = Some (computeHash (readFile p)).
Proof.
  intros Hpaths Hcons Hrows Hne Hall Hp. cbv zeta.
  unfold processInitial. cbv zeta. cbn [world fileHashes].
  set (saved := getLatestFileHashes (selectHashes (db (world s)))).
  set (seeded := match saved with
                 | [] => fileHashes s
                 | _ :: _ => seedFromDB (fileHashes s) saved
                 end).
  assert (Hsaved : map_get str_eqb saved p = Some (computeHash (readFile p))).
  { assert (Hsome : exists r0, In r0 (getChunksByFile (db (world s)) p)).
    { destruct (getChunksByFile (db (world s)) p) as [|r0 l];
        [congruence|]. exists r0. now left. }
    destruct Hsome as [r0 Hr0]. apply existing_of_file in Hr0.
    destruct Hr0 as [Hin0 Hp0].
    apply (latest_hash_of_file (db (world s)) _ p _ r0 Hrows Hin0 Hp0).
    intros r Hr Hrp. apply Hall. apply existing_of_file. now split. }
  assert (Hseeded : map_get str_eqb seeded p
                    = Some (computeHash (readFile p))).
  { unfold seeded. destruct saved as [|e saved'] eqn:Es; [discriminate|].
    rewrite <- Es in *. unfold seedFromDB.
    apply (fill_get_present str_eqb str_eqb_eq fst snd _ _ (p, _)).
    - unfold saved, getLatestFileHashes.
      apply (fill_NoDup str_eqb str_eqb_eq fst snd). constructor.
    - now apply (map_get_In str_eqb str_eqb_eq). }
  split.
  - apply (processChanges_frame _ p (world s) Hpaths Hcons).
    now apply scan_skips.
  - now apply scan_recorded_found.
Qed.

End PollingFacts.

Section PollingExamples.
Import Js Store Watcher Pipeline.

(** A project with one API and one sequence, of which the API was
    indexed; the sequence is new and a third file is gone. *)
Lemma processChanges_touches_the_changed_files_only_witness :
  let bank := lit "/p/apis/bank.xml" in
  let row := Fixtures.rowAt 1 bank 0 2 9 (lit "h-resource") [] in
  let w := mkWorld (mkDB [row] 1 [] 0 []) [] 0 in
  let embed := fun _ : jsstring =>
    Ok [Float32.mkElt x00 x00 x80 x3f; Float32.mkElt xcd xcc x4c xbe] in
  let clock := fun n : nat => Z.of_nat n in
  let chunkFile := fun q : jsstring =>
    Ok [Fixtures.chunkAt q 0 1 7 (lit "h-sequence") (lit "sequence log")] in
  let changes := [mkChange (lit "/p/sequences/shop.xml") (lit "f2") true;
                  mkChange (lit "/p/sequences/old.xml") (lit "f3") false] in
  let run := processChanges embed clock chunkFile changes w in
  fst run = Ok tt /\
  constraintsHold (db (snd run)) /\
  getChunksByFile (db (snd run)) bank = [row] /\
  getChunkCount (db (snd run)) = 2.
Proof.
  intros bank row w embed clock chunkFile changes run.
  assert (Hpaths : forall q cs, chunkFile q = Ok cs ->
            forall c, In c cs -> Chunker.filePath c = q).
  { intros q cs [= <-] c [<-|[]]. reflexivity. }
  assert (Hcons : constraintsHold (db w)).
  { split.
    - repeat constructor. intros [].
    - intros r r' [<-|[]] [<-|[]] _. reflexivity. }
  destruct (processChanges_touches_the_changed_files_only
              embed clock chunkFile changes w Hpaths Hcons)
    as (Hret & Hcons' & Hframe).
  split; [exact Hret|]. split; [exact Hcons'|]. split.
  - transitivity (getChunksByFile (db w) bank); [apply Hframe|reflexivity].
    vm_compute. intros [H|[H|[]]]; discriminate H.
  - vm_compute. reflexivity.
Defined.

(** The watcher knows [old.xml], which is no longer in the directory. *)
Lemma processIncremental_purges_removed_files_witness :
  let old := lit "/p/apis/old.xml" in
  let sep := lit "/" in
  let join := fun dir name : jsstring => dir ++ sep ++ name in
  let readdir := fun _ : jsstring => [File (lit "bank.xml")] in
  let readFile := fun _ : jsstring => lit "<api/>" in
  let embed := fun _ : jsstring =>
    Ok [Float32.mkElt x00 x00 x80 x3f; Float32.mkElt xcd xcc x4c xbe] in
  let clock := fun n : nat => Z.of_nat n in
  let chunkFile := fun q : jsstring =>
    Ok [Fixtures.chunkAt q 0 1 1 (lit "h-api") (lit "api")] in
  let row := Fixtures.rowAt 1 old 0 2 9 (lit "h-resource") [] in
  let s := mkIndexer [(old, lit "h-old")] (mkWorld (mkDB [row] 1 [] 0 []) [] 0) in
  let s' := processIncremental sep join (fun _ => true) readdir readFile
                               embed clock chunkFile [lit "/p/apis"] s in
  getChunksByFile (db (world s')) old = [] /\
  map_get str_eqb (fileHashes s') old = None /\
  length (getChunksByFile (db (world s')) (lit "/p/apis/bank.xml")) = 1%nat.
Proof.
  intros old sep join readdir readFile embed clock chunkFile row s s'.
  assert (Hpaths : forall q cs, chunkFile q = Ok cs ->
            forall c, In c cs -> Chunker.filePath c = q).
  { intros q cs [= <-] c [<-|[]]. reflexivity. }
  assert (Hcons : constraintsHold (db (world s))).
  { split.
    - repeat constructor. intros [].
    - intros r r' [<-|[]] [<-|[]] _. reflexivity. }
  assert (Hout : ~ In old (scannedFiles join (fun _ => true) readdir
                                        [lit "/p/apis"])).
  { vm_compute. intros [H|[]]. discriminate H. }
  destruct (processIncremental_purges_removed_files
              sep join (fun _ => true) readdir readFile embed clock chunkFile
              [lit "/p/apis"] s old (lit "h-old") Hpaths Hcons
              (or_introl eq_refl) Hout eq_refl) as [Hgone Hmap].
  split; [exact Hgone|]. split; [exact Hmap|].
  vm_compute. reflexivity.
Defined.

(** A restart on a project whose only file was indexed with the hash of
    its content: the embedder, which fails, is not called. *)
Lemma processInitial_skips_unchanged_files_witness :
  let bank := lit "/p/apis/bank.xml" in
  let sep := lit "/" in
  let join := fun dir name : jsstring => dir ++ sep ++ name in
  let readdir := fun _ : jsstring => [File (lit "bank.xml")] in
  let readFile := fun _ : jsstring => lit "<api/>" in
  let embed := fun _ : jsstring => @Throw Float32.Float32Array EmbedderError in
  let clock := fun n : nat => Z.of_nat n in
  let chunkFile := fun q : jsstring =>
    Ok [Fixtures.chunkAt q 0 1 1 (lit "h-api") (lit "api")] in
  let row :=
    mkRow 1 bank (computeHash (lit "<api/>")) (lit "Bank") (lit "api")
          (lit "api") 0 1 1 [] None 0 (lit "h-api") (lit "artifact")
          (lit "definition") (lit "{}") None 0 None in
  let s := mkIndexer [] (mkWorld (mkDB [row] 1 [] 0 []) [] 0) in
  let s' := processInitial sep join (fun _ => true) readdir readFile
                           embed clock chunkFile selectDistinctHashes
                           [lit "/p/apis"] s in
  getChunksByFile (db (world s')) bank = [row] /\
  map_get str_eqb (fileHashes s') bank = Some (computeHash (lit "<api/>")).
Proof.
  intros bank sep join readdir readFile embed clock chunkFile row s s'.
  assert (Hpaths : forall q cs, chunkFile q = Ok cs ->
            forall c, In c cs -> Chunker.filePath c = q).
  { intros q cs [= <-] c [<-|[]]. reflexivity. }
  assert (Hcons : constraintsHold (db (world s))).
  { split.
    - repeat constructor. intros [].
    - intros r r' [<-|[]] [<-|[]] _. reflexivity. }
  assert (Hrows : getChunksByFile (db (world s)) bank = [row])
    by reflexivity.
  assert (Hin : In bank (scannedFiles join (fun _ => true) readdir
                                      [lit "/p/apis"])).
  { left. reflexivity. }
  destruct (processInitial_skips_unchanged_files
              sep join (fun _ => true) readdir readFile embed clock chunkFile
              selectDistinctHashes [lit "/p/apis"] s bank Hpaths Hcons
              (selectDistinctHashes_answers _))
    as [Hsame Hmap]; try exact Hin.
  - rewrite Hrows. discriminate.
  - rewrite Hrows. intros r [<-|[]]. reflexivity.
  - split; [|exact Hmap].
    transitivity (getChunksByFile (db (world s)) bank);
      [exact Hsame|reflexivity].
Defined.

End PollingExamples.

(** ** The greedy selection of the reranker *)

Section MmrSelection.
Import Js Store Search.
Local Open Scope Q_scope.
Variable cosineSimilarity :
  Float32.Float32Array -> Float32.Float32Array -> Q.

Local Abbreviation decodes :=
  (fun s : ScoredChunk => exists v, chunkEmbedding (chunk s) = Ok v).

(** The state of the loop over [remaining]: nothing is chosen before the
    first index, and an index once one is seen. *)
Local Abbreviation chosenFrom :=
  (fun (seen : list nat) (acc : result (option nat * option Q)) =>
     match acc with
     | Throw _ => True
     | Ok (Some i, Some _) => In i seen
     | Ok (None, None) => seen = []
     | Ok _ => False
     end).

Lemma maxSimilarity_returns (selected : list ScoredChunk) candidate :
  Forall decodes selected -> decodes candidate ->
  exists m, maxSimilarity cosineSimilarity selected candidate = Ok m.
Proof.
  intros Hsel [v Hv]. unfold maxSimilarity. rewrite Hv. generalize 0.
  induction Hsel as [|s selected [u Hu] _ IH]; intros m0; cbn [fold_left].
  - now exists m0.
  - rewrite Hu. apply IH.
Qed.

Lemma pickBest_chosen candidates selected lambda dflt (remaining : list nat) :
  forall acc seen,
    chosenFrom seen acc ->
    chosenFrom (seen ++ remaining)
      (fold_left
         (fun acc idx =>
            match acc with
            | Throw e => Throw e
            | Ok (bestIdx, bestMmrScore) =>
                let candidate := nth idx candidates dflt in
                let relevance := hybridScore candidate in
                match maxSimilarity cosineSimilarity selected candidate with
                | Throw e => Throw e
                | Ok maxSim =>
                    let mmrScore := lambda * relevance - (1 - lambda) * maxSim in
                    let better := match bestMmrScore with
                                  | None => true
                                  | Some b => Qgtb mmrScore b
                                  end in
                    if better then Ok (Some idx, Some mmrScore)
                    else Ok (bestIdx, bestMmrScore)
                end
            end) remaining acc).
Proof.
  induction remaining as [|x remaining IH]; intros acc seen H;
    cbn [fold_left].
  - now rewrite app_nil_r.
  - replace (seen ++ x :: remaining) with ((seen ++ [x]) ++ remaining)
      by (now rewrite <- app_assoc).
    apply IH. cbv zeta.
    destruct acc as [[[i|] [b|]]|e]; try contradiction; try exact I;
      destruct (maxSimilarity cosineSimilarity selected
                              (nth x candidates dflt)); try exact I.
    + destruct (Qgtb _ b); apply in_or_app; [right; now left|now left].
    + apply in_or_app. right. now left.
Qed.

Lemma pickBest_picks candidates selected lambda remaining dflt b s :
  remaining <> [] ->
  pickBest cosineSimilarity candidates selected lambda remaining dflt
    = Ok (b, s) ->
  exists i, b = Some i /\ In i remaining.
Proof.
  intros Hne Hpick.
  pose proof (pickBest_chosen candidates selected lambda dflt remaining
                (Ok (None, None)) [] eq_refl) as H.
  unfold pickBest in Hpick. cbv zeta in H, Hpick. rewrite Hpick in H.
  cbn [app] in H.
  destruct b as [i|], s as [m|]; try contradiction.
  now exists i.
Qed.

Lemma pickBest_returns candidates selected lambda dflt
    (remaining : list nat) :
  Forall decodes selected ->
  Forall (fun i => decodes (nth i candidates dflt)) remaining ->
  exists r, pickBest cosineSimilarity candidates selected lambda remaining dflt
            = Ok r.
Proof.
  intros Hsel Hrem. unfold pickBest. generalize (@None nat, @None Q).
  induction Hrem as [|x remaining Hx _ IH]; intros acc; cbn [fold_left].
  - now exists acc.
  - destruct acc as [bi bs]. cbv zeta.
    destruct (maxSimilarity_returns selected _ Hsel Hx) as [m ->].
    destruct (match bs with None => true | Some b => Qgtb _ b end);
      apply IH.
Qed.

Lemma filter_out_length (remaining : list nat) b :
  NoDup remaining -> In b remaining ->
  S (length (filter (fun i => negb (Nat.eqb i b)) remaining))
    = length remaining.
Proof.
  induction 1 as [|x remaining Hx Hnd IH]; intros Hin; [contradiction|].
  cbn [filter length]. destruct (Nat.eqb x b) eqn:E; cbn [negb length].
  - apply Nat.eqb_eq in E. subst x. f_equal.
    rewrite filter_all; [reflexivity|].
    intros i Hi. apply negb_true_iff. apply Nat.eqb_neq. congruence.
  - f_equal. apply IH. destruct Hin as [->|Hin]; [|assumption].
    rewrite Nat.eqb_refl in E. discriminate.
Qed.

(** The indexes that the loop picks, in the order of the picks. *)
Lemma mmrLoop_picks candidates lambda dflt : forall steps selected remaining out,
  NoDup remaining ->
  mmrLoop cosineSimilarity steps candidates selected lambda remaining dflt
    = Ok out ->
  exists picked,
    out = selected ++ map (fun i => nth i candidates dflt) picked /\
    NoDup picked /\ incl picked remaining /\
    length picked = Nat.min steps (length remaining).
Proof.
  induction steps as [|steps IH]; intros selected remaining out Hnd Hrun.
  - cbn [mmrLoop] in Hrun. injection Hrun as <-. exists [].
    rewrite app_nil_r. repeat split; [constructor|intros i []].
  - destruct remaining as [|x rem].
    + cbn [mmrLoop] in Hrun. injection Hrun as <-. exists [].
      rewrite app_nil_r. repeat split; [constructor|intros i []].
    + cbn [mmrLoop] in Hrun.
      destruct (pickBest cosineSimilarity candidates selected lambda
                         (x :: rem) dflt) as [[b s]|e] eqn:Epick;
        [|discriminate].
      assert (Hne : x :: rem <> []) by discriminate.
      destruct (pickBest_picks _ _ _ _ _ _ _ Hne Epick) as (i & -> & Hi).
      apply IH in Hrun; [|now apply NoDup_filter].
      destruct Hrun as (picked & -> & Hpnd & Hincl & Hlen).
      exists (i :: picked). split; [|split; [|split]].
      * cbn [map]. now rewrite <- app_assoc.
      * constructor; [|assumption]. intros Hin. apply Hincl in Hin.
        apply filter_In in Hin. destruct Hin as [_ Hin].
        now rewrite Nat.eqb_refl in Hin.
      * intros j [<-|Hj]; [assumption|]. apply Hincl in Hj.
        apply filter_In in Hj. tauto.
      * cbn [length]. rewrite Hlen.
        pose proof (filter_out_length (x :: rem) i Hnd Hi) as Hf.
        cbn [length] in Hf |- *. lia.
Qed.

Lemma mmrLoop_returns candidates lambda dflt :
  forall steps selected remaining,
  Forall decodes selected ->
  Forall (fun i => decodes (nth i candidates dflt)) remaining ->
  exists out,
    mmrLoop cosineSimilarity steps candidates selected lambda remaining dflt
      = Ok out.
Proof.
  induction steps as [|steps IH]; intros selected remaining Hsel Hrem.
  - now exists selected.
  - destruct remaining as [|x rem]; [now exists selected|].
    cbn [mmrLoop].
    destruct (pickBest_returns candidates selected lambda dflt (x :: rem)
                Hsel Hrem) as [[b s] Epick].
    rewrite Epick.
    assert (Hne : x :: rem <> []) by discriminate.
    destruct (pickBest_picks _ _ _ _ _ _ _ Hne Epick) as (i & -> & Hi).
    apply IH.
    + apply Forall_app. split; [assumption|]. constructor; [|constructor].
      rewrite Forall_forall in Hrem. now apply Hrem.
    + rewrite Forall_forall in *. intros j Hj. apply filter_In in Hj.
      apply Hrem. tauto.
Qed.

(** With nothing selected, the first of a list in descending order of
    score wins. *)
Lemma pickBest_first (candidates : list ScoredChunk) first rest lambda n :
  candidates = first :: rest -> 0 <= lambda -> byScoreDesc candidates ->
  exists m,
    pickBest cosineSimilarity candidates [] lambda (seq 0 (S n)) first
      = Ok (Some 0%nat, m).
Proof.
  intros Ec Hl Hs. unfold pickBest. cbn [seq fold_left]. cbv zeta.
  cbn [maxSimilarity fold_left].
  set (s0 := lambda * hybridScore (nth 0 candidates first) - (1 - lambda) * 0).
  exists (Some s0). generalize (seq 1 n).
  induction l as [|i l IH]; cbn [fold_left]; [reflexivity|].
  cbv zeta. cbn [maxSimilarity fold_left].
  replace (Qgtb _ s0) with false; [exact IH|].
  symmetry. unfold Qgtb. apply negb_false_iff. apply Qle_bool_iff.
  unfold s0, Qminus. apply Qplus_le_compat; [|apply Qle_refl].
  rewrite !(Qmult_comm lambda). apply Qmult_le_compat_r; [|assumption].
  assert (E0 : nth 0 candidates first = first) by (now rewrite Ec).
  rewrite E0.
  destruct (nth_in_or_default i candidates first) as [Hin|E];
    [|rewrite E; apply Qle_refl].
  set (c := nth i candidates first) in *.
  rewrite Ec in Hin, Hs. inversion Hs as [|? ? _ Hall]; subst.
  destruct Hin as [<-|Hin]; [apply Qle_refl|].
  rewrite Forall_forall in Hall. now apply Hall.
Qed.

(** The reranker on a list longer than [k]. *)
Lemma mmrRerank_selection
    (candidates : list ScoredChunk) (queryEmbedding : Float32.Float32Array)
    (k : Z) (lambda : Q) :
  (k < Z.of_nat (length candidates))%Z ->
  (forall out,
     mmrRerank cosineSimilarity candidates queryEmbedding k lambda = Ok out ->
     (exists picked : list nat,
        map Some out = map (nth_error candidates) picked /\ NoDup picked) /\
     length out = Z.to_nat k /\
     (0 <= lambda -> byScoreDesc candidates -> (0 < k)%Z ->
      hd_error out = hd_error candidates)) /\
  (Forall (fun s => exists v, chunkEmbedding (chunk s) = Ok v) candidates ->
   exists out,
     mmrRerank cosineSimilarity candidates queryEmbedding k lambda = Ok out).
Proof.
  intros Hk. unfold mmrRerank.
  replace (Z.of_nat (length candidates) <=? k)%Z with false
    by (symmetry; apply Z.leb_gt; exact Hk).
  destruct candidates as [|first rest] eqn:Ec.
  { split.
    - intros out [= <-]. split; [exists []; split; [reflexivity|constructor]|].
      cbn [length] in *. split; [|reflexivity].
      destruct k; try reflexivity; lia.
    - intros _. now exists []. }
  rewrite <- Ec in *. split.
  - intros out Hrun.
    destruct (mmrLoop_picks candidates lambda first (Z.to_nat k) []
                (seq 0 (length candidates)) out
                (seq_NoDup _ _) Hrun)
      as (picked & Hout & Hnd & Hincl & Hlen).
    cbn [app] in Hout. rewrite length_seq in Hlen.
    split; [|split].
    + exists picked. split; [|assumption]. rewrite Hout, map_map.
      apply map_ext_in. intros i Hi. apply Hincl in Hi.
      apply in_seq in Hi. symmetry. apply nth_error_nth'. lia.
    + rewrite Hout, length_map, Hlen. lia.
    + intros Hl Hs Hpos.
      destruct (Z.to_nat k) as [|steps] eqn:Ek; [lia|].
      rewrite Ec in Hrun, Hs |- *. cbn [length seq mmrLoop] in Hrun.
      destruct (pickBest_first (first :: rest) first rest lambda
                  (length rest) eq_refl Hl Hs) as [m Em].
      cbn [seq] in Em. rewrite Em in Hrun. cbn [nth app] in Hrun.
      apply mmrLoop_picks in Hrun.
      * destruct Hrun as (picked' & -> & _). reflexivity.
      * apply NoDup_filter. apply (seq_NoDup (S (length rest)) 0).
  - intros Hdec. apply mmrLoop_returns; [constructor|].
    apply Forall_forall. intros i Hi. apply in_seq in Hi.
    rewrite Forall_forall in Hdec. apply Hdec. apply nth_In. lia.
Qed.

(** X18.  The reranker on a list longer than [k].  When it returns,
    the result consists of [k] candidates taken at pairwise distinct
    positions of the list (none for a negative [k]); for a list in
    descending order of score, a lambda that is not negative and a
    positive [k], the first of them is the first candidate.  It returns
    when the stored embedding of every candidate has a length that is a
    multiple of 4. *)
Theorem mmrRerank_picks_k_distinct_candidates
    (candidates : list ScoredChunk) (queryEmbedding : Float32.Float32Array)
    (k : Z) (lambda : Q) :
  (k < Z.of_nat (length candidates))%Z ->
  (forall out,
     mmrRerank cosineSimilarity candidates queryEmbedding k lambda = Ok out ->
     (exists picked : list nat,
        map Some out = map (nth_error candidates) picked /\ NoDup picked) /\
     length out = Z.to_nat k /\
     (0 <= lambda -> byScoreDesc candidates -> (0 < k)%Z ->
      hd_error out = hd_error candidates)) /\
  (Forall (fun s => exists v, chunkEmbedding (chunk s) = Ok v) candidates ->
   exists out,
     mmrRerank cosineSimilarity candidates queryEmbedding k lambda = Ok out).
Proof.
  intros Hk. split.
  - intros out Hrun.
    now apply (mmrRerank_selection candidates queryEmbedding k lambda Hk).
  - intros Hdec.
    now apply (mmrRerank_selection candidates queryEmbedding k lambda Hk).
Qed.

End MmrSelection.

(** Three candidates in descending order of score, of which two are
    asked for. *)
Lemma mmrRerank_picks_k_distinct_candidates_witness :
  let blob := [x00; x00; x80; x3f] in
  let a := Fixtures.scoredAt
             (Fixtures.rowAt 1 (Js.lit "/p/a.xml") 0 1 9 (Js.lit "h1") blob) 1 1 in
  let b := Fixtures.scoredAt
             (Fixtures.rowAt 2 (Js.lit "/p/b.xml") 0 1 9 (Js.lit "h2") blob)
             (4 # 5) 0 in
  let c := Fixtures.scoredAt
             (Fixtures.rowAt 3 (Js.lit "/p/c.xml") 0 1 9 (Js.lit "h3") blob)
             (1 # 2) 0 in
  (2 < Z.of_nat (length [a; b; c]))%Z /\
  exists out,
    Search.mmrRerank (fun _ _ => 1%Q) [a; b; c] [] 2 Search.MMR_LAMBDA = Ok out /\
    length out = 2%nat /\ hd_error out = Some a.
Proof.
  intros blob a b c.
  assert (Hk : (2 < Z.of_nat (length [a; b; c]))%Z) by (simpl; lia).
  split; [exact Hk|].
  destruct (mmrRerank_picks_k_distinct_candidates
              (fun _ _ => 1%Q) [a; b; c] [] 2 Search.MMR_LAMBDA Hk)
    as [Hshape Hreturns].
  destruct Hreturns as [out Hout].
  { repeat constructor; eexists; reflexivity. }
  exists out. split; [exact Hout|].
  destruct (Hshape out Hout) as (_ & Hlen & Hfirst).
  split; [exact Hlen|]. apply Hfirst.
  - discriminate.
  - repeat constructor; unfold Search.score_ge; simpl; discriminate.
  - lia.
Defined.

(** ** The results of a search *)

Section Ranking.
Import Js Store Search.
Local Open Scope Q_scope.
Variable cosineSimilarity :
  Float32.Float32Array -> Float32.Float32Array -> Q.

(** *** Lists *)

Lemma NoDup_map_filter {A B} (f : A -> B) (g : A -> bool) (l : list A) :
  NoDup (map f l) -> NoDup (map f (filter g l)).
Proof.
  induction l as [|x l IH]; cbn [map filter]; [auto|].
  intros H. inversion H as [|? ? Hx Hnd]; subst.
  destruct (g x); cbn [map]; [|now apply IH].
  constructor; [|now apply IH]. intros Hin. apply Hx.
  apply in_map_iff in Hin. destruct Hin as (y & E & Hy).
  apply filter_In in Hy. apply in_map_iff. exists y. tauto.
Qed.

Lemma NoDup_map_firstn {A B} (f : A -> B) n (l : list A) :
  NoDup (map f l) -> NoDup (map f (firstn n l)).
Proof.
  revert n. induction l as [|x l IH]; intros [|n]; cbn [map firstn];
    try constructor.
  - inversion H as [|? ? Hx Hnd]; subst. intros Hin. apply Hx.
    apply in_map_iff in Hin. destruct Hin as (y & E & Hy).
    apply in_map_iff. exists y. split; [assumption|].
    rewrite <- (firstn_skipn n l). apply in_or_app. now left.
  - apply IH. now inversion H.
Qed.

Lemma StronglySorted_firstn {A} (R : A -> A -> Prop) n (l : list A) :
  StronglySorted R l -> StronglySorted R (firstn n l).
Proof.
  intros Hs. revert n.
  induction Hs as [|y l Hs IH Hy]; intros [|n]; cbn [firstn];
    try constructor.
  - apply IH.
  - rewrite Forall_forall in *. intros e He. apply Hy.
    rewrite <- (firstn_skipn n l). apply in_or_app. now left.
Qed.

Lemma slice0_incl {A} (l : list A) e x : In x (slice0 l e) -> In x l.
Proof.
  unfold slice0. destruct (e <? 0)%Z; intros H;
    match type of H with In _ (firstn ?n _) =>
      rewrite <- (firstn_skipn n l); apply in_or_app; now left end.
Qed.

Lemma slice0_head {A} (l : list A) e :
  (0 < e)%Z -> hd_error (slice0 l e) = hd_error l.
Proof.
  intros He. unfold slice0.
  replace (e <? 0)%Z with false by (symmetry; apply Z.ltb_ge; lia).
  destruct (Z.to_nat e) as [|n] eqn:E; [lia|]. now destruct l.
Qed.

Lemma slice0_length {A} (l : list A) e :
  (0 <= e)%Z -> (Z.of_nat (length (slice0 l e)) <= e)%Z.
Proof.
  intros He. unfold slice0.
  replace (e <? 0)%Z with false by (symmetry; apply Z.ltb_ge; lia).
  pose proof (firstn_le_length (Z.to_nat e) l).
  rewrite length_firstn. lia.
Qed.

Lemma picked_NoDup {A} (l : list A) (picked : list nat) : forall out,
  NoDup l -> NoDup picked ->
  map Some out = map (nth_error l) picked -> NoDup out.
Proof.
  induction picked as [|i picked IH]; intros [|s out] Hl Hp E;
    try discriminate; [constructor|].
  cbn [map] in E. injection E as Ei E. inversion Hp as [|? ? Hi Hp']; subst.
  constructor; [|now apply IH].
  intros Hin. apply Hi.
  assert (Hs : In (Some s) (map (nth_error l) picked))
    by (rewrite <- E; now apply in_map).
  apply in_map_iff in Hs. destruct Hs as (j & Ej & Hj).
  replace i with j; [assumption|].
  apply (proj1 (NoDup_nth_error l) Hl); [|congruence].
  apply nth_error_Some. congruence.
Qed.

Lemma picked_incl {A} (l : list A) (picked : list nat) out x :
  map Some out = map (nth_error l) picked -> In x out -> In x l.
Proof.
  intros E Hin.
  assert (Hs : In (Some x) (map (nth_error l) picked))
    by (rewrite <- E; now apply in_map).
  apply in_map_iff in Hs. destruct Hs as (j & Ej & _).
  now apply nth_error_In in Ej.
Qed.

(** *** The steps of the ranking *)

Lemma insertDesc_perm x l : Permutation (insertDesc x l) (x :: l).
Proof.
  induction l as [|y l IH]; cbn [insertDesc]; [reflexivity|].
  destruct (Qle_bool (hybridScore y) (hybridScore x)); [reflexivity|].
  rewrite IH. apply perm_swap.
Qed.

Lemma sortDesc_perm l : Permutation (sortDesc l) l.
Proof.
  induction l as [|x l IH]; cbn [sortDesc fold_right]; [reflexivity|].
  fold (sortDesc l). rewrite insertDesc_perm. now constructor.
Qed.

(** The list that comes back when the list is longer than [k] or not. *)
Lemma mmrRerank_picked (candidates : list ScoredChunk) queryEmbedding k lambda
    out :
  mmrRerank cosineSimilarity candidates queryEmbedding k lambda = Ok out ->
  exists picked : list nat,
    map Some out = map (nth_error candidates) picked /\ NoDup picked.
Proof.
  intros Hrun.
  destruct (Z.of_nat (length candidates) <=? k)%Z eqn:E.
  - unfold mmrRerank in Hrun. rewrite E in Hrun. injection Hrun as <-.
    exists (seq 0 (length candidates)). split; [|apply seq_NoDup].
    clear E. induction candidates as [|c l IH]; [reflexivity|].
    cbn [map length seq nth_error]. f_equal.
    rewrite <- seq_shift, map_map. exact IH.
  - apply Z.leb_gt in E.
    now apply (mmrRerank_selection cosineSimilarity candidates
                 queryEmbedding k lambda E).
Qed.

Lemma mmrRerank_head (candidates : list ScoredChunk) queryEmbedding k lambda
    out :
  0 <= lambda -> byScoreDesc candidates -> (0 < k)%Z ->
  mmrRerank cosineSimilarity candidates queryEmbedding k lambda = Ok out ->
  hd_error out = hd_error candidates.
Proof.
  intros Hl Hs Hk Hrun.
  destruct (Z.of_nat (length candidates) <=? k)%Z eqn:E.
  - unfold mmrRerank in Hrun. rewrite E in Hrun. now injection Hrun as <-.
  - apply Z.leb_gt in E.
    now apply (mmrRerank_selection cosineSimilarity candidates
                 queryEmbedding k lambda E).
Qed.

Lemma mmrRerank_nothing (candidates : list ScoredChunk) queryEmbedding k
    lambda out :
  (k <= 0)%Z ->
  mmrRerank cosineSimilarity candidates queryEmbedding k lambda = Ok out ->
  deduplicateOverlapping out = [] \/ (k = 0)%Z.
Proof.
  intros Hk Hrun.
  destruct (Z.of_nat (length candidates) <=? k)%Z eqn:E.
  - right. apply Z.leb_le in E. lia.
  - left. apply Z.leb_gt in E.
    destruct (mmrRerank_selection cosineSimilarity candidates
                queryEmbedding k lambda E) as [H _].
    destruct (H out Hrun) as (_ & Hlen & _).
    replace (Z.to_nat k) with 0%nat in Hlen by lia.
    destruct out; [reflexivity|discriminate].
Qed.

Lemma mmrRerank_returns (candidates : list ScoredChunk) queryEmbedding k
    lambda :
  Forall (fun s => exists v, chunkEmbedding (chunk s) = Ok v) candidates ->
  exists out,
    mmrRerank cosineSimilarity candidates queryEmbedding k lambda = Ok out.
Proof.
  intros Hdec.
  destruct (Z.of_nat (length candidates) <=? k)%Z eqn:E.
  - exists candidates. unfold mmrRerank. now rewrite E.
  - apply Z.leb_gt in E.
    now apply (mmrRerank_selection cosineSimilarity candidates
                 queryEmbedding k lambda E).
Qed.

(** *** Deduplication *)

Lemma dedup_fixed (l : list ScoredChunk) : forall kept,
  StronglySorted disjointFrom (kept ++ l) ->
  fold_left dedupStep l kept = kept ++ l.
Proof.
  induction l as [|c l IH]; intros kept Hs; cbn [fold_left].
  - now rewrite app_nil_r.
  - assert (E : existsb (fun existing => dominates existing c) kept = false).
    { match goal with |- ?b = false => destruct b eqn:E end; [|reflexivity].
      apply existsb_exists in E. destruct E as (e & He & Hd).
      pose proof (StronglySorted_before disjointFrom kept l c Hs e He) as H.
      unfold disjointFrom in H. congruence. }
    unfold dedupStep at 2. rewrite E.
    rewrite IH; rewrite <- app_assoc; [reflexivity|exact Hs].
Qed.

Lemma dedup_head (l : list ScoredChunk) :
  hd_error (deduplicateOverlapping l) = hd_error l.
Proof.
  destruct l as [|c l]; [reflexivity|].
  unfold deduplicateOverlapping. cbn [fold_left].
  destruct (dedup_extends l (dedupStep [] c)) as [more ->]. reflexivity.
Qed.

Lemma dedup_NoDup {B} (f : ScoredChunk -> B) (l : list ScoredChunk) :
  forall kept,
    NoDup (map f (kept ++ l)) -> NoDup (map f (fold_left dedupStep l kept)).
Proof.
  induction l as [|c l IH]; intros kept H; cbn [fold_left].
  - now rewrite app_nil_r in H.
  - apply IH. unfold dedupStep.
    destruct (existsb (fun existing => dominates existing c) kept).
    + rewrite map_app in *. cbn [map] in H.
      now apply NoDup_remove_1 in H.
    + now rewrite <- app_assoc.
Qed.

(** X19.  Overlap deduplication is idempotent; it returns a list
    in which no element is dominated by an earlier one as it is, it always
    keeps the first candidate, and it never returns more than it is
    given. *)
Theorem deduplicateOverlapping_is_idempotent (results : list ScoredChunk) :
  deduplicateOverlapping (deduplicateOverlapping results)
    = deduplicateOverlapping results /\
  (StronglySorted disjointFrom results ->
   deduplicateOverlapping results = results) /\
  hd_error (deduplicateOverlapping results) = hd_error results /\
  (length (deduplicateOverlapping results) <= length results)%nat.
Proof.
  assert (Hfix : forall l, StronglySorted disjointFrom l ->
                           deduplicateOverlapping l = l).
  { intros l Hs. unfold deduplicateOverlapping. now rewrite dedup_fixed. }
  split; [|split; [|split]].
  - apply Hfix. apply dedup_disjoint. constructor.
  - apply Hfix.
  - apply dedup_head.
  - unfold deduplicateOverlapping.
    assert (H : forall l kept,
              (length (fold_left dedupStep l kept)
               <= length kept + length l)%nat).
    { induction l as [|c l IH]; intros kept; cbn [fold_left length]; [lia|].
      specialize (IH (dedupStep kept c)). unfold dedupStep in *.
      destruct (existsb _ kept); [lia|].
      rewrite length_app in IH. cbn [length] in IH. lia. }
    apply (H results []).
Qed.

(** *** Scoring *)

Lemma scoreChunk_chunk queryEmbedding bm25 c s :
  scoreChunk cosineSimilarity queryEmbedding bm25 c = Ok s -> chunk s = c.
Proof.
  unfold scoreChunk. destruct (chunkEmbedding c); [|discriminate].
  now intros [= <-].
Qed.

Lemma scoreAll_each queryEmbedding bm25 (cs : list ChunkRecord) :
  forall scored,
    scoreAll cosineSimilarity queryEmbedding bm25 cs = Ok scored ->
    Forall2 (fun c s => scoreChunk cosineSimilarity queryEmbedding bm25 c = Ok s)
            cs scored.
Proof.
  induction cs as [|c cs IH]; intros scored; cbn [scoreAll].
  - intros [= <-]. constructor.
  - destruct (scoreChunk cosineSimilarity queryEmbedding bm25 c) as [s|e] eqn:E;
      [|discriminate].
    destruct (scoreAll cosineSimilarity queryEmbedding bm25 cs) as [l|e];
      [|discriminate].
    intros [= <-]. constructor; [assumption|now apply IH].
Qed.

Lemma scoreAll_chunks queryEmbedding bm25 (cs : list ChunkRecord) scored :
  scoreAll cosineSimilarity queryEmbedding bm25 cs = Ok scored ->
  map chunk scored = cs.
Proof.
  intros H. apply scoreAll_each in H.
  induction H as [|c s cs scored Hs _ IH]; [reflexivity|].
  cbn [map]. rewrite IH. f_equal. now apply scoreChunk_chunk in Hs.
Qed.

Lemma scoreAll_In queryEmbedding bm25 (cs : list ChunkRecord) scored s :
  scoreAll cosineSimilarity queryEmbedding bm25 cs = Ok scored ->
  In s scored <->
  In (chunk s) cs /\
  scoreChunk cosineSimilarity queryEmbedding bm25 (chunk s) = Ok s.
Proof.
  intros H. apply scoreAll_each in H.
  induction H as [|c s' cs scored Hs _ IH]; [simpl; tauto|].
  cbn [In]. rewrite IH. pose proof (scoreChunk_chunk _ _ _ _ Hs) as Hc.
  split.
  - intros [->|[H1 H2]]; [|tauto]. rewrite Hc. auto.
  - intros [[->|H1] H2]; [|tauto]. left. congruence.
Qed.

Lemma scoreAll_returns queryEmbedding bm25 (cs : list ChunkRecord) :
  Forall (fun c => exists v, chunkEmbedding c = Ok v) cs ->
  exists scored, scoreAll cosineSimilarity queryEmbedding bm25 cs = Ok scored.
Proof.
  induction 1 as [|c cs [v Hv] _ [scored IH]]; cbn [scoreAll].
  - now exists [].
  - unfold scoreChunk. rewrite Hv, IH. eexists. reflexivity.
Qed.

(** The scored chunks that pass the threshold and the type filter. *)
Local Abbreviation eligible score_threshold semantic_type_filter scored :=
  (match orNull semantic_type_filter with
   | Some t =>
       filter (fun s => str_eqb (semantic_type (chunk s)) t)
         (filter (fun s => Qle_bool
                             (nullish score_threshold DEFAULT_SCORE_THRESHOLD)
                             (hybridScore s)) scored)
   | None =>
       filter (fun s => Qle_bool
                          (nullish score_threshold DEFAULT_SCORE_THRESHOLD)
                          (hybridScore s)) scored
   end).

Lemma eligible_In score_threshold semantic_type_filter scored s :
  In s (eligible score_threshold semantic_type_filter scored) <->
  In s scored /\
  nullish score_threshold DEFAULT_SCORE_THRESHOLD <= hybridScore s /\
  (forall t, orNull semantic_type_filter = Some t ->
             semantic_type (chunk s) = t).
Proof.
  destruct (orNull semantic_type_filter) as [t|].
  - rewrite !filter_In, Qle_bool_iff, str_eqb_eq. split.
    + intros [[H1 H2] H3]. repeat split; auto. now intros t' [= <-].
    + intros (H1 & H2 & H3). auto.
  - rewrite filter_In, Qle_bool_iff. split.
    + intros [H1 H2]. repeat split; auto. discriminate.
    + tauto.
Qed.

Lemma eligible_NoDup {B} (f : ScoredChunk -> B) score_threshold
    semantic_type_filter scored :
  NoDup (map f scored) ->
  NoDup (map f (eligible score_threshold semantic_type_filter scored)).
Proof.
  intros H. destruct (orNull semantic_type_filter);
    repeat apply NoDup_map_filter; exact H.
Qed.

Lemma rankChunks_inv allChunks queryEmbedding bm25 query top_k
    score_threshold semantic_type_filter out :
  rankChunks cosineSimilarity allChunks queryEmbedding bm25 query top_k
             score_threshold semantic_type_filter = Ok out ->
  exists scored reranked,
    scoreAll cosineSimilarity queryEmbedding bm25 allChunks = Ok scored /\
    mmrRerank cosineSimilarity
      (slice0 (sortDesc (eligible score_threshold semantic_type_filter scored))
              (effectiveK query top_k * 3))
      queryEmbedding (effectiveK query top_k) MMR_LAMBDA = Ok reranked /\
    out = slice0 (deduplicateOverlapping reranked) (effectiveK query top_k).
Proof.
  unfold rankChunks. cbv zeta.
  destruct (scoreAll cosineSimilarity queryEmbedding bm25 allChunks)
    as [scored|e]; [|discriminate].
  destruct (mmrRerank _ _ _ _ _) as [reranked|e] eqn:E; [|discriminate].
  intros [= <-]. exists scored, reranked. repeat split. exact E.
Qed.

Lemma effectiveK_capped query top_k : (effectiveK query top_k <= MAX_TOP_K)%Z.
Proof.
  unfold effectiveK, adaptiveTopK, cappedTopK, MAX_TOP_K. cbv zeta.
  destruct (_ <=? 2)%Z; [lia|]. destruct (_ <=? 5)%Z; lia.
Qed.

(** X20.  The results of a search (steps 4 to 11 of the execute
    function).  Every result is the score record of a chunk of the table,
    with a hybrid score at or above the threshold and with the semantic
    type asked for, if one is; there are at most [effectiveK] results
    (none when it is negative), and [effectiveK] is at most 50; no result
    is dominated by an earlier one; and no chunk is returned twice when
    the ids of the table are distinct.  The ranking returns when the
    stored embedding of every chunk has a length that is a multiple of
    4. *)
Theorem rankChunks_results_pass_the_filters
    (allChunks : list ChunkRecord) (queryEmbedding : Float32.Float32Array)
    (bm25 : list (Z * Q)) (query : jsstring) (top_k : option Z)
    (score_threshold : option Q) (semantic_type_filter : option jsstring) :
  (forall out,
     rankChunks cosineSimilarity allChunks queryEmbedding bm25 query top_k
                score_threshold semantic_type_filter = Ok out ->
     (forall s, In s out ->
        In (chunk s) allChunks /\
        scoreChunk cosineSimilarity queryEmbedding bm25 (chunk s) = Ok s /\
        nullish score_threshold DEFAULT_SCORE_THRESHOLD <= hybridScore s /\
        (forall t, orNull semantic_type_filter = Some t ->
                   semantic_type (chunk s) = t)) /\
     (Z.of_nat (length out) <= Z.max 0 (effectiveK query top_k))%Z /\
     (effectiveK query top_k <= MAX_TOP_K)%Z /\
     StronglySorted disjointFrom out /\
     (NoDup (map id allChunks) -> NoDup (map (fun s => id (chunk s)) out))) /\
  (Forall (fun c => exists v, chunkEmbedding c = Ok v) allChunks ->
   exists out,
     rankChunks cosineSimilarity allChunks queryEmbedding bm25 query top_k
                score_threshold semantic_type_filter = Ok out).
Proof.
  split.
  - intros out Hrun. apply rankChunks_inv in Hrun.
    destruct Hrun as (scored & reranked & Hscored & Hmmr & ->).
    set (k := effectiveK query top_k) in *.
    set (pool := eligible score_threshold semantic_type_filter scored) in *.
    destruct (mmrRerank_picked _ _ _ _ _ Hmmr) as (picked & Hpicked & Hnd).
    split; [|split; [|split; [|split]]].
    + intros s Hs. apply slice0_incl in Hs.
      destruct (dedup_subset reranked [] s Hs) as [[]|Hin].
      apply (picked_incl _ _ _ _ Hpicked) in Hin. apply slice0_incl in Hin.
      apply (Permutation_in _ (sortDesc_perm pool)) in Hin.
      apply eligible_In in Hin. destruct Hin as (Hin & Ht & Hty).
      apply (scoreAll_In _ _ _ _ s Hscored) in Hin. tauto.
    + destruct (Z_lt_le_dec 0 k) as [Hk|Hk].
      * pose proof (slice0_length (deduplicateOverlapping reranked) k). lia.
      * destruct (mmrRerank_nothing _ _ _ _ _ Hk Hmmr) as [->| ->].
        -- unfold slice0. destruct (k <? 0)%Z; rewrite firstn_nil; cbn; lia.
        -- cbn. lia.
    + apply effectiveK_capped.
    + unfold slice0. destruct (k <? 0)%Z; apply StronglySorted_firstn;
        apply dedup_disjoint; constructor.
    + intros Hids.
      assert (Hpool : NoDup (map (fun s => id (chunk s)) pool)).
      { apply eligible_NoDup. rewrite <- (map_map chunk id).
        now rewrite (scoreAll_chunks _ _ _ _ Hscored). }
      assert (Hcand : NoDup (map (fun s => id (chunk s))
                               (slice0 (sortDesc pool) (k * 3)))).
      { unfold slice0. destruct (k * 3 <? 0)%Z; apply NoDup_map_firstn;
          apply (Permutation_NoDup
                   (Permutation_map _ (Permutation_sym (sortDesc_perm pool))));
          exact Hpool. }
      assert (Hre : NoDup (map (fun s => id (chunk s)) reranked)).
      { apply (picked_NoDup _ picked _ Hcand Hnd).
        transitivity (map (option_map (fun s => id (chunk s)))
                          (map Some reranked)).
        { now rewrite !map_map. }
        rewrite Hpicked, map_map. apply map_ext. intros i.
        symmetry. apply nth_error_map. }
      unfold slice0. destruct (k <? 0)%Z; apply NoDup_map_firstn;
        apply dedup_NoDup; exact Hre.
  - intros Hdec. unfold rankChunks. cbv zeta.
    destruct (scoreAll_returns queryEmbedding bm25 allChunks Hdec)
      as [scored Hscored].
    rewrite Hscored.
    set (pool := eligible score_threshold semantic_type_filter scored).
    destruct (mmrRerank_returns
                (slice0 (sortDesc pool) (effectiveK query top_k * 3))
                queryEmbedding (effectiveK query top_k) MMR_LAMBDA)
      as [reranked Hre].
    + apply Forall_forall. intros s Hs. apply slice0_incl in Hs.
      apply (Permutation_in _ (sortDesc_perm pool)) in Hs.
      apply eligible_In in Hs. destruct Hs as (Hs & _).
      apply (scoreAll_In _ _ _ _ s Hscored) in Hs. destruct Hs as [Hs _].
      rewrite Forall_forall in Hdec. now apply Hdec.
    + rewrite Hre. eexists. reflexivity.
Qed.

(** X21.  The first result of a search has the highest hybrid score
    among the chunks that pass the threshold and the type filter, and
    there is a result as soon as a chunk passes them and [effectiveK] is
    positive: reranking and deduplication never remove the best
    candidate. *)
Theorem rankChunks_best_comes_first
    (allChunks : list ChunkRecord) (queryEmbedding : Float32.Float32Array)
    (bm25 : list (Z * Q)) (query : jsstring) (top_k : option Z)
    (score_threshold : option Q) (semantic_type_filter : option jsstring)
    (out : list ScoredChunk) :
  rankChunks cosineSimilarity allChunks queryEmbedding bm25 query top_k
             score_threshold semantic_type_filter = Ok out ->
  let passes := fun s : ScoredChunk =>
    In (chunk s) allChunks /\
    scoreChunk cosineSimilarity queryEmbedding bm25 (chunk s) = Ok s /\
    nullish score_threshold DEFAULT_SCORE_THRESHOLD <= hybridScore s /\
    (forall t, orNull semantic_type_filter = Some t ->
               semantic_type (chunk s) = t) in
  (forall best, hd_error out = Some best ->
     forall s, passes s -> hybridScore s <= hybridScore best) /\
  (forall s, passes s -> (0 < effectiveK query top_k)%Z -> out <> []).
Proof.
  intros Hrun. cbv zeta. apply rankChunks_inv in Hrun.
  destruct Hrun as (scored & reranked & Hscored & Hmmr & ->).
  set (k := effectiveK query top_k) in *.
  set (pool := eligible score_threshold semantic_type_filter scored) in *.
  assert (Hpass : forall s,
            In (chunk s) allChunks /\
            scoreChunk cosineSimilarity queryEmbedding bm25 (chunk s) = Ok s /\
            nullish score_threshold DEFAULT_SCORE_THRESHOLD <= hybridScore s /\
            (forall t, orNull semantic_type_filter = Some t ->
                       semantic_type (chunk s) = t) ->
            In s (sortDesc pool)).
  { intros s (H1 & H2 & H3 & H4).
    apply (Permutation_in _ (Permutation_sym (sortDesc_perm pool))).
    apply eligible_In. split; [|now split].
    apply (scoreAll_In _ _ _ _ s Hscored). now split. }
  assert (Hhead : (0 < k)%Z ->
            hd_error (slice0 (deduplicateOverlapping reranked) k)
            = hd_error (sortDesc pool)).
  { intros Hk. rewrite slice0_head, dedup_head by assumption.
    assert (Hl : 0 <= MMR_LAMBDA) by discriminate.
    rewrite (mmrRerank_head _ _ _ _ _ Hl
               (slice0_sorted _ _ (sortDesc_sorted pool)) Hk Hmmr).
    apply slice0_head. lia. }
  split.
  - intros best Hbest s Hs.
    destruct (Z_lt_le_dec 0 k) as [Hk|Hk].
    + rewrite (Hhead Hk) in Hbest. apply Hpass in Hs.
      pose proof (sortDesc_sorted pool) as Hsorted.
      destruct (sortDesc pool) as [|top rest]; [discriminate|].
      injection Hbest as ->. inversion Hsorted as [|? ? _ Hall]; subst.
      destruct Hs as [->|Hs]; [apply Qle_refl|].
      rewrite Forall_forall in Hall. now apply Hall.
    + exfalso.
      destruct (mmrRerank_nothing _ _ _ _ _ Hk Hmmr) as [E|E].
      * rewrite E in Hbest. unfold slice0 in Hbest.
        destruct (k <? 0)%Z; rewrite firstn_nil in Hbest; discriminate.
      * rewrite E in Hbest. discriminate.
  - intros s Hs Hk E. apply Hpass in Hs.
    pose proof (Hhead Hk) as H. rewrite E in H.
    destruct (sortDesc pool); [contradiction|discriminate].
Qed.

End Ranking.

Section RankingExamples.
Import Js Store Search.
Local Open Scope Q_scope.

(** Two chunks with a well-formed embedding, of which the first matches
    the keywords of the query. *)
Lemma rankChunks_results_pass_the_filters_witness :
  let blob := [x00; x00; x80; x3f] in
  let r1 := Fixtures.rowAt 1 (lit "/p/a.xml") 0 1 9 (lit "h1") blob in
  let r2 := Fixtures.rowAt 2 (lit "/p/b.xml") 0 1 9 (lit "h2") blob in
  let bm25 := [(1%Z, 1)] in
  exists out,
    rankChunks (fun _ _ => 1) [r1; r2] [] bm25 (lit "log mediator")
               None None None = Ok out /\
    (Z.of_nat (length out) <= 8)%Z /\
    NoDup (map (fun s => id (chunk s)) out) /\
    forall s, In s out -> 25 # 100 <= hybridScore s.
Proof.
  intros blob r1 r2 bm25.
  destruct (rankChunks_results_pass_the_filters
              (fun _ _ => 1) [r1; r2] [] bm25 (lit "log mediator")
              None None None) as [Hsound Hreturns].
  destruct Hreturns as [out Hout].
  { repeat constructor; eexists; reflexivity. }
  exists out. split; [exact Hout|].
  destruct (Hsound out Hout) as (Heach & Hlen & _ & _ & Hids).
  split; [exact Hlen|]. split.
  - apply Hids. repeat constructor; simpl; intuition discriminate.
  - intros s Hs. now apply Heach.
Defined.

Lemma rankChunks_best_comes_first_witness :
  let blob := [x00; x00; x80; x3f] in
  let r1 := Fixtures.rowAt 1 (lit "/p/a.xml") 0 1 9 (lit "h1") blob in
  let r2 := Fixtures.rowAt 2 (lit "/p/b.xml") 0 1 9 (lit "h2") blob in
  let bm25 := [(2%Z, 1)] in
  let best := Fixtures.scoredAt r2 1 1 in
  let out := [best; Fixtures.scoredAt r1 1 0] in
  rankChunks (fun _ _ => 1) [r1; r2] [] bm25 (lit "log mediator")
             None None None = Ok out /\
  forall s, In (chunk s) [r1; r2] ->
    scoreChunk (fun _ _ => 1) [] bm25 (chunk s) = Ok s ->
    25 # 100 <= hybridScore s ->
    hybridScore s <= hybridScore best.
Proof.
  intros blob r1 r2 bm25 best out.
  assert (Hrun : rankChunks (fun _ _ => 1) [r1; r2] [] bm25
                            (lit "log mediator") None None None = Ok out)
    by (vm_compute; reflexivity).
  split; [exact Hrun|].
  destruct (rankChunks_best_comes_first
              (fun _ _ => 1) [r1; r2] [] bm25 (lit "log mediator")
              None None None out Hrun) as [Hbest _].
  intros s H1 H2 H3. apply (Hbest best eq_refl s).
  repeat split; try assumption. discriminate.
Defined.

End RankingExamples.

(** ** The range of an element *)

Section ElementRange.
Import Js Chunker.

Lemma lookBack_bounds (indexes : list Z) (lines : list jsstring) (lo hi : Z) :
  forall newStart,
    Forall (fun i => 0 <= i < Z.of_nat (length lines) /\ lo <= i + 1 <= hi)
           indexes ->
    lo <= newStart <= hi ->
    exists n, lookBack indexes lines newStart = Some n /\ lo <= n <= hi.
Proof.
  induction indexes as [|i indexes IH]; intros newStart Hall Hns; simpl.
  - now exists newStart.
  - inversion Hall as [|? ? [Hi Hb] Hrest]; subst.
    destruct (nth_error lines (Z.to_nat i)) as [raw|] eqn:E.
    + destruct (simpleOpeningTag (trim raw)); [now apply IH|].
      destruct (stopsExpansion (trim raw)); [now exists newStart|].
      now apply IH.
    + apply nth_error_None in E. lia.
Qed.

Lemma lookForward_bounds (indexes : list Z) (lines : list jsstring)
    (lo hi : Z) :
  forall toClose closed newEnd,
    Forall (fun i => 0 <= i < Z.of_nat (length lines) /\ lo <= i + 1 <= hi)
           indexes ->
    lo <= newEnd <= hi ->
    exists n, lookForward indexes lines toClose closed newEnd = Some n
              /\ lo <= n <= hi.
Proof.
  induction indexes as [|i indexes IH]; intros toClose closed newEnd Hall Hne;
    simpl.
  - now exists newEnd.
  - inversion Hall as [|? ? [Hi Hb] Hrest]; subst.
    destruct (nth_error lines (Z.to_nat i)) as [raw|] eqn:E.
    + destruct (simpleClosingTag (trim raw)).
      * destruct (toClose <=? closed + 1); [now exists (i + 1)|].
        now apply IH.
      * destruct (stopsExpansion (trim raw)); [now exists newEnd|].
        now apply IH.
    + apply nth_error_None in E. lia.
Qed.

(** The expansion never fails on a range of the file; it adds at most
    four lines before the range and ten after it. *)
Lemma expand_bounds (lines : list jsstring) (startLine endLine : Z) :
  1 <= startLine <= endLine ->
  startLine <= Z.max 1 (Z.of_nat (length lines)) ->
  exists r,
    expandRangeForStructuralWrappers startLine endLine lines = Some r /\
    1 <= start r <= startLine /\ startLine - 4 <= start r /\
    endLine <= end_ r <= endLine + 10 /\
    end_ r <= Z.max endLine (Z.of_nat (length lines)).
Proof.
  intros Hrange Hlen. unfold expandRangeForStructuralWrappers.
  assert (Hback : exists n,
            (if 1 <? startLine
             then lookBack (lookBackIndexes startLine) lines startLine
             else Some startLine) = Some n /\
            Z.max 1 (startLine - 4) <= n <= startLine).
  { destruct (1 <? startLine) eqn:E.
    - apply Z.ltb_lt in E. apply lookBack_bounds; [|lia].
      unfold lookBackIndexes. apply Forall_forall.
      intros i Hin. apply filter_In in Hin. destruct Hin as [Hin Hpos].
      apply Z.leb_le in Hpos. simpl in Hin. lia.
    - apply Z.ltb_ge in E. exists startLine. split; [reflexivity|lia]. }
  destruct Hback as (n & -> & Hn).
  destruct ((n <? startLine) && (endLine <? Z.of_nat (length lines)))
    eqn:Hcond.
  - apply andb_true_iff in Hcond as [_ Hlt]. apply Z.ltb_lt in Hlt.
    destruct (lookForward_bounds (lookForwardIndexes endLine lines) lines
                endLine (Z.min (endLine + 10) (Z.of_nat (length lines)))
                (startLine - n) 0 endLine) as (m & -> & Hm).
    + unfold lookForwardIndexes. apply Forall_forall.
      intros i Hin. apply filter_In in Hin. destruct Hin as [Hin Hi].
      apply Z.ltb_lt in Hi. apply in_map_iff in Hin.
      destruct Hin as (d & <- & Hd). apply in_seq in Hd. lia.
    + lia.
    + eexists. split; [reflexivity|]. cbn [start end_]. lia.
  - eexists. split; [reflexivity|]. cbn [start end_]. lia.
Qed.

(** The line on which the scan for the closing tag stops. *)
Lemma scanClose_bounds tagName (lines : list jsstring) : forall depth i,
  scanClose tagName depth i lines = -1 \/
  (i < scanClose tagName depth i lines <= i + Z.of_nat (length lines)) .
Proof.
  induction lines as [|line lines IH]; intros depth i; cbn [scanClose];
    [now left|].
  cbv zeta. cbn [length]. rewrite Nat2Z.inj_succ.
  destruct (testClose tagName line).
  - destruct (_ - 1 =? 0); [right; lia|].
    destruct (IH ((if testNestedOpen tagName line
                      && negb (includes line selfClosingMark)
                   then depth + 1 else depth) - 1) (i + 1)) as [->|H];
      [now left|right; lia].
  - destruct (IH (if testNestedOpen tagName line
                     && negb (includes line selfClosingMark)
                  then depth + 1 else depth) (i + 1)) as [->|H];
      [now left|right; lia].
Qed.

(** The scan from the cursor: nothing found, or the first line on which
    the tag opens and the end of the element. *)
Lemma scanOpen_bounds tagName (lines : list jsstring) : forall i,
  0 <= i ->
  let found := scanOpen tagName i lines in
  (found = (-1, -1) /\
   forall line, In line lines -> testOpen tagName line = false) \/
  (i < fst found <= i + Z.of_nat (length lines) /\
   (snd found = -1 \/
    fst found <= snd found <= i + Z.of_nat (length lines)) /\
   exists line,
     nth_error lines (Z.to_nat (fst found - 1 - i)) = Some line /\
     testOpen tagName line = true /\
     forall j, (j < Z.to_nat (fst found - 1 - i))%nat ->
       forall l, nth_error lines j = Some l -> testOpen tagName l = false).
Proof.
  induction lines as [|line lines IH]; intros i Hi; cbv zeta;
    cbn [scanOpen].
  - left. split; [reflexivity|intros line []].
  - cbn [length]. rewrite Nat2Z.inj_succ.
    destruct (testOpen tagName line) eqn:Eopen.
    + right.
      destruct (includes line selfClosingMark).
      * cbn [fst snd]. split; [lia|]. split; [right; lia|].
        exists line. replace (i + 1 - 1 - i) with 0 by lia.
        split; [reflexivity|]. split; [assumption|]. intros j Hj. lia.
      * cbn [fst snd]. split; [lia|]. split.
        -- destruct (scanClose_bounds tagName lines 1 (i + 1)) as [->|H];
             [now left|right; lia].
        -- exists line. replace (i + 1 - 1 - i) with 0 by lia.
           split; [reflexivity|]. split; [assumption|]. intros j Hj. lia.
    + destruct (IH (i + 1) ltac:(lia)) as [[-> Hnone]|(H1 & H2 & Hline)].
      * left. split; [reflexivity|].
        intros l [<-|Hl]; [assumption|now apply Hnone].
      * right. split; [lia|]. split; [destruct H2; [now left|right; lia]|].
        destruct Hline as (l & Hl & Ho & Hfirst).
        set (found := scanOpen tagName (i + 1) lines) in *.
        replace (Z.to_nat (fst found - 1 - i))
          with (S (Z.to_nat (fst found - 1 - (i + 1)))) by lia.
        exists l. split; [exact Hl|]. split; [exact Ho|].
        intros [|j] Hj l' Hl'.
        -- cbn [nth_error] in Hl'. now injection Hl' as <-.
        -- cbn [nth_error] in Hl'. apply (Hfirst j); [lia|assumption].
Qed.

(** X22.  For a tag name that the patterns take literally and a cursor
    that is not negative, [findElementRange] returns (the patterns are
    well formed, and the lines that it reads in the look-back and
    look-forward loops exist).  The range begins at line 1 or later and contains the
    located range; it begins at most four lines before it and ends at
    most ten lines after it, and not after the last line of the file.  The
    cursor does not move backwards: it stays where it is when no line from
    the cursor on opens the tag, and the range is then the one of line 1;
    otherwise it moves to the line on which the tag opens, which is the
    start of the located range. *)
Theorem findElementRange_returns_a_range
    (tagName resourceName : jsstring) (lines : list jsstring)
    (lastSearchPosition : Z) :
  literalName tagName = true ->
  0 <= lastSearchPosition ->
  exists range cursor,
    findElementRange tagName resourceName lines lastSearchPosition
      = Some (range, cursor) /\
    let located := fst (locate tagName lastSearchPosition lines) in
    1 <= start range <= start located /\
    start located <= end_ located <= end_ range /\
    start located - 4 <= start range /\
    end_ range <= end_ located + 10 /\
    end_ range <= Z.max 1 (Z.of_nat (length lines)) /\
    lastSearchPosition <= cursor /\
    (cursor = lastSearchPosition ->
     located = mkRange 1 1 /\
     forall i line, lastSearchPosition <= Z.of_nat i ->
       nth_error lines i = Some line -> testOpen tagName line = false) /\
    (lastSearchPosition < cursor ->
     start located = cursor /\ cursor <= Z.of_nat (length lines) /\
     exists line,
       nth_error lines (Z.to_nat (cursor - 1)) = Some line /\
       testOpen tagName line = true).
Proof.
  intros _ Hpos. unfold findElementRange. cbv zeta.
  pose proof (scanOpen_bounds tagName
                (skipn (Z.to_nat lastSearchPosition) lines)
                lastSearchPosition Hpos) as Hscan.
  cbv zeta in Hscan. unfold locate. cbv zeta.
  set (found := scanOpen tagName lastSearchPosition
                  (skipn (Z.to_nat lastSearchPosition) lines)) in *.
  cbn [fst snd start end_].
  assert (Hskip : lastSearchPosition
                  + Z.of_nat (length (skipn (Z.to_nat lastSearchPosition) lines))
                  <= Z.max lastSearchPosition (Z.of_nat (length lines))).
  { rewrite length_skipn. lia. }
  destruct Hscan as [[Hnone Hno]|(H1 & H2 & Hline)].
  - rewrite Hnone. cbn [fst snd]. rewrite !Z.eqb_refl.
    destruct (expand_bounds lines 1 1) as (r & -> & Hr); [lia|lia|].
    exists r, lastSearchPosition. split; [reflexivity|].
    repeat split; try lia.
    + intros i line Hi Hl. apply Hno.
      replace i with (Z.to_nat lastSearchPosition
                      + (i - Z.to_nat lastSearchPosition))%nat in Hl by lia.
      rewrite <- nth_error_skipn in Hl. now apply nth_error_In in Hl.
  - replace (fst found =? -1) with false
      by (symmetry; apply Z.eqb_neq; lia).
    set (endLine := if snd found =? -1 then fst found else snd found).
    assert (Hend : fst found <= endLine
                   <= Z.max (fst found) (lastSearchPosition
                        + Z.of_nat (length (skipn (Z.to_nat lastSearchPosition)
                                                  lines)))).
    { unfold endLine. destruct (snd found =? -1) eqn:E; [lia|].
      apply Z.eqb_neq in E. destruct H2; lia. }
    destruct (expand_bounds lines (fst found) endLine) as (r & -> & Hr);
      [lia|lia|].
    exists r, (fst found). split; [reflexivity|].
    repeat split; try lia.
    + destruct Hline as (line & Hl & Ho & _). exists line.
      split; [|assumption]. rewrite nth_error_skipn in Hl.
      replace (Z.to_nat (fst found - 1)) with
        (Z.to_nat lastSearchPosition
         + Z.to_nat (fst found - 1 - lastSearchPosition))%nat by lia.
      exact Hl.
Qed.

End ElementRange.

(** A filter with a wrapped mediator, searched from the top. *)
Lemma findElementRange_returns_a_range_witness :
  let lines := [Js.lit "<filter xpath='//a'>"; Js.lit "  <then>";
                Js.lit "    <drop/>"; Js.lit "  </then>";
                Js.lit "</filter>"] in
  Chunker.literalName (Js.lit "drop") = true /\
  0 <= 0 /\
  exists range cursor,
    Chunker.findElementRange (Js.lit "drop") (Js.lit "r") lines 0
      = Some (range, cursor) /\
    1 <= Chunker.start range <= cursor /\ cursor <= Chunker.end_ range <= 5 /\
    cursor = 3.
Proof.
  intros lines. split; [reflexivity|]. split; [lia|].
  destruct (findElementRange_returns_a_range
              (Js.lit "drop") (Js.lit "r") lines 0 eq_refl ltac:(lia))
    as (range & cursor & Hrun & Hrange).
  exists range, cursor. split; [exact Hrun|].
  cbv zeta in Hrange.
  destruct Hrange as (H1 & H2 & _ & _ & H5 & _ & _ & _).
  assert (E : Chunker.findElementRange (Js.lit "drop") (Js.lit "r") lines 0
              = Some (Chunker.mkRange 2 4, 3)) by (vm_compute; reflexivity).
  rewrite E in Hrun. injection Hrun as <- <-.
  change (Z.of_nat (length lines)) with 5 in H5.
  cbn [Chunker.start Chunker.end_] in *. lia.
Defined.

(** ** The lines of a file and the content of a chunk *)

Section Content.
Import Js Chunker.

Local Abbreviation newline := 10%N.

Lemma splitLines_nonempty (s : jsstring) : forall acc, splitLines acc s <> [].
Proof.
  induction s as [|c s IH]; intros acc; cbn [splitLines]; [discriminate|].
  destruct (c =? newline)%N; [discriminate|apply IH].
Qed.

Lemma join_cons (sep x : jsstring) (l : list jsstring) :
  l <> [] -> Json.join sep (x :: l) = x ++ sep ++ Json.join sep l.
Proof. destruct l; [contradiction|reflexivity]. Qed.

Lemma join_splitLines (s : jsstring) : forall acc,
  Json.join [newline] (splitLines acc s) = rev acc ++ s.
Proof.
  induction s as [|c s IH]; intros acc; cbn [splitLines].
  - cbn [Json.join]. now rewrite app_nil_r.
  - destruct (c =? newline)%N eqn:E.
    + apply N.eqb_eq in E. subst c.
      rewrite join_cons by apply splitLines_nonempty.
      now rewrite IH.
    + rewrite IH. cbn [rev]. now rewrite <- app_assoc.
Qed.

Lemma splitLines_app (a s : jsstring) : forall acc,
  ~ In newline a -> splitLines acc (a ++ s) = splitLines (rev a ++ acc) s.
Proof.
  induction a as [|c a IH]; intros acc Hno; [reflexivity|].
  cbn [app splitLines].
  replace (c =? newline)%N with false.
  - rewrite IH by (intros H; apply Hno; now right).
    cbn [rev]. now rewrite <- app_assoc.
  - symmetry. apply N.eqb_neq. intros ->. apply Hno. now left.
Qed.

Lemma splitLines_join (lines : list jsstring) : forall first acc,
  Forall (fun l => ~ In newline l) (first :: lines) ->
  splitLines acc (Json.join [newline] (first :: lines))
    = (rev acc ++ first) :: lines.
Proof.
  induction lines as [|l lines IH]; intros first acc Hall;
    inversion Hall as [|? ? Hfirst Hrest]; subst.
  - cbn [Json.join]. rewrite <- (app_nil_r first) at 1.
    rewrite splitLines_app by assumption. cbn [splitLines].
    now rewrite rev_app_distr, rev_involutive.
  - rewrite join_cons by discriminate.
    rewrite splitLines_app by assumption. cbn [app splitLines].
    rewrite N.eqb_refl, rev_app_distr, rev_involutive. f_equal.
    now apply (IH l []).
Qed.

Lemma split_join (lines : list jsstring) :
  lines <> [] -> Forall (fun l => ~ In newline l) lines ->
  split_newline (Json.join [newline] lines) = lines.
Proof.
  intros Hne Hall. destruct lines as [|l ls]; [contradiction|].
  apply (splitLines_join ls l [] Hall).
Qed.

Lemma splitLines_lines (s : jsstring) : forall acc,
  ~ In newline acc ->
  Forall (fun l => ~ In newline l) (splitLines acc s).
Proof.
  induction s as [|c s IH]; intros acc Hacc; cbn [splitLines].
  - constructor; [|constructor]. now rewrite <- in_rev.
  - destruct (c =? newline)%N eqn:E.
    + constructor; [now rewrite <- in_rev|]. apply IH. intros [].
    + apply IH. intros [->|H]; [|contradiction].
      now rewrite N.eqb_refl in E.
Qed.

Lemma slice_range {A} (lines : list A) (first last : Z) :
  1 <= first <= last -> last <= Z.of_nat (length lines) ->
  slice lines (first - 1) last =
  firstn (Z.to_nat (last - first + 1)) (skipn (Z.to_nat (first - 1)) lines) /\
  length (slice lines (first - 1) last) = Z.to_nat (last - first + 1).
Proof.
  intros Hr Hlen. unfold slice. cbv zeta.
  replace (first - 1 <? 0) with false by (symmetry; apply Z.ltb_ge; lia).
  replace (last <? 0) with false by (symmetry; apply Z.ltb_ge; lia).
  rewrite !Z.min_l by lia.
  replace (last - (first - 1)) with (last - first + 1) by lia.
  split; [reflexivity|]. rewrite length_firstn, length_skipn. lia.
Qed.

(** X23.  [extractContent] and [split] round trip.  For a range
    with [1 <= start <= end] that ends in the text, the content of the
    range splits into exactly the lines of the range:
    it has [end - start + 1] lines, the lines [start] to [end] of the text;
    and the content of the range of all lines is the text. *)
Theorem extractContent_has_the_lines_of_the_range
    (xmlContent : jsstring) (range : LineRange) :
  let lines := split_newline xmlContent in
  1 <= start range <= end_ range ->
  end_ range <= Z.of_nat (length lines) ->
  split_newline (extractContent lines range)
    = slice lines (start range - 1) (end_ range) /\
  length (split_newline (extractContent lines range))
    = Z.to_nat (end_ range - start range + 1) /\
  (forall i, (i < Z.to_nat (end_ range - start range + 1))%nat ->
     nth_error (split_newline (extractContent lines range)) i
     = nth_error lines (Z.to_nat (start range - 1) + i)) /\
  extractContent lines (mkRange 1 (Z.of_nat (length lines))) = xmlContent.
Proof.
  cbv zeta. intros Hr Hlen.
  set (lines := split_newline xmlContent) in *.
  destruct (slice_range lines (start range) (end_ range) Hr Hlen)
    as [Hslice Hcount].
  assert (Hsplit : split_newline (extractContent lines range)
                   = slice lines (start range - 1) (end_ range)).
  { unfold extractContent. apply split_join.
    - intros E. rewrite E in Hcount. cbn [length] in Hcount. lia.
    - apply Forall_forall. intros x Hx.
      assert (Hin : In x lines).
      { rewrite Hslice in Hx.
        rewrite <- (firstn_skipn (Z.to_nat (start range - 1)) lines).
        apply in_or_app. right.
        rewrite <- (firstn_skipn (Z.to_nat (end_ range - start range + 1))
                      (skipn (Z.to_nat (start range - 1)) lines)).
        apply in_or_app. now left. }
      pose proof (splitLines_lines xmlContent [] (fun H => H)) as Hall.
      rewrite Forall_forall in Hall. now apply Hall. }
  split; [exact Hsplit|]. split; [now rewrite Hsplit|]. split.
  - intros i Hi. rewrite Hsplit, Hslice.
    rewrite nth_error_firstn.
    replace (i <? Z.to_nat (end_ range - start range + 1))%nat with true
      by (symmetry; apply Nat.ltb_lt; exact Hi).
    apply nth_error_skipn.
  - unfold extractContent. cbn [start end_].
    destruct (slice_range lines 1 (Z.of_nat (length lines))) as [-> _].
    + pose proof (splitLines_nonempty xmlContent []) as Hne.
      fold (split_newline xmlContent) in Hne. fold lines in Hne.
      destruct lines; [contradiction|]. cbn [length]. lia.
    + lia.
    + cbn [skipn Z.to_nat].
      replace (Z.to_nat (Z.of_nat (length lines) - 1 + 1))
        with (length lines) by lia.
      rewrite firstn_all. unfold lines, split_newline.
      apply (join_splitLines xmlContent []).
Qed.

Lemma extractContent_has_the_lines_of_the_range_witness :
  let xmlContent :=
    [60; 97; 62; 10; 60; 98; 47; 62; 10; 60; 47; 97; 62]%N in
  1 <= 2 <= 3 /\
  length (split_newline (extractContent (split_newline xmlContent)
                                        (mkRange 2 3))) = 2%nat /\
  extractContent (split_newline xmlContent) (mkRange 1 3) = xmlContent.
Proof.
  intros xmlContent.
  assert (Hr : 1 <= 2 <= 3) by lia.
  split; [exact Hr|].
  destruct (extractContent_has_the_lines_of_the_range xmlContent
              (mkRange 2 3) Hr) as (_ & Hcount & _ & Hall).
  - vm_compute. discriminate.
  - split; [exact Hcount|exact Hall].
Defined.

End Content.

(** ** Merkle trees *)

Section MerkleTrees.
Import Js Merkle.

(** *** The order of strings *)

Lemma str_ltb_irrefl (a : jsstring) : str_ltb a a = false.
Proof.
  induction a as [|x a IH]; [reflexivity|]. cbn [str_ltb].
  now rewrite N.ltb_irrefl, N.eqb_refl, IH.
Qed.

Lemma str_ltb_trans (a : jsstring) : forall b c,
  str_ltb a b = true -> str_ltb b c = true -> str_ltb a c = true.
Proof.
  induction a as [|x a IH]; intros [|y b] [|z c]; cbn [str_ltb];
    try discriminate; try reflexivity.
  intros H1 H2.
  apply orb_true_iff in H1. apply orb_true_iff in H2. apply orb_true_iff.
  destruct H1 as [H1|H1]; destruct H2 as [H2|H2];
    rewrite ?andb_true_iff, ?N.ltb_lt, ?N.eqb_eq in *.
  - left. lia.
  - left. lia.
  - left. lia.
  - right. split; [lia|]. now apply (IH b c).
Qed.

Lemma str_ltb_total (a : jsstring) : forall b,
  str_ltb a b = false -> str_ltb b a = false -> a = b.
Proof.
  induction a as [|x a IH]; intros [|y b]; cbn [str_ltb];
    try discriminate; [reflexivity|].
  intros H1 H2.
  apply orb_false_iff in H1. apply orb_false_iff in H2.
  destruct H1 as [H1 H1'], H2 as [H2 H2'].
  apply N.ltb_ge in H1, H2. assert (x = y) by lia. subst y.
  rewrite N.eqb_refl in H1', H2'. cbn [andb] in *.
  f_equal. now apply IH.
Qed.

(** [a <= b]: [b] is not before [a]. *)
Local Abbreviation str_le := (fun a b : jsstring => str_ltb b a = false).

Lemma str_le_trans (a b c : jsstring) : str_le a b -> str_le b c -> str_le a c.
Proof.
  cbv beta. intros H1 H2.
  destruct (str_ltb c a) eqn:E; [|reflexivity].
  destruct (str_ltb a b) eqn:Eab.
  - rewrite (str_ltb_trans c a b E Eab) in H2. discriminate.
  - rewrite (str_ltb_total a b Eab H1) in E. congruence.
Qed.

Lemma str_ltb_le (a b : jsstring) : str_ltb a b = true -> str_le a b.
Proof.
  cbv beta. intros H. destruct (str_ltb b a) eqn:E; [|reflexivity].
  pose proof (str_ltb_trans a b a H E) as Hirr.
  now rewrite str_ltb_irrefl in Hirr.
Qed.

(** *** [sort] *)

Lemma insertSorted_perm x (l : list jsstring) :
  Permutation (insertSorted x l) (x :: l).
Proof.
  induction l as [|y l IH]; cbn [insertSorted]; [reflexivity|].
  destruct (str_ltb y x); [|reflexivity].
  rewrite IH. apply perm_swap.
Qed.

Lemma sortStrings_perm (l : list jsstring) : Permutation (sortStrings l) l.
Proof.
  induction l as [|x l IH]; cbn [sortStrings fold_right]; [reflexivity|].
  fold (sortStrings l). rewrite insertSorted_perm. now constructor.
Qed.

Lemma insertSorted_sorted x (l : list jsstring) :
  StronglySorted str_le l -> StronglySorted str_le (insertSorted x l).
Proof.
  induction 1 as [|y l Hs IH Hy]; cbn [insertSorted].
  - repeat constructor.
  - destruct (str_ltb y x) eqn:E.
    + constructor; [assumption|].
      apply Forall_forall. intros z Hz.
      apply (Permutation_in _ (insertSorted_perm x l)) in Hz.
      destruct Hz as [<-|Hz]; [now apply str_ltb_le|].
      rewrite Forall_forall in Hy. now apply Hy.
    + constructor; [now constructor|].
      constructor; [exact E|].
      rewrite Forall_forall in *. intros z Hz.
      apply (str_le_trans x y z); [exact E|now apply Hy].
Qed.

Lemma sortStrings_sorted (l : list jsstring) :
  StronglySorted str_le (sortStrings l).
Proof.
  induction l as [|x l IH]; cbn [sortStrings fold_right]; [constructor|].
  now apply insertSorted_sorted.
Qed.

Lemma sorted_unique (l : list jsstring) : forall l',
  StronglySorted str_le l -> StronglySorted str_le l' ->
  Permutation l l' -> l = l'.
Proof.
  induction l as [|a l IH]; intros l' Hs Hs' Hp.
  - apply Permutation_nil in Hp. now subst.
  - destruct l' as [|b l'].
    + apply Permutation_sym, Permutation_nil in Hp. discriminate.
    + inversion Hs as [|? ? Hs1 Ha]; inversion Hs' as [|? ? Hs1' Hb]; subst.
      assert (E : a = b).
      { assert (Hb' : In b (a :: l))
          by (apply (Permutation_in _ (Permutation_sym Hp)); now left).
        assert (Ha' : In a (b :: l'))
          by (apply (Permutation_in _ Hp); now left).
        rewrite Forall_forall in Ha, Hb.
        destruct Hb' as [E|Hb']; [assumption|].
        destruct Ha' as [E|Ha']; [now symmetry|].
        apply str_ltb_total; [now apply Hb|now apply Ha]. }
      subst b. f_equal. apply IH; try assumption.
      now apply Permutation_cons_inv in Hp.
Qed.

Lemma sortStrings_canonical (l l' : list jsstring) :
  Permutation l l' -> sortStrings l = sortStrings l'.
Proof.
  intros Hp. apply sorted_unique; try apply sortStrings_sorted.
  rewrite (sortStrings_perm l), Hp. symmetry. apply sortStrings_perm.
Qed.

(** X24.  [computeNodeHash] throws exactly for a node without
    children; otherwise the hash has the format of a hash, and it depends
    on the hashes of the children only, not on their order. *)
Theorem computeNodeHash_ignores_the_order (children : list Tree) :
  (computeNodeHash children = None <-> children = []) /\
  (forall h, computeNodeHash children = Some h ->
     length h = 64%nat /\
     Forall (fun c => (48 <= c <= 57)%N \/ (97 <= c <= 102)%N) h) /\
  (forall children',
     Permutation (map hashOf children) (map hashOf children') ->
     computeNodeHash children' = computeNodeHash children).
Proof.
  split; [|split].
  - destruct children; cbn [computeNodeHash]; split;
      try reflexivity; discriminate.
  - intros h. destruct children as [|c children]; cbn [computeNodeHash];
      [discriminate|]. cbv zeta. intros [= <-]. unfold sha256Hex.
    split; apply hex_digest_format.
  - intros children' Hp.
    destruct children as [|c children], children' as [|c' children'].
    + reflexivity.
    + apply Permutation_nil in Hp. discriminate.
    + apply Permutation_sym, Permutation_nil in Hp. discriminate.
    + cbn [computeNodeHash]. cbv zeta.
      now rewrite (sortStrings_canonical _ _ Hp).
Qed.

(** *** Changed leaves *)

Lemma Tree_ind_nested (P : Tree -> Prop) :
  (forall chunkId contentHash embedding metadata,
     P (Leaf chunkId contentHash embedding metadata)) ->
  (forall hash level children label,
     Forall P children -> P (Node hash level children label)) ->
  forall tree, P tree.
Proof.
  intros Hl Hn. fix IH 1. intros [i h e m|h lv children lb].
  - apply Hl.
  - apply Hn. induction children as [|c children IHc]; constructor.
    + apply IH.
    + exact IHc.
Qed.

Lemma collectAllLeaves_leaves (tree : Tree) :
  Forall (fun l => exists i h e m, l = Leaf i h e m) (collectAllLeaves tree).
Proof.
  induction tree as [i h e m|h lv children lb IH] using Tree_ind_nested;
    cbn [collectAllLeaves].
  - constructor; [|constructor]. now exists i, h, e, m.
  - apply Forall_forall. intros l Hl. apply in_flat_map in Hl.
    destruct Hl as (c & Hc & Hl). rewrite Forall_forall in IH.
    specialize (IH c Hc). rewrite Forall_forall in IH. now apply IH.
Qed.

Lemma findChangedLeaves_incl (newTree : Tree) : forall oldTree l,
  In l (findChangedLeaves oldTree newTree) -> In l (collectAllLeaves newTree).
Proof.
  induction newTree as [i h e m|h lv children lb IH] using Tree_ind_nested;
    intros [[i' h' e' m'|h' lv' children' lb']|] l Hl;
    cbn [findChangedLeaves] in Hl; try exact Hl.
  - destruct (str_eqb h' h); [contradiction|exact Hl].
  - destruct (str_eqb h' h); [contradiction|]. cbv zeta in Hl.
    cbn [collectAllLeaves]. apply in_flat_map in Hl.
    destruct Hl as (c & Hc & Hl). apply in_flat_map. exists c.
    split; [assumption|]. rewrite Forall_forall in IH.
    exact (IH c Hc _ l Hl).
Qed.

(** X25.  [findChangedLeaves] reports leaves of the new tree only:
    all of them when there is no old tree; none when the old root is of
    the same kind as the new one and carries the same hash, in particular
    when the tree is compared with itself; the new leaf itself when both
    are leaves with different content hashes. *)
Theorem findChangedLeaves_reports_leaves_of_the_new_tree
    (oldTree : option Tree) (newTree : Tree) :
  (forall l, In l (findChangedLeaves oldTree newTree) ->
     In l (collectAllLeaves newTree) /\ exists i h e m, l = Leaf i h e m) /\
  findChangedLeaves None newTree = collectAllLeaves newTree /\
  findChangedLeaves (Some newTree) newTree = [] /\
  (forall i h e m i' e' m',
     newTree = Leaf i h e m ->
     findChangedLeaves (Some (Leaf i' h e' m')) newTree = []) /\
  (forall h lv children lb lv' children' lb',
     newTree = Node h lv children lb ->
     findChangedLeaves (Some (Node h lv' children' lb')) newTree = []) /\
  (forall i h e m, newTree = Leaf i h e m ->
     forall i' h' e' m', h' <> h ->
       findChangedLeaves (Some (Leaf i' h' e' m')) newTree = [newTree]).
Proof.
  split; [|split; [|split; [|split; [|split]]]].
  - intros l Hl. apply findChangedLeaves_incl in Hl. split; [exact Hl|].
    pose proof (collectAllLeaves_leaves newTree) as Hall.
    rewrite Forall_forall in Hall. now apply Hall.
  - destruct newTree; reflexivity.
  - destruct newTree; cbn [findChangedLeaves]; now rewrite str_eqb_refl.
  - intros i h e m i' e' m' ->. cbn [findChangedLeaves].
    now rewrite str_eqb_refl.
  - intros h lv children lb lv' children' lb' ->. cbn [findChangedLeaves].
    now rewrite str_eqb_refl.
  - intros i h e m -> i' h' e' m' Hne. cbn [findChangedLeaves].
    replace (str_eqb h' h) with false; [reflexivity|].
    symmetry. now apply str_eqb_neq.
Qed.

End MerkleTrees.

(** ** Stored embeddings *)

Section StoredEmbeddings.
Import Float32.

Lemma buffer_length (v : Float32Array) :
  length (buffer v) = (4 * length v)%nat.
Proof.
  induction v as [|e v IH]; [reflexivity|].
  cbn [buffer flat_map length app]. fold (buffer v). rewrite IH. lia.
Qed.

Lemma fromBuffer_ragged (n : nat) : forall bytes,
  (length bytes <= n)%nat ->
  fromBuffer bytes = None -> (length bytes mod 4 <> 0)%nat.
Proof.
  induction n as [|n IH]; intros bytes Hlen H.
  - destruct bytes; [discriminate|simpl in Hlen; lia].
  - destruct bytes as [|x0 [|x1 [|x2 [|x3 rest]]]]; try discriminate;
      try (cbn; lia).
    cbn [fromBuffer] in H.
    destruct (fromBuffer rest) as [v|] eqn:E; [discriminate|].
    cbn [length] in *.
    assert (Hrest : (length rest mod 4 <> 0)%nat)
      by (apply IH; [lia|assumption]).
    replace (S (S (S (S (length rest))))) with (length rest + 1 * 4)%nat
      by lia.
    now rewrite Nat.Div0.mod_add.
Qed.

(** X26.  A stored blob is read back as a [Float32Array] exactly when
    its length is a multiple of 4; the array then has a quarter of the
    length and the bytes of the blob.  Hence the search and the reuse of an
    embedding in the pipeline throw a [RangeError] exactly on a blob whose
    length is not a multiple of 4. *)
Theorem fromBuffer_needs_whole_floats (bytes : list byte) :
  (fromBuffer bytes = None <-> (length bytes mod 4 <> 0)%nat) /\
  (forall v, fromBuffer bytes = Some v ->
     buffer v = bytes /\ (4 * length v = length bytes)%nat) /\
  (forall c, Store.embedding c = bytes ->
     (Search.chunkEmbedding c = Throw RangeError <->
      (length bytes mod 4 <> 0)%nat) /\
     (Pipeline.reusedEmbedding c = Throw RangeError <->
      (length bytes mod 4 <> 0)%nat)).
Proof.
  assert (Hnone : fromBuffer bytes = None <-> (length bytes mod 4 <> 0)%nat).
  { split.
    - apply (fromBuffer_ragged (length bytes)). lia.
    - intros Hmod. destruct (fromBuffer bytes) as [v|] eqn:E; [|reflexivity].
      apply buffer_fromBuffer in E. rewrite <- E, buffer_length in Hmod.
      rewrite Nat.mul_comm, Nat.Div0.mod_mul in Hmod. contradiction. }
  split; [exact Hnone|]. split.
  - intros v H. apply buffer_fromBuffer in H. split; [exact H|].
    now rewrite <- H, buffer_length.
  - intros c <-. unfold Search.chunkEmbedding, Pipeline.reusedEmbedding.
    rewrite <- Hnone.
    destruct (fromBuffer (Store.embedding c)); split; split;
      congruence.
Qed.

End StoredEmbeddings.
